(** * Curves and particle systems of hemi (public/js/hemi/curve.js)

    A shallow embedding of the Curve, Particle, ParticleCurveSystem,
    GpuParticleCurveSystem and GpuParticleTrail classes, and the properties
    of them that the specification states.

    Numbers.  A JavaScript number is modelled by [num]: an exact rational,
    or one of +Infinity, -Infinity, NaN.  Arithmetic on finite values is
    exact (rounding is not modelled) and there is one zero (the sign of a
    zero is not modelled: a division of a nonzero finite number by zero
    takes the sign of the dividend).  Comparisons with NaN are false. *)

From stdpp Require Import base option list gmap.
From Stdlib Require Import QArith Qcanon Qround Lqa ZArith Lia.

Local Open Scope Q_scope.

(* ===================================================================== *)
(** * JavaScript numbers                                                  *)
(* ===================================================================== *)

Module JS.

Inductive num : Type :=
  | Fin (q : Q)
  | PInf
  | NInf
  | NaN.

(** Sign of a rational: -1, 0 or 1. *)
Definition Qsgn (q : Q) : Z := Z.sgn (Qnum q).

(** The infinity of a given sign; a zero sign gives NaN (0 * Infinity). *)
Definition inf_of_sign (s : Z) : num :=
  match s with
  | Z0 => NaN
  | Zpos _ => PInf
  | Zneg _ => NInf
  end.

(** Sign of a number that is not NaN. *)
Definition nsgn (a : num) : Z :=
  match a with
  | Fin q => Qsgn q
  | PInf => 1%Z
  | NInf => (-1)%Z
  | NaN => 0%Z
  end.

Definition is_zero (q : Q) : bool := (Qnum q =? 0)%Z.

(** Unary minus. *)
Definition nneg (a : num) : num :=
  match a with
  | Fin q => Fin (- q)
  | PInf => NInf
  | NInf => PInf
  | NaN => NaN
  end.

(** [a + b] *)
Definition nadd (a b : num) : num :=
  match a, b with
  | NaN, _ | _, NaN => NaN
  | Fin x, Fin y => Fin (x + y)
  | PInf, NInf | NInf, PInf => NaN
  | PInf, _ | _, PInf => PInf
  | NInf, _ | _, NInf => NInf
  end.

(** [a - b] *)
Definition nsub (a b : num) : num := nadd a (nneg b).

(** [a * b] *)
Definition nmul (a b : num) : num :=
  match a, b with
  | NaN, _ | _, NaN => NaN
  | Fin x, Fin y => Fin (x * y)
  | _, _ => inf_of_sign (nsgn a * nsgn b)
  end.

(** [a / b] *)
Definition ndiv (a b : num) : num :=
  match a, b with
  | NaN, _ | _, NaN => NaN
  | Fin x, Fin y => if is_zero y then inf_of_sign (Qsgn x) else Fin (x / y)
  | Fin _, _ => Fin 0
  | _, Fin y => inf_of_sign (nsgn a * (if is_zero y then 1 else Qsgn y))
  | _, _ => NaN
  end.

Definition Qlt_bool (x y : Q) : bool := negb (Qle_bool y x).

(** [a < b] *)
Definition nlt (a b : num) : bool :=
  match a, b with
  | NaN, _ | _, NaN => false
  | Fin x, Fin y => Qlt_bool x y
  | NInf, NInf => false
  | NInf, _ => true
  | _, PInf => match a with PInf => false | _ => true end
  | _, _ => false
  end.

(** [a <= b] *)
Definition nle (a b : num) : bool :=
  match a, b with
  | NaN, _ | _, NaN => false
  | Fin x, Fin y => Qle_bool x y
  | NInf, _ => true
  | _, PInf => true
  | _, _ => false
  end.

(** [a > b] and [a >= b] *)
Definition ngt (a b : num) : bool := nlt b a.
Definition nge (a b : num) : bool := nle b a.

(** [a === b] on numbers *)
Definition nseq (a b : num) : bool :=
  match a, b with
  | Fin x, Fin y => Qeq_bool x y
  | PInf, PInf | NInf, NInf => true
  | _, _ => false
  end.

(** Truthiness of a number: 0 and NaN are falsy. *)
Definition truthy (a : num) : bool :=
  match a with
  | Fin q => negb (is_zero q)
  | NaN => false
  | _ => true
  end.

(** [a || b] on numbers *)
Definition nor (a b : num) : num := if truthy a then a else b.

(** [Math.floor] and [Math.ceil] *)
Definition floor (a : num) : num :=
  match a with
  | Fin q => Fin (inject_Z (Qfloor q))
  | _ => a
  end.

Definition ceil (a : num) : num :=
  match a with
  | Fin q => Fin (inject_Z (Qceiling q))
  | _ => a
  end.

(** [Math.pow a n] for a natural exponent: [pow a 0] is 1 for every [a]
    (NaN included), and a positive power is the repeated product. *)
Fixpoint pow (a : num) (n : nat) : num :=
  match n with
  | O => Fin 1
  | S k => nmul a (pow a k)
  end.

Definition of_nat (n : nat) : num := Fin (inject_Z (Z.of_nat n)).
Definition of_Z (z : Z) : num := Fin (inject_Z z).

(** An array index: a number that is a natural number. *)
Definition index_of (a : num) : option nat :=
  match a with
  | Fin q =>
      let r := Qred q in
      if ((Qden r =? 1)%positive && (0 <=? Qnum r)%Z)%bool
      then Some (Z.to_nat (Qnum r)) else None
  | _ => None
  end.

(** Reading [arr[i]] from an array of numbers where the result is used in
    arithmetic: a missing element is [undefined], which arithmetic turns
    into NaN. *)
Definition aget (arr : list num) (i : num) : num :=
  match index_of i with
  | Some k => default NaN (arr !! k)
  | None => NaN
  end.

(** Writing [arr[i] = v] for [i <= arr.length]: replaces the element or
    appends it.  (The loops of this file write the indices in increasing
    order from 0, so no hole is ever created.) *)
Definition aset {A} (arr : list A) (i : nat) (v : A) : list A :=
  if (i <? length arr)%nat then <[i := v]> arr else arr ++ [v].

(** Numeric equality of two numbers: the rationals are compared by [==]. *)
Definition num_eq (a b : num) : Prop :=
  match a, b with
  | Fin x, Fin y => x == y
  | PInf, PInf | NInf, NInf | NaN, NaN => True
  | _, _ => False
  end.

Definition finite (a : num) : Prop :=
  match a with Fin _ => True | _ => False end.

End JS.

Import JS.

Declare Scope num_scope.
Delimit Scope num_scope with num.
Bind Scope num_scope with num.
Infix "+" := nadd : num_scope.
Infix "-" := nsub : num_scope.
Infix "*" := nmul : num_scope.
Infix "/" := ndiv : num_scope.
Infix "=~" := num_eq (at level 70, no associativity).

(** A point of space, as the triple of its coordinates. *)
Definition point : Type := (num * num * num)%type.

Definition point_eq (p q : point) : Prop :=
  p.1.1 =~ q.1.1 /\ p.1.2 =~ q.1.2 /\ p.2 =~ q.2.

Definition Fin3 (p : Q * Q * Q) : point := (Fin p.1.1, Fin p.1.2, Fin p.2).

(** [for (i = lo; i < hi; i++) body] on a state [S]. *)
Definition for_range {S : Type} (lo hi : nat) (body : nat -> S -> S) (s : S) : S :=
  fold_left (fun acc i => body i acc) (seq lo (hi - lo)) s.

(* ===================================================================== *)
(** * hemi.utils                                                          *)
(* ===================================================================== *)

Module utils.

(** Modelled from the spec: [hemi.utils.choose(n, m)] is not part of the
    sources at hand.  The spec describes the Bezier blend as the
    full-degree Bernstein polynomial, whose coefficients are the binomial
    coefficients; [choose n m] is the binomial coefficient, by Pascal's
    rule. *)
Fixpoint binomial (n m : nat) : nat :=
  match n, m with
  | _, O => 1
  | O, S _ => 0
  | S n', S m' => (binomial n' m' + binomial n' (S m'))%nat
  end.

Definition choose (n m : nat) : num := of_nat (binomial n m).

(** Modelled from the spec: [hemi.utils.cubicHermite(t, p0, m0, p1, m1)] is
    not part of the sources at hand.  The spec calls it the Hermite blend
    between two waypoints using the tangent at each: the cubic Hermite
    basis applied to the positions [p0], [p1] and tangents [m0], [m1]. *)
Definition cubicHermite (t p0 m0 p1 m1 : num) : num :=
  let t2 := (t * t)%num in
  let t3 := (t2 * t)%num in
  ((Fin 2 * t3 - Fin 3 * t2 + Fin 1) * p0
   + (t3 - Fin 2 * t2 + t) * m0
   + (Fin 3 * t2 - Fin 2 * t3) * p1
   + (t3 - t2) * m1)%num.

(** Modelled from the spec: [hemi.utils.clamp(val, min, max)] is not part
    of the sources at hand.  The spec says that [setRate] clamps the rate
    to the interval from [min] to [max]. *)
Definition clamp (val lo hi : num) : num :=
  if ngt val hi then hi else if nlt val lo then lo else val.

End utils.

(* ===================================================================== *)
(** * Curve                                                               *)
(* ===================================================================== *)

Module CurveType.
Inductive t : Type := Linear | Bezier | CubicHermite | LinearNorm | Cardinal | Custom.

(** The value of the enumeration. *)
Definition value (ty : t) : Z :=
  match ty with
  | Linear => 0 | Bezier => 1 | CubicHermite => 2
  | LinearNorm => 3 | Cardinal => 4 | Custom => 5
  end.

(** Truthiness of an optional curve type: undefined and Linear (0) are
    falsy. *)
Definition truthy (ty : option t) : bool :=
  match ty with
  | Some ty => negb (value ty =? 0)%Z
  | None => false
  end.

(** [a || b] on optional curve types. *)
Definition or (a b : option t) : option t :=
  if truthy a then a else b.
End CurveType.

(** [arr[i]] for a natural index, in arithmetic. *)
Definition at_ (arr : list num) (i : nat) : num := default NaN (arr !! i).

Module Curve.

(** The function that [this.interpolate] is bound to. *)
Inductive interp_fn : Type :=
  | Ibase          (* Curve.prototype.interpolate *)
  | Ilinear
  | Ibezier
  | IcubicHermite
  | IlinearNorm.

Record t : Type := mk {
  count : nat;
  tension : num;
  type : option CurveType.t;     (* None: undefined *)
  weights : list num;
  xpts : list num;
  xtans : list num;
  ypts : list num;
  ytans : list num;
  zpts : list num;
  ztans : list num;
  interpolate_fn : interp_fn
}.

(** The configuration object of a Curve; [None] is an absent property. *)
Record Cfg : Type := mkCfg {
  cfg_points : option (list (Q * Q * Q));
  cfg_type : option CurveType.t;
  cfg_weights : option (list (option Q));            (* entries may be null *)
  cfg_tangents : option (list (option (Q * Q * Q))); (* entries may be null *)
  cfg_tension : option Q
}.

Definition set_count v c := mk v (tension c) (type c) (weights c) (xpts c) (xtans c) (ypts c) (ytans c) (zpts c) (ztans c) (interpolate_fn c).
Definition set_tension v c := mk (count c) v (type c) (weights c) (xpts c) (xtans c) (ypts c) (ytans c) (zpts c) (ztans c) (interpolate_fn c).
Definition set_type v c := mk (count c) (tension c) v (weights c) (xpts c) (xtans c) (ypts c) (ytans c) (zpts c) (ztans c) (interpolate_fn c).
Definition set_weights v c := mk (count c) (tension c) (type c) v (xpts c) (xtans c) (ypts c) (ytans c) (zpts c) (ztans c) (interpolate_fn c).
Definition set_pts vx vy vz c := mk (count c) (tension c) (type c) (weights c) vx (xtans c) vy (ytans c) vz (ztans c) (interpolate_fn c).
Definition set_tans vx vy vz c := mk (count c) (tension c) (type c) (weights c) (xpts c) vx (ypts c) vy (zpts c) vz (interpolate_fn c).
Definition set_interpolate v c := mk (count c) (tension c) (type c) (weights c) (xpts c) (xtans c) (ypts c) (ytans c) (zpts c) (ztans c) v.

(** Curve.prototype.setType *)
Definition setType (ty : option CurveType.t) (c : t) : t :=
  let c := set_type ty c in
  match ty with
  | Some CurveType.Linear => set_interpolate Ilinear c
  | Some CurveType.Bezier => set_interpolate Ibezier c
  | Some CurveType.CubicHermite
  | Some CurveType.Cardinal => set_interpolate IcubicHermite c
  | Some CurveType.LinearNorm => set_interpolate IlinearNorm c
  | Some CurveType.Custom
  | None => c
  end.

(** The copy of a coordinate array that [setTangents] works on: the first
    element put in front once more, then the last element put at the end
    once more.  An element read from an empty array is undefined; in the
    arithmetic below it counts as NaN. *)
Definition padded (pts : list num) : list num :=
  let pts := at_ pts 0 :: pts in
  pts ++ [at_ pts (length pts - 1)].

(** Curve.prototype.setTangents *)
Definition setTangents (c : t) : t :=
  match type c with
  | Some CurveType.Cardinal =>
      let xp := padded (xpts c) in
      let yp := padded (ypts c) in
      let zp := padded (zpts c) in
      for_range 0 (count c) (fun i c =>
        set_tans
          (aset (xtans c) i ((Fin 1 - tension c) * (at_ xp (i + 2) - at_ xp i) / Fin 2)%num)
          (aset (ytans c) i ((Fin 1 - tension c) * (at_ yp (i + 2) - at_ yp i) / Fin 2)%num)
          (aset (ztans c) i ((Fin 1 - tension c) * (at_ zp (i + 2) - at_ zp i) / Fin 2)%num)
          c) c
  | _ => c
  end.

(** Curve.prototype.loadConfig *)
Definition loadConfig (cfg : Cfg) (c : t) : t :=
  let ty := CurveType.or (CurveType.or (cfg_type cfg) (type c)) (Some CurveType.Linear) in
  let c := setType ty c in
  let c :=
    match cfg_points cfg with
    | Some points =>
        let c := set_count (length points) c in
        for_range 0 (count c) (fun i c =>
          let p := Fin3 (default (0, 0, 0) (points !! i)) in
          let c := set_pts (aset (xpts c) i p.1.1) (aset (ypts c) i p.1.2)
                           (aset (zpts c) i p.2) c in
          let c := set_tans (aset (xtans c) i (Fin 0)) (aset (ytans c) i (Fin 0))
                            (aset (ztans c) i (Fin 0)) c in
          set_weights (aset (weights c) i (Fin 1)) c) c
    | None => c
    end in
  let c :=
    match cfg_weights cfg with
    | Some ws =>
        for_range 0 (count c) (fun i c =>
          set_weights
            (aset (weights c) i
               match ws !! i with
               | Some (Some w) => Fin w
               | _ => Fin 1
               end) c) c
    | None => c
    end in
  let c :=
    match cfg_tangents cfg with
    | Some ts =>
        for_range 0 (count c) (fun i c =>
          match ts !! i with
          | Some (Some tg) =>
              set_tans (aset (xtans c) i (nor (Fin tg.1.1) (Fin 0)))
                       (aset (ytans c) i (nor (Fin tg.1.2) (Fin 0)))
                       (aset (ztans c) i (nor (Fin tg.2) (Fin 0))) c
          | _ => c
          end) c
    | None => c
    end in
  let c :=
    match cfg_tension cfg with
    | Some tn => if truthy (Fin tn) then set_tension (Fin tn) c else c
    | None => c
    end in
  setTangents c.

(** The constructor [Curve(points, opt_type, opt_config)]; an absent
    [opt_config] is the empty object, and [points] becomes its [points]
    property. *)
Definition new (points : option (list (Q * Q * Q))) (opt_type : option CurveType.t)
    (opt_config : option Cfg) : t :=
  let c := mk 0 (Fin 0) opt_type [] [] [] [] [] [] [] Ibase in
  match points with
  | Some pts =>
      let cfg := default (mkCfg None None None None None) opt_config in
      let cfg := mkCfg (Some pts) (cfg_type cfg) (cfg_weights cfg)
                       (cfg_tangents cfg) (cfg_tension cfg) in
      loadConfig cfg c
  | None => c
  end.

(** Curve.prototype.linear *)
Definition linear (c : t) (t : num) : point :=
  let n := (of_nat (count c) - Fin 1)%num in
  let ndx := floor (t * n) in
  let ndx := if nge ndx n then (n - Fin 1)%num else ndx in
  let tt := ((t - ndx / n) / ((ndx + Fin 1) / n - ndx / n))%num in
  let x := ((Fin 1 - tt) * aget (xpts c) ndx + tt * aget (xpts c) (ndx + Fin 1))%num in
  let y := ((Fin 1 - tt) * aget (ypts c) ndx + tt * aget (ypts c) (ndx + Fin 1))%num in
  let z := ((Fin 1 - tt) * aget (zpts c) ndx + tt * aget (zpts c) (ndx + Fin 1))%num in
  (x, y, z).

(** Curve.prototype.bezier; the loop state is [(x, y, z, w)]. *)
Definition bezier (c : t) (t : num) : point :=
  let n := count c in
  let '(x, y, z, w) :=
    for_range 0 n (fun i '(x, y, z, w) =>
      let fac := (at_ (weights c) i
                  * utils.choose (n - 1) i
                  * pow t i
                  * pow (Fin 1 - t) (n - 1 - i))%num in
      ((x + fac * at_ (xpts c) i)%num,
       (y + fac * at_ (ypts c) i)%num,
       (z + fac * at_ (zpts c) i)%num,
       (w + fac)%num))
      (Fin 0, Fin 0, Fin 0, Fin 0) in
  ((x / w)%num, (y / w)%num, (z / w)%num).

(** Curve.prototype.cubicHermite *)
Definition cubicHermite (c : t) (t : num) : point :=
  let n := (of_nat (count c) - Fin 1)%num in
  let ndx := floor (t * n) in
  let ndx := if nge ndx n then (n - Fin 1)%num else ndx in
  let tt := ((t - ndx / n) / ((ndx + Fin 1) / n - ndx / n))%num in
  let x := utils.cubicHermite tt (aget (xpts c) ndx) (aget (xtans c) ndx)
             (aget (xpts c) (ndx + Fin 1)) (aget (xtans c) (ndx + Fin 1)) in
  let y := utils.cubicHermite tt (aget (ypts c) ndx) (aget (ytans c) ndx)
             (aget (ypts c) (ndx + Fin 1)) (aget (ytans c) (ndx + Fin 1)) in
  let z := utils.cubicHermite tt (aget (zpts c) ndx) (aget (ztans c) ndx)
             (aget (zpts c) (ndx + Fin 1)) (aget (ztans c) (ndx + Fin 1)) in
  (x, y, z).

Section with_distance.

(** [hemi.core.math.distance], the distance of two points in the host's
    math library, is taken as a parameter. *)
Variable distance : point -> point -> num.

(** The first loop of [linearNorm]: the state is [(d, dpts)]. *)
Definition arc_lengths (c : t) : num * list num :=
  for_range 1 (count c) (fun i '(d, dpts) =>
    let d := (d + distance (at_ (xpts c) (i - 1), at_ (ypts c) (i - 1), at_ (zpts c) (i - 1))
                           (at_ (xpts c) i, at_ (ypts c) i, at_ (zpts c) i))%num in
    (d, aset dpts i d))
    (Fin 0, [Fin 0]).

(** Curve.prototype.linearNorm *)
Definition linearNorm (c : t) (t : num) : point :=
  let '(d, dpts) := arc_lengths c in
  let tt := (t * d)%num in
  let ndx := for_range 0 (count c) (fun i ndx => if nlt (at_ dpts i) tt then i else ndx) 0%nat in
  let lt := ((tt - at_ dpts ndx) / (at_ dpts (ndx + 1) - at_ dpts ndx))%num in
  let x := ((Fin 1 - lt) * at_ (xpts c) ndx + lt * at_ (xpts c) (ndx + 1))%num in
  let y := ((Fin 1 - lt) * at_ (ypts c) ndx + lt * at_ (ypts c) (ndx + 1))%num in
  let z := ((Fin 1 - lt) * at_ (zpts c) ndx + lt * at_ (zpts c) (ndx + 1))%num in
  (x, y, z).

(** [this.interpolate(t)]: the function that [setType] bound, or the one of
    the prototype. *)
Definition interpolate (c : t) (t : num) : point :=
  match interpolate_fn c with
  | Ibase => (t, t, t)
  | Ilinear => linear c t
  | Ibezier => bezier c t
  | IcubicHermite => cubicHermite c t
  | IlinearNorm => linearNorm c t
  end.

End with_distance.

(** Curve.prototype.getStart and getEnd.  (An index of -1, for an empty
    curve, reads undefined.) *)
Definition getStart (c : t) : point :=
  (at_ (xpts c) 0, at_ (ypts c) 0, at_ (zpts c) 0).

Definition getEnd (c : t) : point :=
  match count c with
  | O => (NaN, NaN, NaN)
  | S e => (at_ (xpts c) e, at_ (ypts c) e, at_ (zpts c) e)
  end.

End Curve.

(* ===================================================================== *)
(** * Exceptions and Math.random                                          *)
(* ===================================================================== *)

(** A computation that may call [Math.random()] and may throw.  The state
    is the number of calls of [Math.random()] made so far; [None] is a
    TypeError (a property read from [undefined] or [null]). *)
Definition M (A : Type) : Type := nat -> option (A * nat).

Definition ret {A} (a : A) : M A := fun k => Some (a, k).
Definition throw {A} : M A := fun _ => None.
Definition bind {A B} (m : M A) (f : A -> M B) : M B :=
  fun k => match m k with
           | Some (a, k') => f a k'
           | None => None
           end.

Notation "'do' x <- m ; f" := (bind m (fun x => f))
  (at level 10, x name, m at level 100, f at level 200).

(** [arr[i]] where a property of the element is read next: a TypeError when
    the element is missing. *)
Definition defined {A} (o : option A) : M A :=
  match o with
  | Some a => ret a
  | None => throw
  end.

(** [for (i = lo; i < hi; i++) body] where the body may throw. *)
Definition for_rangeM {S : Type} (lo hi : nat) (body : nat -> S -> M S) (s : S) : M S :=
  fold_left (fun acc i => do s <- acc; body i s) (seq lo (hi - lo)) (ret s).

(** [for (j = 0; j < arr.length; j++) out[j] = f j arr[j]], [f] in [M]. *)
Fixpoint mapM_from {A B : Type} (f : nat -> A -> M B) (j : nat) (arr : list A) : M (list B) :=
  match arr with
  | [] => ret []
  | a :: arr' => do b <- f j a; do bs <- mapM_from f (S j) arr'; ret (b :: bs)
  end.

(* ===================================================================== *)
(** * Particle                                                            *)
(* ===================================================================== *)

Module Key.
(** The optional [range] property of a key. *)
Inductive range_t : Type :=
  | NoRange                     (* undefined *)
  | NumRange (r : num)
  | ArrRange (r : list num).

(** A ColorKey or ScaleKey: [{key, value}], with an optional [range]. *)
Record t : Type := mk { key : num; value : list num; range : range_t }.

(** [if (c.range)] *)
Definition has_range (c : t) : bool :=
  match range c with
  | NoRange => false
  | NumRange r => truthy r
  | ArrRange _ => true
  end.
End Key.

(** A THREE.Matrix4 as the particle builds it: a translation, the optional
    aiming of [hemi.utils.pointYAt] and the optional scale. *)
Record Matrix : Type := mkMatrix {
  translation : point;
  aim : option (point * point);
  scale : option point
}.

(** The THREE.Object3D of a particle. *)
Record Transform : Type := mkTransform {
  visible : bool;
  matrix : option Matrix;        (* None: not assigned, or undefined *)
  matrixAutoUpdate : bool;
  matrixWorldNeedsUpdate : bool;
  children : list bool;          (* the [visible] flag of each child mesh *)
  parent : bool                  (* attached to a parent *)
}.

(** The THREE.MeshPhongMaterial of a particle: color and opacity; a
    component is [None] when it was set from [undefined]. *)
Record Material : Type := mkMaterial {
  color : option num * option num * option num;
  opacity : option num
}.

Module Particle.

Record t : Type := mk {
  transform : option Transform;       (* None: null *)
  frame : Z;
  lastFrame : Z;
  destroyed : bool;
  material : Material;
  lt : gmap nat Matrix;
  matrices : gmap nat Matrix;
  colors : gmap nat (list num);
  colorKeys : list Key.t;
  scales : gmap nat (list num);
  loops : option num;                 (* None: undefined *)
  totalLoops : option num;            (* never assigned: undefined *)
  ready : bool;
  active : bool
}.

Definition set_transform v p := mk v (frame p) (lastFrame p) (destroyed p) (material p) (lt p) (matrices p) (colors p) (colorKeys p) (scales p) (loops p) (totalLoops p) (ready p) (active p).
Definition set_frame v p := mk (transform p) v (lastFrame p) (destroyed p) (material p) (lt p) (matrices p) (colors p) (colorKeys p) (scales p) (loops p) (totalLoops p) (ready p) (active p).
Definition set_destroyed v p := mk (transform p) (frame p) (lastFrame p) v (material p) (lt p) (matrices p) (colors p) (colorKeys p) (scales p) (loops p) (totalLoops p) (ready p) (active p).
Definition set_material v p := mk (transform p) (frame p) (lastFrame p) (destroyed p) v (lt p) (matrices p) (colors p) (colorKeys p) (scales p) (loops p) (totalLoops p) (ready p) (active p).
Definition set_lt v p := mk (transform p) (frame p) (lastFrame p) (destroyed p) (material p) v (matrices p) (colors p) (colorKeys p) (scales p) (loops p) (totalLoops p) (ready p) (active p).
Definition set_matrices v p := mk (transform p) (frame p) (lastFrame p) (destroyed p) (material p) (lt p) v (colors p) (colorKeys p) (scales p) (loops p) (totalLoops p) (ready p) (active p).
Definition set_colors v p := mk (transform p) (frame p) (lastFrame p) (destroyed p) (material p) (lt p) (matrices p) v (colorKeys p) (scales p) (loops p) (totalLoops p) (ready p) (active p).
Definition set_colorKeys v p := mk (transform p) (frame p) (lastFrame p) (destroyed p) (material p) (lt p) (matrices p) (colors p) v (scales p) (loops p) (totalLoops p) (ready p) (active p).
Definition set_scales v p := mk (transform p) (frame p) (lastFrame p) (destroyed p) (material p) (lt p) (matrices p) (colors p) (colorKeys p) v (loops p) (totalLoops p) (ready p) (active p).
Definition set_loops v p := mk (transform p) (frame p) (lastFrame p) (destroyed p) (material p) (lt p) (matrices p) (colors p) (colorKeys p) (scales p) v (totalLoops p) (ready p) (active p).
Definition set_ready v p := mk (transform p) (frame p) (lastFrame p) (destroyed p) (material p) (lt p) (matrices p) (colors p) (colorKeys p) (scales p) (loops p) (totalLoops p) v (active p).
Definition set_active v p := mk (transform p) (frame p) (lastFrame p) (destroyed p) (material p) (lt p) (matrices p) (colors p) (colorKeys p) (scales p) (loops p) (totalLoops p) (ready p) v.

(** The frames [1 .. lastFrame] of a loop [for (i = 1; i <= lastFrame; i++)],
    as the bounds of [for_rangeM]. *)
Definition frames_end (lastFrame : Z) : nat := Z.to_nat (lastFrame + 1).

(** Particle.prototype.run *)
Definition run (loops : num) (p : t) : t :=
  set_active true (set_ready false (set_loops (Some loops) p)).

(** Particle.prototype.addShape *)
Definition addShape (p : t) : M t :=
  do tr <- defined (transform p);
  ret (set_transform
         (Some (mkTransform (visible tr) (matrix tr) (matrixAutoUpdate tr)
                  (matrixWorldNeedsUpdate tr) (children tr ++ [true]) (parent tr))) p).

(** Particle.prototype.removeShapes *)
Definition removeShapes (p : t) : M t :=
  do tr <- defined (transform p);
  ret (set_transform
         (Some (mkTransform (visible tr) (matrix tr) (matrixAutoUpdate tr)
                  (matrixWorldNeedsUpdate tr) [] (parent tr))) p).

Section with_random.

(** [random k] is the value of the call number [k] of [Math.random()]. *)
Variable random : nat -> Q.

Definition Math_random : M Q := fun k => Some (random k, S k).

(** The copy of a key that [setColors] and [setScales] store: the value is
    moved by a random offset within the range of the key. *)
Definition jitter (c : Key.t) : M Key.t :=
  if Key.has_range c then
    match Key.range c with
    | Key.ArrRange r =>
        do v <- mapM_from (fun j cv =>
                  do rnd <- Math_random;
                  ret (cv + (Fin rnd - Fin (1 # 2)) * Fin 2 * at_ r j)%num) 0 (Key.value c);
        ret (Key.mk (Key.key c) v Key.NoRange)
    | Key.NumRange r =>
        do rnd <- Math_random;
        let offset := ((Fin rnd - Fin (1 # 2)) * Fin 2 * r)%num in
        ret (Key.mk (Key.key c) (map (fun cv => (cv + offset)%num) (Key.value c)) Key.NoRange)
    | Key.NoRange => ret (Key.mk (Key.key c) (Key.value c) Key.NoRange)
    end
  else ret (Key.mk (Key.key c) (Key.value c) Key.NoRange).

(** The loop [while (keySet[ndx].key > time) ndx--] of [lerpValue], started
    at [ndx = n - 1]: the index where it stops, or a TypeError when it
    reads [keySet[ndx]] at [ndx = -1]. *)
Fixpoint key_scan (keySet : list Key.t) (time : num) (n : nat) : M nat :=
  match n with
  | O => throw
  | S ndx =>
      do a <- defined (keySet !! ndx);
      if ngt (Key.key a) time then key_scan keySet time ndx else ret ndx
  end.

(** Particle.prototype.lerpValue.  The scan starts at
    [keySet.length - 2]; with fewer than two keys the first read
    [keySet[ndx]] already is at a negative index. *)
Definition lerpValue (time : num) (keySet : list Key.t) : M (list num) :=
  do ndx <- key_scan keySet time (length keySet - 1);
  do a <- defined (keySet !! ndx);
  do b <- defined (keySet !! (ndx + 1)%nat);
  let t := ((time - Key.key a) / (Key.key b - Key.key a))%num in
  ret (imap (fun i av => ((Fin 1 - t) * av + t * at_ (Key.value b) i)%num) (Key.value a)).

(** The time of frame [i]: [(i-1)/(this.lastFrame-2)]. *)
Definition frame_time (lastFrame : Z) (i : nat) : num :=
  ((of_nat i - Fin 1) / (of_Z lastFrame - Fin 2))%num.

(** Particle.prototype.setColors; [None] is a null or absent argument. *)
Definition setColors (cKeys : option (list Key.t)) (p : t) : M t :=
  let p := set_colors ∅ p in
  do keys <-
    match cKeys with
    | Some cks => mapM_from (fun _ c => jitter c) 0 cks
    | None => ret [Key.mk (Fin 0) [Fin 0; Fin 0; Fin 0; Fin 1] Key.NoRange;
                   Key.mk (Fin 1) [Fin 0; Fin 0; Fin 0; Fin 1] Key.NoRange]
    end;
  let p := set_colorKeys keys p in
  for_rangeM 1 (frames_end (lastFrame p)) (fun i p =>
    do c <- lerpValue (frame_time (lastFrame p) i) (colorKeys p);
    ret (set_colors (<[i := c]> (colors p)) p)) p.

(** Particle.prototype.setScales *)
Definition setScales (scaleKeys : option (list Key.t)) (p : t) : M t :=
  let p := set_scales ∅ p in
  do sKeys <-
    match scaleKeys with
    | Some sks => mapM_from (fun _ c => jitter c) 0 sks
    | None => ret [Key.mk (Fin 0) [Fin 1; Fin 1; Fin 1] Key.NoRange;
                   Key.mk (Fin 1) [Fin 1; Fin 1; Fin 1] Key.NoRange]
    end;
  for_rangeM 1 (frames_end (lastFrame p)) (fun i p =>
    do scale <- lerpValue (frame_time (lastFrame p) i) sKeys;
    let p := set_scales (<[i := scale]> (scales p)) p in
    do L <- defined (lt p !! i);
    ret (set_matrices
           (<[i := mkMatrix (translation L) (aim L)
                     (Some (at_ scale 0, at_ scale 1, at_ scale 2))]> (matrices p)) p)) p.

(** The constructor [Particle(trans, points, colorKeys, scaleKeys, rotate)].
    [trans] is a node of the scene, to which the new transform is added. *)
Definition new (points : list point) (cKeys scaleKeys : option (list Key.t))
    (rotate : bool) : M t :=
  let p := mk (Some (mkTransform true None false true [] true))
              1 (Z.of_nat (length points) - 2) false
              (mkMaterial (Some (Fin 0), Some (Fin 0), Some (Fin 0)) (Some (Fin 1)))
              ∅ ∅ ∅ [] ∅ None None false false in
  do p <- setColors cKeys p;
  do p <- for_rangeM (Z.to_nat (frame p)) (frames_end (lastFrame p)) (fun i p =>
            do pt <- defined (points !! i);
            let L := mkMatrix pt
                       (if rotate
                        then Some (default (NaN, NaN, NaN) (points !! (i - 1)%nat),
                                   default (NaN, NaN, NaN) (points !! (i + 1)%nat))
                        else None) None in
            ret (set_lt (<[i := L]> (lt p)) p)) p;
  do p <- setScales scaleKeys p;
  ret (set_active false (set_ready true p)).

End with_random.

(** Particle.prototype.reset *)
Definition reset (p : t) : M t :=
  do tr <- defined (transform p);
  let tr := mkTransform false (matrix tr) (matrixAutoUpdate tr) (matrixWorldNeedsUpdate tr)
              (map (fun _ => false) (children tr)) (parent tr) in
  ret (set_ready true (set_active false (set_destroyed false
         (set_loops (totalLoops p) (set_transform (Some tr) p))))).

(** [this.loops--] *)
Definition decr (v : option num) : option num :=
  match v with
  | Some n => Some (n - Fin 1)%num
  | None => Some NaN
  end.

(** [this.loops === 0] *)
Definition is_zero_loops (v : option num) : bool :=
  match v with
  | Some n => nseq n (Fin 0)
  | None => false
  end.

(** Particle.prototype.update *)
Definition update (p : t) : M t :=
  if negb (active p) then ret p else
  let f := frame p in
  do c <- defined (if (0 <=? f)%Z then colors p !! Z.to_nat f else None);
  let p := set_material (mkMaterial (c !! 0%nat, c !! 1%nat, c !! 2%nat) (c !! 3%nat)) p in
  do tr <- defined (transform p);
  let tr := mkTransform true
              (if (0 <=? f)%Z then matrices p !! Z.to_nat f else None)
              (matrixAutoUpdate tr) true
              (map (fun _ => true) (children tr)) (parent tr) in
  let p := set_frame (frame p + 1)%Z (set_transform (Some tr) p) in
  if (frame p >=? lastFrame p)%Z then
    let p := set_loops (decr (loops p)) (set_frame 1%Z p) in
    if is_zero_loops (loops p) then reset p else ret p
  else ret p.

(** Particle.prototype.destroy: nothing for a particle that is destroyed;
    otherwise the children and the parent are read from the transform (a
    TypeError when it is null), the transform is taken out of the scene
    and dropped. *)
Definition destroy (p : t) : M t :=
  if destroyed p then ret p else
  do _ <- defined (transform p);
  ret (set_destroyed true (set_transform None p)).

End Particle.

(* ===================================================================== *)
(** * ParticleCurveSystem                                                 *)
(* ===================================================================== *)

Module ShapeType.
Inductive t : Type := CUBE | SPHERE | ARROW.
End ShapeType.

(** hemi.curve.Box *)
Record Box : Type := mkBox { min : Q * Q * Q; max : Q * Q * Q }.

(** A call of a method of the particle in slot [i] of the pool. *)
Inductive call : Type :=
  | CallUpdate (i : nat)
  | CallRun (i : nat) (loops : num).

Module ParticleCurveSystem.

(** The configuration object; [None] is an absent property. *)
Record Cfg : Type := mkCfg {
  cfg_life : option Q;
  cfg_boxes : list Box;
  cfg_particleCount : option nat;
  cfg_particleShape : option ShapeType.t;
  cfg_particleSize : option Q;
  cfg_frames : option Q;
  cfg_tension : option Q;
  cfg_colorKeys : option (list Key.t);
  cfg_colors : option (list (list num));
  cfg_scaleKeys : option (list Key.t);
  cfg_scales : option (list (list num));
  cfg_aim : bool
}.

Record t : Type := mk {
  active : bool;
  pLife : num;
  boxes : list Box;
  maxParticles : nat;
  maxRate : num;
  particles : list (option Particle.t);   (* an entry None: null *)
  pRate : num;
  pTimer : num;
  pTimerMax : num;
  pIndex : nat;
  shapes : list ShapeType.t;
  size : num;
  boxesOn : bool;
  points : list (list point);
  frames : num
}.

Definition set_active v s := mk v (pLife s) (boxes s) (maxParticles s) (maxRate s) (particles s) (pRate s) (pTimer s) (pTimerMax s) (pIndex s) (shapes s) (size s) (boxesOn s) (points s) (frames s).
Definition set_particles v s := mk (active s) (pLife s) (boxes s) (maxParticles s) (maxRate s) v (pRate s) (pTimer s) (pTimerMax s) (pIndex s) (shapes s) (size s) (boxesOn s) (points s) (frames s).
Definition set_pRate v s := mk (active s) (pLife s) (boxes s) (maxParticles s) (maxRate s) (particles s) v (pTimer s) (pTimerMax s) (pIndex s) (shapes s) (size s) (boxesOn s) (points s) (frames s).
Definition set_pTimer v s := mk (active s) (pLife s) (boxes s) (maxParticles s) (maxRate s) (particles s) (pRate s) v (pTimerMax s) (pIndex s) (shapes s) (size s) (boxesOn s) (points s) (frames s).
Definition set_pTimerMax v s := mk (active s) (pLife s) (boxes s) (maxParticles s) (maxRate s) (particles s) (pRate s) (pTimer s) v (pIndex s) (shapes s) (size s) (boxesOn s) (points s) (frames s).
Definition set_pIndex v s := mk (active s) (pLife s) (boxes s) (maxParticles s) (maxRate s) (particles s) (pRate s) (pTimer s) (pTimerMax s) v (shapes s) (size s) (boxesOn s) (points s) (frames s).
Definition set_points v s := mk (active s) (pLife s) (boxes s) (maxParticles s) (maxRate s) (particles s) (pRate s) (pTimer s) (pTimerMax s) (pIndex s) (shapes s) (size s) (boxesOn s) v (frames s).

(** [a || b] on an optional rational: absent and 0 are falsy. *)
Definition q_or (a : option Q) (b : num) : num :=
  match a with
  | Some q => nor (Fin q) b
  | None => b
  end.

(** The number of iterations of [for (i = 0; i < bound; i++)] for a bound
    that is not +Infinity. *)
Definition iterations (bound : num) : nat :=
  match bound with
  | Fin q => Z.to_nat (Qceiling q)
  | _ => 0
  end.

(** The keys that the constructor makes of a list of values [colors] or
    [scales]: evenly spaced from 0. *)
Definition even_keys (values : list (list num)) : list Key.t :=
  let len := length values in
  let step := if (len =? 1)%nat then Fin 1 else (Fin 1 / (of_nat len - Fin 1))%num in
  imap (fun i v => Key.mk (of_nat i * step)%num v Key.NoRange) values.

(** ParticleCurveSystem.prototype.start *)
Definition start (s : t) : t := set_active true s.

(** The loop of [stop(true)] and the [setColors] and [setScales] of the
    system: a method called on every slot below [maxParticles]. *)
Definition each_particle (f : Particle.t -> M Particle.t) (nonnull_only : bool) (s : t) : M t :=
  for_rangeM 0 (maxParticles s) (fun i s =>
    match particles s !! i with
    | Some (Some p) =>
        do p' <- f p;
        ret (set_particles (<[i := Some p']> (particles s)) s)
    | _ => if nonnull_only then ret s else throw
    end) s.

(** ParticleCurveSystem.prototype.stop *)
Definition stop (opt_hard : bool) (s : t) : M t :=
  let s := set_active false s in
  if opt_hard then each_particle Particle.reset true s else ret s.

(** ParticleCurveSystem.prototype.onRender, with the calls that it makes
    on the particles of the pool, in the order in which it makes them. *)
Definition onRender (elapsedTime : num) (s : t) : M (t * list call) :=
  do r <- for_rangeM 0 (maxParticles s) (fun i '(s, tr) =>
            match particles s !! i with
            | Some (Some p) =>
                do p' <- Particle.update p;
                ret (set_particles (<[i := Some p']> (particles s)) s, tr ++ [CallUpdate i])
            | _ => ret (s, tr)
            end) (s, []);
  let '(s, tr) := r in
  if negb (active s) then ret (s, tr) else
  let s := set_pTimer (pTimer s + elapsedTime)%num s in
  if nge (pTimer s) (pTimerMax s) then
    let s := set_pTimer (Fin 0) s in
    do slot <- defined (particles s !! pIndex s);
    do p <- defined slot;
    let '(s, tr) :=
      if Particle.ready p
      then (set_particles (<[pIndex s := Some (Particle.run (Fin 1) p)]> (particles s)) s,
            tr ++ [CallRun (pIndex s) (Fin 1)])
      else (s, tr) in
    let s := set_pIndex (pIndex s + 1)%nat s in
    let s := if (maxParticles s <=? pIndex s)%nat then set_pIndex 0%nat s else s in
    ret (s, tr)
  else ret (s, tr).

(** ParticleCurveSystem.prototype.setRate *)
Definition setRate (rate : num) (s : t) : M (t * num) :=
  let newRate := utils.clamp rate (Fin 0) (maxRate s) in
  do s <-
    if nseq newRate (Fin 0) then
      stop false (set_pTimerMax (Fin 0) s)
    else
      let s := if (nseq (pRate s) (Fin 0) && ngt newRate (Fin 0))%bool then start s else s in
      ret (set_pTimerMax (Fin 1 / newRate)%num s);
  ret (set_pRate newRate s, newRate).

(** ParticleCurveSystem.prototype.changeRate *)
Definition changeRate (delta : num) (s : t) : M (t * num) :=
  setRate (pRate s + delta)%num s.

Definition set_shapes v s := mk (active s) (pLife s) (boxes s) (maxParticles s) (maxRate s) (particles s) (pRate s) (pTimer s) (pTimerMax s) (pIndex s) v (size s) (boxesOn s) (points s) (frames s).

(** [this.particles[i].m()] for a method [m] of the particle: a TypeError
    when the slot is empty or null. *)
Definition on_particle (m : Particle.t -> M Particle.t) (i : nat) (s : t) : M t :=
  do slot <- defined (particles s !! i);
  do p <- defined slot;
  do p' <- m p;
  ret (set_particles (<[i := Some p']> (particles s)) s).

(** ParticleCurveSystem.prototype.removeShapes *)
Definition removeShapes (s : t) : M t :=
  do s <- for_rangeM 0 (maxParticles s) (on_particle Particle.removeShapes) s;
  ret (set_shapes [] s).

(** ParticleCurveSystem.prototype.addShape, for a shape given by its name:
    [Some ty] is the name of a predefined shape, [None] a string that
    names none, for which nothing is pushed. *)
Definition addShape (shape : option ShapeType.t) (s : t) : M t :=
  let startndx := length (shapes s) in
  let s :=
    match shape with
    | Some ty => set_shapes (shapes s ++ [ty]) s
    | None => s
    end in
  for_rangeM 0 (maxParticles s) (fun i s =>
    for_rangeM startndx (length (shapes s)) (fun _ s =>
      on_particle Particle.addShape i s) s) s.

Section with_environment.

Variable random : nat -> Q.
Variable distance : point -> point -> num.

(** [randomPoint(min, max)] *)
Definition randomPoint (lo hi : Q * Q * Q) : M (Q * Q * Q) :=
  do xi <- Particle.Math_random random;
  do yi <- Particle.Math_random random;
  do zi <- Particle.Math_random random;
  ret (xi * lo.1.1 + (1 - xi) * hi.1.1,
       yi * lo.1.2 + (1 - yi) * hi.1.2,
       zi * lo.2 + (1 - zi) * hi.2).

(** ParticleCurveSystem.prototype.newCurve: one random point in each box,
    the first and the last of them once more at the ends. *)
Definition newCurve (tension : num) (bxs : list Box) : M Curve.t :=
  do inner <- mapM_from (fun _ b => randomPoint (min b) (max b)) 0 bxs;
  do first <- defined (head inner);
  do last_ <- defined (last inner);
  let pts := first :: inner ++ [last_] in
  ret (Curve.new (Some pts) (Some CurveType.Cardinal)
         (Some (Curve.mkCfg None None None None
                  (match tension with Fin q => Some q | _ => None end)))).

(** ParticleCurveSystem.prototype.setColors and setScales *)
Definition setColors (cKeys : option (list Key.t)) (s : t) : M t :=
  each_particle (Particle.setColors random cKeys) false s.

Definition setScales (sKeys : option (list Key.t)) (s : t) : M t :=
  each_particle (Particle.setScales random sKeys) false s.

(** The constructor [ParticleCurveSystem(client, config)]; [fps] is the
    value of [hemi.getFPS()]. *)
Definition new (config : Cfg) (fps : Q) : M t :=
  let pLife := q_or (cfg_life config) (Fin 5) in
  let maxParticles :=
    match cfg_particleCount config with
    | Some (S n) => S n
    | _ => 25%nat
    end in
  let maxRate := ceil (of_nat maxParticles / pLife) in
  let size := q_or (cfg_particleSize config) (Fin 1) in
  let shapes := [default ShapeType.CUBE (cfg_particleShape config)] in
  let frames := q_or (cfg_frames config) (pLife * Fin fps)%num in
  let s := mk false pLife (cfg_boxes config) maxParticles maxRate []
              maxRate (Fin 0) (Fin 1 / maxRate)%num 0 shapes size false [] frames in
  do s <- for_rangeM 0 maxParticles (fun j s =>
            do curve <- newCurve (q_or (cfg_tension config) (Fin 0)) (boxes s);
            let pts := for_range 0 (iterations (ParticleCurveSystem.frames s))
                         (fun i pts =>
                            aset pts i (Curve.interpolate distance curve
                                          (of_nat i / ParticleCurveSystem.frames s)%num)) [] in
            ret (set_points (aset (points s) j pts) s)) s;
  let colorKeys :=
    match cfg_colorKeys config with
    | Some cks => Some cks
    | None => even_keys <$> cfg_colors config
    end in
  let scaleKeys :=
    match cfg_scaleKeys config with
    | Some sks => Some sks
    | None => even_keys <$> cfg_scales config
    end in
  for_rangeM 0 maxParticles (fun i s =>
    do pts <- defined (points s !! i);
    do p <- Particle.new random pts colorKeys scaleKeys (cfg_aim config);
    do p <- for_rangeM 0 (length (ParticleCurveSystem.shapes s))
              (fun _ p => Particle.addShape p) p;
    ret (set_particles (aset (particles s) i (Some p)) s)) s.

End with_environment.

End ParticleCurveSystem.

(* ===================================================================== *)
(** * GpuParticleCurveSystem                                              *)
(* ===================================================================== *)

(** The store of key objects.  The arrays that [setColorKeys] and
    [setScaleKeys] receive hold references to objects [{key, value}] of the
    caller, which the two methods write to; an object is known by its
    address in the store. *)
Module Store.
Definition loc : Type := nat.

Record KeyObj : Type := mkKey { key : num; value : list num }.

Record t : Type := mk { objs : gmap loc KeyObj; next : loc }.

Definition empty : t := mk ∅ 0%nat.

(** [{key: k, value: v}]: a new object. *)
Definition alloc (o : KeyObj) (st : t) : loc * t :=
  (next st, mk (<[next st := o]> (objs st)) (S (next st))).

Definition get (l : loc) (st : t) : option KeyObj := objs st !! l.

(** [obj.key = k]; [None] when there is no object (a TypeError). *)
Definition set_key (l : loc) (k : num) (st : t) : option t :=
  match objs st !! l with
  | Some o => Some (mk (<[l := mkKey k (value o)]> (objs st)) (next st))
  | None => None
  end.
End Store.

(** The loop [while (--newTime > endTime) {}] of GpuParticleTrail.onRender;
    [None] when the fuel runs out. *)
Fixpoint decrement_while_above (fuel : nat) (newTime endTime : num) : option num :=
  match fuel with
  | O => None
  | S fuel' =>
      let newTime := (newTime - Fin 1)%num in
      if ngt newTime endTime
      then decrement_while_above fuel' newTime endTime
      else Some newTime
  end.

(** The loop [while (newTime > 1.0) { --newTime; }] of
    GpuParticleCurveSystem.onRender; [None] when the fuel runs out. *)
Fixpoint while_above_decrement (fuel : nat) (newTime bound : num) : option num :=
  match fuel with
  | O => None
  | S fuel' =>
      if ngt newTime bound
      then while_above_decrement fuel' (newTime - Fin 1)%num bound
      else Some newTime
  end.

(** Fuel that lets the two loops above reach their exit whenever they have
    one: for finite numbers the count of decrements is at most the ceiling
    of the distance, and otherwise the test of the loop never changes. *)
Definition fuel_for (newTime bound : num) : nat :=
  match newTime, bound with
  | Fin t, Fin e => S (S (Z.to_nat (Qceiling (t - e))))
  | _, _ => 2%nat
  end.

Module GpuParticleCurveSystem.

(** The values of the uniforms [sysTime], [ptcMaxTime] and [ptcDec] of the
    material, which [timeParam], [maxTimeParam] and [decParam] refer to. *)
Record Params : Type := mkParams {
  timeParam : num;
  maxTimeParam : num;
  decParam : num
}.

(** The uniforms of a material that the system reads: the values of
    [sysTime], [ptcMaxTime] and [ptcDec], each one when the material has
    it, and whether the material has [minXYZ] and [maxXYZ]. *)
Record Uniforms : Type := mkUniforms {
  u_time : option num;
  u_maxTime : option num;
  u_dec : option num;
  u_bounds : bool
}.

(** A material.  The three parameters of a system are uniforms of the
    material on which [setupShaders] ran last: [Owner] is that material,
    whose uniforms are the parameters themselves, and [Another u] is any
    other material, with the uniforms [u].  (THREE's renderer and
    [hemi.utils.getShaders], which [setMaterial] calls, are not part of
    the sources: a material that [setMaterial] has been given has a
    program, a uniforms object and shader sources.) *)
Inductive Material : Type :=
  | Owner
  | Another (u : Uniforms).

(** [newMaterial()]: a material without any of these uniforms. *)
Definition newMaterial : Material := Another (mkUniforms None None None false).

(** The configuration object; [None] is an absent property. *)
Record Cfg : Type := mkCfg {
  cfg_aim : option bool;
  cfg_boxes : option (list Box);
  cfg_life : option Q;
  cfg_particleCount : option Q;
  cfg_particleSize : option Q;
  cfg_tension : option Q;
  cfg_colorKeys : option (list Store.loc);
  cfg_colors : option (list (list num));
  cfg_scaleKeys : option (list Store.loc);
  cfg_scales : option (list (list num));
  cfg_particleShape : option ShapeType.t;
  cfg_material : option Material
}.

Record t : Type := mk {
  active : bool;
  aim : bool;
  boxes : list Box;
  colors : list Store.loc;
  scales : list Store.loc;
  life : num;
  material : option Material;    (* None: null *)
  materialSrc : bool;            (* materialSrc is set *)
  particles : num;
  ptcShape : option ShapeType.t;
  size : num;
  tension : num;
  transform : bool;              (* transform is set *)
  params : option Params;        (* None: the three parameters are null *)
  listening : bool               (* registered as a render listener *)
}.

Definition set_active v s := mk v (aim s) (boxes s) (colors s) (scales s) (life s) (material s) (materialSrc s) (particles s) (ptcShape s) (size s) (tension s) (transform s) (params s) (listening s).
Definition set_colors v s := mk (active s) (aim s) (boxes s) v (scales s) (life s) (material s) (materialSrc s) (particles s) (ptcShape s) (size s) (tension s) (transform s) (params s) (listening s).
Definition set_scales v s := mk (active s) (aim s) (boxes s) (colors s) v (life s) (material s) (materialSrc s) (particles s) (ptcShape s) (size s) (tension s) (transform s) (params s) (listening s).
Definition set_material v s := mk (active s) (aim s) (boxes s) (colors s) (scales s) (life s) v (materialSrc s) (particles s) (ptcShape s) (size s) (tension s) (transform s) (params s) (listening s).
Definition set_shape sh v s := mk (active s) (aim s) (boxes s) (colors s) (scales s) (life s) (material s) (materialSrc s) (particles s) sh (size s) (tension s) v (params s) (listening s).
Definition set_params v s := mk (active s) (aim s) (boxes s) (colors s) (scales s) (life s) (material s) (materialSrc s) (particles s) (ptcShape s) (size s) (tension s) (transform s) v (listening s).
Definition set_materialSrc v s := mk (active s) (aim s) (boxes s) (colors s) (scales s) (life s) (material s) v (particles s) (ptcShape s) (size s) (tension s) (transform s) (params s) (listening s).
Definition set_listening v s := mk (active s) (aim s) (boxes s) (colors s) (scales s) (life s) (material s) (materialSrc s) (particles s) (ptcShape s) (size s) (tension s) (transform s) (params s) v.

Definition set_time v (p : Params) := mkParams v (maxTimeParam p) (decParam p).
Definition set_maxTime v (p : Params) := mkParams (timeParam p) v (decParam p).
Definition set_dec v (p : Params) := mkParams (timeParam p) (maxTimeParam p) v.

(** The uniforms of the material [m] of the system [s]. *)
Definition uniforms_of (s : t) (m : Material) : Uniforms :=
  match m with
  | Another u => u
  | Owner =>
      match params s with
      | Some p => mkUniforms (Some (timeParam p)) (Some (maxTimeParam p)) (Some (decParam p)) true
      | None => mkUniforms None None None false
      end
  end.

(** GpuParticleCurveSystem.prototype.setupShaders, as far as the state of
    this model goes: nothing without material, shader sources, two boxes
    and transform; otherwise the uniforms of the material are made anew,
    [sysTime], [ptcMaxTime] and [ptcDec] with the values that the material
    had for them, or with 1.1, 3.0 and 1.0 where it had none, and the
    three parameters refer to them.  The composition of the shader texts
    is not modelled; it reads the colors and scales and does not write
    them. *)
Definition setupShaders (s : t) : t :=
  match material s with
  | Some m =>
      if (negb (materialSrc s) || (length (boxes s) <? 2)%nat || negb (transform s))%bool then s
      else
        let u := uniforms_of s m in
        set_material (Some Owner)
          (set_params (Some (mkParams (default (Fin (11 # 10)) (u_time u))
                                      (default (Fin 3) (u_maxTime u))
                                      (default (Fin 1) (u_dec u)))) s)
  | None => s
  end.

(** The body shared by [setColorKeys] and [setScaleKeys]: the array that
    the system stores, and the store after the writes. *)
Definition normalize_keys (keys : list Store.loc) (st : Store.t)
    : option (list Store.loc * Store.t) :=
  let len := length keys in
  if (len =? 1)%nat then
    k0 ← keys !! 0%nat;
    o ← Store.get k0 st;
    let clr := Store.value o in
    let '(a, st) := Store.alloc (Store.mkKey (Fin 0) clr) st in
    let '(b, st) := Store.alloc (Store.mkKey (Fin 1) clr) st in
    Some ([a; b], st)
  else if (1 <? len)%nat then
    k0 ← keys !! 0%nat;
    st ← Store.set_key k0 (Fin 0) st;
    kl ← keys !! (len - 1)%nat;
    st ← Store.set_key kl (Fin 1) st;
    Some (keys, st)
  else Some ([], st).

(** GpuParticleCurveSystem.prototype.setColorKeys *)
Definition setColorKeys (colorKeys : list Store.loc) (st : Store.t) (s : t)
    : option (Store.t * t) :=
  '(stored, st) ← normalize_keys colorKeys st;
  Some (st, setupShaders (set_colors stored s)).

(** GpuParticleCurveSystem.prototype.setScaleKeys *)
Definition setScaleKeys (scaleKeys : list Store.loc) (st : Store.t) (s : t)
    : option (Store.t * t) :=
  '(stored, st) ← normalize_keys scaleKeys st;
  Some (st, setupShaders (set_scales stored s)).

(** The new key objects that [setColors] and [setScales] make of a list of
    values: evenly spaced keys from 0. *)
Definition alloc_even_keys (values : list (list num)) (st : Store.t)
    : list Store.loc * Store.t :=
  let len := length values in
  let step := if (len =? 1)%nat then Fin 1 else (Fin 1 / (of_nat len - Fin 1))%num in
  fold_left (fun '(keys, st) '(i, v) =>
               let '(l, st) := Store.alloc (Store.mkKey (of_nat i * step)%num v) st in
               (keys ++ [l], st))
            (imap pair values) ([], st).

(** GpuParticleCurveSystem.prototype.setColors and setScales *)
Definition setColors (values : list (list num)) (st : Store.t) (s : t)
    : option (Store.t * t) :=
  let '(keys, st) := alloc_even_keys values st in
  setColorKeys keys st s.

Definition setScales (values : list (list num)) (st : Store.t) (s : t)
    : option (Store.t * t) :=
  let '(keys, st) := alloc_even_keys values st in
  setScaleKeys keys st s.

(** GpuParticleCurveSystem.prototype.setMaterial, as far as the state of
    this model goes. *)
Definition setMaterial (m : Material) (s : t) : t :=
  setupShaders (set_materialSrc true (set_material (Some m) s)).

(** GpuParticleCurveSystem.prototype.setParticleShape, as far as the state
    of this model goes: the transform is made anew, with the material of
    the system, or with a new one when the system has none. *)
Definition setParticleShape (ty : ShapeType.t) (s : t) : t :=
  let s := set_shape (Some ty) false s in
  let s := set_material (Some (default newMaterial (material s))) s in
  let s := mk (active s) (aim s) (boxes s) (colors s) (scales s) (life s) (material s)
              (materialSrc s) (nor (particles s) (Fin 1)) (ptcShape s) (size s) (tension s) true
              (params s) (listening s) in
  setupShaders s.

(** GpuParticleCurveSystem.prototype.loadConfig *)
Definition loadConfig (cfg : Cfg) (st : Store.t) (s : t) : option (Store.t * t) :=
  let q_or := ParticleCurveSystem.q_or in
  let s := mk (active s) (default false (cfg_aim cfg)) (default [] (cfg_boxes cfg))
              (colors s) (scales s) (q_or (cfg_life cfg) (Fin 5)) (material s) (materialSrc s)
              (q_or (cfg_particleCount cfg) (Fin 1)) (ptcShape s)
              (q_or (cfg_particleSize cfg) (Fin 1)) (q_or (cfg_tension cfg) (Fin 0))
              (transform s) (params s) (listening s) in
  '(st, s) ←
    match cfg_colorKeys cfg, cfg_colors cfg with
    | Some cks, _ => setColorKeys cks st s
    | None, Some cs => setColors cs st s
    | None, None => Some (st, set_colors [] s)
    end;
  '(st, s) ←
    match cfg_scaleKeys cfg, cfg_scales cfg with
    | Some sks, _ => setScaleKeys sks st s
    | None, Some ss => setScales ss st s
    | None, None => Some (st, set_scales [] s)
    end;
  let s := setMaterial (default newMaterial (cfg_material cfg)) s in
  Some (st, setParticleShape (default ShapeType.CUBE (cfg_particleShape cfg)) s).

(** The constructor [GpuParticleCurveSystem(client, opt_cfg)] *)
Definition new (opt_cfg : option Cfg) (st : Store.t) : option (Store.t * t) :=
  let s := mk false false [] [] [] (Fin 0) None false (Fin 0) None (Fin 0) (Fin 0) false None false in
  match opt_cfg with
  | Some cfg => loadConfig cfg st s
  | None => Some (st, s)
  end.

(** GpuParticleCurveSystem.prototype.setLife *)
Definition setLife (l : num) (s : t) : t :=
  if ngt l (Fin 0)
  then mk (active s) (aim s) (boxes s) (colors s) (scales s) l (material s) (materialSrc s)
          (particles s)
          (ptcShape s) (size s) (tension s) (transform s) (params s) (listening s)
  else s.

Definition set_aim v s := mk (active s) v (boxes s) (colors s) (scales s) (life s) (material s) (materialSrc s) (particles s) (ptcShape s) (size s) (tension s) (transform s) (params s) (listening s).
Definition set_boxes v s := mk (active s) (aim s) v (colors s) (scales s) (life s) (material s) (materialSrc s) (particles s) (ptcShape s) (size s) (tension s) (transform s) (params s) (listening s).

(** GpuParticleCurveSystem.prototype.setAim *)
Definition setAim (a : bool) (s : t) : t :=
  if eqb (aim s) a then s else setupShaders (set_aim a s).

(** Whether the material of the system has the uniforms [minXYZ] and
    [maxXYZ], which [setupShaders] makes together with the three
    parameters. *)
Definition bounds (s : t) : bool :=
  match material s with
  | Some m => u_bounds (uniforms_of s m)
  | None => false
  end.

(** [setupBounds(this.material, this.boxes)], as far as the state of this
    model goes: it writes the uniforms [minXYZ] and [maxXYZ] of the
    material; without them, or without a material, the write is a
    TypeError. *)
Definition setupBounds (s : t) : option t :=
  if bounds s then Some s else None.

(** GpuParticleCurveSystem.prototype.setBoxes *)
Definition setBoxes (bxs : list Box) (s : t) : option t :=
  let oldLength := length (boxes s) in
  let s := set_boxes bxs s in
  if (length (boxes s) =? oldLength)%nat then setupBounds s
  else Some (setupShaders s).

(** GpuParticleCurveSystem.prototype.translate *)
Definition translate (x y z : Q) (s : t) : option t :=
  let s := set_boxes
             (map (fun b => mkBox ((min b).1.1 + x, (min b).1.2 + y, (min b).2 + z)
                                  ((max b).1.1 + x, (max b).1.2 + y, (max b).2 + z))
                  (boxes s)) s in
  setupBounds s.

(** GpuParticleCurveSystem.prototype.onRender; [None] is a TypeError (the
    parameters are null) or a loop that does not end. *)
Definition onRender (elapsedTime : num) (s : t) : option t :=
  p ← params s;
  let delta := (elapsedTime / life s)%num in
  let newTime := (timeParam p + delta)%num in
  newTime ← while_above_decrement (fuel_for newTime (Fin 1)) newTime (Fin 1);
  Some (set_params (Some (set_time newTime p)) s).

(** GpuParticleCurveSystem.prototype.start; [None] is a TypeError (the
    parameters are null).  Here and below a call that throws has no
    result: what it has assigned before the throw is not modelled. *)
Definition start (s : t) : option t :=
  if negb (active s) then
    p ← params s;
    Some (set_listening true
            (set_params (Some (set_maxTime (Fin 1) (set_time (Fin 1) p)))
               (set_active true s)))
  else Some s.

(** GpuParticleCurveSystem.prototype.stop *)
Definition stop (s : t) : option t :=
  if active s then
    p ← params s;
    Some (set_listening false
            (set_params (Some (set_maxTime (Fin 3) (set_time (Fin (11 # 10)) p)))
               (set_active false s)))
  else Some s.

(** GpuParticleCurveSystem.prototype.pause *)
Definition pause (s : t) : t :=
  if active s then set_active false (set_listening false s) else s.

(** GpuParticleCurveSystem.prototype.play *)
Definition play (s : t) : option t :=
  if negb (active s) then
    p ← params s;
    if nseq (maxTimeParam p) (Fin 1)
    then Some (set_active true (set_listening true s))
    else start s
  else Some s.

End GpuParticleCurveSystem.

(* ===================================================================== *)
(** * GpuParticleTrail                                                    *)
(* ===================================================================== *)

Module GpuParticleTrail.

Module G := GpuParticleCurveSystem.

(** A GpuParticleTrail: the fields of the GpuParticleCurveSystem that it
    extends, and its own. *)
Record t : Type := mk {
  base : G.t;
  endTime : num;
  starting : bool;
  stopping : bool
}.

(** The constructor [GpuParticleTrail(client, opt_cfg)] *)
Definition new (opt_cfg : option G.Cfg) (st : Store.t) : option (Store.t * t) :=
  '(st, b) ← G.new opt_cfg st;
  Some (st, mk b (Fin 1) false false).

(** GpuParticleTrail.prototype.onRender; [None] is a TypeError (the
    parameters are null) or a loop that does not end. *)
Definition onRender (elapsedTime : num) (s : t) : option t :=
  p ← G.params (base s);
  let delta := (elapsedTime / G.life (base s))%num in
  let newTime := (G.timeParam p + delta)%num in
  '(s, p, newTime) ←
    (if ngt newTime (endTime s) then
       if stopping s then
         Some (mk (G.set_listening false (G.set_active false (base s)))
                  (endTime s) (starting s) false,
               G.set_maxTime (Fin 3) p,
               Fin (11 # 10))
       else
         let '(s, p) :=
           if starting s
           then (mk (base s) (Fin 1) false (stopping s),
                 G.set_maxTime (Fin 1) (G.set_dec (Fin 1) p))
           else (s, p) in
         newTime ← decrement_while_above (fuel_for newTime (endTime s)) newTime (endTime s);
         Some (s, p, newTime)
     else Some (s, p, newTime));
  let p := if stopping s then G.set_maxTime (G.maxTimeParam p + delta)%num p else p in
  let p := G.set_time newTime p in
  Some (mk (G.set_params (Some p) (base s)) (endTime s) (starting s) (stopping s)).

(** GpuParticleTrail.prototype.start *)
Definition start (s : t) : option t :=
  let s :=
    if stopping s
    then mk (G.set_active false (G.set_listening false (base s)))
            (endTime s) (starting s) false
    else s in
  if negb (G.active (base s)) then
    p ← G.params (base s);
    let p := G.set_time (Fin 1) (G.set_maxTime (Fin 2) (G.set_dec (Fin 2) p)) in
    Some (mk (G.set_listening true (G.set_params (Some p) (G.set_active true (base s))))
             (Fin 2) true false)
  else Some s.

(** GpuParticleTrail.prototype.play *)
Definition play (s : t) : option t :=
  if negb (G.active (base s)) then
    let resumed := mk (G.set_active true (G.set_listening true (base s)))
                      (endTime s) (starting s) (stopping s) in
    if (starting s || stopping s)%bool then Some resumed
    else
      p ← G.params (base s);
      if nseq (G.maxTimeParam p) (Fin 1) then Some resumed else start s
  else Some s.

(** GpuParticleTrail.prototype.stop *)
Definition stop (opt_hard : bool) (s : t) : option t :=
  if G.active (base s) then
    s ←
      (if opt_hard then Some (mk (base s) (Fin (-1)) (starting s) (stopping s))
       else if negb (stopping s) then
         p ← G.params (base s);
         Some (mk (base s) (G.timeParam p + Fin 1)%num (starting s) (stopping s))
       else Some s);
    Some (mk (base s) (endTime s) false true)
  else Some s.

End GpuParticleTrail.

(* ===================================================================== *)
(** * modifyGeometry                                                      *)
(* ===================================================================== *)

Module Geometry.

(** A THREE.Face3 or THREE.Face4: the indices of its vertices. *)
Inductive Face : Type :=
  | Face3 (a b c : nat)
  | Face4 (a b c d : nat).

(** A THREE.Geometry: the positions of the vertices, the faces and the
    layers of texture coordinates. *)
Record t (U : Type) : Type := mk {
  vertices : list point;
  faces : list Face;
  faceVertexUvs : list U
}.
Arguments mk {U}.
Arguments vertices {U}.
Arguments faces {U}.
Arguments faceVertexUvs {U}.

(** The result of [modifyGeometry], with the geometry that it has
    modified in place. *)
Record Result (U : Type) : Type := mkResult {
  geometry : t U;
  ids : list nat;
  offsets : list Q;
  idOffsets : list (nat * Q)
}.
Arguments mkResult {U}.
Arguments geometry {U}.
Arguments ids {U}.
Arguments offsets {U}.
Arguments idOffsets {U}.

(** The copy of a face for the vertices that start at [vertOffset]. *)
Definition shift (vertOffset : nat) (f : Face) : Face :=
  match f with
  | Face3 a b c => Face3 (a + vertOffset) (b + vertOffset) (c + vertOffset)
  | Face4 a b c d =>
      Face4 (a + vertOffset) (b + vertOffset) (c + vertOffset) (d + vertOffset)
  end.

(** [for (j = 0; j < n; j++) arr.push(v)] *)
Definition push_all {A} (n : nat) (v : A) (arr : list A) : list A :=
  for_range 0 n (fun _ arr => arr ++ [v]) arr.

(** [modifyGeometry(geometry, numParticles)] for a finite number of
    particles: the loop [for (i = 1; i < numParticles; i++)] makes one
    copy of the vertices, the faces and the texture coordinates that the
    geometry had at the call for each further particle. *)
Definition modifyGeometry {U} (g : t U) (numParticles : Q) : Result U :=
  let verts := vertices g in
  let faces0 := faces g in
  let faceVertexUvs0 := faceVertexUvs g in
  let numVerts := length verts in
  let numFaces := length faces0 in
  let r := mkResult g (push_all numVerts 0%nat []) (push_all numVerts 0 [])
                    (push_all numVerts (0%nat, 0) []) in
  for_range 1 (Z.to_nat (Qceiling numParticles)) (fun i r =>
    let vertOffset := (i * numVerts)%nat in
    let timeOffset := inject_Z (Z.of_nat i) / numParticles in
    let '(ids1, offsets1, idOffsets1, newVerts) :=
      for_range 0 numVerts (fun j '(ids1, offsets1, idOffsets1, newVerts) =>
        (ids1 ++ [i], offsets1 ++ [timeOffset], idOffsets1 ++ [(i, timeOffset)],
         newVerts ++ [default (NaN, NaN, NaN) (verts !! j)]))
        (ids r, offsets r, idOffsets r, []) in
    let newFaces :=
      for_range 0 numFaces (fun j newFaces =>
        newFaces ++ [shift vertOffset (default (Face3 0 0 0) (faces0 !! j))]) [] in
    let g := geometry r in
    mkResult (mk (vertices g ++ newVerts) (Geometry.faces g ++ newFaces)
                 (faceVertexUvs g ++ faceVertexUvs0))
             ids1 offsets1 idOffsets1) r.

End Geometry.
(* ===================================================================== *)
(** * Auxiliary definitions for the statements                            *)
(* ===================================================================== *)

Module CurveAux.
Import Curve.

(** The curve that the constructor starts from. *)
Definition fresh (ty0 : option CurveType.t) : t :=
  mk 0 (Fin 0) ty0 [] [] [] [] [] [] [] Ibase.

(** The interpolation function that [setType] binds for a type. *)
Definition fn_of (ty : CurveType.t) (old : interp_fn) : interp_fn :=
  match ty with
  | CurveType.Linear => Ilinear
  | CurveType.Bezier => Ibezier
  | CurveType.CubicHermite | CurveType.Cardinal => IcubicHermite
  | CurveType.LinearNorm => IlinearNorm
  | CurveType.Custom => old
  end.

(** The type that [loadConfig] selects: [cfg.type || this.type || Linear]. *)
Definition selected (cfg_ty cur : option CurveType.t) : CurveType.t :=
  default CurveType.Linear
    (CurveType.or (CurveType.or cfg_ty cur) (Some CurveType.Linear)).

(** The weight that [loadConfig] stores at index [i]. *)
Definition weight_of (ws : option (list (option Q))) (i : nat) : Q :=
  match ws with
  | Some ws => match ws !! i with Some (Some w) => w | _ => 1 end
  | None => 1
  end.

(** One coordinate of the tangent that [loadConfig] reads from the
    configuration at index [i], before [setTangents]. *)
Definition tangent_of (ts : option (list (option (Q * Q * Q)))) (sel : Q * Q * Q -> Q)
    (i : nat) : num :=
  match ts with
  | Some ts =>
      match ts !! i with
      | Some (Some tg) => nor (Fin (sel tg)) (Fin 0)
      | _ => Fin 0
      end
  | None => Fin 0
  end.

Definition empty_cfg : Cfg := mkCfg None None None None None.

(** The curve before the final [setTangents] of [loadConfig], when the
    arrays of the curve were empty. *)
Definition loaded (pts : list (Q * Q * Q)) (cfg : Cfg) (c : t) : t :=
  let ty := selected (cfg_type cfg) (type c) in
  let n := length pts in
  mk n
     (match cfg_tension cfg with
      | Some tn => if truthy (Fin tn) then Fin tn else tension c
      | None => tension c
      end)
     (Some ty)
     (map (fun i => Fin (weight_of (cfg_weights cfg) i)) (seq 0 n))
     (map (fun p => Fin p.1.1) pts)
     (map (tangent_of (cfg_tangents cfg) (fun p => p.1.1)) (seq 0 n))
     (map (fun p => Fin p.1.2) pts)
     (map (tangent_of (cfg_tangents cfg) (fun p => p.1.2)) (seq 0 n))
     (map (fun p => Fin p.2) pts)
     (map (tangent_of (cfg_tangents cfg) (fun p => p.2)) (seq 0 n))
     (fn_of ty (interpolate_fn c)).

(** The waypoint of index [k] of a list of waypoints. *)
Definition waypoint (pts : list (Q * Q * Q)) (k : nat) : Q * Q * Q :=
  default (0, 0, 0) (pts !! k).

(** The neighbours of the waypoint [i] among [n] waypoints, the first and
    the last waypoint being their own neighbour at the ends. *)
Definition prev_index (i : nat) : nat := (i - 1)%nat.
Definition next_index (n i : nat) : nat := if (i + 1 <? n)%nat then (i + 1)%nat else (n - 1)%nat.

(** The tangent of a cardinal curve on one axis. *)
Definition cardinal_tangent (tau prev next : Q) : Q := (1 - tau) * (next - prev) / 2.

(** The pair [(ndx, tt)] that [linear] and [cubicHermite] compute. *)
Definition segment (c : t) (t : num) : num * num :=
  let n := (of_nat (count c) - Fin 1)%num in
  let ndx := floor (t * n) in
  let ndx := if nge ndx n then (n - Fin 1)%num else ndx in
  (ndx, ((t - ndx / n) / ((ndx + Fin 1) / n - ndx / n))%num).

(** The curve holds the waypoints [pts]. *)
Definition has_points (c : t) (pts : list (Q * Q * Q)) : Prop :=
  count c = length pts
  /\ xpts c = map (fun p => Fin p.1.1) pts
  /\ ypts c = map (fun p => Fin p.1.2) pts
  /\ zpts c = map (fun p => Fin p.2) pts.

(** The coordinate arrays of the curve hold the points [old] and nothing
    else, whatever the number of waypoints of the curve is. *)
Definition stores (c : t) (old : list (Q * Q * Q)) : Prop :=
  xpts c = map (fun p => Fin p.1.1) old
  /\ ypts c = map (fun p => Fin p.1.2) old
  /\ zpts c = map (fun p => Fin p.2) old.

(** The curve holds a finite tangent at every waypoint. *)
Definition finite_tangents (c : t) : Prop :=
  forall i, (i < count c)%nat ->
    exists tx ty tz, at_ (xtans c) i = Fin tx /\ at_ (ytans c) i = Fin ty
                     /\ at_ (ztans c) i = Fin tz.

(** The curve holds the weight [wf i] at every waypoint [i]. *)
Definition has_weights (c : t) (wf : nat -> Q) : Prop :=
  weights c = map (fun i => Fin (wf i)) (seq 0 (count c)).

(** The body of the loop of [bezier]. *)
Definition bezier_body (c : t) (t : num) (i : nat) (s : num * num * num * num) :=
  let '(x, y, z, w) := s in
  let fac := (at_ (weights c) i * utils.choose (count c - 1) i * pow t i
              * pow (Fin 1 - t) (count c - 1 - i))%num in
  ((x + fac * at_ (xpts c) i)%num, (y + fac * at_ (ypts c) i)%num,
   (z + fac * at_ (zpts c) i)%num, (w + fac)%num).

(** What the statements below use of the distance function of the host:
    the distance of two points with finite coordinates is a finite number
    that is not negative. *)
Definition distance_ok (distance : point -> point -> num) : Prop :=
  forall p q : Q * Q * Q, exists d, distance (Fin3 p) (Fin3 q) = Fin d /\ 0 <= d.

(** Consecutive waypoints are at a distance that is not zero. *)
Definition apart (distance : point -> point -> num) (pts : list (Q * Q * Q)) : Prop :=
  forall i, (S i < length pts)%nat ->
    ~ distance (Fin3 (waypoint pts i)) (Fin3 (waypoint pts (S i))) =~ Fin 0.

Definition increasing (Ds : list Q) : Prop :=
  forall j, (S j < length Ds)%nat -> nth j Ds 0 < nth (S j) Ds 0.

(** A distance function to run the model with: the Euclidean distance of
    two points with finite coordinates where it is rational, and the
    root of the numerator and of the denominator, both rounded down,
    elsewhere. *)
Definition rational_distance (p q : point) : num :=
  match p, q with
  | (Fin px, Fin py, Fin pz), (Fin qx, Fin qy, Fin qz) =>
      let s := Qred ((px - qx) * (px - qx) + (py - qy) * (py - qy)
                     + (pz - qz) * (pz - qz)) in
      Fin (Z.sqrt (Qnum s) # Pos.sqrt (Qden s))
  | _, _ => NaN
  end.

End CurveAux.

(** [n] calls of a method in a row. *)
Fixpoint repeatM {S : Type} (n : nat) (f : S -> M S) (s : S) : M S :=
  match n with
  | O => ret s
  | Datatypes.S n' => do s' <- f s; repeatM n' f s'
  end.

Module ParticleAux.
Import Particle.

(** The fields of a particle that the setting of a ramp leaves alone. *)
Definition core (p : t) :=
  (transform p, frame p, lastFrame p, destroyed p, totalLoops p, loops p, ready p, active p).

(** The colors of the frames from 1 up to [n] (excluded) are there. *)
Definition colors_below (n : nat) (p : t) : Prop :=
  forall j, (1 <= j < n)%nat -> is_Some (colors p !! j).

(** What the constructor establishes for a particle over [npoints] points. *)
Definition constructed (npoints : nat) (p : t) : Prop :=
  is_Some (transform p)
  /\ frame p = 1%Z
  /\ lastFrame p = (Z.of_nat npoints - 2)%Z
  /\ destroyed p = false
  /\ totalLoops p = None
  /\ ready p = true
  /\ active p = false
  /\ colors_below (frames_end (lastFrame p)) p.

(** A particle in flight: active, at the frame [f] of a run with [l]
    loops to go. *)
Definition running (L f : Z) (l : num) (p : t) : Prop :=
  active p = true
  /\ ready p = false
  /\ is_Some (transform p)
  /\ lastFrame p = L
  /\ frame p = f
  /\ loops p = Some l
  /\ destroyed p = false
  /\ totalLoops p = None
  /\ colors_below (frames_end L) p.

(** A particle after [reset]: ready to be launched, its loop counter set
    to [totalLoops], which no method assigns. *)
Definition at_rest (p : t) : Prop :=
  ready p = true /\ active p = false /\ destroyed p = false
  /\ frame p = 1%Z /\ loops p = None
  /\ (exists tr, transform p = Some tr /\ visible tr = false).

End ParticleAux.

(** A source of random numbers to run the model with. *)
Definition half_random (k : nat) : Q := 1 # 2.

Module RampAux.
(** The keys of a ramp are in ascending order. *)
Definition ascending (keySet : list Key.t) : Prop :=
  forall i a b, keySet !! i = Some a -> keySet !! S i = Some b ->
    nle (Key.key a) (Key.key b) = true.

(** The ramp that [setColors] takes when it is given none. *)
Definition default_colorKeys : list Key.t :=
  [Key.mk (Fin 0) [Fin 0; Fin 0; Fin 0; Fin 1] Key.NoRange;
   Key.mk (Fin 1) [Fin 0; Fin 0; Fin 0; Fin 1] Key.NoRange].
End RampAux.


Module SystemAux.
Import ParticleCurveSystem.

(** The values that the constructor takes from the configuration. *)
Definition max_particles (cfg : Cfg) : nat :=
  match cfg_particleCount cfg with
  | Some (S n) => S n
  | _ => 25%nat
  end.

Definition life_of (cfg : Cfg) : num := q_or (cfg_life cfg) (Fin 5).

Definition frames_of (cfg : Cfg) (fps : Q) : num :=
  q_or (cfg_frames cfg) (life_of cfg * Fin fps)%num.

(** The fields of the system that hold the schedule of the emission and
    the configuration, which the loops of the constructor leave alone. *)
Definition schedule (s : t) :=
  (active s, pLife s, boxes s, maxParticles s, maxRate s, pRate s, pTimer s,
   pTimerMax s, pIndex s, shapes s, frames s).

(** The slots of the pool below [n] that hold a particle. *)
Definition nonnull_slots (s : t) (n : nat) : list nat :=
  List.filter (fun i => match particles s !! i with Some (Some _) => true | _ => false end)
              (seq 0 n).

(** The body of the first loop of [onRender]. *)
Definition update_slot (i : nat) (st : t * list call) : M (t * list call) :=
  let '(s, tr) := st in
  match particles s !! i with
  | Some (Some p) =>
      do p' <- Particle.update p;
      ret (set_particles (<[i := Some p']> (particles s)) s, tr ++ [CallUpdate i])
  | _ => ret (s, tr)
  end.

(** The part of [onRender] after the first loop. *)
Definition emit (elapsedTime : num) (st : t * list call) : M (t * list call) :=
  let '(s, tr) := st in
  if negb (active s) then ret (s, tr) else
  let s := set_pTimer (pTimer s + elapsedTime)%num s in
  if nge (pTimer s) (pTimerMax s) then
    let s := set_pTimer (Fin 0) s in
    do slot <- defined (particles s !! pIndex s);
    do p <- defined slot;
    let '(s, tr) :=
      if Particle.ready p
      then (set_particles (<[pIndex s := Some (Particle.run (Fin 1) p)]> (particles s)) s,
            tr ++ [CallRun (pIndex s) (Fin 1)])
      else (s, tr) in
    let s := set_pIndex (pIndex s + 1)%nat s in
    let s := if (maxParticles s <=? pIndex s)%nat then set_pIndex 0%nat s else s in
    ret (s, tr)
  else ret (s, tr).

(** The update of the slots below [n] has been made: the particles of
    these slots are the updated ones, the other slots and fields are as
    they were. *)
Definition updated_below (k : nat) (s : t) (n : nat) (s1 : t) : Prop :=
  schedule s1 = schedule s
  /\ length (particles s1) = length (particles s)
  /\ (forall i p, (i < n)%nat -> particles s !! i = Some (Some p) ->
        exists p1, Particle.update p k = Some (p1, k)
                   /\ particles s1 !! i = Some (Some p1))
  /\ (forall i, (n <= i)%nat -> particles s1 !! i = particles s !! i)
  /\ (forall i, particles s !! i = Some None -> particles s1 !! i = Some None).

(** The state that the constructor makes before its loops. *)
Definition initial (cfg : Cfg) (fps : Q) : t :=
  let maxRate := ceil (of_nat (max_particles cfg) / life_of cfg) in
  mk false (life_of cfg) (cfg_boxes cfg) (max_particles cfg) maxRate []
     maxRate (Fin 0) (Fin 1 / maxRate)%num 0
     [default ShapeType.CUBE (cfg_particleShape cfg)]
     (q_or (cfg_particleSize cfg) (Fin 1)) false [] (frames_of cfg fps).

(** The ramp that the constructor passes to the particles. *)
Definition ramp_of (keys : option (list Key.t)) (values : option (list (list num)))
    : option (list Key.t) :=
  match keys with
  | Some ks => Some ks
  | None => even_keys <$> values
  end.

Section with_environment.

Variable random : nat -> Q.
Variable distance : point -> point -> num.

(** The bodies of the two loops of the constructor. *)
Definition curves_loop (cfg : Cfg) (j : nat) (s : t) : M t :=
  do curve <- newCurve random (q_or (cfg_tension cfg) (Fin 0)) (boxes s);
  let pts := for_range 0 (iterations (frames s))
               (fun i pts =>
                  aset pts i (Curve.interpolate distance curve (of_nat i / frames s)%num)) [] in
  ret (set_points (aset (points s) j pts) s).

Definition particles_loop (cfg : Cfg) (colorKeys scaleKeys : option (list Key.t))
    (i : nat) (s : t) : M t :=
  do pts <- defined (points s !! i);
  do p <- Particle.new random pts colorKeys scaleKeys (cfg_aim cfg);
  do p <- for_rangeM 0 (length (shapes s)) (fun _ p => Particle.addShape p) p;
  ret (set_particles (aset (particles s) i (Some p)) s).

End with_environment.

(** Two configurations to run the model with, over two boxes and with 5
    frames: a pool of one particle, and a pool of 4 particles with a life
    of 2 seconds. *)
Definition one_particle : Cfg :=
  mkCfg None [mkBox (0, 0, 0) (1, 1, 1); mkBox (9, 0, 0) (10, 1, 1)]
        (Some 1%nat) None None (Some 5) None None None None None false.

Definition four_particles : Cfg :=
  mkCfg (Some 2) [mkBox (0, 0, 0) (1, 1, 1); mkBox (9, 0, 0) (10, 1, 1)]
        (Some 4%nat) None None (Some 5) None None None None None false.

(** The system of a configuration, started, after [n] ticks of one
    second. *)
Definition ticking (cfg : Cfg) (n : nat) : M t :=
  do s <- new half_random CurveAux.rational_distance cfg 60;
  repeatM n (fun s => do r <- onRender (Fin 1) s; ret r.1) (start s).




(** The points of a particle with the frames 1, 2 and 3. *)
Definition five_points : list point :=
  [(Fin 0, Fin 0, Fin 0); (Fin 1, Fin 0, Fin 0); (Fin 2, Fin 0, Fin 0);
   (Fin 3, Fin 0, Fin 0); (Fin 4, Fin 0, Fin 0)].

End SystemAux.

Module GpuAux.
Module G := GpuParticleCurveSystem.

(** The key and the value of the object that the entry [i] of an array of
    keys refers to. *)
Definition stored_key (st : Store.t) (keys : list Store.loc) (i : nat) : option num :=
  l ← keys !! i; o ← Store.get l st; Some (Store.key o).

Definition stored_value (st : Store.t) (keys : list Store.loc) (i : nat)
    : option (list num) :=
  l ← keys !! i; o ← Store.get l st; Some (Store.value o).

(** What [setColorKeys] and [setScaleKeys] do with their argument, for a
    setter [set] and the field [field] that it assigns. *)
Definition normalises
    (set : list Store.loc -> Store.t -> G.t -> option (Store.t * G.t))
    (field : G.t -> list Store.loc) : Prop :=
  forall (st : Store.t) (s : G.t),
    (exists s', set [] st s = Some (st, s') /\ field s' = [])
    /\ (forall k0 o, Store.get k0 st = Some o ->
          exists st' s' a b,
            set [k0] st s = Some (st', s') /\ field s' = [a; b]
            /\ Store.get a st' = Some (Store.mkKey (Fin 0) (Store.value o))
            /\ Store.get b st' = Some (Store.mkKey (Fin 1) (Store.value o)))
    /\ (forall k0 mid kl o0 ol,
          k0 <> kl -> k0 ∉ mid -> kl ∉ mid ->
          Store.get k0 st = Some o0 -> Store.get kl st = Some ol ->
          exists st' s',
            set (k0 :: mid ++ [kl]) st s = Some (st', s')
            /\ field s' = k0 :: mid ++ [kl]
            /\ Store.get k0 st' = Some (Store.mkKey (Fin 0) (Store.value o0))
            /\ Store.get kl st' = Some (Store.mkKey (Fin 1) (Store.value ol))
            /\ forall m, m ∈ mid -> Store.get m st' = Store.get m st).

(** A store to run the model with: three key objects, at the addresses 0,
    1 and 2. *)
Definition three_keys : Store.t :=
  let st := (Store.alloc (Store.mkKey (Fin (2 # 10)) [Fin 1; Fin 0; Fin 0; Fin 1]) Store.empty).2 in
  let st := (Store.alloc (Store.mkKey (Fin (5 # 10)) [Fin 0; Fin 1; Fin 0; Fin 1]) st).2 in
  (Store.alloc (Store.mkKey (Fin (9 # 10)) [Fin 0; Fin 0; Fin 1; Fin 1]) st).2.

(** The system that the constructor makes without a configuration. *)
Definition bare : G.t :=
  G.mk false false [] [] [] (Fin 0) None false (Fin 0) None (Fin 0) (Fin 0) false None false.

End GpuAux.

Module TrailAux.
Module G := GpuParticleCurveSystem.
Import GpuParticleTrail.





End TrailAux.

(** [provide m] gives the value that the computation [m] returns as the
    witness of an existential statement. *)
Ltac provide m :=
  let v := eval vm_compute in m in
  lazymatch v with Some ?r => exists r end.

Module CurveMoreAux.
(** The blend [(1 - tt) * p + tt * q] of two waypoints, on each axis. *)
Definition blend (tt : Q) (p q : Q * Q * Q) : Q * Q * Q :=
  ((1 - tt) * p.1.1 + tt * q.1.1, (1 - tt) * p.1.2 + tt * q.1.2, (1 - tt) * p.2 + tt * q.2).
End CurveMoreAux.

Module ParticleMoreAux.
Import Particle.


End ParticleMoreAux.

Module RampMoreAux.

(** A ramp whose keys have no range, finite times and finite values of
    [d] components each. *)
Definition plain (d : nat) (cks : list Key.t) : Prop :=
  Forall (fun c => Key.range c = Key.NoRange /\ finite (Key.key c)
                   /\ length (Key.value c) = d /\ Forall finite (Key.value c)) cks.

(** Two values are the same, component by component. *)
Definition value_eq (u v : list num) : Prop := Forall2 num_eq u v.

(** A ramp to run the model with: from red at the key 0 to blue at the
    key 1. *)
Definition red_to_blue : list Key.t :=
  [Key.mk (Fin 0) [Fin 1; Fin 0; Fin 0; Fin 1] Key.NoRange;
   Key.mk (Fin 1) [Fin 0; Fin 0; Fin 1; Fin 1] Key.NoRange].

End RampMoreAux.

Module BoxAux.

(** A box whose minimum is not above its maximum, on every axis. *)
Definition proper (b : Box) : Prop :=
  (min b).1.1 <= (max b).1.1 /\ (min b).1.2 <= (max b).1.2 /\ (min b).2 <= (max b).2.

(** The point [pt] is in the box [b]. *)
Definition inside (b : Box) (pt : Q * Q * Q) : Prop :=
  ((min b).1.1 <= pt.1.1 <= (max b).1.1)
  /\ ((min b).1.2 <= pt.1.2 <= (max b).1.2)
  /\ ((min b).2 <= pt.2 <= (max b).2).

(** The values of [Math.random()] are in the interval from 0 (included)
    to 1 (excluded). *)
Definition unit_random (random : nat -> Q) : Prop := forall j, 0 <= random j /\ random j < 1.

End BoxAux.

Module PoolAux.
Import Particle ParticleCurveSystem.

(** A particle with a transform that has [n] children. *)
Definition shaped (n : nat) (p : Particle.t) : Prop :=
  exists tr, Particle.transform p = Some tr /\ length (children tr) = n.

(** Every slot of the pool holds a particle with a transform, and every
    particle has one child for each shape of the system. *)
Definition full_pool (s : t) : Prop :=
  length (particles s) = maxParticles s
  /\ forall i, (i < maxParticles s)%nat ->
       exists p, particles s !! i = Some (Some p) /\ shaped (length (shapes s)) p.

(** The boxes of the configurations to run the model with. *)
Definition two_boxes_apart : list Box :=
  [mkBox (0, 0, 0) (1, 1, 1); mkBox (9, 0, 0) (10, 1, 1)].

End PoolAux.

Module GpuMoreAux.
Module G := GpuParticleCurveSystem.
Import GpuAux.

(** The values that [setupShaders] gives the three parameters when it
    makes them for a material without these uniforms. *)
Definition defaults : G.Params := G.mkParams (Fin (11 # 10)) (Fin 3) (Fin 1).

(** The values that [setupShaders] gives the three parameters for a
    material with the uniforms [u]. *)
Definition made_of (u : G.Uniforms) : G.Params :=
  G.mkParams (default (Fin (11 # 10)) (G.u_time u)) (default (Fin 3) (G.u_maxTime u))
             (default (Fin 1) (G.u_dec u)).

(** The material that the constructor sets: the one of the configuration,
    or a new one. *)
Definition given_material (cfg : G.Cfg) : G.Material :=
  default G.newMaterial (G.cfg_material cfg).

(** The uniforms of a material as a system without parameters finds
    them. *)
Definition found_uniforms (m : G.Material) : G.Uniforms :=
  match m with
  | G.Another u => u
  | G.Owner => G.mkUniforms None None None false
  end.

(** What [setColors] and [setScales] do with a list of values, for a
    setter [set] and the field [field] that it assigns: the objects of the
    store are left as they are, and the field refers to new ones. *)
Definition even_ramp
    (set : list (list num) -> Store.t -> G.t -> option (Store.t * G.t))
    (field : G.t -> list Store.loc) : Prop :=
  forall (values : list (list num)) (st : Store.t) (s : G.t),
    exists st' s',
      set values st s = Some (st', s')
      /\ (forall l, (l < Store.next st)%nat -> Store.get l st' = Store.get l st)
      /\ (values = [] -> field s' = [])
      /\ (forall v, values = [v] ->
            length (field s') = 2%nat
            /\ stored_key st' (field s') 0 = Some (Fin 0)
            /\ stored_key st' (field s') 1 = Some (Fin 1)
            /\ stored_value st' (field s') 0 = Some v
            /\ stored_value st' (field s') 1 = Some v)
      /\ ((2 <= length values)%nat ->
            length (field s') = length values
            /\ forall i v, values !! i = Some v ->
                 stored_value st' (field s') i = Some v
                 /\ exists k, stored_key st' (field s') i = Some k
                      /\ k =~ Fin (inject_Z (Z.of_nat i)
                                   / (inject_Z (Z.of_nat (length values)) - 1))).

(** The box that [translate] makes of a box. *)
Definition shifted (x y z : Q) (b : Box) : Box :=
  mkBox ((min b).1.1 + x, (min b).1.2 + y, (min b).2 + z)
        ((max b).1.1 + x, (max b).1.2 + y, (max b).2 + z).

(** Boxes with numerically equal corners. *)
Definition box_eq (a b : Box) : Prop :=
  (min a).1.1 == (min b).1.1 /\ (min a).1.2 == (min b).1.2 /\ (min a).2 == (min b).2
  /\ (max a).1.1 == (max b).1.1 /\ (max a).1.2 == (max b).1.2 /\ (max a).2 == (max b).2.

(** A configuration with one box only. *)
Definition one_box : G.Cfg :=
  G.mkCfg None (Some [mkBox (0, 0, 0) (1, 1, 1)])
          (Some 5) None None None None None None None None None.

(** A system with parameters whose material is the one that has them,
    over one box. *)
Definition at_rest : G.t :=
  G.set_material (Some G.Owner)
    (G.set_boxes [mkBox (0, 0, 0) (1, 1, 1)] (G.set_params (Some defaults) bare)).

End GpuMoreAux.

Module TrailMoreAux.
Module G := GpuParticleCurveSystem.
Import GpuParticleTrail.

(** A trail that runs, out of its starting phase: active, with the
    parameters [p] and the end time 1. *)
Definition steady (p : G.Params) : t :=
  mk (G.mk true false [] [] [] (Fin 5) None false (Fin 0) None (Fin 0) (Fin 0) false
           (Some p) true)
     (Fin 1) false false.

End TrailMoreAux.

Module GeometryAux.
Import Geometry.

(** The number of copies of the vertices that the geometry has when
    [modifyGeometry] returns. *)
Definition copies (numParticles : Q) : nat :=
  Nat.max 1 (Z.to_nat (Qceiling numParticles)).

(** The blocks [f 0], ..., [f (c - 1)] one after the other. *)
Definition blocks {A} (f : nat -> list A) (c : nat) : list A :=
  concat (map f (seq 0 c)).

(** A face that refers to vertices below [n] only. *)
Definition in_range (n : nat) (f : Face) : Prop :=
  match f with
  | Face3 a b c => (a < n /\ b < n /\ c < n)%nat
  | Face4 a b c d => (a < n /\ b < n /\ c < n /\ d < n)%nat
  end.

(** The time offset of the particle [i]. *)
Definition offset_of (numParticles : Q) (i : nat) : Q :=
  if (i =? 0)%nat then 0 else inject_Z (Z.of_nat i) / numParticles.

(** A geometry to run the model with: one triangle. *)
Definition triangle : t unit :=
  mk [(Fin 0, Fin 0, Fin 0); (Fin 1, Fin 0, Fin 0); (Fin 0, Fin 1, Fin 0)]
     [Face3 0 1 2] [tt].

End GeometryAux.
(* ===================================================================== *)
(** * Facts on numbers, loops and arrays                                  *)
(* ===================================================================== *)

Section num_facts.

Lemma num_eq_refl a : a =~ a.
Proof. destruct a; simpl; auto with qarith. Qed.

Lemma num_eq_sym a b : a =~ b -> b =~ a.
Proof. destruct a, b; simpl; auto with qarith. Qed.

Lemma num_eq_trans a b c : a =~ b -> b =~ c -> a =~ c.
Proof.
  destruct a, b, c; simpl; try tauto.
  intros H1 H2. now rewrite H1.
Qed.

Lemma num_eq_fin x y : x == y -> Fin x =~ Fin y.
Proof. auto. Qed.

Lemma is_zero_true q : is_zero q = true <-> q == 0.
Proof.
  unfold is_zero, Qeq. simpl. rewrite Z.eqb_eq. lia.
Qed.

Lemma is_zero_false q : is_zero q = false <-> ~ q == 0.
Proof.
  rewrite <- is_zero_true. destruct (is_zero q); split; congruence.
Qed.

Lemma ndiv_fin x y : ~ y == 0 -> (Fin x / Fin y)%num = Fin (x / y).
Proof.
  intros H. simpl. apply is_zero_false in H. now rewrite H.
Qed.

Lemma Qlt_bool_true x y : Qlt_bool x y = true <-> x < y.
Proof.
  unfold Qlt_bool. rewrite negb_true_iff.
  destruct (Qle_bool y x) eqn:E.
  - apply Qle_bool_iff in E. split; [discriminate | intros; lra].
  - split; [intros _ | reflexivity].
    destruct (Qlt_le_dec x y) as [|Hle]; [assumption |].
    apply Qle_bool_iff in Hle. congruence.
Qed.

Lemma Qlt_bool_false x y : Qlt_bool x y = false <-> y <= x.
Proof.
  unfold Qlt_bool. rewrite negb_false_iff. apply Qle_bool_iff.
Qed.

Lemma Qle_bool_false x y : Qle_bool x y = false <-> y < x.
Proof.
  rewrite <- Qlt_bool_true. unfold Qlt_bool.
  destruct (Qle_bool x y); simpl; split; congruence.
Qed.

Lemma index_of_nat n : index_of (of_nat n) = Some n.
Proof.
  unfold index_of, of_nat, inject_Z.
  assert (E : Qred (Z.of_nat n # 1) = Z.of_nat n # 1).
  { apply Qred_identity. simpl. apply Z.gcd_1_r. }
  rewrite E. simpl.
  destruct (Z.of_nat n) eqn:En; simpl; try lia;
    f_equal; lia.
Qed.

Lemma index_of_comp x y : x == y -> index_of (Fin x) = index_of (Fin y).
Proof.
  intros H. unfold index_of. now rewrite (Qred_complete _ _ H).
Qed.

Lemma aget_nat arr q n : q == inject_Z (Z.of_nat n) -> aget arr (Fin q) = at_ arr n.
Proof.
  intros H. unfold aget. rewrite (index_of_comp _ _ H).
  fold (of_nat n). now rewrite index_of_nat.
Qed.

Lemma floor_fin q z : q == inject_Z z -> floor (Fin q) = Fin (inject_Z z).
Proof.
  intros H. simpl. rewrite (Qfloor_comp _ _ H), Qfloor_Z. reflexivity.
Qed.

End num_facts.

Section loop_facts.

Context {S : Type}.

Lemma for_range_nil lo hi (body : nat -> S -> S) s :
  (hi <= lo)%nat -> for_range lo hi body s = s.
Proof.
  intros H. unfold for_range. replace (hi - lo)%nat with 0%nat by lia. reflexivity.
Qed.

Lemma for_range_S lo hi (body : nat -> S -> S) s :
  (lo <= hi)%nat -> for_range lo (Datatypes.S hi) body s = body hi (for_range lo hi body s).
Proof.
  intros H. unfold for_range.
  replace (Datatypes.S hi - lo)%nat with (Datatypes.S (hi - lo)) by lia.
  rewrite seq_S, fold_left_app. simpl.
  now replace (lo + (hi - lo))%nat with hi by lia.
Qed.

(** Loop invariants: [P i] holds before the iteration of index [i]. *)
Lemma for_range_ind (P : nat -> S -> Prop) lo hi (body : nat -> S -> S) s :
  (lo <= hi)%nat ->
  P lo s ->
  (forall i s, (lo <= i < hi)%nat -> P i s -> P (Datatypes.S i) (body i s)) ->
  P hi (for_range lo hi body s).
Proof.
  intros Hle H0 Hstep. induction hi as [|hi IH].
  - assert (lo = 0)%nat by lia. subst. exact H0.
  - destruct (decide (lo = Datatypes.S hi)) as [->|Hne].
    + rewrite for_range_nil by lia. exact H0.
    + rewrite for_range_S by lia. apply Hstep; [lia |]. apply IH; [lia |].
      intros i s' Hi. apply Hstep. lia.
Qed.

(** A projection of the state that the body updates on its own. *)
Lemma for_range_proj {A : Type} (proj : S -> A) (g : nat -> A -> A) lo hi
    (body : nat -> S -> S) s :
  (forall i s, proj (body i s) = g i (proj s)) ->
  proj (for_range lo hi body s) = for_range lo hi g (proj s).
Proof.
  intros H. unfold for_range. revert s.
  induction (seq lo (hi - lo)) as [|i l IH]; intros s; simpl; [reflexivity |].
  now rewrite IH, H.
Qed.

Lemma for_range_keep {A : Type} (proj : S -> A) lo hi (body : nat -> S -> S) s :
  (forall i s, proj (body i s) = proj s) ->
  proj (for_range lo hi body s) = proj s.
Proof.
  intros H. unfold for_range. revert s.
  induction (seq lo (hi - lo)) as [|i l IH]; intros s; simpl; [reflexivity |].
  now rewrite IH, H.
Qed.

End loop_facts.

Section array_facts.

Context {A : Type}.
Implicit Types (l : list A) (f : nat -> A).

Lemma aset_length l i v :
  (i <= length l)%nat -> length (aset l i v) = Nat.max (Datatypes.S i) (length l).
Proof.
  intros H. unfold aset. destruct (i <? length l)%nat eqn:E.
  - apply Nat.ltb_lt in E. rewrite length_insert. lia.
  - apply Nat.ltb_ge in E. rewrite length_app. simpl. lia.
Qed.

(** A loop that writes [arr[i] = f i] for [i] from 0 to [n - 1]: the first
    [n] elements are the new ones, the elements from [n] on stay. *)
Lemma fill_spec f n l :
  for_range 0 n (fun i arr => aset arr i (f i)) l = map f (seq 0 n) ++ drop n l.
Proof.
  induction n as [|n IH].
  - now rewrite for_range_nil, drop_0 by lia.
  - rewrite for_range_S, IH by lia.
    rewrite seq_S, map_app. simpl. rewrite <- app_assoc. simpl.
    unfold aset. rewrite length_app, length_map, length_seq, length_drop.
    destruct (n <? n + (length l - n))%nat eqn:E.
    + apply Nat.ltb_lt in E.
      rewrite insert_app_r_alt by (rewrite length_map, length_seq; lia).
      rewrite length_map, length_seq, Nat.sub_diag.
      destruct (drop n l) as [|x l'] eqn:Ed.
      { apply (f_equal length) in Ed. rewrite length_drop in Ed. simpl in Ed. lia. }
      simpl. f_equal. f_equal.
      replace (drop (Datatypes.S n) l) with (drop 1 (drop n l))
        by (rewrite drop_drop; f_equal; lia).
      now rewrite Ed.
    + apply Nat.ltb_ge in E.
      rewrite (drop_ge l n), (drop_ge l (Datatypes.S n)) by lia.
      now rewrite !app_nil_r.
Qed.

Lemma fill_fresh f n :
  for_range 0 n (fun i arr => aset arr i (f i)) [] = map f (seq 0 n).
Proof. now rewrite fill_spec, drop_nil, app_nil_r. Qed.

End array_facts.

Section loopM_facts.
Context {S : Type}.

Lemma bindM_Some {A B} (m : M A) (f : A -> M B) k b k' :
  bind m f k = Some (b, k') <-> exists a k1, m k = Some (a, k1) /\ f a k1 = Some (b, k').
Proof.
  unfold bind. destruct (m k) as [[a k1]|]; split.
  - intros H. eauto.
  - intros (a' & k1' & [= <- <-] & H). exact H.
  - discriminate.
  - intros (a' & k1' & [=] & _).
Qed.

Lemma bindM_None {A B} (m : M A) (f : A -> M B) k :
  bind m f k = None <-> m k = None \/ exists a k1, m k = Some (a, k1) /\ f a k1 = None.
Proof.
  unfold bind. destruct (m k) as [[a k1]|]; split; eauto.
  - intros [[=] | (a' & k1' & [= <- <-] & H)]. exact H.
Qed.

Lemma for_rangeM_nil lo hi (body : nat -> S -> M S) s :
  (hi <= lo)%nat -> for_rangeM lo hi body s = ret s.
Proof.
  intros H. unfold for_rangeM. replace (hi - lo)%nat with 0%nat by lia. reflexivity.
Qed.

Lemma for_rangeM_S lo hi (body : nat -> S -> M S) s :
  (lo <= hi)%nat ->
  for_rangeM lo (Datatypes.S hi) body s = bind (for_rangeM lo hi body s) (body hi).
Proof.
  intros H. unfold for_rangeM.
  replace (Datatypes.S hi - lo)%nat with (Datatypes.S (hi - lo)) by lia.
  rewrite seq_S, fold_left_app. simpl.
  now replace (lo + (hi - lo))%nat with hi by lia.
Qed.

(** Loop invariants for a loop that ends without an exception. *)
Lemma for_rangeM_ind (P : nat -> S -> nat -> Prop) lo hi (body : nat -> S -> M S) s k s' k' :
  (lo <= hi)%nat ->
  P lo s k ->
  (forall i s k s' k', (lo <= i < hi)%nat -> P i s k -> body i s k = Some (s', k') ->
     P (Datatypes.S i) s' k') ->
  for_rangeM lo hi body s k = Some (s', k') ->
  P hi s' k'.
Proof.
  intros Hle H0 Hstep. revert s' k'. induction hi as [|hi IH]; intros s' k' Hrun.
  - assert (lo = 0)%nat by lia. subst. rewrite for_rangeM_nil in Hrun by lia.
    now injection Hrun as <- <-.
  - destruct (decide (lo = Datatypes.S hi)) as [->|Hne].
    + rewrite for_rangeM_nil in Hrun by lia. now injection Hrun as <- <-.
    + rewrite for_rangeM_S in Hrun by lia.
      apply bindM_Some in Hrun as (s1 & k1 & Hrun & Hb).
      apply (Hstep hi s1 k1); [lia | | exact Hb].
      apply IH; [lia | | exact Hrun].
      intros i s2 k2 s3 k3 Hi. apply Hstep. lia.
Qed.

Lemma for_rangeM_inv (P : nat -> S -> nat -> Prop) lo hi (body : nat -> S -> M S) s k s' k' :
  P lo s k ->
  (forall i s k s' k', (lo <= i < hi)%nat -> P i s k -> body i s k = Some (s', k') ->
     P (Datatypes.S i) s' k') ->
  for_rangeM lo hi body s k = Some (s', k') ->
  P (Nat.max lo hi) s' k'.
Proof.
  intros H0 Hstep Hrun. destruct (le_lt_dec lo hi) as [Hle|Hlt].
  - rewrite Nat.max_r by lia. eapply for_rangeM_ind; eauto.
  - rewrite Nat.max_l by lia. rewrite for_rangeM_nil in Hrun by lia.
    now injection Hrun as <- <-.
Qed.

(** A loop whose body cannot throw while the invariant holds does not
    throw. *)
Lemma for_rangeM_total (P : nat -> S -> nat -> Prop) lo hi (body : nat -> S -> M S) s k :
  (lo <= hi)%nat ->
  P lo s k ->
  (forall i s k, (lo <= i < hi)%nat -> P i s k ->
     exists s' k', body i s k = Some (s', k') /\ P (Datatypes.S i) s' k') ->
  exists s' k', for_rangeM lo hi body s k = Some (s', k') /\ P hi s' k'.
Proof.
  intros Hle H0 Hstep. induction hi as [|hi IH].
  - assert (lo = 0)%nat by lia. subst. rewrite for_rangeM_nil by lia.
    exists s, k. split; [reflexivity | exact H0].
  - destruct (decide (lo = Datatypes.S hi)) as [->|Hne].
    + rewrite for_rangeM_nil by lia. exists s, k. split; [reflexivity | exact H0].
    + destruct IH as (s1 & k1 & Hrun & HP); [lia | |].
      { intros i s2 k2 Hi. apply Hstep. lia. }
      destruct (Hstep hi s1 k1) as (s2 & k2 & Hb & HP2); [lia | exact HP |].
      exists s2, k2. split; [|exact HP2].
      rewrite for_rangeM_S by lia. apply bindM_Some. eauto.
Qed.

(** A loop throws when one of its iterations does, whatever the state
    that the iterations before it have made. *)
Lemma for_rangeM_throws lo hi (body : nat -> S -> M S) s k i :
  (lo <= i < hi)%nat ->
  (forall s k, body i s k = None) ->
  for_rangeM lo hi body s k = None.
Proof.
  intros Hi Hb. induction hi as [|hi IH]; [lia |].
  rewrite for_rangeM_S by lia. apply bindM_None.
  destruct (decide (i = hi)) as [->|Hne].
  - destruct (for_rangeM lo hi body s k) as [[s1 k1]|]; eauto.
  - left. apply IH. lia.
Qed.

(** A loop throws when its first iteration does. *)
Lemma for_rangeM_first lo hi (body : nat -> S -> M S) s k :
  (lo < hi)%nat -> body lo s k = None -> for_rangeM lo hi body s k = None.
Proof.
  intros Hlt Hb. induction hi as [|hi IH]; [lia |].
  rewrite for_rangeM_S by lia. apply bindM_None.
  destruct (decide (lo = hi)) as [->|Hne].
  - rewrite for_rangeM_nil by lia. right. exists s, k. split; [reflexivity | exact Hb].
  - left. apply IH. lia.
Qed.

End loopM_facts.

Section mapM_facts.

Context {A B : Type}.

Lemma mapM_from_total (f : nat -> A -> M B) :
  (forall j a k, exists b k', f j a k = Some (b, k')) ->
  forall arr j k, exists bs k', mapM_from f j arr k = Some (bs, k').
Proof.
  intros Hf arr. induction arr as [|a arr IH]; intros j k; simpl.
  - now exists [], k.
  - destruct (Hf j a k) as (b & k1 & Hb).
    destruct (IH (Datatypes.S j) k1) as (bs & k2 & Hbs).
    exists (b :: bs), k2. unfold bind. rewrite Hb, Hbs. reflexivity.
Qed.

Lemma mapM_from_Forall2 (R : A -> B -> Prop) (f : nat -> A -> M B) :
  (forall j a k b k', f j a k = Some (b, k') -> R a b) ->
  forall arr j k bs k', mapM_from f j arr k = Some (bs, k') -> Forall2 R arr bs.
Proof.
  intros Hf arr. induction arr as [|a arr IH]; intros j k bs k' H; simpl in H.
  - injection H as <- <-. constructor.
  - apply bindM_Some in H as (b & k1 & Hb & H).
    apply bindM_Some in H as (bs' & k2 & Hbs & H).
    injection H as <- <-. constructor; eauto.
Qed.

End mapM_facts.

(* ===================================================================== *)
(** * Curve: what the constructor stores                                  *)
(* ===================================================================== *)

Section curve_facts.
Import Curve CurveAux.


Lemma selected_spec cfg_ty cur :
  CurveType.or (CurveType.or cfg_ty cur) (Some CurveType.Linear)
  = Some (selected cfg_ty cur).
Proof.
  unfold selected, CurveType.or.
  destruct cfg_ty as [[]|], cur as [[]|]; reflexivity.
Qed.

Lemma setType_spec ty c :
  setType (Some ty) c
  = set_interpolate (fn_of ty (interpolate_fn c)) (set_type (Some ty) c).
Proof. destruct c, ty; reflexivity. Qed.

Lemma map_seq_lookup {A B : Type} (f : A -> B) (d : A) (l : list A) :
  map (fun i => f (default d (l !! i))) (seq 0 (length l)) = map f l.
Proof.
  apply list_eq. intros i.
  rewrite !list_lookup_fmap.
  destruct (decide (i < length l)%nat) as [Hi|Hi].
  - rewrite lookup_seq_lt by lia. simpl.
    destruct (lookup_lt_is_Some_2 l i Hi) as [x Hx]. now rewrite Hx.
  - rewrite lookup_seq_ge by lia. now rewrite lookup_ge_None_2 by lia.
Qed.

Lemma tangent_of_finite ts sel i : exists q, tangent_of ts sel i = Fin q.
Proof.
  unfold tangent_of, nor. destruct ts as [ts|]; [|eauto].
  destruct (ts !! i) as [[tg|]|]; eauto.
  destruct (truthy (Fin (sel tg))); eauto.
Qed.

Lemma eq_t (a b : t) :
  count a = count b -> tension a = tension b -> type a = type b ->
  weights a = weights b ->
  xpts a = xpts b -> xtans a = xtans b ->
  ypts a = ypts b -> ytans a = ytans b ->
  zpts a = zpts b -> ztans a = ztans b ->
  interpolate_fn a = interpolate_fn b -> a = b.
Proof. destruct a, b; simpl; intros; subst; reflexivity. Qed.

Lemma overwrite_spec {A : Type} (f : nat -> A) (keep : nat -> bool) (g : nat -> A) n :
  for_range 0 n (fun i arr => if keep i then arr else aset arr i (g i))
    (map f (seq 0 n))
  = map (fun i => if keep i then f i else g i) (seq 0 n).
Proof.
  assert (H : forall k, (k <= n)%nat ->
    for_range 0 k (fun i arr => if keep i then arr else aset arr i (g i))
      (map f (seq 0 n))
    = map (fun i => if keep i then f i else g i) (seq 0 k)
      ++ map f (seq k (n - k))).
  { induction k as [|k IH]; intros Hk.
    - rewrite for_range_nil by lia. simpl. now rewrite Nat.sub_0_r.
    - rewrite for_range_S, IH by lia.
      rewrite seq_S, map_app. simpl. rewrite <- app_assoc. simpl.
      replace (n - k)%nat with (Datatypes.S (n - Datatypes.S k)) by lia.
      simpl. destruct (keep k); [reflexivity |].
      unfold aset. rewrite length_app, length_map, length_seq. simpl.
      destruct (k <? k + _)%nat eqn:E; [|apply Nat.ltb_ge in E; lia].
      rewrite insert_app_r_alt by (rewrite length_map, length_seq; lia).
      rewrite length_map, length_seq, Nat.sub_diag. reflexivity. }
  rewrite H by lia. now rewrite Nat.sub_diag, app_nil_r.
Qed.

Lemma stage_points (pts : list (Q*Q*Q)) (c : t) :
  xpts c = [] -> ypts c = [] -> zpts c = [] -> xtans c = [] -> ytans c = [] -> ztans c = [] -> weights c = [] ->
  let n := length pts in
  for_range 0 n (fun i c =>
          let p := Fin3 (default (0, 0, 0) (pts !! i)) in
          let c := set_pts (aset (xpts c) i p.1.1) (aset (ypts c) i p.1.2)
                           (aset (zpts c) i p.2) c in
          let c := set_tans (aset (xtans c) i (Fin 0)) (aset (ytans c) i (Fin 0))
                            (aset (ztans c) i (Fin 0)) c in
          set_weights (aset (weights c) i (Fin 1)) c) c
  = mk (count c) (tension c) (type c)
       (map (fun _ => Fin 1) (seq 0 n))
       (map (fun p => Fin p.1.1) pts) (map (fun _ => Fin 0) (seq 0 n))
       (map (fun p => Fin p.1.2) pts) (map (fun _ => Fin 0) (seq 0 n))
       (map (fun p => Fin p.2) pts) (map (fun _ => Fin 0) (seq 0 n))
       (interpolate_fn c).
Proof.
  intros Hx Hy Hz Htx Hty Htz Hw n.
  apply eq_t; simpl.
  - now apply (for_range_keep count).
  - now apply (for_range_keep tension).
  - now apply (for_range_keep type).
  - rewrite (for_range_proj weights (fun i arr => aset arr i (Fin 1))) by reflexivity.
    now rewrite Hw, fill_fresh.
  - rewrite (for_range_proj xpts (fun i arr => aset arr i (Fin (default (0,0,0) (pts !! i)).1.1))) by reflexivity.
    rewrite Hx, fill_fresh. apply (map_seq_lookup (fun p => Fin p.1.1)).
  - rewrite (for_range_proj xtans (fun i arr => aset arr i (Fin 0))) by reflexivity.
    now rewrite Htx, fill_fresh.
  - rewrite (for_range_proj ypts (fun i arr => aset arr i (Fin (default (0,0,0) (pts !! i)).1.2))) by reflexivity.
    rewrite Hy, fill_fresh. apply (map_seq_lookup (fun p => Fin p.1.2)).
  - rewrite (for_range_proj ytans (fun i arr => aset arr i (Fin 0))) by reflexivity.
    now rewrite Hty, fill_fresh.
  - rewrite (for_range_proj zpts (fun i arr => aset arr i (Fin (default (0,0,0) (pts !! i)).2))) by reflexivity.
    rewrite Hz, fill_fresh. apply (map_seq_lookup (fun p => Fin p.2)).
  - rewrite (for_range_proj ztans (fun i arr => aset arr i (Fin 0))) by reflexivity.
    now rewrite Htz, fill_fresh.
  - now apply (for_range_keep interpolate_fn).
Qed.

Lemma stage_weights (ws : list (option Q)) (c : t) n :
  count c = n -> length (weights c) = n ->
  for_range 0 n (fun i c =>
          set_weights
            (aset (weights c) i
               match ws !! i with
               | Some (Some w) => Fin w
               | _ => Fin 1
               end) c) c
  = set_weights (map (fun i => Fin (weight_of (Some ws) i)) (seq 0 n)) c.
Proof.
  intros Hc Hl.
  apply eq_t; simpl;
    try (now apply (for_range_keep (S := t))).
  rewrite (for_range_proj weights (fun i arr => aset arr i
             match ws !! i with Some (Some w) => Fin w | _ => Fin 1 end)) by reflexivity.
  rewrite fill_spec, drop_ge, app_nil_r by lia.
  apply map_ext. intros i. unfold weight_of. now destruct (ws !! i) as [[w|]|].
Qed.

Lemma stage_tangents (ts : list (option (Q * Q * Q))) (c : t) n :
  xtans c = map (fun _ => Fin 0) (seq 0 n) ->
  ytans c = map (fun _ => Fin 0) (seq 0 n) ->
  ztans c = map (fun _ => Fin 0) (seq 0 n) ->
  for_range 0 n (fun i c =>
          match ts !! i with
          | Some (Some tg) =>
              set_tans (aset (xtans c) i (nor (Fin tg.1.1) (Fin 0)))
                       (aset (ytans c) i (nor (Fin tg.1.2) (Fin 0)))
                       (aset (ztans c) i (nor (Fin tg.2) (Fin 0))) c
          | _ => c
          end) c
  = set_tans (map (tangent_of (Some ts) (fun p => p.1.1)) (seq 0 n))
             (map (tangent_of (Some ts) (fun p => p.1.2)) (seq 0 n))
             (map (tangent_of (Some ts) (fun p => p.2)) (seq 0 n)) c.
Proof.
  intros Hx Hy Hz.
  set (keep := fun i => match ts !! i with Some (Some _) => false | _ => true end).
  apply eq_t; simpl.
  1-5,7,9,11: apply (for_range_keep (S := t)); intros i s; now destruct (ts !! i) as [[tg|]|].
  - rewrite (for_range_proj xtans (fun i arr => if keep i then arr else
       aset arr i (tangent_of (Some ts) (fun p => p.1.1) i))).
    2:{ intros i s. unfold keep, tangent_of. now destruct (ts !! i) as [[tg|]|]. }
    rewrite Hx, overwrite_spec. apply map_ext. intros i.
    unfold keep, tangent_of. now destruct (ts !! i) as [[tg|]|].
  - rewrite (for_range_proj ytans (fun i arr => if keep i then arr else
       aset arr i (tangent_of (Some ts) (fun p => p.1.2) i))).
    2:{ intros i s. unfold keep, tangent_of. now destruct (ts !! i) as [[tg|]|]. }
    rewrite Hy, overwrite_spec. apply map_ext. intros i.
    unfold keep, tangent_of. now destruct (ts !! i) as [[tg|]|].
  - rewrite (for_range_proj ztans (fun i arr => if keep i then arr else
       aset arr i (tangent_of (Some ts) (fun p => p.2) i))).
    2:{ intros i s. unfold keep, tangent_of. now destruct (ts !! i) as [[tg|]|]. }
    rewrite Hz, overwrite_spec. apply map_ext. intros i.
    unfold keep, tangent_of. now destruct (ts !! i) as [[tg|]|].
Qed.

Lemma loadConfig_fresh pts cfg ty0 :
  loadConfig (mkCfg (Some pts) (cfg_type cfg) (cfg_weights cfg)
                    (cfg_tangents cfg) (cfg_tension cfg)) (fresh ty0)
  = setTangents (loaded pts cfg (fresh ty0)).
Proof.
  unfold loadConfig. cbn [cfg_points cfg_type cfg_weights cfg_tangents cfg_tension].
  rewrite selected_spec, setType_spec.
  cbn [count set_count set_type set_interpolate fresh tension type weights xpts xtans ypts ytans zpts ztans interpolate_fn].
  rewrite stage_points by reflexivity.
  cbn [count tension type weights xpts xtans ypts ytans zpts ztans interpolate_fn].
  f_equal. unfold loaded.
  cbn [count tension type weights xpts xtans ypts ytans zpts ztans interpolate_fn fresh].
  destruct (cfg_weights cfg) as [ws|].
  - rewrite stage_weights by (simpl; now rewrite ?length_map, ?length_seq).
    destruct (cfg_tangents cfg) as [ts|].
    + rewrite stage_tangents by reflexivity.
      destruct (cfg_tension cfg) as [tn|]; [destruct (truthy (Fin tn))|]; reflexivity.
    + destruct (cfg_tension cfg) as [tn|]; [destruct (truthy (Fin tn))|]; reflexivity.
  - destruct (cfg_tangents cfg) as [ts|].
    + rewrite stage_tangents by reflexivity.
      destruct (cfg_tension cfg) as [tn|]; [destruct (truthy (Fin tn))|]; reflexivity.
    + destruct (cfg_tension cfg) as [tn|]; [destruct (truthy (Fin tn))|]; reflexivity.
Qed.

Lemma new_spec pts ty0 ocfg :
  new (Some pts) ty0 ocfg = setTangents (loaded pts (default empty_cfg ocfg) (fresh ty0)).
Proof. unfold new. apply (loadConfig_fresh pts (default empty_cfg ocfg) ty0). Qed.


Lemma aset_fill_step {A} (f : nat -> A) i (l : list A) :
  aset (map f (seq 0 i) ++ drop i l) i (f i)
  = map f (seq 0 (S i)) ++ drop (S i) l.
Proof.
  rewrite <- !fill_spec. now rewrite for_range_S by lia.
Qed.

Lemma at_map_seq (f : nat -> num) n i : (i < n)%nat -> at_ (map f (seq 0 n)) i = f i.
Proof.
  intros H. unfold at_. rewrite list_lookup_fmap, lookup_seq_lt by lia. reflexivity.
Qed.

Lemma at_map {A} (f : A -> num) (l : list A) i x :
  l !! i = Some x -> at_ (map f l) i = f x.
Proof. intros H. unfold at_. now rewrite list_lookup_fmap, H. Qed.

Lemma waypoint_lookup pts k : (k < length pts)%nat -> pts !! k = Some (waypoint pts k).
Proof.
  intros H. unfold waypoint. destruct (lookup_lt_is_Some_2 pts k H) as [x ->]. reflexivity.
Qed.

Lemma padded_prev (sel : Q * Q * Q -> Q) pts i :
  (i < length pts)%nat ->
  at_ (padded (map (fun p => Fin (sel p)) pts)) i = Fin (sel (waypoint pts (prev_index i))).
Proof.
  intros Hi. unfold padded, prev_index. set (l := map _ pts).
  destruct i as [|j].
  - change (at_ (at_ l 0 :: l ++ _) 0) with (at_ l 0).
    unfold l. apply (at_map (fun p => Fin (sel p))). apply waypoint_lookup. lia.
  - change (at_ ((at_ l 0 :: l) ++ _) (S j)) with (default NaN ((l ++ [at_ (at_ l 0 :: l) (length (at_ l 0 :: l) - 1)]) !! j)).
    rewrite lookup_app_l by (unfold l; rewrite length_map; lia).
    replace (S j - 1)%nat with j by lia.
    unfold l. apply (at_map (fun p => Fin (sel p))). apply waypoint_lookup. lia.
Qed.

Lemma padded_next (sel : Q * Q * Q -> Q) pts i :
  (i < length pts)%nat ->
  at_ (padded (map (fun p => Fin (sel p)) pts)) (i + 2)
  = Fin (sel (waypoint pts (next_index (length pts) i))).
Proof.
  intros Hi. unfold padded, next_index. set (l := map _ pts).
  assert (Hl : length l = length pts) by (unfold l; now rewrite length_map).
  replace (i + 2)%nat with (S (S i)) by lia.
  change (at_ ((at_ l 0 :: l) ++ ?x) (S (S i))) with (default NaN ((l ++ x) !! S i)).
  destruct (i + 1 <? length pts)%nat eqn:E.
  - apply Nat.ltb_lt in E. rewrite lookup_app_l by lia.
    replace (i + 1)%nat with (S i) by lia.
    unfold l. apply (at_map (fun p => Fin (sel p))). apply waypoint_lookup. lia.
  - apply Nat.ltb_ge in E. rewrite lookup_app_r by lia.
    replace (S i - length l)%nat with 0%nat by lia.
    cbn [lookup list_lookup default]. simpl length.
    replace (S (length l) - 1)%nat with (S (length pts - 1)) by lia.
    change (at_ (at_ l 0 :: l) (S (length pts - 1))) with (at_ l (length pts - 1)).
    unfold l. apply (at_map (fun p => Fin (sel p))). apply waypoint_lookup. lia.
Qed.

(** The tangents that [setTangents] stores for a Cardinal curve. *)
Lemma setTangents_cardinal (c : t) :
  type c = Some CurveType.Cardinal ->
  let n := count c in
  let v pts i := ((Fin 1 - tension c) * (at_ (padded pts) (i + 2) - at_ (padded pts) i) / Fin 2)%num in
  setTangents c
  = set_tans (map (v (xpts c)) (seq 0 n) ++ drop n (xtans c))
             (map (v (ypts c)) (seq 0 n) ++ drop n (ytans c))
             (map (v (zpts c)) (seq 0 n) ++ drop n (ztans c)) c.
Proof.
  intros Hty n v. unfold setTangents. rewrite Hty.
  apply (for_range_ind (fun i c' =>
    c' = set_tans (map (v (xpts c)) (seq 0 i) ++ drop i (xtans c))
                  (map (v (ypts c)) (seq 0 i) ++ drop i (ytans c))
                  (map (v (zpts c)) (seq 0 i) ++ drop i (ztans c)) c)).
  - lia.
  - simpl. rewrite !drop_0. now destruct c.
  - intros i c' Hi ->.
    cbn [set_tans xtans ytans ztans tension count type weights xpts ypts zpts interpolate_fn].
    rewrite <- !aset_fill_step. reflexivity.
Qed.

Lemma setTangents_other (c : t) :
  type c <> Some CurveType.Cardinal -> setTangents c = c.
Proof.
  intros H. unfold setTangents. destruct (type c) as [[]|]; congruence.
Qed.



Lemma type_setTangents c : type (setTangents c) = type c.
Proof.
  destruct (type c) as [[]|] eqn:E;
    try (rewrite setTangents_other by congruence; exact E).
  rewrite setTangents_cardinal by exact E. exact E.
Qed.

Lemma loaded_tension pts cfg ty0 :
  exists tn, tension (loaded pts cfg (fresh ty0)) = Fin tn /\ tn == default 0 (cfg_tension cfg).
Proof.
  unfold loaded. cbn [tension fresh].
  destruct (cfg_tension cfg) as [tn|]; simpl; [|exists 0; split; reflexivity].
  destruct (is_zero tn) eqn:E; simpl.
  - exists 0. split; [reflexivity |]. apply is_zero_true in E. now rewrite E.
  - exists tn. split; reflexivity.
Qed.

Lemma cardinal_value (sel : Q * Q * Q -> Q) pts tn tau i :
  (i < length pts)%nat -> tn == tau ->
  ((Fin 1 - Fin tn)
   * (at_ (padded (map (fun p => Fin (sel p)) pts)) (i + 2)
      - at_ (padded (map (fun p => Fin (sel p)) pts)) i) / Fin 2)%num
  =~ Fin (cardinal_tangent tau (sel (waypoint pts (prev_index i)))
            (sel (waypoint pts (next_index (length pts) i)))).
Proof.
  intros Hi Htn. rewrite padded_next, padded_prev by exact Hi.
  unfold cardinal_tangent. simpl. rewrite Htn. reflexivity.
Qed.



Lemma inject_nat_pos n : (2 <= n)%nat -> 0 < inject_Z (Z.of_nat n) - 1.
Proof.
  intros H. assert (H2 : (2 <= Z.of_nat n)%Z) by lia.
  rewrite Zle_Qle in H2. change (inject_Z 2) with 2 in H2. lra.
Qed.

Lemma inject_nat_pred n : (1 <= n)%nat -> inject_Z (Z.of_nat n) - 1 == inject_Z (Z.of_nat (n - 1)).
Proof.
  intros H. rewrite Nat2Z.inj_sub by lia.
  unfold Z.sub. rewrite inject_Z_plus, inject_Z_opp. reflexivity.
Qed.

Lemma segment_start c :
  (2 <= count c)%nat ->
  exists a b, segment c (Fin 0) = (Fin a, Fin b) /\ a == inject_Z (Z.of_nat 0) /\ b == 0.
Proof.
  intros Hn. pose proof (inject_nat_pos _ Hn) as Hm.
  unfold segment. set (m := inject_Z (Z.of_nat (count c))) in *.
  change (of_nat (count c) - Fin 1)%num with (Fin (m - 1)).
  change (Fin 0 * Fin (m - 1))%num with (Fin (0 * (m - 1))).
  rewrite (floor_fin _ 0%Z) by (simpl; ring).
  assert (E : nge (Fin (inject_Z 0)) (Fin (m - 1)) = false).
  { apply Qle_bool_false. exact Hm. }
  rewrite E.
  rewrite (ndiv_fin (inject_Z 0) (m - 1)) by lra.
  change (Fin (inject_Z 0) + Fin 1)%num with (Fin (inject_Z 0 + 1)).
  rewrite (ndiv_fin (inject_Z 0 + 1) (m - 1)) by lra.
  change (Fin 0 - Fin ?x)%num with (Fin (0 - x)).
  change (Fin ?x - Fin ?y)%num with (Fin (x - y)).
  assert (Hd : (inject_Z 0 + 1) / (m - 1) - inject_Z 0 / (m - 1) == / (m - 1)).
  { change (inject_Z 0) with 0. field. lra. }
  rewrite ndiv_fin.
  2:{ rewrite Hd. intros H0. apply (Qinv_lt_0_compat) in Hm. lra. }
  eexists _, _. split; [reflexivity |]. split; [reflexivity |].
  rewrite Hd. change (inject_Z 0) with 0. field. lra.
Qed.

Lemma segment_end c :
  (2 <= count c)%nat ->
  exists a b, segment c (Fin 1) = (Fin a, Fin b)
              /\ a == inject_Z (Z.of_nat (count c - 2)) /\ b == 1.
Proof.
  intros Hn. pose proof (inject_nat_pos _ Hn) as Hm.
  pose proof (inject_nat_pred (count c) ltac:(lia)) as Hp.
  unfold segment. set (m := inject_Z (Z.of_nat (count c))) in *.
  change (of_nat (count c) - Fin 1)%num with (Fin (m - 1)).
  change (Fin 1 * Fin (m - 1))%num with (Fin (1 * (m - 1))).
  rewrite (floor_fin _ (Z.of_nat (count c - 1))) by (rewrite <- Hp; ring).
  assert (E : nge (Fin (inject_Z (Z.of_nat (count c - 1)))) (Fin (m - 1)) = true).
  { apply Qle_bool_iff. rewrite Hp. lra. }
  rewrite E.
  change (Fin (m - 1) - Fin 1)%num with (Fin (m - 1 - 1)).
  rewrite (ndiv_fin (m - 1 - 1) (m - 1)) by lra.
  change (Fin (m - 1 - 1) + Fin 1)%num with (Fin (m - 1 - 1 + 1)).
  rewrite (ndiv_fin (m - 1 - 1 + 1) (m - 1)) by lra.
  change (Fin ?x - Fin ?y)%num with (Fin (x - y)).
  assert (Hd : (m - 1 - 1 + 1) / (m - 1) - (m - 1 - 1) / (m - 1) == / (m - 1)).
  { field. lra. }
  rewrite ndiv_fin.
  2:{ rewrite Hd. intros H0. apply (Qinv_lt_0_compat) in Hm. lra. }
  eexists _, _. split; [reflexivity |]. split.
  - rewrite Hp. replace (count c - 2)%nat with (count c - 1 - 1)%nat by lia.
    rewrite <- (inject_nat_pred (count c - 1)) by lia. reflexivity.
  - rewrite Hd. field. lra.
Qed.


Lemma at_points (sel : Q * Q * Q -> Q) pts i :
  (i < length pts)%nat ->
  at_ (map (fun p => Fin (sel p)) pts) i = Fin (sel (waypoint pts i)).
Proof.
  intros H. apply (at_map (fun p => Fin (sel p))). now apply waypoint_lookup.
Qed.

Lemma linear_segment c t :
  linear c t =
  let s := segment c t in
  (((Fin 1 - s.2) * aget (xpts c) s.1 + s.2 * aget (xpts c) (s.1 + Fin 1))%num,
   ((Fin 1 - s.2) * aget (ypts c) s.1 + s.2 * aget (ypts c) (s.1 + Fin 1))%num,
   ((Fin 1 - s.2) * aget (zpts c) s.1 + s.2 * aget (zpts c) (s.1 + Fin 1))%num).
Proof. reflexivity. Qed.

Lemma cubicHermite_segment c t :
  cubicHermite c t =
  let s := segment c t in
  (utils.cubicHermite s.2 (aget (xpts c) s.1) (aget (xtans c) s.1)
     (aget (xpts c) (s.1 + Fin 1)) (aget (xtans c) (s.1 + Fin 1)),
   utils.cubicHermite s.2 (aget (ypts c) s.1) (aget (ytans c) s.1)
     (aget (ypts c) (s.1 + Fin 1)) (aget (ytans c) (s.1 + Fin 1)),
   utils.cubicHermite s.2 (aget (zpts c) s.1) (aget (ztans c) s.1)
     (aget (zpts c) (s.1 + Fin 1)) (aget (ztans c) (s.1 + Fin 1))).
Proof. reflexivity. Qed.

Lemma blend_start b x0 x1 : b == 0 -> ((Fin 1 - Fin b) * Fin x0 + Fin b * Fin x1)%num =~ Fin x0.
Proof. intros Hb. simpl. rewrite Hb. ring. Qed.

Lemma blend_end b x0 x1 : b == 1 -> ((Fin 1 - Fin b) * Fin x0 + Fin b * Fin x1)%num =~ Fin x1.
Proof. intros Hb. simpl. rewrite Hb. ring. Qed.

Lemma hermite_start b p0 m0 p1 m1 :
  b == 0 -> utils.cubicHermite (Fin b) (Fin p0) (Fin m0) (Fin p1) (Fin m1) =~ Fin p0.
Proof. intros Hb. simpl. rewrite Hb. ring. Qed.

Lemma hermite_end b p0 m0 p1 m1 :
  b == 1 -> utils.cubicHermite (Fin b) (Fin p0) (Fin m0) (Fin p1) (Fin m1) =~ Fin p1.
Proof. intros Hb. simpl. rewrite Hb. ring. Qed.

Lemma aget_succ arr a k :
  a == inject_Z (Z.of_nat k) -> aget arr (Fin a + Fin 1)%num = at_ arr (S k).
Proof.
  intros Ha. change (Fin a + Fin 1)%num with (Fin (a + 1)).
  apply aget_nat. rewrite Ha, Nat2Z.inj_succ. unfold Z.succ.
  rewrite inject_Z_plus. reflexivity.
Qed.

Lemma linear_endpoints c pts :
  has_points c pts -> (2 <= length pts)%nat ->
  point_eq (linear c (Fin 0)) (Fin3 (waypoint pts 0))
  /\ point_eq (linear c (Fin 1)) (Fin3 (waypoint pts (length pts - 1))).
Proof.
  intros (Hc & Hx & Hy & Hz) Hn. rewrite !linear_segment. split.
  - destruct (segment_start c) as (a & b & -> & Ha & Hb); [lia |].
    cbn [fst snd]. rewrite !(aget_succ _ a 0), !(aget_nat _ a 0) by exact Ha.
    rewrite Hx, Hy, Hz, !at_points by lia.
    repeat split; apply blend_start; exact Hb.
  - destruct (segment_end c) as (a & b & -> & Ha & Hb); [lia |].
    cbn [fst snd]. rewrite !(aget_succ _ a (count c - 2)), !(aget_nat _ a (count c - 2)) by exact Ha.
    rewrite Hx, Hy, Hz, Hc, !at_points by lia.
    replace (S (length pts - 2)) with (length pts - 1)%nat by lia.
    repeat split; apply blend_end; exact Hb.
Qed.

Lemma cubicHermite_endpoints c pts :
  has_points c pts -> finite_tangents c -> (2 <= length pts)%nat ->
  point_eq (cubicHermite c (Fin 0)) (Fin3 (waypoint pts 0))
  /\ point_eq (cubicHermite c (Fin 1)) (Fin3 (waypoint pts (length pts - 1))).
Proof.
  intros (Hc & Hx & Hy & Hz) Ht Hn. rewrite !cubicHermite_segment. split.
  - destruct (segment_start c) as (a & b & -> & Ha & Hb); [lia |].
    cbn [fst snd]. rewrite !(aget_succ _ a 0), !(aget_nat _ a 0) by exact Ha.
    destruct (Ht 0%nat) as (tx0 & ty0 & tz0 & -> & -> & ->); [lia |].
    destruct (Ht 1%nat) as (tx1 & ty1 & tz1 & -> & -> & ->); [lia |].
    rewrite Hx, Hy, Hz, !at_points by lia.
    repeat split; apply hermite_start; exact Hb.
  - destruct (segment_end c) as (a & b & -> & Ha & Hb); [lia |].
    cbn [fst snd]. rewrite !(aget_succ _ a (count c - 2)), !(aget_nat _ a (count c - 2)) by exact Ha.
    destruct (Ht (count c - 2)%nat) as (tx0 & ty0 & tz0 & -> & -> & ->); [lia |].
    destruct (Ht (S (count c - 2))) as (tx1 & ty1 & tz1 & -> & -> & ->); [lia |].
    rewrite Hx, Hy, Hz, Hc, !at_points by lia.
    replace (S (length pts - 2)) with (length pts - 1)%nat by lia.
    repeat split; apply hermite_end; exact Hb.
Qed.



Lemma pow_finite q k : exists r, pow (Fin q) k = Fin r.
Proof.
  induction k as [|k (r & IH)]; simpl; [eauto |]. rewrite IH. simpl. eauto.
Qed.

Lemma pow_zero q k : q == 0 -> exists r, pow (Fin q) (S k) = Fin r /\ r == 0.
Proof.
  intros Hq. destruct (pow_finite q k) as (r & Hr). simpl. rewrite Hr. simpl.
  eexists. split; [reflexivity |]. rewrite Hq. ring.
Qed.

Lemma pow_one q k : q == 1 -> exists r, pow (Fin q) k = Fin r /\ r == 1.
Proof.
  intros Hq. induction k as [|k (r & IH & Hr)]; simpl.
  - exists 1. split; reflexivity.
  - rewrite IH. simpl. eexists. split; [reflexivity |]. rewrite Hq, Hr. ring.
Qed.

Lemma binomial_gt n m : (n < m)%nat -> utils.binomial n m = 0%nat.
Proof.
  revert m. induction n as [|n IH]; intros [|m] H; simpl; try lia.
  rewrite !IH by lia. reflexivity.
Qed.

Lemma binomial_diag n : utils.binomial n n = 1%nat.
Proof.
  induction n as [|n IH]; simpl; [reflexivity |].
  rewrite IH, binomial_gt by lia. reflexivity.
Qed.

Lemma binomial_zero n : utils.binomial n 0 = 1%nat.
Proof. destruct n; reflexivity. Qed.

Lemma bezier_loop c t :
  bezier c t =
  let '(x, y, z, w) := for_range 0 (count c) (bezier_body c t) (Fin 0, Fin 0, Fin 0, Fin 0) in
  ((x / w)%num, (y / w)%num, (z / w)%num).
Proof. reflexivity. Qed.

(** The factor of the waypoint [i] at the time 0 or 1. *)
Lemma bezier_fac c wf (t : Q) i :
  has_weights c wf -> (i < count c)%nat ->
  (t == 0 \/ t == 1) ->
  exists f, (at_ (weights c) i * utils.choose (count c - 1) i * pow (Fin t) i
             * pow (Fin 1 - Fin t) (count c - 1 - i))%num = Fin f
    /\ (t == 0 -> i = 0%nat -> f == wf 0%nat)
    /\ (t == 0 -> i <> 0%nat -> f == 0)
    /\ (t == 1 -> i = (count c - 1)%nat -> f == wf (count c - 1)%nat)
    /\ (t == 1 -> i <> (count c - 1)%nat -> f == 0).
Proof.
  intros Hw Hi Ht. rewrite Hw, at_map_seq by lia.
  unfold utils.choose, of_nat.
  change (Fin 1 - Fin t)%num with (Fin (1 - t)).
  destruct Ht as [Ht|Ht].
  - destruct (pow_one (1 - t) (count c - 1 - i)) as (r1 & -> & Hr1); [rewrite Ht; ring |].
    destruct i as [|i].
    + simpl pow. rewrite binomial_zero. simpl.
      eexists. split; [reflexivity |].
      repeat split; intros; try lra; try lia.
      rewrite Hr1. ring.
    + destruct (pow_zero t i Ht) as (r0 & -> & Hr0). simpl.
      eexists. split; [reflexivity |].
      repeat split; intros; try lra; try lia.
      rewrite Hr0. ring.
  - destruct (pow_one t i Ht) as (r1 & -> & Hr1).
    destruct (decide (i = count c - 1)%nat) as [->|Hne].
    + rewrite Nat.sub_diag, binomial_diag. simpl.
      eexists. split; [reflexivity |].
      repeat split; intros; try lra; try lia.
      rewrite Hr1. ring.
    + replace (count c - 1 - i)%nat with (S (count c - 2 - i)) by lia.
      destruct (pow_zero (1 - t) (count c - 2 - i)) as (r0 & -> & Hr0); [rewrite Ht; ring |].
      simpl.
      eexists. split; [reflexivity |].
      repeat split; intros; try lra; try lia.
      rewrite Hr0. ring.
Qed.

Lemma bezier_endpoints c pts wf :
  has_points c pts -> has_weights c wf -> (1 <= length pts)%nat ->
  ~ wf 0%nat == 0 -> ~ wf (length pts - 1)%nat == 0 ->
  point_eq (bezier c (Fin 0)) (Fin3 (waypoint pts 0))
  /\ point_eq (bezier c (Fin 1)) (Fin3 (waypoint pts (length pts - 1))).
Proof.
  intros (Hc & Hx & Hy & Hz) Hw Hn Hw0 Hwl. rewrite !bezier_loop. split.
  - pose proof (for_range_ind (fun i s =>
      exists X Y Z W, s = (Fin X, Fin Y, Fin Z, Fin W)
        /\ (i = 0%nat -> X == 0 /\ Y == 0 /\ Z == 0 /\ W == 0)
        /\ (i <> 0%nat -> X == wf 0%nat * (waypoint pts 0).1.1
                          /\ Y == wf 0%nat * (waypoint pts 0).1.2
                          /\ Z == wf 0%nat * (waypoint pts 0).2
                          /\ W == wf 0%nat))
      0 (count c) (bezier_body c (Fin 0)) (Fin 0, Fin 0, Fin 0, Fin 0)) as Hloop.
    destruct Hloop as (X & Y & Z & W & -> & _ & HX).
    + lia.
    + exists 0, 0, 0, 0. split; [reflexivity |]. split; [intros; repeat split; reflexivity | tauto].
    + intros i s Hi (X & Y & Z & W & -> & H0 & H1).
      destruct (bezier_fac c wf 0 i Hw) as (f & Hf & F0 & F1 & _); [lia | left; reflexivity |].
      unfold bezier_body. rewrite Hf, Hx, Hy, Hz, !at_points by lia.
      simpl. eexists _, _, _, _. split; [reflexivity |]. split; [lia |]. intros _.
      destruct (decide (i = 0%nat)) as [->|Hne].
      * destruct H0 as (E1 & E2 & E3 & E4); [reflexivity |].
        rewrite E1, E2, E3, E4, F0 by reflexivity. repeat split; ring.
      * destruct (H1 Hne) as (E1 & E2 & E3 & E4).
        rewrite E1, E2, E3, E4, F1 by (reflexivity || exact Hne). repeat split; ring.
    + destruct HX as (E1 & E2 & E3 & E4); [lia |].
      assert (HW : ~ W == 0) by (rewrite E4; exact Hw0).
      rewrite !ndiv_fin by exact HW.
      repeat split; simpl; rewrite ?E1, ?E2, ?E3, E4; field; exact Hw0.
  - set (l := (length pts - 1)%nat) in *.
    pose proof (for_range_ind (fun i s =>
      exists X Y Z W, s = (Fin X, Fin Y, Fin Z, Fin W)
        /\ ((i < count c)%nat -> X == 0 /\ Y == 0 /\ Z == 0 /\ W == 0)
        /\ (i = count c -> X == wf l * (waypoint pts l).1.1
                           /\ Y == wf l * (waypoint pts l).1.2
                           /\ Z == wf l * (waypoint pts l).2
                           /\ W == wf l))
      0 (count c) (bezier_body c (Fin 1)) (Fin 0, Fin 0, Fin 0, Fin 0)) as Hloop.
    destruct Hloop as (X & Y & Z & W & -> & _ & HX).
    + lia.
    + exists 0, 0, 0, 0. split; [reflexivity |]. split; [intros; repeat split; reflexivity | lia].
    + intros i s Hi (X & Y & Z & W & -> & H0 & _).
      destruct (bezier_fac c wf 1 i Hw) as (f & Hf & _ & _ & F0 & F1); [lia | right; reflexivity |].
      unfold bezier_body. rewrite Hf, Hx, Hy, Hz, !at_points by lia.
      simpl. eexists _, _, _, _. split; [reflexivity |].
      destruct H0 as (E1 & E2 & E3 & E4); [lia |].
      split.
      * intros Hlt. rewrite E1, E2, E3, E4, F1 by (reflexivity || lia). repeat split; ring.
      * intros Heq. assert (Hil : i = l) by (unfold l; lia).
        rewrite E1, E2, E3, E4, F0 by (reflexivity || lia).
        rewrite Hc. fold l. rewrite Hil. repeat split; ring.
    + destruct HX as (E1 & E2 & E3 & E4); [reflexivity |].
      assert (HW : ~ W == 0) by (rewrite E4; exact Hwl).
      rewrite !ndiv_fin by exact HW.
      repeat split; simpl; rewrite ?E1, ?E2, ?E3, E4; field; exact Hwl.
Qed.


End curve_facts.

Section linearNorm_facts.
Import Curve CurveAux.

Variable distance : point -> point -> num.

Lemma at_fin (Ds : list Q) j : (j < length Ds)%nat -> at_ (map Fin Ds) j = Fin (nth j Ds 0).
Proof.
  intros H. unfold at_. rewrite list_lookup_fmap.
  destruct (lookup_lt_is_Some_2 Ds j H) as [x Hx]. rewrite Hx. simpl.
  f_equal. symmetry. now apply nth_lookup_Some with (d := 0) in Hx.
Qed.

Lemma increasing_lt Ds j k :
  increasing Ds -> (j < k < length Ds)%nat -> nth j Ds 0 < nth k Ds 0.
Proof.
  intros H [Hjk Hk]. induction k as [|k IH]; [lia |].
  destruct (decide (j = k)) as [->|Hne]; [apply H; lia |].
  apply Qlt_trans with (nth k Ds 0); [apply IH; lia | apply H; lia].
Qed.

Lemma arc_lengths_spec c pts :
  distance_ok distance -> apart distance pts -> has_points c pts -> (1 <= length pts)%nat ->
  exists Ds, arc_lengths distance c = (Fin (nth (length pts - 1) Ds 0), map Fin Ds)
    /\ length Ds = length pts /\ nth 0 Ds 0 = 0 /\ increasing Ds.
Proof.
  intros Hd Hap (Hc & Hx & Hy & Hz) Hn. unfold arc_lengths. rewrite Hc.
  apply (for_range_ind (fun i st =>
    exists Ds, st = (Fin (nth (i - 1) Ds 0), map Fin Ds)
      /\ length Ds = i /\ nth 0 Ds 0 = 0 /\ increasing Ds)).
  - exact Hn.
  - exists [0]. repeat split. intros j Hj. simpl in Hj. lia.
  - intros i st Hi (Ds & -> & Hl & H0 & Hinc).
    rewrite Hx, Hy, Hz, !at_points by lia.
    replace (i - 1)%nat with (i - 1)%nat in * by lia.
    destruct (Hd (waypoint pts (i - 1)) (waypoint pts i)) as (e & He & Hpos).
    pose proof (Hap (i - 1)%nat) as Hne.
    replace (S (i - 1)) with i in Hne by lia.
    change (Fin (waypoint pts (i - 1)).1.1, Fin (waypoint pts (i - 1)).1.2, Fin (waypoint pts (i - 1)).2)
      with (Fin3 (waypoint pts (i - 1))).
    change (Fin (waypoint pts i).1.1, Fin (waypoint pts i).1.2, Fin (waypoint pts i).2)
      with (Fin3 (waypoint pts i)).
    rewrite He in *. simpl in Hne.
    assert (Hepos : 0 < e) by (specialize (Hne ltac:(lia)); lra).
    exists (Ds ++ [nth (i - 1) Ds 0 + e]).
    assert (Hlast : nth i (Ds ++ [nth (i - 1) Ds 0 + e]) 0 = nth (i - 1) Ds 0 + e).
    { rewrite app_nth2 by lia. now replace (i - length Ds)%nat with 0%nat by lia. }
    split; [|split; [|split]].
    + replace (S i - 1)%nat with i by lia. rewrite Hlast. simpl. f_equal.
      unfold aset. rewrite length_map.
      destruct (i <? length Ds)%nat eqn:E; [apply Nat.ltb_lt in E; lia |].
      now rewrite map_app.
    + rewrite length_app. simpl. lia.
    + rewrite app_nth1 by lia. exact H0.
    + intros j Hj. rewrite length_app in Hj. simpl in Hj.
      destruct (decide (S j = i)) as [Hji|Hji].
      * rewrite Hji, Hlast. rewrite app_nth1 by lia.
        replace (i - 1)%nat with j by lia. lra.
      * rewrite !app_nth1 by lia. apply Hinc. lia.
Qed.

Lemma linearNorm_arc c t :
  linearNorm distance c t =
  let '(d, dpts) := arc_lengths distance c in
  let tt := (t * d)%num in
  let ndx := for_range 0 (count c) (fun i ndx => if nlt (at_ dpts i) tt then i else ndx) 0%nat in
  let lt := ((tt - at_ dpts ndx) / (at_ dpts (ndx + 1) - at_ dpts ndx))%num in
  (((Fin 1 - lt) * at_ (xpts c) ndx + lt * at_ (xpts c) (ndx + 1))%num,
   ((Fin 1 - lt) * at_ (ypts c) ndx + lt * at_ (ypts c) (ndx + 1))%num,
   ((Fin 1 - lt) * at_ (zpts c) ndx + lt * at_ (zpts c) (ndx + 1))%num).
Proof. reflexivity. Qed.

Lemma linearNorm_endpoints c pts :
  distance_ok distance -> apart distance pts -> has_points c pts -> (2 <= length pts)%nat ->
  point_eq (linearNorm distance c (Fin 0)) (Fin3 (waypoint pts 0))
  /\ point_eq (linearNorm distance c (Fin 1)) (Fin3 (waypoint pts (length pts - 1))).
Proof.
  intros Hd Hap Hp Hn.
  destruct (arc_lengths_spec c pts Hd Hap Hp) as (Ds & Harc & Hl & H0 & Hinc); [lia |].
  destruct Hp as (Hc & Hx & Hy & Hz).
  rewrite !linearNorm_arc, Harc. set (D := nth (length pts - 1) Ds 0).
  assert (Hge : forall j, (j < length Ds)%nat -> 0 <= nth j Ds 0).
  { intros j Hj. destruct j as [|j]; [rewrite H0; lra |].
    assert (H : nth 0 Ds 0 < nth (S j) Ds 0) by (apply increasing_lt; [exact Hinc | lia]).
    rewrite H0 in H. lra. }
  split.
  - cbv zeta. change (Fin 0 * Fin D)%num with (Fin (0 * D)).
    assert (Hndx : for_range 0 (count c)
              (fun i ndx => if nlt (at_ (map Fin Ds) i) (Fin (0 * D)) then i else ndx) 0%nat = 0%nat).
    { apply (for_range_ind (fun _ ndx => ndx = 0%nat)); [lia | reflexivity |].
      intros i ndx Hi ->. rewrite at_fin by lia.
      assert (E : nlt (Fin (nth i Ds 0)) (Fin (0 * D)) = false).
      { apply Qlt_bool_false. specialize (Hge i ltac:(lia)). lra. }
      now rewrite E. }
    rewrite Hndx. cbn [Nat.add]. rewrite !at_fin by lia. rewrite H0.
    assert (H1 : 0 < nth 1 Ds 0).
    { assert (H : nth 0 Ds 0 < nth 1 Ds 0) by (apply Hinc; lia). now rewrite H0 in H. }
    change (Fin ?a - Fin ?b)%num with (Fin (a - b)).
    rewrite ndiv_fin by lra.
    rewrite Hx, Hy, Hz, !at_points by lia.
    repeat split; apply blend_start; field; lra.
  - cbv zeta. change (Fin 1 * Fin D)%num with (Fin (1 * D)).
    assert (Hndx : for_range 0 (count c)
              (fun i ndx => if nlt (at_ (map Fin Ds) i) (Fin (1 * D)) then i else ndx) 0%nat
            = (length pts - 2)%nat).
    { pose proof (for_range_ind (fun i ndx =>
        ((i < count c)%nat -> ndx = (i - 1)%nat) /\ (i = count c -> ndx = (length pts - 2)%nat))
        0 (count c)
        (fun i ndx => if nlt (at_ (map Fin Ds) i) (Fin (1 * D)) then i else ndx) 0%nat) as Hloop.
      apply Hloop; [lia | split; intros; lia | | reflexivity].
      intros i ndx Hi (Hlt & _). rewrite at_fin by lia.
      destruct (decide (i = length pts - 1)%nat) as [->|Hne].
      - assert (E : nlt (Fin (nth (length pts - 1) Ds 0)) (Fin (1 * D)) = false).
        { apply Qlt_bool_false. unfold D. lra. }
        rewrite E. split; [lia |]. intros _. rewrite Hlt by lia. lia.
      - assert (E : nlt (Fin (nth i Ds 0)) (Fin (1 * D)) = true).
        { apply Qlt_bool_true. unfold D.
          assert (nth i Ds 0 < nth (length pts - 1) Ds 0) by (apply increasing_lt; [exact Hinc | lia]).
          lra. }
        rewrite E. split; intros; lia. }
    rewrite Hndx. rewrite !at_fin by lia.
    replace (length pts - 2 + 1)%nat with (length pts - 1)%nat by lia. fold D.
    assert (H1 : nth (length pts - 2) Ds 0 < D).
    { unfold D. apply increasing_lt; [exact Hinc | lia]. }
    change (Fin ?a - Fin ?b)%num with (Fin (a - b)).
    rewrite ndiv_fin by lra.
    rewrite Hx, Hy, Hz, !at_points by lia.
    repeat split; apply blend_end; field; lra.
Qed.


End linearNorm_facts.
(* ===================================================================== *)
(** * Particle: the constructor and the frames of a run                   *)
(* ===================================================================== *)

Section particle_facts.
Import Particle ParticleAux.
Variable random : nat -> Q.

Lemma defined_Some {A} (o : option A) k a k' : defined o k = Some (a, k') -> o = Some a /\ k' = k.
Proof. destruct o; simpl; [intros [= <- <-]; auto | discriminate]. Qed.

Lemma setColors_spec cKeys p k p' k' :
  setColors random cKeys p k = Some (p', k') ->
  core p' = core p /\ lt p' = lt p /\ colors_below (frames_end (lastFrame p)) p'.
Proof.
  unfold setColors. intros H.
  apply bindM_Some in H as (keys & k1 & _ & H).
  apply (for_rangeM_inv (fun i s _ =>
           core s = core p /\ lt s = lt p /\ colors_below i s)) in H.
  - destruct H as (Hc & Hl & Hb). repeat split; [exact Hc | exact Hl |].
    intros j Hj. apply Hb. cbn [lastFrame set_colorKeys set_colors]. lia.
  - repeat split. intros j Hj. lia.
  - intros i s k2 s' k3 Hi (Hc & Hl & Hb) Hbody.
    apply bindM_Some in Hbody as (c & k4 & _ & Hbody). injection Hbody as <- <-.
    repeat split; [exact Hc | exact Hl |].
    intros j Hj. cbn [colors set_colors].
    destruct (decide (j = i)) as [->|Hne].
    + rewrite lookup_insert_eq. eauto.
    + rewrite lookup_insert_ne by congruence. apply Hb. lia.
Qed.

Lemma setScales_spec sKeys p k p' k' :
  setScales random sKeys p k = Some (p', k') ->
  core p' = core p /\ colors p' = colors p.
Proof.
  unfold setScales. intros H.
  apply bindM_Some in H as (keys & k1 & _ & H).
  apply (for_rangeM_inv (fun i s _ => core s = core p /\ colors s = colors p)) in H.
  - exact H.
  - split; reflexivity.
  - intros i s k2 s' k3 Hi (Hc & Hl) Hbody.
    apply bindM_Some in Hbody as (c & k4 & _ & Hbody).
    apply bindM_Some in Hbody as (L & k5 & _ & Hbody). injection Hbody as <- <-.
    split; [exact Hc | exact Hl].
Qed.

Lemma new_constructed points cKeys sKeys rotate k p k' :
  new random points cKeys sKeys rotate k = Some (p, k') ->
  constructed (length points) p.
Proof.
  unfold new. intros H.
  apply bindM_Some in H as (p1 & k1 & H1 & H).
  apply bindM_Some in H as (p2 & k2 & H2 & H).
  apply bindM_Some in H as (p3 & k3 & H3 & H).
  injection H as <- <-.
  apply setColors_spec in H1 as (Hc1 & _ & Hb1).
  apply (for_rangeM_inv (fun i s _ => core s = core p1 /\ colors s = colors p1)) in H2.
  2:{ split; reflexivity. }
  2:{ intros i s k4 s' k5 Hi (Hc & Hl) Hbody.
      apply bindM_Some in Hbody as (pt & k6 & _ & Hbody). injection Hbody as <- <-.
      split; [exact Hc | exact Hl]. }
  destruct H2 as (Hc2 & Hl2).
  apply setScales_spec in H3 as (Hc3 & Hl3).
  assert (Hc : core p3 = core (mk (Some (mkTransform true None false true [] true))
              1 (Z.of_nat (length points) - 2) false
              (mkMaterial (Some (Fin 0), Some (Fin 0), Some (Fin 0)) (Some (Fin 1)))
              ∅ ∅ ∅ [] ∅ None None false false)) by congruence.
  unfold core in Hc. injection Hc as E1 E2 E3 E4 E5 E6 E7 E8.
  unfold constructed, colors_below in *.
  cbn [set_active set_ready transform frame lastFrame destroyed totalLoops ready active colors] in *.
  rewrite E1, E2, E3, E4, E5.
  repeat split; eauto.
  intros j Hj. rewrite Hl3, Hl2. apply Hb1. exact Hj.
Qed.

Lemma repeatM_add {S} a b (f : S -> M S) s k :
  repeatM (a + b) f s k = (do s' <- repeatM a f s; repeatM b f s') k.
Proof.
  revert s k. induction a as [|a IH]; intros s k; simpl; [reflexivity |].
  unfold bind. destruct (f s k) as [[s1 k1]|]; [|reflexivity].
  rewrite IH. reflexivity.
Qed.

Lemma run_running n p npoints :
  constructed npoints p -> running (lastFrame p) 1 n (run n p).
Proof.
  intros (Ht & Hf & Hl & Hd & Htl & Hr & Ha & Hc). repeat split; assumption.
Qed.

Lemma update_step L f l p k :
  running L f l p -> (1 <= f)%Z -> (f + 1 < L)%Z ->
  exists q, update p k = Some (q, k) /\ running L (f + 1) l q.
Proof.
  intros (Ha & Hr & (tr & Ht) & Hl & Hf & Hlo & Hd & Htl & Hc) H1 H2.
  unfold update. rewrite Ha. cbn [negb]. rewrite Hf.
  destruct (Hc (Z.to_nat f)) as (c & Hcf); [unfold frames_end; lia |].
  replace (0 <=? f)%Z with true by (symmetry; apply Z.leb_le; lia).
  unfold bind at 1. rewrite Hcf. cbn [defined ret].
  unfold bind at 1. cbn [transform set_material]. rewrite Ht. cbn [defined ret].
  cbn [frame lastFrame set_frame set_transform set_material]. rewrite Hl, Hf.
  assert (E : (f + 1 >=? L)%Z = false) by (rewrite Z.geb_leb; apply Z.leb_gt; lia).
  rewrite E.
  eexists. split; [reflexivity |].
  repeat split; cbn; eauto.
Qed.

Lemma update_wrap L f l p k :
  running L f l p -> (1 <= f <= L)%Z -> (L <= f + 1)%Z ->
  exists q, update p k = Some (q, k)
    /\ if nseq (l - Fin 1)%num (Fin 0) then at_rest q
       else running L 1 (l - Fin 1)%num q.
Proof.
  intros (Ha & Hr & (tr & Ht) & Hl & Hf & Hlo & Hd & Htl & Hc) H1 H2.
  unfold update. rewrite Ha. cbn [negb]. rewrite Hf.
  destruct (Hc (Z.to_nat f)) as (c & Hcf); [unfold frames_end; lia |].
  replace (0 <=? f)%Z with true by (symmetry; apply Z.leb_le; lia).
  unfold bind at 1. rewrite Hcf. cbn [defined ret].
  unfold bind at 1. cbn [transform set_material]. rewrite Ht. cbn [defined ret].
  cbn [frame lastFrame set_frame set_transform set_material]. rewrite Hl, Hf.
  assert (E : (f + 1 >=? L)%Z = true) by (rewrite Z.geb_leb; apply Z.leb_le; lia).
  rewrite E.
  cbn [loops set_loops set_frame set_transform set_material]. rewrite Hlo.
  cbn [decr is_zero_loops].
  destruct (nseq (l - Fin 1)%num (Fin 0)).
  - unfold reset. cbn. rewrite Htl. eexists. split; [reflexivity |].
    repeat split; cbn; eauto.
  - eexists. split; [reflexivity |].
    repeat split; cbn; eauto.
Qed.

Lemma updates_advance L l k j : forall f p,
  running L f l p -> (1 <= f)%Z -> (f + Z.of_nat j < L)%Z ->
  exists q, repeatM j update p k = Some (q, k) /\ running L (f + Z.of_nat j) l q.
Proof.
  induction j as [|j IH]; intros f p Hrun H1 H2.
  - exists p. split; [reflexivity |]. now rewrite Z.add_0_r.
  - destruct (update_step L f l p k Hrun) as (q1 & Hu & Hq1); [lia | lia |].
    destruct (IH (f + 1)%Z q1 Hq1) as (q & Hq & Hrq); [lia | lia |].
    exists q. split.
    + simpl. unfold bind. rewrite Hu. exact Hq.
    + now replace (f + Z.of_nat (S j))%Z with (f + 1 + Z.of_nat j)%Z by lia.
Qed.

(** One loop of a run: [lastFrame - 1] updates from the frame 1. *)
Lemma updates_loop L l p k :
  running L 1 l p -> (2 <= L)%Z ->
  exists q, repeatM (Z.to_nat (L - 1)) update p k = Some (q, k)
    /\ if nseq (l - Fin 1)%num (Fin 0) then at_rest q
       else running L 1 (l - Fin 1)%num q.
Proof.
  intros Hrun HL.
  replace (Z.to_nat (L - 1)) with (Z.to_nat (L - 2) + 1)%nat by lia.
  rewrite repeatM_add.
  destruct (updates_advance L l k (Z.to_nat (L - 2)) 1 p Hrun) as (q1 & Hq1 & Hr1); [lia | lia |].
  destruct (update_wrap L _ l q1 k Hr1) as (q & Hq & Hr); [lia | lia |].
  exists q. split; [|exact Hr].
  unfold bind. rewrite Hq1. simpl. unfold bind. rewrite Hq. reflexivity.
Qed.

(** The two loops of a run launched with [run(2)]. *)
Lemma two_loops (points : list point) p k :
  constructed (length points) p -> (4 <= length points)%nat ->
  let per_loop := Z.to_nat (lastFrame p - 1) in
  exists q1 q2,
    repeatM per_loop update (run (Fin 2) p) k = Some (q1, k)
    /\ running (lastFrame p) 1 (Fin 2 - Fin 1)%num q1
    /\ repeatM per_loop update q1 k = Some (q2, k)
    /\ at_rest q2.
Proof.
  intros Hc Hlen per_loop.
  pose proof (run_running (Fin 2) p _ Hc) as Hrun.
  assert (HL : lastFrame p = (Z.of_nat (length points) - 2)%Z) by apply Hc.
  destruct (updates_loop _ _ _ k Hrun) as (q1 & Hq1 & Hr1); [lia |].
  change (nseq (Fin 2 - Fin 1)%num (Fin 0)) with false in Hr1.
  destruct (updates_loop _ _ _ k Hr1) as (q2 & Hq2 & Hr2); [lia |].
  change (nseq (Fin 2 - Fin 1 - Fin 1)%num (Fin 0)) with true in Hr2.
  exists q1, q2. auto.
Qed.

Lemma reset_spec p tr k :
  transform p = Some tr ->
  exists q, reset p k = Some (q, k)
    /\ loops q = totalLoops p /\ ready q = true /\ active q = false
    /\ destroyed q = false /\ frame q = frame p
    /\ (exists tr', transform q = Some tr' /\ visible tr' = false).
Proof.
  intros Ht. unfold reset, bind. rewrite Ht. cbn [defined ret].
  eexists. split; [reflexivity |]. repeat split; cbn; eauto.
Qed.

End particle_facts.

Section ramp_facts.
Import Particle ParticleAux RampAux.
Variable random : nat -> Q.


Lemma nle_trans a b c : nle a b = true -> nle b c = true -> nle a c = true.
Proof.
  destruct a, b, c; simpl; try congruence.
  intros H1 H2. apply Qle_bool_iff in H1, H2. apply Qle_bool_iff. lra.
Qed.




Lemma ascending_le keySet i j a b :
  ascending keySet -> (i < j)%nat ->
  keySet !! i = Some a -> keySet !! j = Some b ->
  nle (Key.key a) (Key.key b) = true.
Proof.
  intros Hasc Hij Ha. revert b. induction j as [|j IH]; intros b Hb; [lia |].
  destruct (lookup_lt_is_Some_2 keySet j) as [c Hc].
  { apply lookup_lt_Some in Hb. lia. }
  destruct (decide (i = j)) as [->|Hne].
  - rewrite Ha in Hc. injection Hc as <-. eapply Hasc; eauto.
  - apply nle_trans with (Key.key c); [apply IH; [lia | exact Hc] | eapply Hasc; eauto].
Qed.

(** The scan of [lerpValue] changes nothing and stops below its start, at
    a key that is not above the time. *)
Lemma key_scan_Some keySet time n k ndx k' :
  key_scan keySet time n k = Some (ndx, k') ->
  k' = k /\ (ndx < n)%nat
  /\ exists a, keySet !! ndx = Some a /\ ngt (Key.key a) time = false.
Proof.
  induction n as [|n IH]; simpl; [discriminate |].
  unfold bind. destruct (keySet !! n) as [a|] eqn:Ha; simpl; [|discriminate].
  destruct (ngt (Key.key a) time) eqn:E.
  - intros H. destruct (IH H) as (-> & Hlt & Hex). repeat split; [lia | exact Hex].
  - intros [= <- <-]. repeat split; [lia | eauto].
Qed.

(** The scan finds a key when one of the keys below its start is not above
    the time. *)
Lemma key_scan_finds keySet time n k j a :
  (n <= length keySet)%nat -> (j < n)%nat ->
  keySet !! j = Some a -> ngt (Key.key a) time = false ->
  exists ndx, key_scan keySet time n k = Some (ndx, k).
Proof.
  intros Hn Hj Ha Hle. induction n as [|n IH]; [lia |]. simpl.
  destruct (lookup_lt_is_Some_2 keySet n) as [b Hb]; [lia |].
  unfold bind. rewrite Hb. simpl.
  destruct (ngt (Key.key b) time) eqn:E; [|eauto].
  destruct (decide (j = n)) as [->|Hne]; [congruence |].
  apply IH; lia.
Qed.


Lemma lerpValue_scan time keySet k :
  (exists r, lerpValue time keySet k = Some (r, k))
  <-> exists ndx, key_scan keySet time (length keySet - 1) k = Some (ndx, k).
Proof.
  unfold lerpValue. split.
  - intros (r & H). apply bindM_Some in H as (ndx & k1 & Hs & _).
    destruct (key_scan_Some _ _ _ _ _ _ Hs) as (-> & _). eauto.
  - intros (ndx & Hs). destruct (key_scan_Some _ _ _ _ _ _ Hs) as (_ & Hlt & a & Ha & _).
    destruct (lookup_lt_is_Some_2 keySet (ndx + 1)) as [b Hb]; [lia |].
    unfold bind. rewrite Hs, Ha. simpl. rewrite Hb. simpl. eauto.
Qed.

Lemma lerpValue_state time keySet k r k' :
  lerpValue time keySet k = Some (r, k') -> k' = k.
Proof.
  unfold lerpValue. intros H.
  apply bindM_Some in H as (ndx & k1 & Hs & H).
  destruct (key_scan_Some _ _ _ _ _ _ Hs) as (-> & _).
  apply bindM_Some in H as (a & k2 & Ha & H). apply defined_Some in Ha as (_ & ->).
  apply bindM_Some in H as (b & k3 & Hb & H). apply defined_Some in Hb as (_ & ->).
  now injection H as _ <-.
Qed.



Lemma Math_random_total k : Math_random random k = Some (random k, S k).
Proof. reflexivity. Qed.

(** The copy of a key is made without an exception and has the same
    [key]. *)
Lemma jitter_total c k :
  exists c' k', jitter random c k = Some (c', k').
Proof.
  unfold jitter. destruct (Key.has_range c); [|eauto].
  destruct (Key.range c) as [|r|r]; [eauto | |].
  - unfold bind. rewrite Math_random_total. eauto.
  - destruct (mapM_from_total
      (fun j cv => do rnd <- Math_random random;
                   ret (cv + (Fin rnd - Fin (1 # 2)) * Fin 2 * at_ r j)%num))
      with (arr := Key.value c) (j := 0%nat) (k := k) as (v & k' & Hv).
    { intros j a k0. unfold bind. rewrite Math_random_total. eauto. }
    unfold bind at 1. rewrite Hv. eauto.
Qed.

Lemma jitter_key c k c' k' :
  jitter random c k = Some (c', k') -> Key.key c' = Key.key c.
Proof.
  unfold jitter. destruct (Key.has_range c); [|now intros [= <- <-]].
  destruct (Key.range c) as [|r|r].
  - now intros [= <- <-].
  - intros H. apply bindM_Some in H as (x & k1 & _ & H). now injection H as <- <-.
  - intros H. apply bindM_Some in H as (x & k1 & _ & H). now injection H as <- <-.
Qed.

Lemma jitter_all_total cks k :
  exists keys k', mapM_from (fun _ c => jitter random c) 0 cks k = Some (keys, k').
Proof. apply mapM_from_total. intros _ c k0. apply jitter_total. Qed.

Lemma jitter_all_keys cks k keys k' :
  mapM_from (fun _ c => jitter random c) 0 cks k = Some (keys, k') ->
  Forall2 (fun c c' => Key.key c' = Key.key c) cks keys.
Proof.
  apply mapM_from_Forall2. intros _ c k0 c' k1. apply jitter_key.
Qed.


Lemma inject_Z_minus_zero L z : L <> z -> ~ inject_Z L - inject_Z z == 0.
Proof.
  intros Hne H. apply Hne. apply inject_Z_injective. lra.
Qed.

(** The time of the frame 1 is 0, unless [lastFrame] is 2. *)
Lemma frame_time_first L :
  L <> 2%Z -> exists t0, frame_time L 1 = Fin t0 /\ t0 == 0.
Proof.
  intros HL. unfold frame_time, of_nat, of_Z.
  change (Fin ?a - Fin ?b)%num with (Fin (a - b)).
  rewrite ndiv_fin by (apply (inject_Z_minus_zero L 2); exact HL).
  eexists. split; [reflexivity |].
  change (inject_Z (Z.of_nat 1)) with 1. unfold Qdiv. ring.
Qed.

(** With [lastFrame] 2 the times of the two frames are 0/0 and 1/0. *)
Lemma frame_time_two : frame_time 2 1 = NaN /\ frame_time 2 2 = PInf.
Proof. split; reflexivity. Qed.

(** The time of a frame is never below 0. *)
Lemma frame_time_not_negative L i :
  (1 <= i)%nat -> (Z.of_nat i <= L)%Z -> ngt (Fin 0) (frame_time L i) = false.
Proof.
  intros Hi HiL. unfold frame_time, of_nat, of_Z.
  change (Fin ?a - Fin ?b)%num with (Fin (a - b)).
  assert (Hnum : 0 <= inject_Z (Z.of_nat i) - 1).
  { assert (H : (1 <= Z.of_nat i)%Z) by lia. rewrite Zle_Qle in H.
    change (inject_Z 1) with 1 in H. lra. }
  cbn [ndiv]. destruct (is_zero (inject_Z L - 2)) eqn:Ez.
  - unfold Qsgn.
    assert (Hs : (0 <= Qnum (inject_Z (Z.of_nat i) - 1))%Z).
    { unfold Qle in Hnum. simpl in Hnum. simpl. lia. }
    destruct (Qnum (inject_Z (Z.of_nat i) - 1)); simpl; try reflexivity. lia.
  - apply is_zero_false in Ez. unfold ngt. cbn [nlt]. apply Qlt_bool_false.
    destruct (Z_lt_le_dec 2 L) as [Hgt|Hle].
    + assert (H : 0 < inject_Z L - 2).
      { rewrite Zlt_Qlt in Hgt. change (inject_Z 2) with 2 in Hgt. lra. }
      apply Qle_shift_div_l; [exact H |]. rewrite Qmult_0_l. exact Hnum.
    + assert (HL2 : L <> 2%Z) by (intros ->; apply Ez; reflexivity).
      assert (Hi1 : i = 1%nat) by lia. subst i.
      change (inject_Z (Z.of_nat 1)) with 1. unfold Qdiv.
      assert (E : (1 - 1) * / (inject_Z L - 2) == 0) by ring. rewrite E. lra.
Qed.


(** An empty ramp makes [setColors] throw at the frame 1. *)
Lemma setColors_empty_throws p k :
  (1 <= lastFrame p)%Z -> setColors random (Some []) p k = None.
Proof.
  intros HL. unfold setColors. unfold bind at 1. cbn [mapM_from ret].
  apply for_rangeM_first.
  - cbn [lastFrame set_colorKeys set_colors]. unfold frames_end. lia.
  - reflexivity.
Qed.

(** Without a ramp [setColors] takes the default one and gives every
    frame its color. *)
Lemma setColors_null p k :
  exists p', setColors random None p k = Some (p', k)
    /\ colorKeys p' = default_colorKeys
    /\ lastFrame p' = lastFrame p
    /\ colors_below (frames_end (lastFrame p)) p'.
Proof.
  unfold setColors. unfold bind at 1. cbn [ret].
  destruct (le_lt_dec (frames_end (lastFrame p)) 1) as [Hs|Hs].
  - rewrite for_rangeM_nil by (cbn [lastFrame set_colorKeys set_colors]; exact Hs).
    eexists. split; [reflexivity |]. repeat split. intros j Hj. lia.
  - destruct (for_rangeM_total (fun i s k' =>
        k' = k /\ colorKeys s = default_colorKeys /\ lastFrame s = lastFrame p
        /\ colors_below i s)
      1 (frames_end (lastFrame p))
      (fun i p0 => do c <- lerpValue (frame_time (lastFrame p0) i) (colorKeys p0);
                   ret (set_colors (<[i:=c]> (colors p0)) p0))
      (set_colorKeys default_colorKeys (set_colors ∅ p)) k) as (p' & k' & Hrun & -> & H).
    + lia.
    + repeat split. intros j Hj. lia.
    + intros i s k0 Hi (-> & Hck & Hlf & Hb).
      rewrite Hck, Hlf.
      assert (Hle : exists r, lerpValue (frame_time (lastFrame p) i) default_colorKeys k
                              = Some (r, k)).
      { apply lerpValue_scan. apply (key_scan_finds _ _ _ k 0 (Key.mk (Fin 0) [Fin 0; Fin 0; Fin 0; Fin 1] Key.NoRange));
          [simpl; lia | simpl; lia | reflexivity |].
        apply frame_time_not_negative; [lia | unfold frames_end in Hi; lia]. }
      destruct Hle as (r & Hr). unfold bind. rewrite Hr. cbn [ret].
      eexists _, _. split; [reflexivity |]. repeat split; [exact Hck | exact Hlf |].
      intros j Hj. cbn [colors set_colors].
      destruct (decide (j = i)) as [->|Hne].
      * rewrite lookup_insert_eq. eauto.
      * rewrite lookup_insert_ne by congruence. apply Hb. lia.
    + exists p'. split; [exact Hrun | exact H].
Qed.

End ramp_facts.


Section ramp_edge_facts.
Import Particle ParticleAux RampAux.
Variable random : nat -> Q.





End ramp_edge_facts.

Section system_facts.
Import ParticleCurveSystem SystemAux ParticleAux RampAux.
Variable random : nat -> Q.
Variable distance : point -> point -> num.

Lemma update_state p k q k' : Particle.update p k = Some (q, k') -> k' = k.
Proof.
  unfold Particle.update. destruct (negb (Particle.active p)); [now intros [= _ <-] |].
  intros H. apply bindM_Some in H as (c & k1 & Hc & H). apply defined_Some in Hc as (_ & ->).
  apply bindM_Some in H as (tr & k2 & Htr & H). apply defined_Some in Htr as (_ & ->).
  match type of H with (if ?b then _ else _) _ = _ => destruct b end;
    [|now injection H as _ <-].
  match type of H with (if ?b then _ else _) _ = _ => destruct b end;
    [|now injection H as _ <-].
  unfold Particle.reset in H.
  apply bindM_Some in H as (tr' & k3 & Htr' & H). apply defined_Some in Htr' as (_ & ->).
  now injection H as _ <-.
Qed.

(** The points that the constructor samples for one particle. *)
Lemma sampled_length (f : nat -> point) n :
  length (for_range 0 n (fun i pts => aset pts i (f i)) []) = n.
Proof. now rewrite fill_fresh, length_map, length_seq. Qed.

Lemma new_loops cfg fps k :
  new random distance cfg fps k
  = (do s <- for_rangeM 0 (max_particles cfg) (curves_loop random distance cfg) (initial cfg fps);
     for_rangeM 0 (max_particles cfg)
       (particles_loop random cfg (ramp_of (cfg_colorKeys cfg) (cfg_colors cfg))
                           (ramp_of (cfg_scaleKeys cfg) (cfg_scales cfg))) s) k.
Proof. reflexivity. Qed.

Lemma curves_loop_spec cfg fps k s k' :
  for_rangeM 0 (max_particles cfg) (curves_loop random distance cfg) (initial cfg fps) k = Some (s, k') ->
  schedule s = schedule (initial cfg fps)
  /\ particles s = []
  /\ length (points s) = max_particles cfg
  /\ forall i pts, points s !! i = Some pts -> length pts = iterations (frames_of cfg fps).
Proof.
  intros H.
  apply (for_rangeM_ind (fun j s _ =>
    schedule s = schedule (initial cfg fps) /\ particles s = []
    /\ length (points s) = j
    /\ forall i pts, points s !! i = Some pts -> length pts = iterations (frames_of cfg fps)))
    in H; [exact H | lia | |].
  - repeat split. intros i pts Hi. discriminate.
  - clear H. intros j s0 k0 s1 k1 Hj (Hs & Hp & Hl & Hpts) Hb.
    unfold curves_loop in Hb. apply bindM_Some in Hb as (curve & k2 & _ & Hb).
    injection Hb as <- <-.
    assert (Hf : frames s0 = frames_of cfg fps).
    { apply (f_equal (fun x => x.2)) in Hs. exact Hs. }
    repeat split; [exact Hs | exact Hp | |].
    + cbn [points set_points]. rewrite aset_length by lia. lia.
    + intros i pts. cbn [points set_points]. unfold aset.
      destruct (j <? length (points s0))%nat eqn:E; [apply Nat.ltb_lt in E; lia |].
      intros Hi. apply lookup_app_Some in Hi as [Hi | (_ & Hi)]; [eauto |].
      apply list_lookup_singleton_Some in Hi as (_ & <-).
      rewrite (sampled_length
                 (fun i => Curve.interpolate distance curve (of_nat i / frames s0)%num)).
      now rewrite Hf.
Qed.

Lemma particles_loop_schedule cfg ck sk n s k s' k' :
  for_rangeM 0 n (particles_loop random cfg ck sk) s k = Some (s', k') ->
  schedule s' = schedule s.
Proof.
  intros H.
  apply (for_rangeM_ind (fun _ s0 _ => schedule s0 = schedule s)) in H;
    [exact H | lia | reflexivity |].
  clear H. intros j s0 k0 s1 k1 Hj Hs Hb.
  unfold particles_loop in Hb.
  apply bindM_Some in Hb as (pts & k2 & _ & Hb).
  apply bindM_Some in Hb as (p & k3 & _ & Hb).
  apply bindM_Some in Hb as (p' & k4 & _ & Hb).
  injection Hb as <- <-. exact Hs.
Qed.

(** The schedule of the emission that the constructor leaves. *)
Lemma new_schedule cfg fps k s k' :
  new random distance cfg fps k = Some (s, k') ->
  schedule s = schedule (initial cfg fps).
Proof.
  rewrite new_loops. intros H. apply bindM_Some in H as (s1 & k1 & H1 & H2).
  apply curves_loop_spec in H1 as (Hs1 & _).
  apply particles_loop_schedule in H2. congruence.
Qed.

Lemma onRender_parts elapsedTime s k :
  onRender elapsedTime s k
  = (do st <- for_rangeM 0 (maxParticles s) update_slot (s, []); emit elapsedTime st) k.
Proof. reflexivity. Qed.

Lemma nonnull_slots_S s n :
  nonnull_slots s (S n)
  = nonnull_slots s n
    ++ match particles s !! n with Some (Some _) => [n] | _ => [] end.
Proof.
  unfold nonnull_slots. rewrite seq_S, List.filter_app. simpl.
  now destruct (particles s !! n) as [[p|]|].
Qed.

(** The first loop of [onRender]: every particle of the pool is updated,
    in the order of the slots, and nothing else changes. *)
Lemma update_loop_spec s k n s1 tr k' :
  for_rangeM 0 n update_slot (s, []) k = Some ((s1, tr), k') ->
  k' = k /\ tr = map CallUpdate (nonnull_slots s n) /\ updated_below k s n s1.
Proof.
  intros H.
  apply (for_rangeM_ind (fun j st k0 =>
    k0 = k /\ st.2 = map CallUpdate (nonnull_slots s j) /\ updated_below k s j st.1)) in H;
    [exact H | lia | |].
  - split; [reflexivity |]. split; [reflexivity |]. cbn [fst].
    split; [reflexivity |]. split; [reflexivity |].
    split; [intros i p Hi; lia |]. split; [reflexivity | auto].
  - clear H. intros j [s0 tr0] k0 [s2 tr2] k2 Hj (-> & Htr & (Hs & Hl & Hup & Hrest & Hnull)) Hb.
    cbn [fst snd] in *. unfold update_slot in Hb.
    rewrite nonnull_slots_S, map_app, <- Htr.
    rewrite (Hrest j) in Hb by lia.
    destruct (particles s !! j) as [[p|]|] eqn:Hp.
    + apply bindM_Some in Hb as (p' & k3 & Hu & Hb). injection Hb as <- <- <-.
      pose proof (update_state _ _ _ _ Hu) as ->.
      assert (Hjl : (j < length (particles s0))%nat).
      { rewrite Hl. now apply lookup_lt_Some in Hp. }
      repeat split; cbn [particles set_particles]; try assumption.
      * now rewrite length_insert.
      * intros i q Hi Hq. destruct (decide (i = j)) as [->|Hne].
        -- rewrite Hp in Hq. injection Hq as <-. exists p'. split; [exact Hu |].
           now rewrite list_lookup_insert_eq.
        -- rewrite list_lookup_insert_ne by congruence. apply Hup; [lia | exact Hq].
      * intros i Hi. rewrite list_lookup_insert_ne by lia. apply Hrest. lia.
      * intros i Hi. destruct (decide (i = j)) as [->|Hne]; [congruence |].
        rewrite list_lookup_insert_ne by congruence. now apply Hnull.
    + injection Hb as <- <- <-. rewrite app_nil_r.
      repeat split; try assumption.
      * intros i q Hi Hq. destruct (decide (i = j)) as [->|Hne]; [congruence |].
        apply Hup; [lia | exact Hq].
      * intros i Hi. apply Hrest. lia.
    + injection Hb as <- <- <-. rewrite app_nil_r.
      repeat split; try assumption.
      * intros i q Hi Hq. destruct (decide (i = j)) as [->|Hne]; [congruence |].
        apply Hup; [lia | exact Hq].
      * intros i Hi. apply Hrest. lia.
Qed.

(** The first loop of [onRender] ends when no update throws. *)
Lemma update_loop_total s k n :
  (forall i p, (i < n)%nat -> particles s !! i = Some (Some p) ->
     exists q, Particle.update p k = Some (q, k)) ->
  exists s1 tr, for_rangeM 0 n update_slot (s, []) k = Some ((s1, tr), k).
Proof.
  intros Hok. induction n as [|n IH].
  - exists s, []. reflexivity.
  - destruct IH as (s1 & tr & Hrun); [intros i p Hi; apply Hok; lia |].
    destruct (update_loop_spec _ _ _ _ _ _ Hrun) as (_ & _ & (_ & _ & _ & Hrest & _)).
    rewrite for_rangeM_S by lia. unfold bind at 1. rewrite Hrun.
    unfold update_slot. rewrite (Hrest n) by lia.
    destruct (particles s !! n) as [[p|]|] eqn:Hp; [|eexists _, _; reflexivity ..].
    destruct (Hok n p) as (q & Hq); [lia | exact Hp |].
    unfold bind. rewrite Hq. eexists _, _. reflexivity.
Qed.

Lemma schedule_eq s1 s :
  schedule s1 = schedule s ->
  active s1 = active s /\ maxParticles s1 = maxParticles s /\ maxRate s1 = maxRate s
  /\ pRate s1 = pRate s /\ pTimer s1 = pTimer s /\ pTimerMax s1 = pTimerMax s
  /\ pIndex s1 = pIndex s /\ frames s1 = frames s /\ pLife s1 = pLife s.
Proof. unfold schedule. intros [= -> -> _ -> -> -> -> -> -> _ ->]. repeat split. Qed.




End system_facts.

Section gpu_facts.
Import GpuAux.

Lemma colors_setupShaders s : G.colors (G.setupShaders s) = G.colors s.
Proof. unfold G.setupShaders. destruct (G.material s); [| reflexivity]. now destruct (_ || _ || _)%bool. Qed.

Lemma scales_setupShaders s : G.scales (G.setupShaders s) = G.scales s.
Proof. unfold G.setupShaders. destruct (G.material s); [| reflexivity]. now destruct (_ || _ || _)%bool. Qed.

Lemma normalize_empty st : G.normalize_keys [] st = Some ([], st).
Proof. reflexivity. Qed.

Lemma normalize_single st k0 o :
  Store.get k0 st = Some o ->
  exists st' a b,
    G.normalize_keys [k0] st = Some ([a; b], st')
    /\ Store.get a st' = Some (Store.mkKey (Fin 0) (Store.value o))
    /\ Store.get b st' = Some (Store.mkKey (Fin 1) (Store.value o)).
Proof.
  intros Ho. unfold G.normalize_keys. cbn [length Nat.eqb lookup list_lookup mbind option_bind].
  rewrite Ho. cbn [mbind option_bind Store.alloc].
  eexists _, _, _. split; [reflexivity |].
  unfold Store.get. cbn [Store.objs Store.next]. split.
  - rewrite lookup_insert_ne by lia. apply lookup_insert_eq.
  - apply lookup_insert_eq.
Qed.

Lemma normalize_several st k0 mid kl o0 ol :
  k0 <> kl -> k0 ∉ mid -> kl ∉ mid ->
  Store.get k0 st = Some o0 -> Store.get kl st = Some ol ->
  exists st',
    G.normalize_keys (k0 :: mid ++ [kl]) st = Some (k0 :: mid ++ [kl], st')
    /\ Store.get k0 st' = Some (Store.mkKey (Fin 0) (Store.value o0))
    /\ Store.get kl st' = Some (Store.mkKey (Fin 1) (Store.value ol))
    /\ forall m, m ∈ mid -> Store.get m st' = Store.get m st.
Proof.
  intros Hne H0 Hl Ho0 Hol. unfold G.normalize_keys.
  assert (Hlen : length (k0 :: mid ++ [kl]) = S (S (length mid))).
  { cbn [length]. rewrite length_app. simpl. lia. }
  rewrite Hlen. cbn [Nat.eqb Nat.ltb Nat.leb].
  destruct (length mid =? 0)%nat eqn:E0; cbn [lookup list_lookup mbind option_bind];
    unfold Store.set_key; unfold Store.get in Ho0, Hol; rewrite Ho0;
    cbn [mbind option_bind Store.objs Store.next].
  all: replace (S (S (length mid)) - 1)%nat with (S (length mid)) by lia.
  all: assert (Hlast : (k0 :: mid ++ [kl]) !! S (length mid) = Some kl)
         by (change ((k0 :: mid ++ [kl]) !! S (length mid))
               with ((mid ++ [kl]) !! length mid);
             rewrite lookup_app_r by lia; now rewrite Nat.sub_diag).
  all: rewrite Hlast; cbn [mbind option_bind].
  all: rewrite lookup_insert_ne by exact Hne; rewrite Hol.
  all: eexists; split; [reflexivity |]; unfold Store.get; cbn [Store.objs].
  all: split; [rewrite lookup_insert_ne by congruence; apply lookup_insert_eq |].
  all: split; [apply lookup_insert_eq |].
  all: intros m Hm; rewrite !lookup_insert_ne by (intros ->; contradiction); reflexivity.
Qed.

End gpu_facts.

Section trail_facts.
Import GpuParticleTrail TrailAux.

Lemma Qceiling_pred x : (Qceiling (x - 1) <= Qceiling x - 1)%Z.
Proof.
  rewrite <- (Qceiling_Z (Qceiling x - 1)). apply Qceiling_resp_le.
  unfold Z.sub. rewrite inject_Z_plus, inject_Z_opp.
  pose proof (Qle_ceiling x). change (inject_Z 1) with 1. lra.
Qed.

(** The loop [while (--newTime > endTime) {}] entered above [endTime]
    ends, with a time in the unit interval that ends at [endTime]. *)
Lemma decrement_while_above_spec fuel : forall t e,
  e < t -> (Qceiling (t - e) <= Z.of_nat fuel)%Z ->
  exists tau, decrement_while_above fuel (Fin t) (Fin e) = Some (Fin tau)
    /\ e - 1 < tau /\ tau <= e.
Proof.
  induction fuel as [|fuel IH]; intros t e Hlt Hfuel.
  - exfalso. pose proof (Qle_ceiling (t - e)) as H.
    assert (H0 : inject_Z (Qceiling (t - e)) <= 0).
    { change 0 with (inject_Z 0). rewrite <- Zle_Qle. lia. }
    lra.
  - cbn [decrement_while_above]. change (Fin t - Fin 1)%num with (Fin (t - 1)).
    unfold ngt. cbn [nlt]. destruct (Qlt_bool e (t - 1)) eqn:E.
    + apply Qlt_bool_true in E. apply IH; [exact E |].
      assert (Hx : t - 1 - e == t - e - 1) by ring.
      rewrite (Qceiling_comp _ _ Hx).
      pose proof (Qceiling_pred (t - e)). lia.
    + apply Qlt_bool_false in E. exists (t - 1). split; [reflexivity |]. lra.
Qed.

Lemma fuel_for_enough t e :
  (Qceiling (t - e) <= Z.of_nat (fuel_for (Fin t) (Fin e)))%Z.
Proof. cbn [fuel_for]. lia. Qed.


End trail_facts.
(* ===================================================================== *)
(** * The claims                                                          *)
(* ===================================================================== *)

Section claim_C4.
Import Curve CurveAux.

(** The tangents of a curve that the constructor builds, whose arrays
    hold the waypoints and nothing else: for a Curve of Cardinal type
    built from the waypoints p_0 .. p_(N-1) with the tension tau, the
    constructor (through [loadConfig], which ends with [setTangents])
    stores at each index [i], on each axis, the tangent
    (1 - tau) * (p_(i+1) - p_(i-1)) / 2, where p_(-1) is p_0 and p_N is
    p_(N-1); and [setTangents] leaves a curve of another type as it is. *)
Lemma constructed_cardinal_tangents :
  (forall (pts : list (Q * Q * Q)) (ty0 : option CurveType.t) (ocfg : option Cfg) (i : nat),
     let c := new (Some pts) ty0 ocfg in
     let tau := default 0 (ocfg ≫= cfg_tension) in
     let n := length pts in
     type c = Some CurveType.Cardinal ->
     (i < n)%nat ->
     tension c =~ Fin tau
     /\ at_ (xtans c) i
        =~ Fin (cardinal_tangent tau (waypoint pts (prev_index i)).1.1
                  (waypoint pts (next_index n i)).1.1)
     /\ at_ (ytans c) i
        =~ Fin (cardinal_tangent tau (waypoint pts (prev_index i)).1.2
                  (waypoint pts (next_index n i)).1.2)
     /\ at_ (ztans c) i
        =~ Fin (cardinal_tangent tau (waypoint pts (prev_index i)).2
                  (waypoint pts (next_index n i)).2))
  /\ (forall c : t, type c <> Some CurveType.Cardinal -> setTangents c = c).
Proof.
  split; [|exact setTangents_other].
  intros pts ty0 ocfg i c tau n Hty Hi. subst c.
  rewrite new_spec in *. rewrite type_setTangents in Hty.
  set (cfg := default empty_cfg ocfg) in *.
  assert (Htau : tau = default 0 (cfg_tension cfg)).
  { unfold tau, cfg. now destruct ocfg. }
  destruct (loaded_tension pts cfg ty0) as (tn & Htn & Etn).
  rewrite <- Htau in Etn.
  rewrite setTangents_cardinal by exact Hty.
  cbn [set_tans tension xtans ytans ztans]. rewrite Htn.
  assert (Hc : count (loaded pts cfg (fresh ty0)) = n) by reflexivity.
  rewrite Hc.
  assert (Hat : forall (v : nat -> num) l, at_ (map v (seq 0 n) ++ l) i = v i).
  { intros v l. unfold at_. rewrite lookup_app_l by (rewrite length_map, length_seq; lia).
    rewrite list_lookup_fmap, lookup_seq_lt by lia. reflexivity. }
  rewrite !Hat.
  split; [exact Etn |].
  repeat split.
  - apply (cardinal_value (fun p => p.1.1)); assumption.
  - apply (cardinal_value (fun p => p.1.2)); assumption.
  - apply (cardinal_value (fun p => p.2)); assumption.
Qed.

Lemma setTangents_keeps c :
  count (setTangents c) = count c /\ tension (setTangents c) = tension c
  /\ xpts (setTangents c) = xpts c /\ ypts (setTangents c) = ypts c
  /\ zpts (setTangents c) = zpts c.
Proof.
  destruct (type c) as [[]|] eqn:E;
    try (rewrite setTangents_other by congruence; repeat split; reflexivity).
  rewrite setTangents_cardinal by exact E. repeat split; reflexivity.
Qed.

(** [loadConfig] with waypoints, up to its last line: the entries of the
    coordinate arrays below the number of waypoints are the new
    waypoints, and the entries from there on are left as they were. *)
Lemma loadConfig_points cfg pts c0 tau0 :
  cfg_points cfg = Some pts -> tension c0 = Fin tau0 ->
  exists c1 tau,
    loadConfig cfg c0 = setTangents c1
    /\ count c1 = length pts
    /\ tension c1 = Fin tau
    /\ xpts c1 = map (fun j => Fin (waypoint pts j).1.1) (seq 0 (length pts))
                 ++ drop (length pts) (xpts c0)
    /\ ypts c1 = map (fun j => Fin (waypoint pts j).1.2) (seq 0 (length pts))
                 ++ drop (length pts) (ypts c0)
    /\ zpts c1 = map (fun j => Fin (waypoint pts j).2) (seq 0 (length pts))
                 ++ drop (length pts) (zpts c0).
Proof.
  intros Hpts Hten. unfold loadConfig. rewrite Hpts.
  set (ty := CurveType.or _ _).
  set (c' := set_count (length pts) (setType ty c0)).
  assert (Hc' : count c' = length pts /\ tension c' = tension c0 /\ xpts c' = xpts c0
                /\ ypts c' = ypts c0 /\ zpts c' = zpts c0).
  { unfold c', setType. destruct c0, ty as [[]|]; repeat split; reflexivity. }
  destruct Hc' as (Hn' & Ht' & Hx' & Hy' & Hz').
  rewrite Hn'.
  set (cp := for_range 0 (length pts) _ c').
  set (cw := match cfg_weights cfg with Some _ => _ | None => cp end).
  set (ct := match cfg_tangents cfg with Some _ => _ | None => cw end).
  set (c1 := match cfg_tension cfg with Some _ => _ | None => ct end).
  assert (Hkeep : forall {A} (proj : t -> A),
            (forall v c, proj (set_weights v c) = proj c) ->
            (forall vx vy vz c, proj (set_tans vx vy vz c) = proj c) ->
            proj ct = proj cp).
  { intros A proj Hw Ht.
    assert (E1 : proj cw = proj cp).
    { unfold cw. destruct (cfg_weights cfg); [| reflexivity].
      apply (for_range_keep proj). intros; apply Hw. }
    assert (E2 : proj ct = proj cw).
    { unfold ct. destruct (cfg_tangents cfg) as [ts|]; [| reflexivity].
      apply (for_range_keep proj). intros j c.
      destruct (ts !! j) as [[tg|]|]; [apply Ht | reflexivity | reflexivity]. }
    congruence. }
  assert (Hlast : forall {A} (proj : t -> A),
            (forall v c, proj (set_tension v c) = proj c) -> proj c1 = proj ct).
  { intros A proj Hn. unfold c1. destruct (cfg_tension cfg) as [tn|]; [| reflexivity].
    destruct (truthy (Fin tn)); [apply Hn | reflexivity]. }
  assert (Htau : exists tau, tension c1 = Fin tau).
  { assert (E : tension ct = Fin tau0).
    { rewrite (Hkeep _ tension) by reflexivity. unfold cp.
      rewrite (for_range_keep tension) by reflexivity. congruence. }
    unfold c1. destruct (cfg_tension cfg) as [tn|]; [| eauto].
    destruct (truthy (Fin tn)); eauto. }
  destruct Htau as (tau & Htau).
  exists c1, tau. split; [reflexivity |].
  split.
  { rewrite (Hlast _ count), (Hkeep _ count) by reflexivity. unfold cp.
    rewrite (for_range_keep count) by reflexivity. exact Hn'. }
  split; [exact Htau |].
  split; [| split].
  - rewrite (Hlast _ xpts), (Hkeep _ xpts) by reflexivity. unfold cp.
    rewrite (for_range_proj xpts (fun i arr => aset arr i (Fin (waypoint pts i).1.1)))
      by reflexivity.
    now rewrite fill_spec, Hx'.
  - rewrite (Hlast _ ypts), (Hkeep _ ypts) by reflexivity. unfold cp.
    rewrite (for_range_proj ypts (fun i arr => aset arr i (Fin (waypoint pts i).1.2)))
      by reflexivity.
    now rewrite fill_spec, Hy'.
  - rewrite (Hlast _ zpts), (Hkeep _ zpts) by reflexivity. unfold cp.
    rewrite (for_range_proj zpts (fun i arr => aset arr i (Fin (waypoint pts i).2)))
      by reflexivity.
    now rewrite fill_spec, Hz'.
Qed.

(** The neighbours that [setTangents] reads in an array whose first [n]
    entries are the waypoints: before the waypoint [i] the waypoint
    [i - 1] (the first one its own neighbour), and after it the entry
    [i + 1] of the array, whatever it holds; the copy of the last entry is
    read only when the array ends with the last waypoint. *)
Lemma padded_neighbours (f : nat -> num) n rest i :
  (i < n)%nat ->
  at_ (padded (map f (seq 0 n) ++ rest)) i = f (prev_index i)
  /\ at_ (padded (map f (seq 0 n) ++ rest)) (i + 2)
     = if (i + 1 <? n)%nat then f (i + 1)%nat
       else match rest with r :: _ => r | [] => f (n - 1)%nat end.
Proof.
  intros Hi. unfold padded, prev_index. set (l := map f (seq 0 n) ++ rest).
  assert (Hl : forall j, (j < n)%nat -> l !! j = Some (f j)).
  { intros j Hj. unfold l. rewrite lookup_app_l by (rewrite length_map, length_seq; lia).
    rewrite list_lookup_fmap, lookup_seq_lt by lia. reflexivity. }
  assert (Hlen : length l = (n + length rest)%nat).
  { unfold l. now rewrite length_app, length_map, length_seq. }
  split.
  - destruct i as [|j].
    + change (at_ (at_ l 0 :: l ++ _) 0) with (at_ l 0). unfold at_. now rewrite Hl by lia.
    + change (at_ ((at_ l 0 :: l) ++ ?x) (S j)) with (default NaN ((l ++ x) !! j)).
      rewrite lookup_app_l by lia. rewrite Hl by lia. cbn. f_equal. lia.
  - replace (i + 2)%nat with (S (S i)) by lia.
    change (at_ ((at_ l 0 :: l) ++ ?x) (S (S i))) with (default NaN ((l ++ x) !! S i)).
    destruct (i + 1 <? n)%nat eqn:E.
    + apply Nat.ltb_lt in E. rewrite lookup_app_l by lia. rewrite Hl by lia. cbn.
      f_equal. lia.
    + apply Nat.ltb_ge in E. assert (i = (n - 1)%nat) as -> by lia.
      replace (S (n - 1)) with n by lia.
      destruct rest as [|r rest'].
      * cbn [length] in Hlen.
        rewrite lookup_app_r by lia.
        replace (n - length l)%nat with 0%nat by lia.
        cbn [lookup list_lookup default length]. unfold at_.
        replace (S (length l) - 1)%nat with (S (n - 1)) by lia.
        cbn [lookup list_lookup]. rewrite Hl by lia. reflexivity.
      * cbn [length] in Hlen. rewrite lookup_app_l by lia.
        unfold l. rewrite lookup_app_r by (rewrite length_map, length_seq; lia).
        rewrite length_map, length_seq, Nat.sub_diag. reflexivity.
Qed.

Lemma stale_entry (sel : Q * Q * Q -> Q) (old : list (Q * Q * Q)) n :
  match drop n (map (fun p => Fin (sel p)) old) with
  | r :: _ => (n <? length old)%nat = true /\ r = Fin (sel (waypoint old n))
  | [] => (n <? length old)%nat = false
  end.
Proof.
  destruct (drop n (map (fun p => Fin (sel p)) old)) as [|r rest] eqn:E.
  - apply (f_equal length) in E. rewrite length_drop, length_map in E. simpl in E.
    apply Nat.ltb_ge. lia.
  - assert (Hl : (map (fun p => Fin (sel p)) old) !! n = Some r).
    { rewrite <- (Nat.add_0_r n), <- lookup_drop, E. reflexivity. }
    rewrite list_lookup_fmap in Hl.
    destruct (old !! n) as [p|] eqn:Ep; [| discriminate].
    injection Hl as <-. split.
    + apply Nat.ltb_lt. now apply lookup_lt_Some in Ep.
    + unfold waypoint. now rewrite Ep.
Qed.

Lemma new_stores old ty0 ocfg :
  stores (new (Some old) ty0 ocfg) old
  /\ exists tau0, tension (new (Some old) ty0 ocfg) = Fin tau0.
Proof.
  rewrite new_spec.
  destruct (setTangents_keeps (loaded old (default empty_cfg ocfg) (fresh ty0)))
    as (_ & Ht & Hx & Hy & Hz).
  unfold stores. rewrite Hx, Hy, Hz, Ht.
  destruct (loaded_tension old (default empty_cfg ocfg) ty0) as (tn & Htn & _).
  repeat split; eauto.
Qed.

(** C4 (the code departs from it).  [loadConfig] writes the N waypoints
    over the first N entries of the coordinate arrays and leaves the
    entries that a longer former configuration has put behind them;
    [setTangents] reads the neighbours in the whole array.  For a curve
    whose arrays hold the points [old], as the arrays of a curve that the
    constructor has built do, and that [loadConfig] loads with the
    waypoints p_0 .. p_(N-1): afterwards the arrays hold the waypoints
    followed by the points of [old] from the index N on, and, when the
    curve is of Cardinal type, the stored tangent at [i] is
    (1 - tau) * (next - p_(i-1)) / 2 on each axis, p_(-1) being p_0, where
    [next] is p_(i+1) below the last waypoint; at the last waypoint it is
    p_(N-1), as claimed, only when [old] has no more than N points, and
    otherwise it is the point of index N of [old].  [setTangents] leaves a
    curve of another type as it is. *)
Theorem cardinal_tangents_after_reload :
  (forall (c0 : t) (old pts : list (Q * Q * Q)) (tau0 : Q) (cfg : Cfg),
     let c := loadConfig cfg c0 in
     let n := length pts in
     let after_last :=
       if (n <? length old)%nat then waypoint old n else waypoint pts (n - 1) in
     stores c0 old -> tension c0 = Fin tau0 -> cfg_points cfg = Some pts ->
     exists tau,
       tension c = Fin tau
       /\ stores c (pts ++ drop n old)
       /\ (type c = Some CurveType.Cardinal ->
           forall i, (i < n)%nat ->
             let next := if (i + 1 <? n)%nat then waypoint pts (i + 1) else after_last in
             at_ (xtans c) i
             =~ Fin (cardinal_tangent tau (waypoint pts (prev_index i)).1.1 next.1.1)
             /\ at_ (ytans c) i
                =~ Fin (cardinal_tangent tau (waypoint pts (prev_index i)).1.2 next.1.2)
             /\ at_ (ztans c) i
                =~ Fin (cardinal_tangent tau (waypoint pts (prev_index i)).2 next.2)))
  /\ (forall (old : list (Q * Q * Q)) (ty0 : option CurveType.t) (ocfg : option Cfg),
        stores (new (Some old) ty0 ocfg) old
        /\ exists tau0, tension (new (Some old) ty0 ocfg) = Fin tau0)
  /\ (forall c : t, type c <> Some CurveType.Cardinal -> setTangents c = c).
Proof.
  split; [| split; [exact new_stores | exact setTangents_other]].
  intros c0 old pts tau0 cfg c n after_last (Hx0 & Hy0 & Hz0) Ht0 Hpts.
  destruct (loadConfig_points cfg pts c0 tau0 Hpts Ht0)
    as (c1 & tau & Hload & Hn & Htau & Hx & Hy & Hz).
  subst c. rewrite Hload.
  destruct (setTangents_keeps c1) as (_ & Ht1 & Hx1 & Hy1 & Hz1).
  exists tau. split; [now rewrite Ht1 |]. split.
  { unfold stores. rewrite Hx1, Hy1, Hz1, Hx, Hy, Hz, Hx0, Hy0, Hz0. fold n.
    rewrite !map_app, <- !skipn_map.
    unfold n, waypoint.
    rewrite (map_seq_lookup (fun p => Fin p.1.1)), (map_seq_lookup (fun p => Fin p.1.2)),
      (map_seq_lookup (fun p => Fin p.2)).
    repeat split; reflexivity. }
  rewrite type_setTangents. intros Hty i Hi next.
  rewrite setTangents_cardinal by exact Hty.
  cbn [set_tans xtans ytans ztans]. rewrite Hn, Htau. fold n.
  assert (Hat : forall (v : nat -> num) l, at_ (map v (seq 0 n) ++ l) i = v i).
  { intros v l. unfold at_. rewrite lookup_app_l by (rewrite length_map, length_seq; lia).
    rewrite list_lookup_fmap, lookup_seq_lt by lia. reflexivity. }
  rewrite !Hat, Hx, Hy, Hz, Hx0, Hy0, Hz0. fold n.
  assert (Haxis : forall sel : Q * Q * Q -> Q,
    ((Fin 1 - Fin tau)
     * (at_ (padded (map (fun j => Fin (sel (waypoint pts j))) (seq 0 n)
                     ++ drop n (map (fun p => Fin (sel p)) old))) (i + 2)
        - at_ (padded (map (fun j => Fin (sel (waypoint pts j))) (seq 0 n)
                       ++ drop n (map (fun p => Fin (sel p)) old))) i) / Fin 2)%num
    =~ Fin (cardinal_tangent tau (sel (waypoint pts (prev_index i))) (sel next))).
  { intros sel.
    destruct (padded_neighbours (fun j => Fin (sel (waypoint pts j))) n
                (drop n (map (fun p => Fin (sel p)) old)) i Hi) as (-> & ->).
    pose proof (stale_entry sel old n) as Hst.
    unfold next, after_last.
    destruct (i + 1 <? n)%nat; [unfold cardinal_tangent; simpl; reflexivity |].
    destruct (drop n (map (fun p => Fin (sel p)) old)) as [|r rest].
    - rewrite Hst. unfold cardinal_tangent. simpl. reflexivity.
    - destruct Hst as (-> & ->). unfold cardinal_tangent. simpl. reflexivity. }
  split; [apply (Haxis (fun p => p.1.1)) |].
  split; [apply (Haxis (fun p => p.1.2)) | apply (Haxis (fun p => p.2))].
Qed.

Lemma cardinal_tangents_after_reload_witness :
  let c := loadConfig (mkCfg (Some [(0, 0, 0); (1, 0, 0)]) None None None None)
             (new (Some [(0, 0, 0); (1, 0, 0); (100, 0, 0)]) (Some CurveType.Cardinal) None) in
  at_ (xtans c) 1 =~ Fin 50 /\ ~ at_ (xtans c) 1 =~ Fin (cardinal_tangent 0 0 1).
Proof.
  destruct (proj1 cardinal_tangents_after_reload
              (new (Some [(0, 0, 0); (1, 0, 0); (100, 0, 0)]) (Some CurveType.Cardinal) None)
              [(0, 0, 0); (1, 0, 0); (100, 0, 0)] [(0, 0, 0); (1, 0, 0)] 0
              (mkCfg (Some [(0, 0, 0); (1, 0, 0)]) None None None None)
              ltac:(repeat split) eq_refl eq_refl)
    as (tau & Htau & _ & Htan).
  injection Htau as <-.
  destruct (Htan eq_refl 1%nat ltac:(simpl; lia)) as (Hx & _).
  split.
  - eapply num_eq_trans; [exact Hx |]. vm_compute. reflexivity.
  - intros H. apply num_eq_sym in H. pose proof (num_eq_trans _ _ _ H Hx) as H2.
    vm_compute in H2. discriminate H2.
Defined.

End claim_C4.

Section claim_C1.
Import Curve CurveAux.

Lemma loaded_has_points pts cfg ty0 : has_points (loaded pts cfg (fresh ty0)) pts.
Proof. repeat split. Qed.

Lemma loaded_has_weights pts cfg ty0 :
  has_weights (loaded pts cfg (fresh ty0)) (weight_of (cfg_weights cfg)).
Proof. reflexivity. Qed.

Lemma loaded_finite_tangents pts cfg ty0 : finite_tangents (loaded pts cfg (fresh ty0)).
Proof.
  intros i Hi. cbn [loaded count xtans ytans ztans] in *.
  rewrite !at_map_seq by exact Hi.
  destruct (tangent_of_finite (cfg_tangents cfg) (fun p => p.1.1) i) as (tx & ->).
  destruct (tangent_of_finite (cfg_tangents cfg) (fun p => p.1.2) i) as (ty & ->).
  destruct (tangent_of_finite (cfg_tangents cfg) (fun p => p.2) i) as (tz & ->).
  now exists tx, ty, tz.
Qed.

(** C1, counterexample.  A Bezier curve through (1,2,3) and (4,5,6) whose
    first weight is 0: every factor of the blend at the time 0 is 0, the
    sum of the factors is 0, and [interpolate(0)] is 0/0 on each axis
    instead of the first waypoint. *)
Lemma bezier_zero_weight_counterexample :
  let c := new (Some [(1, 2, 3); (4, 5, 6)]) (Some CurveType.Bezier)
               (Some (mkCfg None None (Some [Some 0; Some 1]) None None)) in
  type c = Some CurveType.Bezier
  /\ interpolate rational_distance c (Fin 0) = (NaN, NaN, NaN)
  /\ ~ point_eq (interpolate rational_distance c (Fin 0)) (Fin3 (1, 2, 3)).
Proof.
  split; [reflexivity |]. split; [reflexivity |].
  intros (H & _). exact H.
Qed.

(** C1, as amended.  For every Curve built from a list of N >= 2
    waypoints, [interpolate(0)] is the first waypoint and [interpolate(1)]
    is the last one when the type is Linear, Bezier with a first and a last
    weight that are not zero (as the default weight 1), CubicHermite with
    whatever tangents the configuration gives, or LinearNorm with
    consecutive waypoints at a distance that is not zero. *)
Theorem endpoints_interpolated :
  forall (distance : point -> point -> num) (pts : list (Q * Q * Q))
         (ty0 : option CurveType.t) (ocfg : option Cfg),
    let c := new (Some pts) ty0 ocfg in
    let n := length pts in
    (2 <= n)%nat ->
    (type c = Some CurveType.Linear
     \/ (type c = Some CurveType.Bezier
         /\ ~ at_ (weights c) 0 =~ Fin 0 /\ ~ at_ (weights c) (n - 1) =~ Fin 0)
     \/ type c = Some CurveType.CubicHermite
     \/ (type c = Some CurveType.LinearNorm
         /\ distance_ok distance /\ apart distance pts)) ->
    point_eq (interpolate distance c (Fin 0)) (Fin3 (waypoint pts 0))
    /\ point_eq (interpolate distance c (Fin 1)) (Fin3 (waypoint pts (n - 1))).
Proof.
  intros distance pts ty0 ocfg c n Hn Hty. subst c.
  rewrite new_spec in *. set (cfg := default empty_cfg ocfg) in *.
  rewrite type_setTangents in Hty.
  assert (Hnc : type (loaded pts cfg (fresh ty0)) <> Some CurveType.Cardinal).
  { destruct Hty as [H | [(H & _) | [H | (H & _)]]]; rewrite H; discriminate. }
  rewrite setTangents_other in * by exact Hnc.
  pose proof (loaded_has_points pts cfg ty0) as Hp.
  assert (Hfn : forall ty, type (loaded pts cfg (fresh ty0)) = Some ty ->
            interpolate_fn (loaded pts cfg (fresh ty0)) = fn_of ty Ibase).
  { intros ty [= <-]. reflexivity. }
  unfold interpolate.
  destruct Hty as [H | [(H & Hw0 & Hwl) | [H | (H & Hd & Hap)]]];
    rewrite (Hfn _ H); cbn [fn_of].
  - apply linear_endpoints; assumption.
  - pose proof (loaded_has_weights pts cfg ty0) as Hw.
    rewrite Hw in Hw0, Hwl. cbn [loaded count] in Hw0, Hwl.
    rewrite at_map_seq in Hw0, Hwl by (fold n; lia).
    apply (bezier_endpoints _ pts (weight_of (cfg_weights cfg))); try assumption; fold n; lia.
  - apply cubicHermite_endpoints; [assumption | apply loaded_finite_tangents | assumption].
  - apply linearNorm_endpoints; assumption.
Qed.

Lemma rational_distance_ok : distance_ok rational_distance.
Proof.
  intros [[px py] pz] [[qx qy] qz]. simpl. eexists. split; [reflexivity |].
  unfold Qle. simpl. rewrite Z.mul_1_r. apply Z.sqrt_nonneg.
Qed.

Lemma endpoints_interpolated_witness :
  let pts := [(0, 0, 0); (3, 4, 0); (3, 4, 12)] in
  let c := new (Some pts) (Some CurveType.LinearNorm) None in
  point_eq (interpolate rational_distance c (Fin 0)) (Fin3 (0, 0, 0))
  /\ point_eq (interpolate rational_distance c (Fin 1)) (Fin3 (3, 4, 12)).
Proof.
  apply (endpoints_interpolated rational_distance
           [(0, 0, 0); (3, 4, 0); (3, 4, 12)] (Some CurveType.LinearNorm) None).
  - simpl. lia.
  - right. right. right. split; [reflexivity |]. split; [exact rational_distance_ok |].
    intros [|[|i]] Hi; simpl in Hi; try lia; vm_compute; discriminate.
Defined.

End claim_C1.

Section claims_C2_C3.
Import Particle ParticleAux.

(** C2.  A Particle constructed from at least 4 points, launched with
    [run(2)]: each of the first [lastFrame - 1] calls of [update] but the
    last moves the frame on by one; the last one wraps the frame to 1 and
    takes one off the loop counter; the same happens in the second loop,
    and the call number [2 * (lastFrame - 1)] brings the loop counter to
    zero, which resets the particle: ready and neither active nor
    destroyed. *)
Theorem particle_lifecycle :
  forall (random : nat -> Q) (points : list point) (cKeys sKeys : option (list Key.t))
         (rotate : bool) (k : nat) (p : t) (k' : nat),
    new random points cKeys sKeys rotate k = Some (p, k') ->
    (4 <= length points)%nat ->
    let per_loop := Z.to_nat (lastFrame p - 1) in
    lastFrame p = (Z.of_nat (length points) - 2)%Z
    /\ (forall j, (j < per_loop)%nat ->
          exists q, repeatM j update (run (Fin 2) p) k' = Some (q, k')
            /\ active q = true /\ frame q = (1 + Z.of_nat j)%Z
            /\ loops q = Some (Fin 2))
    /\ (forall j, (j < per_loop)%nat ->
          exists q, repeatM (per_loop + j) update (run (Fin 2) p) k' = Some (q, k')
            /\ active q = true /\ frame q = (1 + Z.of_nat j)%Z
            /\ loops q = Some (Fin 2 - Fin 1)%num)
    /\ (exists q, repeatM (2 * per_loop) update (run (Fin 2) p) k' = Some (q, k')
          /\ ready q = true /\ active q = false /\ destroyed q = false).
Proof.
  intros random points cKeys sKeys rotate k p k' Hnew Hlen per_loop.
  pose proof (new_constructed _ _ _ _ _ _ _ _ Hnew) as Hc.
  pose proof (run_running (Fin 2) p _ Hc) as Hrun.
  assert (HL : lastFrame p = (Z.of_nat (length points) - 2)%Z) by apply Hc.
  destruct (two_loops points p k' Hc Hlen) as (q1 & q2 & Hq1 & Hr1 & Hq2 & Hr2).
  fold per_loop in Hq1, Hq2.
  split; [exact HL |]. split; [|split].
  - intros j Hj.
    destruct (updates_advance _ _ k' j 1 _ Hrun) as (q & Hq & Hr); [lia | lia |].
    exists q. split; [exact Hq |]. destruct Hr as (Ha & _ & _ & _ & Hf & Hlo & _). auto.
  - intros j Hj.
    destruct (updates_advance _ _ k' j 1 _ Hr1) as (q & Hq & Hr); [lia | lia |].
    exists q. split.
    + rewrite repeatM_add. unfold bind. rewrite Hq1. exact Hq.
    + destruct Hr as (Ha & _ & _ & _ & Hf & Hlo & _). auto.
  - exists q2. split.
    + replace (2 * per_loop)%nat with (per_loop + per_loop)%nat by lia.
      rewrite repeatM_add. unfold bind. rewrite Hq1. exact Hq2.
    + destruct Hr2 as (H1 & H2 & H3 & _). auto.
Qed.

Lemma particle_lifecycle_witness :
  exists p q,
    new half_random (replicate 5 (Fin 0, Fin 0, Fin 0)) None None false 0%nat = Some (p, 0%nat)
    /\ repeatM (2 * Z.to_nat (lastFrame p - 1)) update (run (Fin 2) p) 0%nat = Some (q, 0%nat)
    /\ ready q = true /\ active q = false /\ destroyed q = false.
Proof.
  assert (E : exists p, new half_random (replicate 5 (Fin 0, Fin 0, Fin 0)) None None false 0%nat
                        = Some (p, 0%nat)) by (vm_compute; eexists; reflexivity).
  destruct E as (p & E).
  destruct (particle_lifecycle _ _ _ _ _ _ _ _ E) as (_ & _ & _ & q & Hq & H);
    [simpl; lia |].
  exists p, q. split; [exact E |]. split; [exact Hq | exact H].
Defined.

(** C3 (the code departs from it).  [reset] sets the loop counter to
    [totalLoops], a property that [run] does not assign, nor does any
    other method: after a reset the loop counter is undefined, whatever
    count was passed to [run]; the rest of the reset is as claimed: the
    transform is hidden, the particle is ready and not active. *)
Theorem reset_loop_counter_undefined :
  forall (random : nat -> Q) (points : list point) (cKeys sKeys : option (list Key.t))
         (rotate : bool) (k : nat) (p : t) (k' : nat) (n : num),
    new random points cKeys sKeys rotate k = Some (p, k') ->
    (exists q, reset (run n p) k' = Some (q, k')
       /\ loops q = None /\ ready q = true /\ active q = false
       /\ (exists tr, transform q = Some tr /\ visible tr = false))
    /\ ((4 <= length points)%nat ->
        exists q, repeatM (2 * Z.to_nat (lastFrame p - 1)) update (run (Fin 2) p) k'
                  = Some (q, k')
          /\ ready q = true /\ active q = false /\ loops q = None).
Proof.
  intros random points cKeys sKeys rotate k p k' n Hnew.
  pose proof (new_constructed _ _ _ _ _ _ _ _ Hnew) as Hc.
  split.
  - destruct Hc as ((tr & Ht) & _ & _ & _ & Htl & _).
    destruct (reset_spec (run n p) tr k') as (q & Hq & Hlo & Hr & Ha & _ & _ & Hv); [exact Ht |].
    exists q. cbn [run totalLoops set_active set_ready set_loops] in Hlo.
    rewrite Htl in Hlo. auto.
  - intros Hlen.
    destruct (two_loops points p k' Hc Hlen) as (q1 & q2 & Hq1 & Hr1 & Hq2 & Hr2).
    exists q2. split.
    + replace (2 * Z.to_nat (lastFrame p - 1))%nat
        with (Z.to_nat (lastFrame p - 1) + Z.to_nat (lastFrame p - 1))%nat by lia.
      rewrite repeatM_add. unfold bind. rewrite Hq1. exact Hq2.
    + destruct Hr2 as (H1 & H2 & _ & _ & H5 & _). auto.
Qed.

Lemma reset_loop_counter_undefined_witness :
  exists p q,
    new half_random (replicate 5 (Fin 0, Fin 0, Fin 0)) None None false 0%nat = Some (p, 0%nat)
    /\ reset (run (Fin 2) p) 0%nat = Some (q, 0%nat)
    /\ loops q = None /\ ready q = true.
Proof.
  assert (E : exists p, new half_random (replicate 5 (Fin 0, Fin 0, Fin 0)) None None false 0%nat
                        = Some (p, 0%nat)) by (vm_compute; eexists; reflexivity).
  destruct E as (p & E).
  destruct (proj1 (reset_loop_counter_undefined _ _ _ _ _ _ _ _ (Fin 2) E))
    as (q & Hq & Hlo & Hr & _).
  exists p, q. auto.
Defined.


End claims_C2_C3.

Section claim_C5.
Import ParticleCurveSystem SystemAux.

(** C5, counterexample.  A pool of one particle, started, after two ticks
    of one second: the particle is in flight at the frame 2 of 3.  In the
    third tick [update] advances it, which ends its run and makes it
    ready, and the emission of the same tick launches it again: the
    particle launched in this tick has been advanced by [update] in it. *)
Lemma relaunch_in_tick_counterexample :
  exists r p q r',
    ticking one_particle 2 0%nat = Some r
    /\ particles r.1 !! 0%nat = Some (Some p)
    /\ Particle.active p = true /\ Particle.frame p = 2%Z
    /\ Particle.update p r.2 = Some (q, r.2)
    /\ Particle.frame q = 1%Z /\ Particle.ready q = true
    /\ onRender (Fin 1) r.1 r.2 = Some r'
    /\ r'.1.2 = [CallUpdate 0; CallRun 0 (Fin 1)]
    /\ particles r'.1.1 !! 0%nat = Some (Some (Particle.run (Fin 1) q)).
Proof.
  provide (ticking one_particle 2 0%nat).
  match goal with |- exists p q r', _ = Some ?r /\ _ =>
    provide (particles r.1 !! 0%nat ≫= id) end.
  match goal with |- exists q r', _ = Some ?r /\ _ = Some (Some ?p) /\ _ =>
    provide (fst <$> Particle.update p r.2);
    provide (onRender (Fin 1) r.1 r.2) end.
  repeat (split; [vm_compute; reflexivity |]). vm_compute; reflexivity.
Qed.

(** C5, as amended.  A tick of [onRender] first calls [update] on every
    particle of the pool, in the order of the slots, and after that makes
    at most one call of [run], with the loop count 1, on the particle at
    the cursor: this emission needs an active system and a timer that has
    reached its bound, and no update follows it.  So the particle that is
    launched is left as [run(1)] made it of the state in which the update
    of this tick left it, and with a system that is not active all
    particles are updated all the same, the timer and the cursor staying
    as they are.  The tick ends without an exception when no update throws
    and the cursor is in the pool. *)
Theorem onRender_updates_before_emission :
  forall (elapsedTime : num) (s : t) (k : nat),
    ((forall i, (i < maxParticles s)%nat ->
        exists p q, particles s !! i = Some (Some p) /\ Particle.update p k = Some (q, k)) ->
     (pIndex s < maxParticles s)%nat ->
     is_Some (onRender elapsedTime s k))
    /\ forall s' tr k', onRender elapsedTime s k = Some ((s', tr), k') ->
       exists launched : bool,
         tr = map CallUpdate (nonnull_slots s (maxParticles s))
              ++ (if launched then [CallRun (pIndex s) (Fin 1)] else [])
         /\ (launched = true ->
             active s = true /\ nge (pTimer s + elapsedTime)%num (pTimerMax s) = true)
         /\ (active s = false ->
             launched = false /\ pTimer s' = pTimer s /\ pIndex s' = pIndex s)
         /\ (forall i p, (i < maxParticles s)%nat -> particles s !! i = Some (Some p) ->
               exists p1, Particle.update p k = Some (p1, k)
                 /\ if (launched && (i =? pIndex s)%nat)%bool
                    then Particle.ready p1 = true
                         /\ particles s' !! i = Some (Some (Particle.run (Fin 1) p1))
                    else particles s' !! i = Some (Some p1)).
Proof.
  intros elapsedTime s k. rewrite onRender_parts. split.
  - intros Hpool Hidx.
    destruct (update_loop_total s k (maxParticles s)) as (s1 & tr1 & Hrun).
    { intros i p Hi Hp. destruct (Hpool i Hi) as (p' & q & Hp' & Hq).
      rewrite Hp in Hp'. injection Hp' as <-. eauto. }
    destruct (update_loop_spec _ _ _ _ _ _ Hrun) as (_ & _ & (Hs & _ & Hup & _)).
    apply schedule_eq in Hs as (Ea & Em & _ & _ & Et & Etm & Ei & _).
    destruct (Hpool _ Hidx) as (p & q & Hp & _).
    destruct (Hup _ _ Hidx Hp) as (p1 & _ & Hp1).
    unfold bind. rewrite Hrun. unfold emit.
    destruct (negb (active s1)); [eauto |].
    cbn [pTimer pTimerMax set_pTimer].
    destruct (nge _ _); [|eauto].
    cbn [particles pIndex set_pTimer]. rewrite Ei, Hp1. cbn [defined ret bind].
    unfold bind, defined, ret. destruct (Particle.ready p1); eauto.
  - intros s' tr k' H. apply bindM_Some in H as ([s1 tr1] & k1 & Hrun & Hemit).
    destruct (update_loop_spec _ _ _ _ _ _ Hrun) as (-> & -> & (Hs & Hl & Hup & Hrest & _)).
    apply schedule_eq in Hs as (Ea & Em & _ & _ & Et & Etm & Ei & _).
    unfold emit in Hemit. rewrite Ea in Hemit.
    destruct (active s) eqn:Hact; cbn [negb] in Hemit.
    2:{ injection Hemit as <- <- <-. exists false. rewrite app_nil_r.
        repeat split; try congruence.
        intros i p Hi Hp. destruct (Hup _ _ Hi Hp) as (p1 & Hu & Hp1).
        exists p1. split; [exact Hu | exact Hp1]. }
    cbn [pTimer pTimerMax set_pTimer] in Hemit. rewrite Et, Etm in Hemit.
    destruct (nge (pTimer s + elapsedTime)%num (pTimerMax s)) eqn:Hge.
    2:{ injection Hemit as <- <- <-. exists false. rewrite app_nil_r.
        repeat split; try congruence.
        intros i p Hi Hp. destruct (Hup _ _ Hi Hp) as (p1 & Hu & Hp1).
        exists p1. split; [exact Hu | exact Hp1]. }
    cbn [particles pIndex set_pTimer] in Hemit. rewrite Ei in Hemit.
    apply bindM_Some in Hemit as (slot & k2 & Hslot & Hemit).
    apply defined_Some in Hslot as (Hslot & ->).
    apply bindM_Some in Hemit as (q & k3 & Hq & Hemit).
    apply defined_Some in Hq as (-> & ->).
    destruct (Particle.ready q) eqn:Hready.
    + injection Hemit as <- <- <-. exists true.
      split; [reflexivity |]. split; [auto |]. split; [congruence |].
      intros i p Hi Hp. destruct (Hup _ _ Hi Hp) as (p1 & Hu & Hp1).
      exists p1. split; [exact Hu |].
      cbn [andb]. destruct (i =? pIndex s)%nat eqn:Ei'.
      * apply Nat.eqb_eq in Ei' as ->. rewrite Hslot in Hp1. injection Hp1 as ->.
        split; [exact Hready |].
        match goal with |- particles ?x !! _ = _ =>
          assert (Hps : particles x = <[pIndex s := Some (Particle.run (Fin 1) p1)]> (particles s1))
            by (destruct (_ <=? _)%nat; reflexivity) end.
        rewrite Hps. apply list_lookup_insert_eq. now apply lookup_lt_Some in Hslot.
      * apply Nat.eqb_neq in Ei'.
        match goal with |- particles ?x !! _ = _ =>
          assert (Hps : particles x = <[pIndex s := Some (Particle.run (Fin 1) q)]> (particles s1))
            by (destruct (_ <=? _)%nat; reflexivity) end.
        rewrite Hps, list_lookup_insert_ne by congruence. exact Hp1.
    + injection Hemit as <- <- <-. exists false. rewrite app_nil_r.
      split; [reflexivity |]. split; [congruence |]. split; [congruence |].
      intros i p Hi Hp. destruct (Hup _ _ Hi Hp) as (p1 & Hu & Hp1).
      exists p1. split; [exact Hu |]. cbn [andb].
      match goal with |- particles ?x !! _ = _ =>
        assert (Hps : particles x = particles s1)
          by (destruct (_ <=? _)%nat; reflexivity) end.
      rewrite Hps. exact Hp1.
Qed.

Lemma onRender_updates_before_emission_witness :
  exists r r',
    ticking one_particle 2 0%nat = Some r
    /\ onRender (Fin 1) r.1 r.2 = Some r'
    /\ r'.1.2 = [CallUpdate 0; CallRun 0 (Fin 1)]
    /\ exists launched : bool,
         r'.1.2 = map CallUpdate (nonnull_slots r.1 (maxParticles r.1))
                  ++ (if launched then [CallRun (pIndex r.1) (Fin 1)] else []).
Proof.
  provide (ticking one_particle 2 0%nat).
  match goal with |- exists r', _ = Some ?r /\ _ => provide (onRender (Fin 1) r.1 r.2) end.
  split; [vm_compute; reflexivity |].
  match goal with |- onRender _ ?s ?k = Some ?r' /\ _ =>
    assert (H : onRender (Fin 1) s k = Some (r'.1.1, r'.1.2, r'.2))
      by (vm_compute; reflexivity) end.
  split; [vm_compute; reflexivity |]. split; [reflexivity |].
  destruct (proj2 (onRender_updates_before_emission _ _ _) _ _ _ H)
    as (launched & Htr & _).
  exists launched. exact Htr.
Defined.

End claim_C5.

Section claim_C6.
Import ParticleCurveSystem SystemAux.

(** The value of [hemi.utils.clamp(r, 0, hi)]. *)
Lemma clamp_cases r hi :
  0 <= hi ->
  exists c, utils.clamp (Fin r) (Fin 0) (Fin hi) = Fin c
    /\ (r <= 0 -> c == 0) /\ (0 <= r <= hi -> c == r) /\ (hi <= r -> c == hi)
    /\ 0 <= c <= hi.
Proof.
  intros Hhi. unfold utils.clamp, ngt. cbn [nlt].
  destruct (Qlt_bool hi r) eqn:E2.
  - apply Qlt_bool_true in E2. exists hi. split; [reflexivity |].
    repeat split; intros; lra.
  - apply Qlt_bool_false in E2. destruct (Qlt_bool r 0) eqn:E0.
    + apply Qlt_bool_true in E0. exists 0. split; [reflexivity |].
      repeat split; intros; lra.
    + apply Qlt_bool_false in E0. exists r. split; [reflexivity |].
      repeat split; intros; lra.
Qed.

(** C6.  A ParticleCurveSystem configured with [particleCount] 4 and
    [life] 2 has the [maxRate] 2.  In any state of it, [setRate(r)] stores
    and returns [r] clamped to the interval from 0 to [maxRate];
    [setRate(0)] leaves the system not active with the rate 0; and a
    positive rate set while the rate is 0 leaves the system active. *)
Theorem emission_rate :
  forall (random : nat -> Q) (distance : point -> point -> num) (cfg : Cfg) (fps : Q)
         (k : nat) (s : t) (k' : nat),
    cfg_particleCount cfg = Some 4%nat ->
    cfg_life cfg = Some 2 ->
    new random distance cfg fps k = Some (s, k') ->
    maxRate s = Fin 2
    /\ forall (s1 : t) (r : Q) (k1 : nat),
         maxRate s1 = maxRate s ->
         exists s2 rate,
           setRate (Fin r) s1 k1 = Some ((s2, rate), k1)
           /\ pRate s2 = rate
           /\ (r <= 0 -> rate =~ Fin 0)
           /\ (0 <= r <= 2 -> rate =~ Fin r)
           /\ (2 <= r -> rate =~ Fin 2)
           /\ (r == 0 -> active s2 = false /\ pRate s2 =~ Fin 0)
           /\ (0 < r -> pRate s1 =~ Fin 0 -> active s2 = true).
Proof.
  intros random distance cfg fps k s k' Hcount Hlife Hnew.
  apply new_schedule in Hnew. apply schedule_eq in Hnew as (_ & _ & Hmax & _).
  assert (Hm : maxRate s = Fin 2).
  { rewrite Hmax. cbn [initial maxRate]. unfold max_particles, life_of.
    rewrite Hcount, Hlife. reflexivity. }
  split; [exact Hm |].
  intros s1 r k1 Hs1. rewrite Hm in Hs1.
  destruct (clamp_cases r 2) as (c & Hc & C0 & C1 & C2 & Cb); [lra |].
  unfold setRate. rewrite Hs1, Hc. cbn [nseq].
  destruct (Qeq_bool c 0) eqn:Ec.
  - apply Qeq_bool_iff in Ec. cbn [bind ret stop].
    eexists _, _. split; [reflexivity |].
    cbn [pRate set_pRate active set_active set_pTimerMax].
    split; [reflexivity |].
    split; [exact C0 |]. split; [exact C1 |]. split; [exact C2 |].
    split; [intros _; split; [reflexivity | exact Ec] |].
    intros Hr Hp. exfalso.
    destruct (Qlt_le_dec r 2) as [Hlt|Hge];
      [rewrite C1 in Ec by lra | rewrite C2 in Ec by lra]; lra.
  - apply Qeq_bool_neq in Ec. unfold bind at 1. cbn [ret].
    eexists _, _. split; [reflexivity |]. cbn [pRate set_pRate].
    split; [reflexivity |].
    split; [exact C0 |]. split; [exact C1 |]. split; [exact C2 |].
    split; [intros Hr; exfalso; apply Ec, C0; lra |].
    intros Hr Hp.
    destruct (pRate s1) as [x| | |]; try contradiction.
    simpl in Hp. cbn [nseq]. rewrite (proj2 (Qeq_bool_iff x 0) Hp).
    assert (Hgt : ngt (Fin c) (Fin 0) = true) by (apply Qlt_bool_true; lra).
    rewrite Hgt. reflexivity.
Qed.

Lemma emission_rate_witness :
  exists r s2,
    new half_random CurveAux.rational_distance four_particles 60 0%nat = Some r
    /\ maxRate r.1 = Fin 2
    /\ setRate (Fin 10) r.1 r.2 = Some ((s2, pRate s2), r.2)
    /\ pRate s2 =~ Fin 2.
Proof.
  provide (new half_random CurveAux.rational_distance four_particles 60 0%nat).
  match goal with |- exists s2, _ = Some ?r /\ _ =>
    assert (H : new half_random CurveAux.rational_distance four_particles 60 0%nat
                = Some (r.1, r.2)) by (vm_compute; reflexivity);
    destruct (emission_rate half_random CurveAux.rational_distance four_particles 60
                0%nat r.1 r.2 eq_refl eq_refl H) as (Hm & Hset);
    destruct (Hset r.1 10 r.2 eq_refl) as (s2 & rate & E & Hp & _ & _ & H2 & _)
  end.
  exists s2. split; [vm_compute; reflexivity |]. split; [exact Hm |].
  rewrite Hp. split; [exact E |]. apply H2. lra.
Defined.

End claim_C6.

Section claim_C7.
Import GpuAux.

Lemma setter_normalises
    (set : list Store.loc -> Store.t -> G.t -> option (Store.t * G.t))
    (field : G.t -> list Store.loc) (assign : list Store.loc -> G.t -> G.t) :
  (forall keys st s,
     set keys st s
     = '(stored, st') ← G.normalize_keys keys st;
       Some (st', G.setupShaders (assign stored s))) ->
  (forall stored s, field (G.setupShaders (assign stored s)) = stored) ->
  normalises set field.
Proof.
  intros Hset Hfield st s. split; [| split].
  - eexists. rewrite Hset, normalize_empty. cbn [mbind option_bind].
    split; [reflexivity | apply Hfield].
  - intros k0 o Ho. destruct (normalize_single st k0 o Ho) as (st' & a & b & E & Ha & Hb).
    exists st', (G.setupShaders (assign [a; b] s)), a, b.
    rewrite Hset, E. cbn [mbind option_bind]. rewrite Hfield. auto.
  - intros k0 mid kl o0 ol Hne H0 Hl Ho0 Hol.
    destruct (normalize_several st k0 mid kl o0 ol Hne H0 Hl Ho0 Hol)
      as (st' & E & Ha & Hb & Hm).
    exists st', (G.setupShaders (assign (k0 :: mid ++ [kl]) s)).
    rewrite Hset, E. cbn [mbind option_bind]. rewrite Hfield. auto.
Qed.

(** C7, counterexample.  An array that holds the same key object twice:
    the second write, of the key 1, goes to the object that the first
    entry refers to, so the key of the first stored entry is 1 and not 0. *)
Lemma aliased_keys_counterexample :
  exists st' s',
    G.setColorKeys [0; 0]%nat three_keys bare = Some (st', s')
    /\ G.colors s' = [0; 0]%nat
    /\ stored_key st' (G.colors s') 0 = Some (Fin 1)
    /\ stored_key st' (G.colors s') 0 <> Some (Fin 0).
Proof.
  exists (default three_keys (fst <$> G.setColorKeys [0; 0]%nat three_keys bare)),
         (default bare (snd <$> G.setColorKeys [0; 0]%nat three_keys bare)).
  split; [vm_compute; reflexivity |]. split; [vm_compute; reflexivity |].
  split; [vm_compute; reflexivity |]. vm_compute. discriminate.
Qed.

(** C7, as amended.  [setColorKeys] and [setScaleKeys] store an empty
    array for an empty one; for an array of one key object, two new
    objects with the keys 0 and 1 and the value of that object; and for an
    array of two or more key objects whose first and last entries are
    different objects, neither of them among the middle entries, the array
    itself, after writing the key 0 to the first object and the key 1 to
    the last, the values and the middle objects being as they were. *)
Theorem key_normalisation :
  normalises G.setColorKeys G.colors /\ normalises G.setScaleKeys G.scales.
Proof.
  split.
  - apply (setter_normalises _ _ G.set_colors); [reflexivity |].
    intros stored s. now rewrite colors_setupShaders.
  - apply (setter_normalises _ _ G.set_scales); [reflexivity |].
    intros stored s. now rewrite scales_setupShaders.
Qed.

Lemma key_normalisation_witness :
  exists st' s',
    G.setColorKeys [0; 1; 2]%nat three_keys bare = Some (st', s')
    /\ G.colors s' = [0; 1; 2]%nat
    /\ stored_key st' (G.colors s') 0 = Some (Fin 0)
    /\ stored_key st' (G.colors s') 1 = Some (Fin (5 # 10))
    /\ stored_key st' (G.colors s') 2 = Some (Fin 1).
Proof.
  destruct (proj1 key_normalisation three_keys bare) as (_ & _ & H).
  destruct (H 0%nat [1%nat] 2%nat
              (Store.mkKey (Fin (2 # 10)) [Fin 1; Fin 0; Fin 0; Fin 1])
              (Store.mkKey (Fin (9 # 10)) [Fin 0; Fin 0; Fin 1; Fin 1]))
    as (st' & s' & E & Hc & H0 & H2 & H1).
  - discriminate.
  - intros Hin%list_elem_of_singleton. discriminate Hin.
  - intros Hin%list_elem_of_singleton. discriminate Hin.
  - reflexivity.
  - reflexivity.
  - exists st', s'. split; [exact E |]. split; [exact Hc |].
    rewrite Hc. unfold stored_key. cbn [lookup list_lookup mbind option_bind app].
    rewrite H0, H2, (H1 1%nat) by (apply list_elem_of_singleton; reflexivity).
    repeat split; reflexivity.
Defined.

End claim_C7.

Section claim_C8.
Import GpuParticleTrail TrailAux.




End claim_C8.

Section claim_C9.
Import Particle ParticleAux RampAux SystemAux.

(** C9.  What the code does with a ramp of zero keys.  [Particle.setColors]
    does not take an empty array for an absent one: it stores the empty
    ramp, and the evaluation of the color of the frame 1 throws, for every
    particle that has a frame; only without an argument does it take the
    default ramp, with which every frame gets its color.
    [GpuParticleCurveSystem.setColorKeys] stores an empty array of colors
    for an empty array of keys. *)
Theorem empty_ramp :
  forall (random : nat -> Q) (p : Particle.t) (k : nat),
    ((1 <= lastFrame p)%Z -> setColors random (Some []) p k = None)
    /\ (exists p', setColors random None p k = Some (p', k)
          /\ colorKeys p' = default_colorKeys
          /\ colors_below (frames_end (lastFrame p)) p')
    /\ (forall st s, exists s',
          GpuParticleCurveSystem.setColorKeys [] st s = Some (st, s')
          /\ GpuParticleCurveSystem.colors s' = []).
Proof.
  intros random p k. split; [| split].
  - apply setColors_empty_throws.
  - destruct (setColors_null random p k) as (p' & H1 & H2 & _ & H3). eauto.
  - intros st s. eexists. split; [reflexivity |]. apply colors_setupShaders.
Qed.

Lemma empty_ramp_witness :
  exists r,
    Particle.new half_random five_points None None false 0%nat = Some r
    /\ lastFrame r.1 = 3%Z
    /\ setColors half_random (Some []) r.1 r.2 = None.
Proof.
  provide (Particle.new half_random five_points None None false 0%nat).
  split; [vm_compute; reflexivity |]. split; [reflexivity |].
  apply (proj1 (empty_ramp half_random _ _)). simpl. lia.
Defined.

End claim_C9.

Section claim_C10.
Import Particle ParticleAux RampAux SystemAux.




End claim_C10.

(* ===================================================================== *)
(** * Further properties of the code                                      *)
(* ===================================================================== *)

Section curve_more_facts.
Import Curve CurveAux.

(** The segment and the local parameter that [linear] and [cubicHermite]
    compute at a finite time, for a curve of two waypoints or more. *)
Lemma segment_at c (t : Q) :
  (2 <= count c)%nat ->
  let m := inject_Z (Z.of_nat (count c)) - 1 in
  let j := inject_Z (Qfloor (t * m)) in
  exists a b, segment c (Fin t) = (Fin a, Fin b)
    /\ a == (if Qle_bool m j then m - 1 else j)
    /\ b == t * m - a.
Proof.
  intros Hn m j. pose proof (inject_nat_pos _ Hn) as Hm. fold m in Hm.
  unfold segment.
  change (of_nat (count c) - Fin 1)%num with (Fin m).
  change (Fin t * Fin m)%num with (Fin (t * m)).
  change (floor (Fin (t * m))) with (Fin j).
  change (nge (Fin j) (Fin m)) with (Qle_bool m j).
  assert (Hgen : forall a, 
    ((Fin t - Fin a / Fin m) / ((Fin a + Fin 1) / Fin m - Fin a / Fin m))%num
    =~ Fin (t * m - a)).
  { intros a. rewrite (ndiv_fin a m) by lra.
    change (Fin a + Fin 1)%num with (Fin (a + 1)).
    rewrite (ndiv_fin (a + 1) m) by lra.
    change (Fin ?x - Fin ?y)%num with (Fin (x - y)).
    assert (Hd : (a + 1) / m - a / m == / m) by (field; lra).
    rewrite ndiv_fin.
    2:{ rewrite Hd. intros H0. apply (Qinv_lt_0_compat) in Hm. lra. }
    simpl. rewrite Hd. field. lra. }
  destruct (Qle_bool m j) eqn:E.
  - change (Fin m - Fin 1)%num with (Fin (m - 1)).
    specialize (Hgen (m - 1)).
    destruct ((Fin t - Fin (m - 1) / Fin m) / ((Fin (m - 1) + Fin 1) / Fin m - Fin (m - 1) / Fin m))%num
      as [b| | |] eqn:Eb; try contradiction.
    exists (m - 1), b. split; [reflexivity |]. split; [reflexivity | exact Hgen].
  - specialize (Hgen j).
    destruct ((Fin t - Fin j / Fin m) / ((Fin j + Fin 1) / Fin m - Fin j / Fin m))%num
      as [b| | |] eqn:Eb; try contradiction.
    exists j, b. split; [reflexivity |]. split; [reflexivity | exact Hgen].
Qed.

(** At the time [i/(n-1)] the segment is the one that starts at the
    waypoint [i], entered at its start; at the time 1 it is the last one,
    at its end. *)
Lemma segment_knot c i :
  (2 <= count c)%nat -> (i < count c - 1)%nat ->
  exists a b, segment c (of_nat i / (of_nat (count c) - Fin 1))%num = (Fin a, Fin b)
    /\ a == inject_Z (Z.of_nat i) /\ b == 0.
Proof.
  intros Hn Hi. pose proof (inject_nat_pos _ Hn) as Hm.
  set (m := inject_Z (Z.of_nat (count c)) - 1) in *.
  change (of_nat (count c) - Fin 1)%num with (Fin m).
  unfold of_nat. rewrite ndiv_fin by lra.
  destruct (segment_at c (inject_Z (Z.of_nat i) / m) Hn) as (a & b & E & Ha & Hb).
  fold m in Ha, Hb.
  assert (Ht : inject_Z (Z.of_nat i) / m * m == inject_Z (Z.of_nat i)) by (field; lra).
  rewrite (Qfloor_comp _ _ Ht), Qfloor_Z in Ha.
  assert (Hlt : inject_Z (Z.of_nat i) < m).
  { unfold m. pose proof (inject_nat_pred (count c) ltac:(lia)) as Hp. rewrite Hp.
    rewrite <- Zlt_Qlt. lia. }
  assert (E2 : Qle_bool m (inject_Z (Z.of_nat i)) = false) by (apply Qle_bool_false; exact Hlt).
  rewrite E2 in Ha.
  exists a, b. split; [exact E |]. split; [exact Ha |]. rewrite Hb, Ht, Ha. ring.
Qed.

End curve_more_facts.


Section curve_more_facts2.
Import Curve CurveAux CurveMoreAux.

Lemma num_eq_fin_inv a q : a =~ Fin q -> exists q', a = Fin q' /\ q' == q.
Proof. destruct a; simpl; try contradiction. eauto. Qed.

Lemma type_cardinal_dec c :
  type c = Some CurveType.Cardinal \/ type c <> Some CurveType.Cardinal.
Proof. destruct (type c) as [[]|]; (now left) || (right; discriminate). Qed.

(** The constructor stores the waypoints, and finite tangents. *)
Lemma new_has_points pts ty0 ocfg : has_points (new (Some pts) ty0 ocfg) pts.
Proof.
  rewrite new_spec. set (c := loaded pts (default empty_cfg ocfg) (fresh ty0)).
  destruct (type_cardinal_dec c) as [E|E].
  - rewrite setTangents_cardinal by exact E. repeat split.
  - rewrite setTangents_other by exact E. repeat split.
Qed.

Lemma new_finite_tangents pts ty0 ocfg : finite_tangents (new (Some pts) ty0 ocfg).
Proof.
  rewrite new_spec. set (cfg := default empty_cfg ocfg).
  set (c := loaded pts cfg (fresh ty0)).
  destruct (type_cardinal_dec c) as [E|E].
  2:{ rewrite setTangents_other by exact E. apply loaded_finite_tangents. }
  rewrite setTangents_cardinal by exact E.
  intros i Hi. cbn [set_tans count xtans ytans ztans] in *.
  assert (Hc : count c = length pts) by reflexivity. rewrite Hc in *.
  assert (Hat : forall (v : nat -> num) l, at_ (map v (seq 0 (length pts)) ++ l) i = v i).
  { intros v l. unfold at_. rewrite lookup_app_l by (rewrite length_map, length_seq; lia).
    rewrite list_lookup_fmap, lookup_seq_lt by lia. reflexivity. }
  rewrite !Hat.
  destruct (loaded_tension pts cfg ty0) as (tn & Htn & _). fold c in Htn. rewrite Htn.
  destruct (num_eq_fin_inv _ _ (cardinal_value (fun p => p.1.1) pts tn tn i Hi (Qeq_refl _)))
    as (tx & Hx & _).
  destruct (num_eq_fin_inv _ _ (cardinal_value (fun p => p.1.2) pts tn tn i Hi (Qeq_refl _)))
    as (ty & Hy & _).
  destruct (num_eq_fin_inv _ _ (cardinal_value (fun p => p.2) pts tn tn i Hi (Qeq_refl _)))
    as (tz & Hz & _).
  exists tx, ty, tz. repeat split; assumption.
Qed.

Lemma interpolate_fn_new pts ty0 ocfg ty :
  type (new (Some pts) ty0 ocfg) = Some ty ->
  interpolate_fn (new (Some pts) ty0 ocfg) = fn_of ty Ibase.
Proof.
  rewrite new_spec. set (c := loaded pts (default empty_cfg ocfg) (fresh ty0)).
  rewrite type_setTangents. intros H.
  assert (Hf : interpolate_fn (setTangents c) = interpolate_fn c).
  { destruct (type_cardinal_dec c) as [E|E].
    - rewrite setTangents_cardinal by exact E. reflexivity.
    - rewrite setTangents_other by exact E. reflexivity. }
  rewrite Hf. unfold c in *. cbn [loaded type interpolate_fn fresh] in *.
  now injection H as ->.
Qed.

(** The segment at the time 1 written as [(n-1)/(n-1)]. *)
Lemma segment_last c :
  (2 <= count c)%nat ->
  exists a b, segment c (of_nat (count c - 1) / (of_nat (count c) - Fin 1))%num = (Fin a, Fin b)
    /\ a == inject_Z (Z.of_nat (count c - 2)) /\ b == 1.
Proof.
  intros Hn. pose proof (inject_nat_pos _ Hn) as Hm.
  pose proof (inject_nat_pred (count c) ltac:(lia)) as Hp.
  set (m := inject_Z (Z.of_nat (count c)) - 1) in *.
  change (of_nat (count c) - Fin 1)%num with (Fin m).
  unfold of_nat. rewrite ndiv_fin by lra.
  destruct (segment_at c (inject_Z (Z.of_nat (count c - 1)) / m) Hn) as (a & b & E & Ha & Hb).
  fold m in Ha, Hb.
  assert (Ht : inject_Z (Z.of_nat (count c - 1)) / m * m == inject_Z (Z.of_nat (count c - 1)))
    by (field; lra).
  rewrite (Qfloor_comp _ _ Ht), Qfloor_Z in Ha.
  assert (E2 : Qle_bool m (inject_Z (Z.of_nat (count c - 1))) = true).
  { apply Qle_bool_iff. rewrite Hp. lra. }
  rewrite E2 in Ha.
  exists a, b. split; [exact E |]. split.
  - rewrite Ha, Hp. replace (count c - 2)%nat with (count c - 1 - 1)%nat by lia.
    now rewrite <- (inject_nat_pred (count c - 1)) by lia.
  - rewrite Hb, Ht, Ha, Hp. ring.
Qed.

Lemma linear_knot c pts i :
  has_points c pts -> (2 <= length pts)%nat -> (i < length pts)%nat ->
  point_eq (linear c (of_nat i / (of_nat (count c) - Fin 1))%num) (Fin3 (waypoint pts i)).
Proof.
  intros (Hc & Hx & Hy & Hz) Hn Hi. rewrite linear_segment.
  destruct (decide (i < length pts - 1)%nat) as [Hlt|Hge].
  - destruct (segment_knot c i) as (a & b & -> & Ha & Hb); [lia | lia |].
    cbn [fst snd]. rewrite !(aget_succ _ a i), !(aget_nat _ a i) by exact Ha.
    rewrite Hx, Hy, Hz, !at_points by lia.
    repeat split; apply blend_start; exact Hb.
  - assert (Ei : i = (count c - 1)%nat) by lia. rewrite Ei.
    destruct (segment_last c) as (a & b & -> & Ha & Hb); [lia |].
    cbn [fst snd].
    rewrite !(aget_succ _ a (count c - 2)), !(aget_nat _ a (count c - 2)) by exact Ha.
    rewrite Hx, Hy, Hz, Hc, !at_points by lia.
    replace (S (length pts - 2)) with (length pts - 1)%nat by lia.
    repeat split; apply blend_end; exact Hb.
Qed.

Lemma cubicHermite_knot c pts i :
  has_points c pts -> finite_tangents c -> (2 <= length pts)%nat -> (i < length pts)%nat ->
  point_eq (cubicHermite c (of_nat i / (of_nat (count c) - Fin 1))%num) (Fin3 (waypoint pts i)).
Proof.
  intros (Hc & Hx & Hy & Hz) Ht Hn Hi. rewrite cubicHermite_segment.
  destruct (decide (i < length pts - 1)%nat) as [Hlt|Hge].
  - destruct (segment_knot c i) as (a & b & -> & Ha & Hb); [lia | lia |].
    cbn [fst snd]. rewrite !(aget_succ _ a i), !(aget_nat _ a i) by exact Ha.
    destruct (Ht i) as (tx0 & ty0 & tz0 & -> & -> & ->); [lia |].
    destruct (Ht (S i)) as (tx1 & ty1 & tz1 & -> & -> & ->); [lia |].
    rewrite Hx, Hy, Hz, !at_points by lia.
    repeat split; apply hermite_start; exact Hb.
  - assert (Ei : i = (count c - 1)%nat) by lia. rewrite Ei.
    destruct (segment_last c) as (a & b & -> & Ha & Hb); [lia |].
    cbn [fst snd].
    rewrite !(aget_succ _ a (count c - 2)), !(aget_nat _ a (count c - 2)) by exact Ha.
    destruct (Ht (count c - 2)%nat) as (tx0 & ty0 & tz0 & -> & -> & ->); [lia |].
    destruct (Ht (S (count c - 2))) as (tx1 & ty1 & tz1 & -> & -> & ->); [lia |].
    rewrite Hx, Hy, Hz, Hc, !at_points by lia.
    replace (S (length pts - 2)) with (length pts - 1)%nat by lia.
    repeat split; apply hermite_end; exact Hb.
Qed.

Lemma index_of_negative a z : a == inject_Z z -> (z < 0)%Z -> index_of (Fin a) = None.
Proof.
  intros Ha Hz. rewrite (index_of_comp _ _ Ha). unfold index_of, inject_Z.
  assert (E : Qred (z # 1) = z # 1).
  { apply Qred_identity. simpl. apply Z.gcd_1_r. }
  rewrite E. simpl. destruct z; simpl; try lia; reflexivity.
Qed.

End curve_more_facts2.

Section curve_extras.
Import Curve CurveAux CurveMoreAux.

(** X1.  A curve of Linear, CubicHermite or Cardinal type built from
    N >= 2 waypoints passes through every waypoint: [interpolate] at the
    time i/(N-1) is the waypoint [i]. *)
Theorem interpolate_through_waypoints :
  forall (distance : point -> point -> num) (pts : list (Q * Q * Q))
         (ty0 : option CurveType.t) (ocfg : option Cfg) (i : nat),
    let c := new (Some pts) ty0 ocfg in
    let n := length pts in
    (2 <= n)%nat -> (i < n)%nat ->
    (type c = Some CurveType.Linear \/ type c = Some CurveType.CubicHermite
     \/ type c = Some CurveType.Cardinal) ->
    point_eq (interpolate distance c (of_nat i / (of_nat n - Fin 1))%num)
             (Fin3 (waypoint pts i)).
Proof.
  intros distance pts ty0 ocfg i c n Hn Hi Hty. subst c n.
  pose proof (new_has_points pts ty0 ocfg) as Hp.
  pose proof (new_finite_tangents pts ty0 ocfg) as Hf.
  rewrite <- (proj1 Hp).
  unfold interpolate.
  destruct Hty as [H | [H | H]]; rewrite (interpolate_fn_new _ _ _ _ H); cbn [fn_of].
  - now apply linear_knot.
  - now apply cubicHermite_knot.
  - now apply cubicHermite_knot.
Qed.

Lemma interpolate_through_waypoints_witness :
  let c := new (Some [(0, 0, 0); (1, 2, 3); (4, 5, 6)]) (Some CurveType.Cardinal) None in
  point_eq (interpolate rational_distance c (of_nat 1 / (of_nat 3 - Fin 1))%num)
           (Fin3 (1, 2, 3)).
Proof.
  apply (interpolate_through_waypoints rational_distance [(0, 0, 0); (1, 2, 3); (4, 5, 6)]
           (Some CurveType.Cardinal) None 1%nat).
  - simpl. lia.
  - simpl. lia.
  - right. right. reflexivity.
Defined.

End curve_extras.

Section curve_extras2.
Import Curve CurveAux CurveMoreAux.

Lemma blend_at b tt (p q : Q) :
  b == tt -> ((Fin 1 - Fin b) * Fin p + Fin b * Fin q)%num =~ Fin ((1 - tt) * p + tt * q).
Proof. intros Hb. simpl. rewrite Hb. reflexivity. Qed.

(** X2.  A Linear curve outside of the unit interval: at a time below 0
    the segment index is negative, the waypoint read there is undefined
    and every coordinate is NaN; at a time t >= 1 the index is clamped to
    the last segment, which is extended: the result is the blend of the
    last two waypoints at the local parameter t*(N-1) - (N-2). *)
Theorem linear_outside_unit_interval :
  forall (distance : point -> point -> num) (pts : list (Q * Q * Q))
         (ty0 : option CurveType.t) (ocfg : option Cfg) (t : Q),
    let c := new (Some pts) ty0 ocfg in
    let n := length pts in
    (2 <= n)%nat -> type c = Some CurveType.Linear ->
    (t < 0 -> interpolate distance c (Fin t) = (NaN, NaN, NaN))
    /\ (1 <= t ->
        point_eq (interpolate distance c (Fin t))
          (Fin3 (blend (t * (inject_Z (Z.of_nat n) - 1) - inject_Z (Z.of_nat (n - 2)))
                   (waypoint pts (n - 2)) (waypoint pts (n - 1))))).
Proof.
  intros distance pts ty0 ocfg t c n Hn Hty. subst c n.
  destruct (new_has_points pts ty0 ocfg) as (Hc & Hx & Hy & Hz).
  unfold interpolate. rewrite (interpolate_fn_new _ _ _ _ Hty). cbn [fn_of].
  rewrite linear_segment.
  set (c := new (Some pts) ty0 ocfg) in *.
  assert (Hn' : (2 <= count c)%nat) by lia.
  pose proof (inject_nat_pos _ Hn') as Hm.
  pose proof (inject_nat_pred (count c) ltac:(lia)) as Hp.
  destruct (segment_at c t Hn') as (a & b & -> & Ha & Hb).
  set (m := inject_Z (Z.of_nat (count c)) - 1) in *.
  cbn [fst snd]. split.
  - intros Ht.
    assert (Hj : (Qfloor (t * m) < 0)%Z).
    { rewrite Zlt_Qlt. pose proof (Qfloor_le (t * m)) as Hf.
      assert (t * m < 0) by nra. change (inject_Z 0) with 0. lra. }
    assert (E : Qle_bool m (inject_Z (Qfloor (t * m))) = false).
    { apply Qle_bool_false. rewrite Zlt_Qlt in Hj. change (inject_Z 0) with 0 in Hj. lra. }
    rewrite E in Ha.
    unfold aget at 1 3 5. rewrite (index_of_negative a _ Ha Hj). reflexivity.
  - intros Ht.
    assert (E : Qle_bool m (inject_Z (Qfloor (t * m))) = true).
    { apply Qle_bool_iff.
      assert (Hfl : (Z.of_nat (count c - 1) <= Qfloor (t * m))%Z).
      { rewrite <- (Qfloor_Z (Z.of_nat (count c - 1))) at 1.
        apply Qfloor_resp_le. nra. }
      rewrite Zle_Qle in Hfl. lra. }
    rewrite E in Ha.
    assert (Ha' : a == inject_Z (Z.of_nat (count c - 2))).
    { pose proof (inject_nat_pred (count c - 1) ltac:(lia)) as Hp2.
      replace (count c - 1 - 1)%nat with (count c - 2)%nat in Hp2 by lia.
      rewrite Ha. lra. }
    rewrite !(aget_succ _ a (count c - 2)), !(aget_nat _ a (count c - 2)) by exact Ha'.
    rewrite Hx, Hy, Hz, Hc, !at_points by lia.
    replace (S (length pts - 2)) with (length pts - 1)%nat by lia.
    assert (Hb' : b == t * (inject_Z (Z.of_nat (length pts)) - 1)
                       - inject_Z (Z.of_nat (length pts - 2))).
    { rewrite Hb, Ha'. unfold m. rewrite Hc. reflexivity. }
    repeat split; apply blend_at; exact Hb'.
Qed.

Lemma linear_outside_unit_interval_witness :
  interpolate rational_distance (new (Some [(0, 0, 0); (1, 2, 3); (4, 5, 6)]) None None)
              (Fin (-1 # 2))
  = (NaN, NaN, NaN).
Proof.
  destruct (linear_outside_unit_interval rational_distance [(0, 0, 0); (1, 2, 3); (4, 5, 6)]
              None None (-1 # 2)) as (H1 & _); [simpl; lia | reflexivity |].
  apply H1. reflexivity.
Defined.

(** X3.  [getStart] and [getEnd] of a curve built from waypoints are the
    first and the last waypoint, whatever its type and configuration;
    for a curve without waypoints every coordinate is undefined (NaN
    here). *)
Theorem start_and_end_waypoints :
  forall (pts : list (Q * Q * Q)) (ty0 : option CurveType.t) (ocfg : option Cfg),
    ((1 <= length pts)%nat ->
     getStart (new (Some pts) ty0 ocfg) = Fin3 (waypoint pts 0)
     /\ getEnd (new (Some pts) ty0 ocfg) = Fin3 (waypoint pts (length pts - 1)))
    /\ getStart (new (Some []) ty0 ocfg) = (NaN, NaN, NaN)
    /\ getEnd (new (Some []) ty0 ocfg) = (NaN, NaN, NaN)
    /\ getStart (new None ty0 ocfg) = (NaN, NaN, NaN)
    /\ getEnd (new None ty0 ocfg) = (NaN, NaN, NaN).
Proof.
  intros pts ty0 ocfg. split; [| split; [| split; [| split]]].
  - intros Hn. destruct (new_has_points pts ty0 ocfg) as (Hc & Hx & Hy & Hz).
    unfold getStart, getEnd. rewrite Hc, Hx, Hy, Hz.
    destruct (length pts) as [|e] eqn:El; [lia |].
    rewrite !at_points by lia.
    replace (S e - 1)%nat with e by lia. split; reflexivity.
  - destruct (new_has_points [] ty0 ocfg) as (Hc & Hx & Hy & Hz).
    unfold getStart. now rewrite Hx, Hy, Hz.
  - destruct (new_has_points [] ty0 ocfg) as (Hc & Hx & Hy & Hz).
    unfold getEnd. now rewrite Hc.
  - reflexivity.
  - reflexivity.
Qed.

Lemma start_and_end_waypoints_witness :
  let c := new (Some [(0, 0, 0); (1, 2, 3); (4, 5, 6)]) (Some CurveType.Bezier) None in
  getStart c = Fin3 (0, 0, 0) /\ getEnd c = Fin3 (4, 5, 6).
Proof.
  apply (proj1 (start_and_end_waypoints [(0, 0, 0); (1, 2, 3); (4, 5, 6)]
                  (Some CurveType.Bezier) None)).
  simpl. lia.
Defined.

Lemma type_new pts ty0 ocfg :
  type (new (Some pts) ty0 ocfg)
  = Some (selected (cfg_type (default empty_cfg ocfg)) ty0).
Proof. rewrite new_spec, type_setTangents. reflexivity. Qed.

(** X4.  The type of a curve built from waypoints is [cfg.type || opt_type
    || Linear], where Linear, whose value is 0, counts as absent: a type
    of the configuration other than Linear wins; otherwise the type given
    to the constructor stays, so that the configuration cannot turn a
    curve of another type into a Linear one.  A Custom curve keeps the
    interpolation of the prototype, [t, t, t], and so does every curve
    built without waypoints, whose type is never bound. *)
Theorem curve_type_selection :
  forall (distance : point -> point -> num) (pts : list (Q * Q * Q))
         (ty0 : option CurveType.t) (ocfg : option Cfg),
    let c := new (Some pts) ty0 ocfg in
    let cty := ocfg ≫= cfg_type in
    (forall ty, cty = Some ty -> ty <> CurveType.Linear -> type c = Some ty)
    /\ (cty = None \/ cty = Some CurveType.Linear ->
        forall ty, ty0 = Some ty -> type c = Some ty)
    /\ (cty = None \/ cty = Some CurveType.Linear ->
        ty0 = None -> type c = Some CurveType.Linear)
    /\ (type c = Some CurveType.Custom -> forall t, interpolate distance c t = (t, t, t))
    /\ (forall t, interpolate distance (new None ty0 ocfg) t = (t, t, t)).
Proof.
  intros distance pts ty0 ocfg c cty. subst c.
  assert (Hcty : cfg_type (default empty_cfg ocfg) = cty).
  { unfold cty. now destruct ocfg. }
  split; [| split; [| split; [| split]]].
  - intros ty H Hne. rewrite type_new, Hcty, H. now destruct ty.
  - intros H ty ->. rewrite type_new, Hcty.
    destruct H as [-> | ->]; now destruct ty.
  - intros H ->. rewrite type_new, Hcty. now destruct H as [-> | ->].
  - intros H t. unfold interpolate. now rewrite (interpolate_fn_new _ _ _ _ H).
  - reflexivity.
Qed.

Lemma curve_type_selection_witness :
  type (new (Some [(0, 0, 0); (1, 2, 3)]) (Some CurveType.Bezier)
            (Some (mkCfg None (Some CurveType.Linear) None None None)))
  = Some CurveType.Bezier.
Proof.
  apply (proj1 (proj2 (curve_type_selection rational_distance [(0, 0, 0); (1, 2, 3)]
                         (Some CurveType.Bezier)
                         (Some (mkCfg None (Some CurveType.Linear) None None None))))
           (or_intror eq_refl) CurveType.Bezier eq_refl).
Defined.

End curve_extras2.

Section curve_extras3.
Import Curve CurveAux CurveMoreAux.

(** X5.  With two waypoints and the default weights the Bezier blend is
    the straight line: at every time t >= 0, [interpolate] of the Bezier
    curve and of the Linear curve through the same two waypoints agree
    (at t >= 1 both extend the line beyond the second waypoint). *)
Theorem bezier_of_two_waypoints_is_linear :
  forall (distance : point -> point -> num) (p q : Q * Q * Q) (t : Q),
    0 <= t ->
    point_eq (interpolate distance (new (Some [p; q]) (Some CurveType.Bezier) None) (Fin t))
             (interpolate distance (new (Some [p; q]) (Some CurveType.Linear) None) (Fin t)).
Proof.
  intros distance p q t Ht.
  set (cl := new (Some [p; q]) (Some CurveType.Linear) None).
  assert (Hlin : point_eq (interpolate distance cl (Fin t)) (Fin3 (blend t p q))).
  { assert (Hn : (2 <= count cl)%nat) by (simpl; lia).
    change (interpolate distance cl (Fin t)) with (linear cl (Fin t)).
    rewrite linear_segment.
    destruct (segment_at cl t Hn) as (a & b & -> & Ha & Hb).
    change (inject_Z (Z.of_nat (count cl)) - 1) with (2 - 1) in Ha, Hb.
    assert (Ha0 : a == inject_Z (Z.of_nat 0)).
    { destruct (Qle_bool (2 - 1) (inject_Z (Qfloor (t * (2 - 1))))) eqn:E.
      - rewrite Ha. reflexivity.
      - apply Qle_bool_false in E.
        assert (H0 : (0 <= Qfloor (t * (2 - 1)))%Z).
        { rewrite <- (Qfloor_Z 0). apply Qfloor_resp_le. change (inject_Z 0) with 0. lra. }
        assert (H1 : (Qfloor (t * (2 - 1)) < 1)%Z).
        { rewrite Zlt_Qlt. change (inject_Z 1) with 1. lra. }
        assert (Hz : Qfloor (t * (2 - 1)) = 0%Z) by lia.
        rewrite Ha, Hz. reflexivity. }
    assert (Hb0 : b == t).
    { rewrite Hb, Ha0. change (inject_Z (Z.of_nat 0)) with 0. ring. }
    cbn [fst snd]. rewrite !(aget_succ _ a 0), !(aget_nat _ a 0) by exact Ha0.
    destruct p as [[px py] pz], q as [[qx qy] qz].
    repeat split; apply blend_at; exact Hb0. }
  assert (Hbez : point_eq (interpolate distance
                             (new (Some [p; q]) (Some CurveType.Bezier) None) (Fin t))
                          (Fin3 (blend t p q))).
  { rewrite new_spec, setTangents_other by discriminate.
    destruct p as [[px py] pz], q as [[qx qy] qz].
    unfold interpolate. cbn [loaded interpolate_fn fn_of selected default empty_cfg cfg_type
                             fresh type].
    unfold bezier, for_range.
    cbn [loaded count weights xpts ypts zpts length map seq Nat.sub fold_left
         default empty_cfg cfg_weights cfg_type weight_of].
    change (fn_of (selected None (Some CurveType.Bezier)) Ibase) with Ibezier.
    cbv beta iota. cbn -[Qmult Qplus Qminus Qdiv Qopp ndiv].
    set (w := 0 + 1 * inject_Z (Z.of_nat 1) * 1 * ((1 + - t) * 1)
              + 1 * inject_Z (Z.of_nat 1) * (t * 1) * 1).
    assert (Hw : w == 1) by (unfold w; change (inject_Z (Z.of_nat 1)) with 1; ring).
    rewrite !(ndiv_fin _ w) by (rewrite Hw; discriminate).
    unfold point_eq, Fin3, blend. cbn [fst snd num_eq].
    clear Hw. subst w. change (inject_Z (Z.of_nat 1)) with 1.
    split; [| split]; field; lra. }
  destruct Hlin as (L1 & L2 & L3), Hbez as (B1 & B2 & B3).
  split; [| split].
  - exact (num_eq_trans _ _ _ B1 (num_eq_sym _ _ L1)).
  - exact (num_eq_trans _ _ _ B2 (num_eq_sym _ _ L2)).
  - exact (num_eq_trans _ _ _ B3 (num_eq_sym _ _ L3)).
Qed.

Lemma bezier_of_two_waypoints_is_linear_witness :
  point_eq (interpolate rational_distance
              (new (Some [(0, 0, 0); (4, 8, 12)]) (Some CurveType.Bezier) None) (Fin (1 # 4)))
           (interpolate rational_distance
              (new (Some [(0, 0, 0); (4, 8, 12)]) (Some CurveType.Linear) None) (Fin (1 # 4))).
Proof.
  apply (bezier_of_two_waypoints_is_linear rational_distance (0, 0, 0) (4, 8, 12) (1 # 4)).
  discriminate.
Defined.

End curve_extras3.

Section particle_more_facts.
Import Particle ParticleAux RampAux.
Variable random : nat -> Q.

Lemma ngt_below_zero x y :
  nle x (Fin 0) = true -> ngt (Fin 0) y = false -> ngt x y = false.
Proof.
  unfold ngt. destruct x as [qx| | |], y as [qy| | |]; simpl; try congruence.
  intros Hx Hy. apply Qle_bool_iff in Hx. apply Qlt_bool_false in Hy.
  apply Qlt_bool_false. lra.
Qed.

(** With a ramp in ascending order of two keys or more whose first key
    is not above 0, [lerpValue] returns at the time of every frame. *)
Lemma lerpValue_frame keys a L i k :
  (2 <= length keys)%nat -> keys !! 0%nat = Some a -> nle (Key.key a) (Fin 0) = true ->
  (1 <= i)%nat -> (Z.of_nat i <= L)%Z ->
  exists r, lerpValue (frame_time L i) keys k = Some (r, k).
Proof.
  intros Hlen Ha Hle Hi HiL. apply lerpValue_scan.
  apply (key_scan_finds keys _ _ k 0 a); [lia | lia | exact Ha |].
  apply ngt_below_zero; [exact Hle |]. now apply frame_time_not_negative.
Qed.

Lemma setColors_total cks a p k :
  (2 <= length cks)%nat -> cks !! 0%nat = Some a -> nle (Key.key a) (Fin 0) = true ->
  exists p' k', setColors random (Some cks) p k = Some (p', k').
Proof.
  intros Hlen Ha Hle. unfold setColors.
  destruct (jitter_all_total random cks k) as (keys & k1 & Hk).
  pose proof (jitter_all_keys _ _ _ _ _ Hk) as HF.
  pose proof (Forall2_length _ _ _ HF) as Hl.
  destruct (Forall2_lookup_l _ _ _ _ _ HF Ha) as (a' & Ha' & Ea).
  unfold bind at 1. rewrite Hk.
  destruct (le_lt_dec (frames_end (lastFrame p)) 1) as [Hs|Hs].
  - rewrite for_rangeM_nil by (cbn [lastFrame set_colorKeys set_colors]; exact Hs). eauto.
  - destruct (for_rangeM_total (fun i s k' => colorKeys s = keys /\ lastFrame s = lastFrame p)
      1 (frames_end (lastFrame (set_colorKeys keys (set_colors ∅ p))))
      (fun i p0 => do c <- lerpValue (frame_time (lastFrame p0) i) (colorKeys p0);
                   ret (set_colors (<[i:=c]> (colors p0)) p0))
      (set_colorKeys keys (set_colors ∅ p)) k1) as (p' & k' & Hrun & _).
    + cbn [lastFrame set_colorKeys set_colors]. lia.
    + split; reflexivity.
    + intros i s k0 Hi (Hck & Hlf).
      cbn [lastFrame set_colorKeys set_colors] in Hi. rewrite Hck, Hlf.
      destruct (lerpValue_frame keys a' (lastFrame p) i k0) as (r & Hr);
        [lia | exact Ha' | now rewrite Ea | lia | unfold frames_end in Hi; lia |].
      unfold bind. rewrite Hr. cbn [ret].
      eexists _, _. split; [reflexivity |]. split; [exact Hck | exact Hlf].
    + eauto.
Qed.

Lemma update_throws_without_transform p k :
  active p = true -> transform p = None -> update p k = None.
Proof.
  intros Ha Ht. unfold update. rewrite Ha. cbn [negb].
  apply bindM_None.
  destruct (defined (if (0 <=? frame p)%Z then colors p !! Z.to_nat (frame p) else None) k)
    as [[c k1]|] eqn:E; [right | now left].
  exists c, k1. split; [reflexivity |].
  cbn [transform set_material]. rewrite Ht. reflexivity.
Qed.

End particle_more_facts.

Section particle_extras.
Import Particle ParticleAux RampAux SystemAux.

(** X6.  [destroy] drops the transform of a particle and marks it; a
    second [destroy] does nothing.  The other fields stay, the [active]
    flag among them, and the methods that read the transform throw from
    then on: [reset], [addShape], [removeShapes], and [update] when the
    particle was active (an inactive particle is left alone by [update]). *)
Theorem destroyed_particle_is_unusable :
  forall (p : Particle.t) (tr : Transform) (k : nat),
    transform p = Some tr -> destroyed p = false ->
    exists p',
      destroy p k = Some (p', k)
      /\ p' = set_destroyed true (set_transform None p)
      /\ destroy p' k = Some (p', k)
      /\ reset p' k = None /\ addShape p' k = None /\ removeShapes p' k = None
      /\ (active p = true -> update p' k = None)
      /\ (active p = false -> update p' k = Some (p', k)).
Proof.
  intros p tr k Ht Hd. exists (set_destroyed true (set_transform None p)).
  split; [unfold destroy; rewrite Hd, Ht; reflexivity |].
  split; [reflexivity |]. split; [reflexivity |].
  split; [reflexivity |]. split; [reflexivity |]. split; [reflexivity |].
  split.
  - intros Ha. apply update_throws_without_transform; [exact Ha | reflexivity].
  - intros Ha. unfold update. cbn [active set_destroyed set_transform]. now rewrite Ha.
Qed.

Lemma destroyed_particle_is_unusable_witness :
  exists r p',
    Particle.new half_random five_points None None false 0%nat = Some r
    /\ destroy r.1 r.2 = Some (p', r.2)
    /\ reset p' r.2 = None
    /\ update (run (Fin 1) p') r.2 = None.
Proof.
  provide (Particle.new half_random five_points None None false 0%nat).
  match goal with |- exists p', _ = Some ?r /\ _ =>
    destruct (destroyed_particle_is_unusable r.1
                (mkTransform true None false true [] true) r.2 eq_refl eq_refl)
      as (p' & H1 & H2 & _ & H3 & _)
  end.
  exists p'. split; [vm_compute; reflexivity |]. split; [exact H1 |].
  split; [exact H3 |]. rewrite H2. reflexivity.
Defined.

(** X7.  A ramp of two keys or more whose first key is not above 0 can
    always be set, in ascending order or not: [setColors] returns for
    every particle, and afterwards every frame from 1 to [lastFrame] has
    its color, the fields that are not part of the ramp being as they
    were. *)
Theorem well_formed_ramp_is_set :
  forall (random : nat -> Q) (cks : list Key.t) (a : Key.t) (p : Particle.t) (k : nat),
    (2 <= length cks)%nat -> cks !! 0%nat = Some a -> nle (Key.key a) (Fin 0) = true ->
    exists p' k',
      setColors random (Some cks) p k = Some (p', k')
      /\ core p' = core p
      /\ colors_below (frames_end (lastFrame p)) p'.
Proof.
  intros random cks a p k Hlen Ha Hle.
  destruct (setColors_total random cks a p k Hlen Ha Hle) as (p' & k' & H).
  exists p', k'. split; [exact H |].
  apply setColors_spec in H as (Hc & _ & Hb). split; assumption.
Qed.

Lemma well_formed_ramp_is_set_witness :
  exists r p' k',
    Particle.new half_random five_points None None false 0%nat = Some r
    /\ setColors half_random (Some default_colorKeys) r.1 r.2 = Some (p', k')
    /\ colors_below (frames_end (lastFrame r.1)) p'.
Proof.
  provide (Particle.new half_random five_points None None false 0%nat).
  match goal with |- exists p' k', _ = Some ?r /\ _ =>
    destruct (well_formed_ramp_is_set half_random default_colorKeys
                (Key.mk (Fin 0) [Fin 0; Fin 0; Fin 0; Fin 1] Key.NoRange) r.1 r.2)
      as (p' & k' & H1 & _ & H2); [simpl; lia | reflexivity | reflexivity |]
  end.
  exists p', k'. split; [vm_compute; reflexivity |]. split; assumption.
Defined.

End particle_extras.


Section particle_matrix_facts.
Import Particle ParticleAux RampAux ParticleMoreAux.
Variable random : nat -> Q.

Lemma setColors_matrices cKeys p k p' k' :
  setColors random cKeys p k = Some (p', k') -> matrices p' = matrices p /\ scales p' = scales p.
Proof.
  unfold setColors. intros H.
  apply bindM_Some in H as (keys & k1 & _ & H).
  apply (for_rangeM_inv (fun i s _ => matrices s = matrices p /\ scales s = scales p)) in H.
  - exact H.
  - split; reflexivity.
  - intros i s k2 s' k3 Hi Hm Hbody.
    apply bindM_Some in Hbody as (c & k4 & _ & Hbody). injection Hbody as <- <-. exact Hm.
Qed.







End particle_matrix_facts.

Section particle_extras2.
Import Particle ParticleAux RampAux ParticleMoreAux SystemAux.



End particle_extras2.

Section ramp_value_facts.
Import Particle ParticleAux RampAux RampMoreAux.
Variable random : nat -> Q.

Lemma finite_inv a : finite a -> exists q, a = Fin q.
Proof. destruct a; simpl; try contradiction. eauto. Qed.

(** The blend of two finite values of the same length at a local
    parameter that is 0, or 1. *)
Lemma imap_blend (t : Q) (va vb : list num) :
  Forall finite va -> Forall finite vb -> length va = length vb ->
  (t == 0 ->
   value_eq (imap (fun i av => ((Fin 1 - Fin t) * av + Fin t * at_ vb i)%num) va) va)
  /\ (t == 1 ->
      value_eq (imap (fun i av => ((Fin 1 - Fin t) * av + Fin t * at_ vb i)%num) va) vb).
Proof.
  intros Ha Hb Hl. unfold value_eq. split; intros Ht.
  - apply Forall2_same_length_lookup. split; [now rewrite length_imap |].
    intros i x y Hx Hy. rewrite list_lookup_imap in Hx. rewrite Hy in Hx. simpl in Hx.
    injection Hx as <-.
    destruct (lookup_lt_is_Some_2 vb i) as [z Hz]; [rewrite <- Hl; now apply lookup_lt_Some in Hy |].
    unfold at_. rewrite Hz. simpl.
    destruct (finite_inv _ (Forall_lookup_1 _ _ _ _ Ha Hy)) as (qy & ->).
    destruct (finite_inv _ (Forall_lookup_1 _ _ _ _ Hb Hz)) as (qz & ->).
    simpl. rewrite Ht. ring.
  - apply Forall2_same_length_lookup. split; [now rewrite length_imap |].
    intros i x y Hx Hy. rewrite list_lookup_imap in Hx.
    destruct (lookup_lt_is_Some_2 va i) as [z Hz]; [rewrite Hl; now apply lookup_lt_Some in Hy |].
    rewrite Hz in Hx. simpl in Hx. injection Hx as <-.
    unfold at_. rewrite Hy. simpl.
    destruct (finite_inv _ (Forall_lookup_1 _ _ _ _ Ha Hz)) as (qz & ->).
    destruct (finite_inv _ (Forall_lookup_1 _ _ _ _ Hb Hy)) as (qy & ->).
    simpl. rewrite Ht. ring.
Qed.

(** The scan of [lerpValue] stops at the first index, from the back,
    whose key is not above the time. *)
Lemma key_scan_stops keys time n k ndx a :
  (ndx < n)%nat -> keys !! ndx = Some a -> ngt (Key.key a) time = false ->
  (forall j b, (ndx < j < n)%nat -> keys !! j = Some b -> ngt (Key.key b) time = true) ->
  (n <= length keys)%nat ->
  key_scan keys time n k = Some (ndx, k).
Proof.
  intros Hlt Ha Hna Habove Hlen. induction n as [|n IH]; [lia |].
  simpl. destruct (decide (ndx = n)) as [->|Hne].
  - unfold bind. rewrite Ha. simpl. now rewrite Hna.
  - destruct (lookup_lt_is_Some_2 keys n) as [b Hb]; [lia |].
    unfold bind. rewrite Hb. simpl. rewrite (Habove n b) by (lia || assumption).
    apply IH; [lia | | lia]. intros j c Hj. apply Habove. lia.
Qed.

Lemma lerpValue_at keys time k ndx a b :
  key_scan keys time (length keys - 1) k = Some (ndx, k) ->
  keys !! ndx = Some a -> keys !! (ndx + 1)%nat = Some b ->
  lerpValue time keys k
  = Some (imap (fun i av =>
                  ((Fin 1 - (time - Key.key a) / (Key.key b - Key.key a)) * av
                   + (time - Key.key a) / (Key.key b - Key.key a) * at_ (Key.value b) i)%num)
               (Key.value a), k).
Proof.
  intros Hs Ha Hb. unfold lerpValue, bind. rewrite Hs, Ha. simpl. rewrite Hb. reflexivity.
Qed.

(** At the time 0 a plain ramp in ascending order that starts at the key
    0, with a second key above 0, gives the value of its first key. *)
Lemma lerpValue_start d keys a b (t0 : Q) k :
  plain d keys -> ascending keys ->
  keys !! 0%nat = Some a -> keys !! 1%nat = Some b ->
  Key.key a =~ Fin 0 -> ngt (Key.key b) (Fin 0) = true -> t0 == 0 ->
  exists r, lerpValue (Fin t0) keys k = Some (r, k) /\ value_eq r (Key.value a).
Proof.
  intros Hpl Hasc Ha Hb Hka Hkb Ht.
  pose proof (Forall_lookup_1 _ _ _ _ Hpl Ha) as (_ & Hfa & Hla & Hva).
  pose proof (Forall_lookup_1 _ _ _ _ Hpl Hb) as (_ & Hfb & Hlb & Hvb).
  destruct (finite_inv _ Hfa) as (ka & Eka). destruct (finite_inv _ Hfb) as (kb & Ekb).
  rewrite Eka in Hka. simpl in Hka. rewrite Ekb in Hkb.
  apply Qlt_bool_true in Hkb.
  assert (Hlen : (2 <= length keys)%nat) by (apply lookup_lt_Some in Hb; lia).
  assert (Hs : key_scan keys (Fin t0) (length keys - 1) k = Some (0%nat, k)).
  { apply (key_scan_stops _ _ _ _ _ a); [lia | exact Ha | | | lia].
    - rewrite Eka. apply Qlt_bool_false. lra.
    - intros j c Hj Hc.
      destruct (decide (j = 1%nat)) as [->|Hne].
      + rewrite Hb in Hc. injection Hc as <-. rewrite Ekb. apply Qlt_bool_true. lra.
      + pose proof (ascending_le keys 1 j b c Hasc ltac:(lia) Hb Hc) as Hle.
        rewrite Ekb in Hle. unfold ngt. destruct (Key.key c) as [kc| | |]; simpl in *;
          try congruence.
        apply Qle_bool_iff in Hle. apply Qlt_bool_true. lra. }
  rewrite (lerpValue_at _ _ _ _ a b Hs Ha Hb). eexists. split; [reflexivity |].
  rewrite Eka, Ekb.
  change (Fin t0 - Fin ka)%num with (Fin (t0 - ka)).
  change (Fin kb - Fin ka)%num with (Fin (kb - ka)).
  rewrite ndiv_fin by lra.
  apply (imap_blend ((t0 - ka) / (kb - ka)) (Key.value a) (Key.value b));
    [assumption | assumption | congruence |].
  rewrite Ht, Hka. field. lra.
Qed.

(** At the time 1 a plain ramp that ends at the key 1, with the key
    before below 1, gives the value of its last key. *)
Lemma lerpValue_end d keys a b (t1 : Q) k :
  plain d keys -> (2 <= length keys)%nat ->
  keys !! (length keys - 2)%nat = Some a -> keys !! (length keys - 1)%nat = Some b ->
  ngt (Fin 1) (Key.key a) = true -> Key.key b =~ Fin 1 -> t1 == 1 ->
  exists r, lerpValue (Fin t1) keys k = Some (r, k) /\ value_eq r (Key.value b).
Proof.
  intros Hpl Hlen Ha Hb Hka Hkb Ht.
  pose proof (Forall_lookup_1 _ _ _ _ Hpl Ha) as (_ & Hfa & Hla & Hva).
  pose proof (Forall_lookup_1 _ _ _ _ Hpl Hb) as (_ & Hfb & Hlb & Hvb).
  destruct (finite_inv _ Hfa) as (ka & Eka). destruct (finite_inv _ Hfb) as (kb & Ekb).
  rewrite Ekb in Hkb. simpl in Hkb. rewrite Eka in Hka.
  apply Qlt_bool_true in Hka.
  assert (Hs : key_scan keys (Fin t1) (length keys - 1) k = Some ((length keys - 2)%nat, k)).
  { apply (key_scan_stops _ _ _ _ _ a); [lia | exact Ha | | | lia].
    - rewrite Eka. apply Qlt_bool_false. lra.
    - intros j c Hj. lia. }
  replace (length keys - 1)%nat with (length keys - 2 + 1)%nat in Hb by lia.
  rewrite (lerpValue_at _ _ _ _ a b Hs Ha Hb). eexists. split; [reflexivity |].
  rewrite Eka, Ekb.
  change (Fin t1 - Fin ka)%num with (Fin (t1 - ka)).
  change (Fin kb - Fin ka)%num with (Fin (kb - ka)).
  rewrite ndiv_fin by lra.
  apply (imap_blend ((t1 - ka) / (kb - ka)) (Key.value a) (Key.value b));
    [assumption | assumption | congruence |].
  rewrite Ht, Hkb. field. lra.
Qed.

(** Keys without a range are stored as they are. *)
Lemma jitter_plain d cks : forall j k,
  plain d cks -> mapM_from (fun _ c => jitter random c) j cks k = Some (cks, k).
Proof.
  induction cks as [|c cks IH]; intros j k Hpl; [reflexivity |].
  apply Forall_cons in Hpl as ((Hr & _) & Hpl).
  simpl. unfold bind. unfold jitter, Key.has_range. rewrite Hr. simpl.
  rewrite (IH _ _ Hpl). simpl. destruct c as [ck cv cr]. simpl in Hr. now rewrite Hr.
Qed.

(** The color of every frame is the value of [lerpValue] at the time of
    the frame. *)
Lemma setColors_values d cks p k p' k' :
  plain d cks -> setColors random (Some cks) p k = Some (p', k') ->
  forall i, (1 <= i < frames_end (lastFrame p))%nat ->
    exists c, colors p' !! i = Some c
              /\ lerpValue (frame_time (lastFrame p) i) cks k = Some (c, k).
Proof.
  intros Hpl. unfold setColors. unfold bind at 1. rewrite (jitter_plain d cks 0 k Hpl).
  cbn [lastFrame set_colorKeys set_colors]. intros H.
  apply (for_rangeM_inv (fun n s k0 =>
           k0 = k /\ colorKeys s = cks /\ lastFrame s = lastFrame p
           /\ forall i, (1 <= i < n)%nat ->
                exists c, colors s !! i = Some c
                  /\ lerpValue (frame_time (lastFrame p) i) cks k = Some (c, k))) in H.
  - destruct H as (_ & _ & _ & H). intros i Hi. apply H. lia.
  - repeat split. intros i Hi. lia.
  - intros i s k2 s' k3 Hi (-> & Hck & Hlf & Hc) Hbody.
    apply bindM_Some in Hbody as (c & k4 & Hlv & Hbody). injection Hbody as <- <-.
    pose proof (lerpValue_state _ _ _ _ _ Hlv) as ->.
    rewrite Hck, Hlf in Hlv.
    cbn [colors set_colors colorKeys lastFrame].
    split; [reflexivity |]. split; [exact Hck |]. split; [exact Hlf |].
    intros j Hj. destruct (decide (j = i)) as [->|Hne].
    + rewrite lookup_insert_eq. eauto.
    + rewrite lookup_insert_ne by congruence. apply Hc. lia.
Qed.

Lemma frame_time_last L :
  (3 <= L)%Z -> exists t1, frame_time L (Z.to_nat (L - 1)) = Fin t1 /\ t1 == 1.
Proof.
  intros HL. unfold frame_time, of_nat, of_Z.
  change (Fin ?a - Fin ?b)%num with (Fin (a - b)).
  assert (Hd : ~ inject_Z L - 2 == 0) by (apply (inject_Z_minus_zero L 2); lia).
  rewrite ndiv_fin by exact Hd.
  eexists. split; [reflexivity |].
  rewrite Z2Nat.id by lia. unfold Z.sub. rewrite inject_Z_plus, inject_Z_opp.
  change (inject_Z 1) with 1. change (inject_Z 2) with 2 in Hd. field. 
  intros H0. apply Hd. change (inject_Z 2) with 2. lra.
Qed.

End ramp_value_facts.

Section ramp_extra.
Import Particle ParticleAux RampAux RampMoreAux SystemAux.

(** X9.  The ends of a ramp are the colors of the first and of the last
    frame that is shown.  For a ramp without ranges, with finite keys in
    ascending order and finite values of one length, that starts at the
    key 0 and ends at the key 1 (the second key above 0, the key before
    the last below 1), and a particle whose last frame is 3 or more:
    after [setColors] the color of the frame 1 is the value of the first
    key and the color of the frame [lastFrame - 1] is the value of the
    last key. *)
Theorem ramp_ends_at_first_and_last_shown_frame :
  forall (random : nat -> Q) (d : nat) (cks : list Key.t) (a0 a1 b0 b1 : Key.t)
         (p p' : Particle.t) (k k' : nat),
    plain d cks -> ascending cks ->
    cks !! 0%nat = Some a0 -> cks !! 1%nat = Some a1 ->
    cks !! (length cks - 2)%nat = Some b0 -> cks !! (length cks - 1)%nat = Some b1 ->
    Key.key a0 =~ Fin 0 -> ngt (Key.key a1) (Fin 0) = true ->
    ngt (Fin 1) (Key.key b0) = true -> Key.key b1 =~ Fin 1 ->
    (3 <= lastFrame p)%Z ->
    setColors random (Some cks) p k = Some (p', k') ->
    exists c1 c2,
      colors p' !! 1%nat = Some c1 /\ value_eq c1 (Key.value a0)
      /\ colors p' !! Z.to_nat (lastFrame p - 1) = Some c2 /\ value_eq c2 (Key.value b1).
Proof.
  intros random d cks a0 a1 b0 b1 p p' k k' Hpl Hasc Ha0 Ha1 Hb0 Hb1 Hk0 Hk1 Hkb0 Hkb1 HL Hset.
  pose proof (setColors_values random d cks p k p' k' Hpl Hset) as Hval.
  assert (Hlen : (2 <= length cks)%nat) by (apply lookup_lt_Some in Ha1; lia).
  destruct (Hval 1%nat) as (c1 & Hc1 & Hl1); [unfold frames_end; lia |].
  destruct (Hval (Z.to_nat (lastFrame p - 1))) as (c2 & Hc2 & Hl2); [unfold frames_end; lia |].
  destruct (frame_time_first (lastFrame p)) as (t0 & Et0 & Ht0); [lia |].
  destruct (frame_time_last (lastFrame p) HL) as (t1 & Et1 & Ht1).
  rewrite Et0 in Hl1. rewrite Et1 in Hl2.
  destruct (lerpValue_start d cks a0 a1 t0 k Hpl Hasc Ha0 Ha1 Hk0 Hk1 Ht0) as (r1 & Hr1 & Hv1).
  destruct (lerpValue_end d cks b0 b1 t1 k Hpl Hlen Hb0 Hb1 Hkb0 Hkb1 Ht1) as (r2 & Hr2 & Hv2).
  exists c1, c2. split; [exact Hc1 |]. split; [congruence |].
  split; [exact Hc2 | congruence].
Qed.

Lemma ramp_ends_at_first_and_last_shown_frame_witness :
  exists r r' c1 c2,
    Particle.new half_random five_points None None false 0%nat = Some r
    /\ setColors half_random (Some red_to_blue) r.1 r.2 = Some r'
    /\ colors r'.1 !! 1%nat = Some c1 /\ value_eq c1 [Fin 1; Fin 0; Fin 0; Fin 1]
    /\ colors r'.1 !! 2%nat = Some c2 /\ value_eq c2 [Fin 0; Fin 0; Fin 1; Fin 1].
Proof.
  provide (Particle.new half_random five_points None None false 0%nat).
  match goal with |- exists r' c1 c2, _ = Some ?r /\ _ =>
    provide (setColors half_random (Some red_to_blue) r.1 r.2) end.
  match goal with |- exists c1 c2, _ = Some ?r /\ _ = Some ?r' /\ _ =>
    assert (E : setColors half_random (Some red_to_blue) r.1 r.2 = Some (r'.1, r'.2))
      by (vm_compute; reflexivity);
    destruct (ramp_ends_at_first_and_last_shown_frame half_random 4 red_to_blue
                (Key.mk (Fin 0) [Fin 1; Fin 0; Fin 0; Fin 1] Key.NoRange)
                (Key.mk (Fin 1) [Fin 0; Fin 0; Fin 1; Fin 1] Key.NoRange)
                (Key.mk (Fin 0) [Fin 1; Fin 0; Fin 0; Fin 1] Key.NoRange)
                (Key.mk (Fin 1) [Fin 0; Fin 0; Fin 1; Fin 1] Key.NoRange)
                r.1 r'.1 r.2 r'.2)
      as (c1 & c2 & H1 & H2 & H3 & H4)
  end.
  - repeat constructor.
  - intros i a b. destruct i as [|[|i]]; simpl; intros [= <-] [= <-]. reflexivity.
  - reflexivity.
  - reflexivity.
  - reflexivity.
  - reflexivity.
  - reflexivity.
  - reflexivity.
  - reflexivity.
  - reflexivity.
  - simpl. lia.
  - exact E.
  - exists c1, c2. split; [vm_compute; reflexivity |]. split; [vm_compute; reflexivity |].
    split; [exact H1 |]. split; [exact H2 |]. split; [exact H3 | exact H4].
Defined.

End ramp_extra.

Section box_facts.
Import ParticleCurveSystem BoxAux Curve CurveAux.
Variable random : nat -> Q.

Lemma randomPoint_value lo hi k :
  randomPoint random lo hi k
  = Some ((random k * lo.1.1 + (1 - random k) * hi.1.1,
           random (S k) * lo.1.2 + (1 - random (S k)) * hi.1.2,
           random (S (S k)) * lo.2 + (1 - random (S (S k))) * hi.2), S (S (S k))).
Proof. reflexivity. Qed.

Lemma mix_between (xi lo hi : Q) :
  0 <= xi -> xi < 1 -> lo <= hi ->
  lo <= xi * lo + (1 - xi) * hi <= hi /\ (lo < hi -> lo < xi * lo + (1 - xi) * hi).
Proof.
  intros H0 H1 Hle.
  assert (A : 0 <= (1 - xi) * (hi - lo)) by (apply Qmult_le_0_compat; lra).
  assert (B : 0 <= xi * (hi - lo)) by (apply Qmult_le_0_compat; lra).
  assert (E1 : xi * lo + (1 - xi) * hi == lo + (1 - xi) * (hi - lo)) by ring.
  assert (E2 : xi * lo + (1 - xi) * hi == hi - xi * (hi - lo)) by ring.
  split; [split |].
  - rewrite E1. clear E1 E2 B. remember ((1 - xi) * (hi - lo)) as d. lra.
  - rewrite E2. clear E1 E2 A. remember (xi * (hi - lo)) as d. lra.
  - intros Hlt. assert (C : 0 < (1 - xi) * (hi - lo)) by (apply Qmult_lt_0_compat; lra).
    rewrite E1. clear E1 E2 A B. remember ((1 - xi) * (hi - lo)) as d. lra.
Qed.

(** One random point in each box, in the order of the boxes. *)
Lemma randomPoints_spec bxs : forall j k,
  unit_random random -> Forall proper bxs ->
  exists inner,
    mapM_from (fun _ b => randomPoint random (min b) (max b)) j bxs k
    = Some (inner, (k + 3 * length bxs)%nat)
    /\ Forall2 inside bxs inner.
Proof.
  induction bxs as [|b bxs IH]; intros j k Hr Hp.
  - exists []. split; [simpl; unfold ret; do 2 f_equal; lia | constructor].
  - apply Forall_cons in Hp as (Hb & Hp).
    destruct (IH (S j) (S (S (S k))) Hr Hp) as (inner & Hrun & Hin).
    cbn [mapM_from]. unfold bind at 1. rewrite randomPoint_value.
    unfold bind at 1. rewrite Hrun. cbn [ret].
    eexists (_ :: inner). split; [unfold ret; do 2 f_equal; cbn [length]; lia |].
    constructor; [| exact Hin].
    destruct Hb as (Hx & Hy & Hz).
    destruct (Hr k) as (A0 & A1), (Hr (S k)) as (B0 & B1), (Hr (S (S k))) as (C0 & C1).
    repeat split; cbn [fst snd]; apply mix_between; assumption.
Qed.

(** [getStart] and [getEnd] of a curve built from waypoints. *)
Lemma start_and_end_of_new pts ty0 ocfg :
  (1 <= length pts)%nat ->
  getStart (new (Some pts) ty0 ocfg) = Fin3 (waypoint pts 0)
  /\ getEnd (new (Some pts) ty0 ocfg) = Fin3 (waypoint pts (length pts - 1)).
Proof.
  intros Hn.
  assert (Hp : has_points (new (Some pts) ty0 ocfg) pts).
  { rewrite new_spec. set (c := loaded pts (default empty_cfg ocfg) (fresh ty0)).
    destruct (type c) as [[]|] eqn:E;
      try (rewrite setTangents_other by (rewrite E; discriminate); repeat split).
    rewrite setTangents_cardinal by exact E. repeat split. }
  destruct Hp as (Hc & Hx & Hy & Hz).
  unfold getStart, getEnd. rewrite Hc, Hx, Hy, Hz.
  destruct (length pts) as [|e] eqn:El; [lia |].
  rewrite !at_points by lia.
  replace (S e - 1)%nat with e by lia. split; reflexivity.
Qed.

End box_facts.

Section box_extras.
Import ParticleCurveSystem BoxAux Curve CurveAux SystemAux.

(** X10.  [randomPoint(min, max)] is in the box: with values of
    [Math.random()] from 0 (included) to 1 (excluded), of which it takes
    three, every coordinate is between the minimum and the maximum of the
    box; it is never the minimum on an axis where the box has an extent
    (the maximum is what the random value 0 gives). *)
Theorem randomPoint_in_box :
  forall (random : nat -> Q) (b : Box) (k : nat),
    unit_random random -> proper b ->
    exists pt,
      randomPoint random (min b) (max b) k = Some (pt, (k + 3)%nat)
      /\ inside b pt
      /\ ((min b).1.1 < (max b).1.1 -> (min b).1.1 < pt.1.1)
      /\ ((min b).1.2 < (max b).1.2 -> (min b).1.2 < pt.1.2)
      /\ ((min b).2 < (max b).2 -> (min b).2 < pt.2).
Proof.
  intros random b k Hr (Hx & Hy & Hz). rewrite randomPoint_value.
  destruct (Hr k) as (A0 & A1), (Hr (S k)) as (B0 & B1), (Hr (S (S k))) as (C0 & C1).
  eexists. split; [do 2 f_equal; lia |].
  split; [repeat split; cbn [fst snd]; apply mix_between; assumption |].
  repeat split; cbn [fst snd]; apply mix_between; assumption.
Qed.

Lemma randomPoint_in_box_witness :
  exists pt,
    randomPoint half_random (0, 0, 0) (2, 4, 6) 0%nat = Some (pt, 3%nat)
    /\ inside (mkBox (0, 0, 0) (2, 4, 6)) pt.
Proof.
  destruct (randomPoint_in_box half_random (mkBox (0, 0, 0) (2, 4, 6)) 0%nat) as (pt & H1 & H2 & _).
  - intros j. split; discriminate || reflexivity.
  - repeat split; discriminate.
  - exists pt. split; assumption.
Defined.

(** X11.  [newCurve] makes a Cardinal curve through one random point in
    each box, in the order of the boxes, with the first point and the last
    point once more at the ends: for N >= 1 boxes it takes 3N values of
    [Math.random()] and the curve has N + 2 waypoints, the waypoint
    [i + 1] in the box [i]; its start is in the first box and its end in
    the last one.  Without boxes it throws. *)
Theorem newCurve_through_boxes :
  forall (random : nat -> Q) (tension : num) (bxs : list Box) (k : nat),
    (unit_random random -> Forall proper bxs -> (1 <= length bxs)%nat ->
     exists c pts,
       newCurve random tension bxs k = Some (c, (k + 3 * length bxs)%nat)
       /\ type c = Some CurveType.Cardinal
       /\ has_points c pts
       /\ length pts = (length bxs + 2)%nat
       /\ pts !! 0%nat = pts !! 1%nat
       /\ pts !! (length bxs + 1)%nat = pts !! length bxs
       /\ (forall i b, bxs !! i = Some b ->
             exists pt, pts !! S i = Some pt /\ inside b pt)
       /\ (forall b, bxs !! 0%nat = Some b ->
             exists pt, getStart c = Fin3 pt /\ inside b pt)
       /\ (forall b, bxs !! (length bxs - 1)%nat = Some b ->
             exists pt, getEnd c = Fin3 pt /\ inside b pt))
    /\ newCurve random tension [] k = None.
Proof.
  intros random tension bxs k. split; [| reflexivity].
  intros Hr Hp Hn.
  destruct (randomPoints_spec random bxs 0 k Hr Hp) as (inner & Hrun & Hin).
  pose proof (Forall2_length _ _ _ Hin) as Hl.
  unfold newCurve. unfold bind at 1. rewrite Hrun.
  destruct inner as [|p0 inner'] eqn:Ei; [simpl in Hl; lia |].
  rewrite <- Ei in *.
  assert (Hhead : head inner = Some p0) by (now rewrite Ei).
  destruct (last inner) as [pl|] eqn:Elast.
  2:{ rewrite last_None in Elast. rewrite Elast in Ei. discriminate. }
  rewrite Hhead. cbn [defined bind ret]. unfold bind, ret.
  set (pts := p0 :: inner ++ [pl]).
  set (ocfg := Some (Curve.mkCfg None None None None
                       match tension with Fin q => Some q | _ => None end)).
  pose proof (new_spec pts (Some CurveType.Cardinal) ocfg) as Hnew.
  assert (Hty : type (new (Some pts) (Some CurveType.Cardinal) ocfg) = Some CurveType.Cardinal).
  { rewrite Hnew, type_setTangents. reflexivity. }
  assert (Hpts : has_points (new (Some pts) (Some CurveType.Cardinal) ocfg) pts).
  { rewrite Hnew. rewrite setTangents_cardinal by reflexivity. repeat split. }
  assert (Hlen : length pts = (length bxs + 2)%nat).
  { unfold pts. cbn [length]. rewrite length_app. simpl. lia. }
  assert (Hin' : forall i b, bxs !! i = Some b -> exists pt, pts !! S i = Some pt /\ inside b pt).
  { intros i b Hb. destruct (Forall2_lookup_l _ _ _ _ _ Hin Hb) as (pt & Hpt & Hins).
    exists pt. split; [| exact Hins]. unfold pts. cbn [lookup list_lookup].
    change ((inner ++ [pl]) !! i = Some pt).
    rewrite lookup_app_l by (now apply lookup_lt_Some in Hpt). exact Hpt. }
  assert (H0 : pts !! 0%nat = pts !! 1%nat).
  { unfold pts. rewrite Ei. reflexivity. }
  assert (Hlast : pts !! (length bxs + 1)%nat = pts !! length bxs).
  { unfold pts. replace (length bxs + 1)%nat with (S (length bxs)) by lia.
    change ((inner ++ [pl]) !! length bxs = (p0 :: inner ++ [pl]) !! length bxs).
    rewrite lookup_app_r by lia. rewrite Hl, Nat.sub_diag.
    destruct (length inner) as [|n] eqn:En; [lia |].
    change ((p0 :: inner ++ [pl]) !! S n) with ((inner ++ [pl]) !! n).
    rewrite lookup_app_l by lia.
    rewrite last_lookup in Elast. rewrite En in Elast. simpl in Elast. now rewrite Elast. }
  pose proof (start_and_end_of_new pts (Some CurveType.Cardinal) ocfg) as Hse.
  exists (new (Some pts) (Some CurveType.Cardinal) ocfg), pts.
  split; [reflexivity |].
  split; [exact Hty |]. split; [exact Hpts |]. split; [exact Hlen |].
  split; [exact H0 |]. split; [exact Hlast |]. split; [exact Hin' |].
  destruct Hse as (Hs & He); [lia |].
  split.
  - intros b Hb. destruct (Hin' 0%nat b Hb) as (pt & Hpt & Hins).
    exists pt. split; [| exact Hins]. rewrite Hs. unfold waypoint. rewrite H0, Hpt. reflexivity.
  - intros b Hb. destruct (Hin' _ b Hb) as (pt & Hpt & Hins).
    exists pt. split; [| exact Hins]. rewrite He, Hlen. unfold waypoint.
    replace (length bxs + 2 - 1)%nat with (length bxs + 1)%nat by lia.
    rewrite Hlast. replace (length bxs) with (S (length bxs - 1)) at 1 by lia.
    rewrite Hpt. reflexivity.
Qed.

Lemma newCurve_through_boxes_witness :
  exists c,
    newCurve half_random (Fin 0) [mkBox (0, 0, 0) (1, 1, 1); mkBox (9, 0, 0) (10, 1, 1)] 0%nat
    = Some (c, 6%nat)
    /\ type c = Some CurveType.Cardinal.
Proof.
  destruct (proj1 (newCurve_through_boxes half_random (Fin 0)
                     [mkBox (0, 0, 0) (1, 1, 1); mkBox (9, 0, 0) (10, 1, 1)] 0%nat))
    as (c & pts & Hrun & Hty & _).
  - intros j. split; [discriminate | reflexivity].
  - repeat constructor; discriminate.
  - cbn; lia.
  - exists c. split; [exact Hrun | exact Hty].
Defined.

End box_extras.

Section constructor_facts.
Import Particle ParticleAux RampAux.
Variable random : nat -> Q.



End constructor_facts.

Section system_constructor_facts.
Import ParticleCurveSystem SystemAux ParticleAux PoolAux.
Variable random : nat -> Q.
Variable distance : point -> point -> num.



Lemma newCurve_no_box tension k : newCurve random tension [] k = None.
Proof. reflexivity. Qed.

Lemma boxes_curves_loop cfg j s k s' k' :
  curves_loop random distance cfg j s k = Some (s', k') -> boxes s' = boxes s.
Proof.
  unfold curves_loop. intros H. apply bindM_Some in H as (c & k1 & _ & H).
  now injection H as <- <-.
Qed.



Lemma addShape_spec p tr k :
  Particle.transform p = Some tr ->
  exists tr', Particle.addShape p k = Some (Particle.set_transform (Some tr') p, k)
    /\ children tr' = children tr ++ [true].
Proof.
  intros Ht. unfold Particle.addShape. rewrite Ht. cbn [defined bind ret]. unfold bind, ret.
  eexists. split; [reflexivity | reflexivity].
Qed.




End system_constructor_facts.

Section constructor_extra.
Import ParticleCurveSystem SystemAux ParticleAux PoolAux.



End constructor_extra.

Section pool_facts.
Import ParticleCurveSystem SystemAux ParticleAux PoolAux.

Lemma set_particles_same s : set_particles (particles s) s = s.
Proof. now destruct s. Qed.

Lemma set_particles_twice l1 l2 s :
  set_particles l1 (set_particles l2 s) = set_particles l1 s.
Proof. reflexivity. Qed.

(** A loop that calls a method [m] on the particle of every slot below
    [n]: each particle is replaced by what the method returns, and
    nothing else changes. *)
Lemma pool_loop_spec (m : Particle.t -> M Particle.t) (body : nat -> t -> M t) s k n :
  (forall i l p, l !! i = Some (Some p) ->
     body i (set_particles l s)
     = (do p' <- m p; ret (set_particles (<[i := Some p']> l) s))) ->
  (forall i p, (i < n)%nat -> particles s !! i = Some (Some p) ->
     exists p', m p k = Some (p', k)) ->
  (forall i, (i < n)%nat -> exists p, particles s !! i = Some (Some p)) ->
  exists l,
    for_rangeM 0 n body s k = Some (set_particles l s, k)
    /\ length l = length (particles s)
    /\ (forall i p, (i < n)%nat -> particles s !! i = Some (Some p) ->
          exists p', m p k = Some (p', k) /\ l !! i = Some (Some p'))
    /\ (forall i, (n <= i)%nat -> l !! i = particles s !! i).
Proof.
  intros Hbody Hm Hfull. induction n as [|n IH].
  - exists (particles s). rewrite for_rangeM_nil by lia. rewrite set_particles_same.
    split; [reflexivity |]. split; [reflexivity |]. split; [intros i p Hi; lia | reflexivity].
  - destruct IH as (l & Hrun & Hl & Hdone & Hrest).
    { intros i p Hi. apply Hm. lia. }
    { intros i Hi. apply Hfull. lia. }
    destruct (Hfull n ltac:(lia)) as (p & Hp).
    destruct (Hm n p ltac:(lia) Hp) as (p' & Hp').
    rewrite for_rangeM_S by lia. unfold bind at 1. rewrite Hrun.
    rewrite (Hbody n l p) by (rewrite Hrest by lia; exact Hp).
    unfold bind. rewrite Hp'. cbn [ret].
    exists (<[n := Some p']> l).
    split; [reflexivity |]. split; [now rewrite length_insert |].
    assert (Hn : (n < length l)%nat) by (rewrite Hl; now apply lookup_lt_Some in Hp).
    split.
    + intros i q Hi Hq. destruct (decide (i = n)) as [->|Hne].
      * rewrite Hp in Hq. injection Hq as <-. exists p'. split; [exact Hp' |].
        now rewrite list_lookup_insert_eq.
      * rewrite list_lookup_insert_ne by congruence. apply Hdone; [lia | exact Hq].
    + intros i Hi. rewrite list_lookup_insert_ne by lia. apply Hrest. lia.
Qed.

Lemma on_particle_body m i s0 p :
  particles s0 !! i = Some (Some p) ->
  on_particle m i s0 = (do p' <- m p; ret (set_particles (<[i := Some p']> (particles s0)) s0)).
Proof. intros H. unfold on_particle. rewrite H. reflexivity. Qed.

Lemma nonnull_slots_full s n :
  (forall i, (i < n)%nat -> exists p, particles s !! i = Some (Some p)) ->
  nonnull_slots s n = seq 0 n.
Proof.
  intros H. induction n as [|n IH]; [reflexivity |].
  rewrite nonnull_slots_S, seq_S, IH by (intros i Hi; apply H; lia).
  destruct (H n ltac:(lia)) as (p & ->). reflexivity.
Qed.

Lemma full_pool_slot s i :
  full_pool s -> (i < maxParticles s)%nat -> exists p, particles s !! i = Some (Some p).
Proof. intros (_ & H) Hi. destruct (H i Hi) as (p & Hp & _). eauto. Qed.

(** The first loop of [onRender] over particles that are not active
    changes nothing. *)
Lemma update_loop_idle s k n :
  (forall i p, particles s !! i = Some (Some p) -> Particle.active p = false) ->
  for_rangeM 0 n update_slot (s, []) k = Some ((s, map CallUpdate (nonnull_slots s n)), k).
Proof.
  intros Hidle. induction n as [|n IH]; [reflexivity |].
  rewrite for_rangeM_S by lia. unfold bind. rewrite IH. unfold update_slot.
  rewrite nonnull_slots_S, map_app.
  destruct (particles s !! n) as [[p|]|] eqn:Hp; [| now rewrite app_nil_r ..].
  unfold Particle.update. rewrite (Hidle n p Hp). cbn [negb]. unfold bind, ret.
  rewrite list_insert_id by exact Hp. now rewrite set_particles_same.
Qed.

End pool_facts.

Section pool_extras.
Import ParticleCurveSystem SystemAux ParticleAux PoolAux.

Lemma reset_value p tr k :
  Particle.transform p = Some tr ->
  Particle.reset p k
  = Some (Particle.set_ready true (Particle.set_active false (Particle.set_destroyed false
            (Particle.set_loops (Particle.totalLoops p)
               (Particle.set_transform
                  (Some (mkTransform false (matrix tr) (matrixAutoUpdate tr)
                           (matrixWorldNeedsUpdate tr)
                           (map (fun _ => false) (children tr)) (parent tr))) p)))), k).
Proof. intros Ht. unfold Particle.reset. rewrite Ht. reflexivity. Qed.

(** X13.  A hard stop freezes the system: for a system whose pool is
    full, [stop(true)] returns, leaves the system not active and every
    particle reset (ready, not active, hidden, with its shapes), and a
    tick after it changes nothing, whatever the elapsed time: [update] is
    still called on every particle and does nothing. *)
Theorem hard_stop_freezes_the_system :
  forall (s : t) (k : nat) (elapsedTime : num),
    full_pool s ->
    exists s1,
      stop true s k = Some (s1, k)
      /\ active s1 = false /\ full_pool s1
      /\ (forall i p, particles s1 !! i = Some (Some p) ->
            Particle.ready p = true /\ Particle.active p = false
            /\ exists tr, Particle.transform p = Some tr /\ visible tr = false)
      /\ onRender elapsedTime s1 k
         = Some ((s1, map CallUpdate (seq 0 (maxParticles s1))), k).
Proof.
  intros s k e (Hlen & Hfull).
  unfold stop, each_particle. cbn [maxParticles set_active].
  destruct (pool_loop_spec Particle.reset
              (fun i s0 => match particles s0 !! i with
                           | Some (Some p) =>
                               do p' <- Particle.reset p;
                               ret (set_particles (<[i := Some p']> (particles s0)) s0)
                           | _ => ret s0
                           end)
              (set_active false s) k (maxParticles s))
    as (l & Hrun & Hl & Hdone & _).
  { intros i l p Hp. cbn [particles set_particles]. now rewrite Hp. }
  { intros i p Hi Hp. cbn [particles set_active] in Hp.
    destruct (Hfull i Hi) as (p' & Hp' & tr & Htr & _). rewrite Hp in Hp'. injection Hp' as <-.
    rewrite (reset_value p tr k Htr). eauto. }
  { intros i Hi. destruct (Hfull i Hi) as (p & Hp & _). eauto. }
  cbn [particles set_active] in *.
  exists (set_particles l (set_active false s)).
  assert (Hslots : forall i p', l !! i = Some (Some p') ->
            exists p tr, particles s !! i = Some (Some p) /\ Particle.transform p = Some tr
              /\ length (children tr) = length (shapes s)
              /\ Particle.reset p k = Some (p', k)).
  { intros i p' Hp'. assert (Hi : (i < maxParticles s)%nat).
    { apply lookup_lt_Some in Hp'. lia. }
    destruct (Hfull i Hi) as (p & Hp & tr & Htr & Hch).
    destruct (Hdone i p Hi Hp) as (q & Hq & Hlq). rewrite Hp' in Hlq. injection Hlq as <-.
    exists p, tr. repeat split; assumption. }
  split; [exact Hrun |]. split; [reflexivity |].
  split.
  { split; [cbn [particles maxParticles set_particles set_active]; lia |].
    cbn [particles maxParticles shapes set_particles set_active]. intros i Hi.
    destruct (Hfull i Hi) as (p & Hp & tr & Htr & Hch).
    destruct (Hdone i p Hi Hp) as (q & Hq & Hlq).
    exists q. split; [exact Hlq |].
    rewrite (reset_value p tr k Htr) in Hq. injection Hq as <-.
    eexists. split; [reflexivity |]. cbn [children]. now rewrite length_map. }
  split.
  { cbn [particles set_particles]. intros i p' Hp'.
    destruct (Hslots i p' Hp') as (p & tr & _ & Htr & _ & Hq).
    rewrite (reset_value p tr k Htr) in Hq. injection Hq as <-.
    split; [reflexivity |]. split; [reflexivity |]. eexists. split; reflexivity. }
  rewrite onRender_parts. unfold bind.
  rewrite update_loop_idle.
  2:{ cbn [particles set_particles]. intros i p' Hp'.
      destruct (Hslots i p' Hp') as (p & tr & _ & Htr & _ & Hq).
      rewrite (reset_value p tr k Htr) in Hq. now injection Hq as <-. }
  unfold emit. cbn [active set_particles set_active negb maxParticles]. unfold ret.
  rewrite nonnull_slots_full; [reflexivity |].
  cbn [particles set_particles]. intros i Hi.
  destruct (Hfull i Hi) as (p & Hp & _). destruct (Hdone i p Hi Hp) as (q & _ & Hq). eauto.
Qed.

Lemma hard_stop_freezes_the_system_witness :
  exists r s1,
    ticking one_particle 0 0%nat = Some r
    /\ stop true r.1 r.2 = Some (s1, r.2)
    /\ onRender (Fin 1) s1 r.2
       = Some ((s1, map CallUpdate (seq 0 (maxParticles s1))), r.2).
Proof.
  provide (ticking one_particle 0 0%nat).
  match goal with |- exists s1, _ = Some ?r /\ _ =>
    destruct (hard_stop_freezes_the_system r.1 r.2 (Fin 1)) as (s1 & H1 & _ & _ & _ & H2)
  end.
  - split; [reflexivity |]. intros i Hi.
    destruct i as [|i]; try (simpl in Hi; lia);
      (eexists; split; [reflexivity |]; eexists; split; reflexivity).
  - exists s1. split; [vm_compute; reflexivity |]. split; [exact H1 | exact H2].
Defined.

(** X14.  Setting a rate twice is setting it once, for every rate.
    Changing the rate by a delta and back restores it, with the [active]
    flag as it was, as long as the rate stays above 0 and within the
    maximum; but taking the rate down to 0 stops the system and taking it
    up again starts it, whether it was active before or not. *)
Theorem rate_changes :
  forall (s : t) (m : Q) (k : nat),
    maxRate s = Fin m -> 0 <= m ->
    (forall r, exists s1 r1,
        setRate (Fin r) s k = Some ((s1, r1), k)
        /\ setRate (Fin r) s1 k = Some ((s1, r1), k))
    /\ (forall r0 d, pRate s = Fin r0 -> 0 < r0 <= m -> 0 < r0 + d <= m ->
          exists s1 r1 s2 r2,
            changeRate (Fin d) s k = Some ((s1, r1), k)
            /\ r1 =~ Fin (r0 + d)
            /\ changeRate (Fin (- d)) s1 k = Some ((s2, r2), k)
            /\ r2 =~ Fin r0 /\ pRate s2 = r2 /\ active s2 = active s)
    /\ (forall r0, pRate s = Fin r0 -> 0 < r0 <= m ->
          exists s1 r1 s2 r2,
            changeRate (Fin (- r0)) s k = Some ((s1, r1), k)
            /\ r1 =~ Fin 0 /\ active s1 = false
            /\ changeRate (Fin r0) s1 k = Some ((s2, r2), k)
            /\ r2 =~ Fin r0 /\ active s2 = true).
Proof.
  intros s m k Hm Hm0.
  assert (Hset : forall (s0 : t) (r : Q), maxRate s0 = Fin m ->
            exists c, utils.clamp (Fin r) (Fin 0) (Fin m) = Fin c
              /\ (r <= 0 -> c == 0) /\ (0 <= r <= m -> c == r) /\ (m <= r -> c == m)
              /\ setRate (Fin r) s0 k
                 = Some ((if Qeq_bool c 0
                          then set_pRate (Fin c) (set_active false (set_pTimerMax (Fin 0) s0))
                          else set_pRate (Fin c)
                                 (set_pTimerMax (Fin 1 / Fin c)%num
                                    (if (nseq (pRate s0) (Fin 0) && ngt (Fin c) (Fin 0))%bool
                                     then start s0 else s0)), Fin c), k)).
  { intros s0 r Hs0. destruct (clamp_cases r m Hm0) as (c & Hc & C0 & C1 & C2 & _).
    exists c. split; [exact Hc |]. split; [exact C0 |]. split; [exact C1 |]. split; [exact C2 |].
    unfold setRate. rewrite Hs0, Hc. cbn [nseq].
    destruct (Qeq_bool c 0); reflexivity. }
  split; [| split].
  - intros r. destruct (Hset s r Hm) as (c & Hc & _ & _ & _ & H1).
    eexists _, _. split; [exact H1 |].
    destruct (Qeq_bool c 0) eqn:E.
    + destruct (Hset (set_pRate (Fin c) (set_active false (set_pTimerMax (Fin 0) s))) r Hm)
        as (c' & Hc' & _ & _ & _ & H2).
      rewrite Hc in Hc'. injection Hc' as <-. rewrite H2, E. now destruct s.
    + match goal with |- setRate _ ?s1 _ = _ =>
        destruct (Hset s1 r) as (c' & Hc' & _ & _ & _ & H2);
          [destruct (_ && _)%bool; exact Hm |] end.
      rewrite Hc in Hc'. injection Hc' as <-. rewrite H2, E.
      cbn [pRate set_pRate nseq]. rewrite E. cbn [andb].
      destruct (_ && _)%bool; now destruct s.
  - intros r0 d Hr0 Hb0 Hb1. unfold changeRate. rewrite Hr0.
    change (Fin r0 + Fin d)%num with (Fin (r0 + d)).
    destruct (Hset s (r0 + d) Hm) as (c & Hc & _ & C1 & _ & H1).
    specialize (C1 ltac:(lra)).
    assert (E : Qeq_bool c 0 = false).
    { destruct (Qeq_bool c 0) eqn:E; [| reflexivity]. apply Qeq_bool_iff in E. lra. }
    rewrite E in H1. cbn [nseq] in H1.
    assert (E0 : Qeq_bool r0 0 = false).
    { destruct (Qeq_bool r0 0) eqn:E0; [| reflexivity]. apply Qeq_bool_iff in E0. lra. }
    rewrite Hr0 in H1. cbn [nseq] in H1. rewrite E0 in H1. cbn [andb] in H1.
    destruct (Hset (set_pRate (Fin c) (set_pTimerMax (Fin 1 / Fin c)%num s)) (c + - d) Hm)
      as (c2 & Hc2 & _ & C1' & _ & H2).
    specialize (C1' ltac:(lra)).
    assert (E2 : Qeq_bool c2 0 = false).
    { destruct (Qeq_bool c2 0) eqn:E2; [| reflexivity]. apply Qeq_bool_iff in E2. lra. }
    rewrite E2 in H2. cbn [pRate set_pRate nseq] in H2. rewrite E in H2. cbn [andb] in H2.
    eexists _, _. eexists _, _. split; [exact H1 |]. split; [exact C1 |].
    cbn [pRate set_pRate].
    change (Fin c + Fin (- d))%num with (Fin (c + - d)).
    split; [exact H2 |]. split; [simpl; lra |]. split; reflexivity.
  - intros r0 Hr0 Hb0. unfold changeRate. rewrite Hr0.
    change (Fin r0 + Fin (- r0))%num with (Fin (r0 + - r0)).
    destruct (Hset s (r0 + - r0) Hm) as (c & Hc & C0 & _ & _ & H1).
    specialize (C0 ltac:(lra)).
    assert (E : Qeq_bool c 0 = true) by (now apply Qeq_bool_iff).
    rewrite E in H1.
    destruct (Hset (set_pRate (Fin c) (set_active false (set_pTimerMax (Fin 0) s)))
                (c + r0) Hm) as (c2 & Hc2 & _ & C1' & _ & H2).
    specialize (C1' ltac:(lra)).
    assert (E2 : Qeq_bool c2 0 = false).
    { destruct (Qeq_bool c2 0) eqn:E2; [| reflexivity]. apply Qeq_bool_iff in E2. lra. }
    rewrite E2 in H2. cbn [pRate set_pRate nseq] in H2. rewrite E in H2.
    assert (Hgt : ngt (Fin c2) (Fin 0) = true) by (apply Qlt_bool_true; lra).
    rewrite Hgt in H2. cbn [andb] in H2.
    eexists _, _. eexists _, _. split; [exact H1 |]. split; [exact C0 |].
    split; [reflexivity |]. cbn [pRate set_pRate].
    change (Fin c + Fin r0)%num with (Fin (c + r0)).
    split; [exact H2 |]. split; [simpl; lra | reflexivity].
Qed.

Lemma rate_changes_witness :
  exists s1 r1 s2 r2,
    changeRate (Fin (-1)) (initial four_particles 60) 0%nat = Some ((s1, r1), 0%nat)
    /\ changeRate (Fin (- -1)) s1 0%nat = Some ((s2, r2), 0%nat)
    /\ r2 =~ Fin 2.
Proof.
  destruct (rate_changes (initial four_particles 60) 2 0%nat eq_refl ltac:(discriminate))
    as (_ & H & _).
  destruct (H 2 (-1) eq_refl) as (s1 & r1 & s2 & r2 & H1 & _ & H2 & H3 & _).
  - split; [reflexivity | discriminate].
  - split; [reflexivity | discriminate].
  - exists s1, r1, s2, r2. split; [exact H1 |]. split; [exact H2 | exact H3].
Defined.

(** X15.  The timer and the cursor of the emission.  A tick of [onRender]
    leaves the size of the pool, the rates and the [active] flag as they
    are.  While the system is active the timer accumulates the elapsed
    time until it reaches its bound; the tick in which it does sets it
    back to 0 and moves the cursor to the next slot, round-robin, whether
    a particle was launched or not.  A cursor that is in the pool stays
    in the pool. *)
Theorem emission_timer_and_cursor :
  forall (elapsedTime : num) (s : t) (k : nat) (s' : t) (tr : list call) (k' : nat),
    onRender elapsedTime s k = Some ((s', tr), k') ->
    k' = k /\ maxParticles s' = maxParticles s
    /\ length (particles s') = length (particles s)
    /\ active s' = active s /\ pRate s' = pRate s /\ maxRate s' = maxRate s
    /\ pTimerMax s' = pTimerMax s
    /\ (active s = false -> pTimer s' = pTimer s /\ pIndex s' = pIndex s)
    /\ (active s = true -> nge (pTimer s + elapsedTime)%num (pTimerMax s) = false ->
        pTimer s' = (pTimer s + elapsedTime)%num /\ pIndex s' = pIndex s)
    /\ (active s = true -> nge (pTimer s + elapsedTime)%num (pTimerMax s) = true ->
        pTimer s' = Fin 0
        /\ ((pIndex s < maxParticles s)%nat ->
            pIndex s' = ((pIndex s + 1) mod maxParticles s)%nat))
    /\ ((pIndex s < maxParticles s)%nat -> (pIndex s' < maxParticles s')%nat).
Proof.
  intros e s k s' tr k' H. rewrite onRender_parts in H.
  apply bindM_Some in H as ([s1 tr1] & k1 & Hrun & Hemit).
  destruct (update_loop_spec _ _ _ _ _ _ Hrun) as (-> & _ & (Hs & Hl & _)).
  apply schedule_eq in Hs as (Ea & Em & Emr & Epr & Et & Etm & Ei & _).
  unfold emit in Hemit. rewrite Ea in Hemit.
  destruct (active s) eqn:Hact; cbn [negb] in Hemit.
  2:{ injection Hemit as <- <- <-.
      repeat split; try congruence; try discriminate; try lia. }
  cbn [pTimer pTimerMax set_pTimer] in Hemit. rewrite Et, Etm in Hemit.
  destruct (nge (pTimer s + e)%num (pTimerMax s)) eqn:Hge.
  2:{ injection Hemit as <- <- <-.
      cbn [maxParticles particles active pRate maxRate pTimerMax pTimer pIndex set_pTimer].
      repeat split; try congruence; try discriminate; try lia. }
  cbn [particles pIndex set_pTimer] in Hemit.
  apply bindM_Some in Hemit as (slot & k2 & Hslot & Hemit).
  apply defined_Some in Hslot as (Hslot & ->).
  apply bindM_Some in Hemit as (q & k3 & Hq & Hemit).
  apply defined_Some in Hq as (-> & ->).
  assert (Hmod : forall n i, (i < n)%nat ->
            (if (n <=? i + 1)%nat then 0%nat else (i + 1)%nat) = ((i + 1) mod n)%nat).
  { intros n i Hi. destruct (n <=? i + 1)%nat eqn:E.
    - apply Nat.leb_le in E. assert (i + 1 = n)%nat by lia. subst n.
      now rewrite Nat.Div0.mod_same.
    - apply Nat.leb_gt in E. now rewrite Nat.mod_small. }
  assert (Hres : exists l,
            s' = set_pIndex (if (maxParticles s <=? pIndex s + 1)%nat
                             then 0%nat else (pIndex s + 1)%nat)
                   (set_particles l (set_pTimer (Fin 0) (set_pTimer (pTimer s1 + e)%num s1)))
            /\ length l = length (particles s1) /\ k' = k).
  { destruct (Particle.ready q).
    - injection Hemit as <- <- <-. eexists. rewrite <- Em, <- Ei.
      split; [| split; [| reflexivity]].
      + cbn [maxParticles pIndex set_pIndex set_particles set_pTimer].
        destruct (maxParticles s1 <=? pIndex s1 + 1)%nat; reflexivity.
      + now rewrite length_insert.
    - injection Hemit as <- <- <-. exists (particles s1). rewrite <- Em, <- Ei.
      split; [| split; reflexivity].
      cbn [maxParticles pIndex set_pIndex set_particles set_pTimer].
      destruct (maxParticles s1 <=? pIndex s1 + 1)%nat; now destruct s1. }
  destruct Hres as (l & -> & Hll & ->).
  cbn [maxParticles particles active pRate maxRate pTimerMax pTimer pIndex
       set_pIndex set_particles set_pTimer].
  split; [reflexivity |]. split; [exact Em |]. split; [lia |].
  split; [exact Ea |]. split; [exact Epr |]. split; [exact Emr |]. split; [exact Etm |].
  split; [discriminate |]. split; [discriminate |].
  split.
  - intros _ _. split; [reflexivity |]. intros Hi. now apply Hmod.
  - intros Hi. rewrite Em, (Hmod _ _ Hi). apply Nat.mod_upper_bound. lia.
Qed.

Lemma emission_timer_and_cursor_witness :
  exists r r',
    ticking one_particle 0 0%nat = Some r
    /\ onRender (Fin 1) r.1 r.2 = Some r'
    /\ pTimer r'.1.1 = Fin 0 /\ pIndex r'.1.1 = 0%nat.
Proof.
  provide (ticking one_particle 0 0%nat).
  match goal with |- exists r', _ = Some ?r /\ _ => provide (onRender (Fin 1) r.1 r.2) end.
  match goal with |- _ = Some ?r /\ onRender _ ?s ?k = Some ?r' /\ _ =>
    assert (H : onRender (Fin 1) s k = Some (r'.1.1, r'.1.2, r'.2)) by (vm_compute; reflexivity);
    destruct (emission_timer_and_cursor _ _ _ _ _ _ H)
      as (_ & _ & _ & _ & _ & _ & _ & _ & _ & H1 & _);
    destruct (H1 eq_refl eq_refl) as (Ht & Hi)
  end.
  split; [vm_compute; reflexivity |]. split; [vm_compute; reflexivity |].
  split; [exact Ht |]. rewrite Hi by (simpl; lia). reflexivity.
Defined.

Lemma for_rangeM_ret {S : Type} n : forall (s : S) k,
  for_rangeM 0 n (fun _ s => ret s) s k = Some (s, k).
Proof.
  induction n as [|n IH]; intros s k; [reflexivity |].
  rewrite for_rangeM_S by lia. unfold bind. now rewrite IH.
Qed.

Lemma for_rangeM_one {S : Type} n (body : nat -> S -> M S) s :
  for_rangeM n (Datatypes.S n) body s = body n s.
Proof.
  unfold for_rangeM. replace (Datatypes.S n - n)%nat with 1%nat by lia.
  simpl. unfold bind, ret. reflexivity.
Qed.

(** X16.  The shapes of the pool.  For a system whose pool is full, with
    one child of every particle for each shape of the system:
    [addShape] with the name of a predefined shape adds the shape to the
    system and one child to every particle; with a string that names no
    shape it changes nothing; [removeShapes] leaves the system without a
    shape and every particle without a child.  The pool stays full. *)
Theorem shapes_of_the_pool :
  forall (s : t) (k : nat),
    full_pool s ->
    (forall ty, exists s1,
        addShape (Some ty) s k = Some (s1, k)
        /\ shapes s1 = shapes s ++ [ty] /\ full_pool s1)
    /\ addShape None s k = Some (s, k)
    /\ (exists s2, removeShapes s k = Some (s2, k) /\ shapes s2 = [] /\ full_pool s2).
Proof.
  intros s k (Hlen & Hfull). split; [| split].
  - intros ty. unfold addShape. cbn [maxParticles set_shapes].
    destruct (pool_loop_spec Particle.addShape
                (fun i s0 => for_rangeM (length (shapes s)) (length (shapes s0))
                               (fun _ s1 => on_particle Particle.addShape i s1) s0)
                (set_shapes (shapes s ++ [ty]) s) k (maxParticles s))
      as (l & Hrun & Hl & Hdone & _).
    { intros i l p Hp. cbn [shapes set_particles set_shapes].
      rewrite length_app. cbn [length].
      replace (length (shapes s) + 1)%nat with (S (length (shapes s))) by lia.
      rewrite for_rangeM_one. rewrite (on_particle_body _ i _ p) by exact Hp. reflexivity. }
    { intros i p Hi Hp. cbn [particles set_shapes] in Hp.
      destruct (Hfull i Hi) as (p' & Hp' & tr & Htr & _). rewrite Hp in Hp'. injection Hp' as <-.
      destruct (addShape_spec p tr k Htr) as (tr' & H & _). eauto. }
    { intros i Hi. destruct (Hfull i Hi) as (p & Hp & _). eauto. }
    eexists. split; [exact Hrun |]. split; [reflexivity |].
    cbn [particles set_shapes] in *.
    split; [cbn [particles maxParticles set_particles set_shapes]; lia |].
    cbn [particles maxParticles shapes set_particles set_shapes]. intros i Hi.
    destruct (Hfull i Hi) as (p & Hp & tr & Htr & Hch).
    destruct (Hdone i p Hi Hp) as (q & Hq & Hlq).
    exists q. split; [exact Hlq |].
    destruct (addShape_spec p tr k Htr) as (tr' & H & Hc). rewrite H in Hq. injection Hq as <-.
    exists tr'. split; [reflexivity |]. rewrite Hc, !length_app, Hch. reflexivity.
  - unfold addShape.
    assert (E : forall i s0, for_rangeM (length (shapes s)) (length (shapes s0))
                               (fun _ s1 => on_particle Particle.addShape i s1) s0
                             = (if (length (shapes s0) <=? length (shapes s))%nat
                                then ret s0
                                else for_rangeM (length (shapes s)) (length (shapes s0))
                                       (fun _ s1 => on_particle Particle.addShape i s1) s0)).
    { intros i s0. destruct (length (shapes s0) <=? length (shapes s))%nat eqn:E; [| reflexivity].
      apply Nat.leb_le in E. now rewrite for_rangeM_nil by lia. }
    destruct (for_rangeM_total (fun _ s0 k0 => s0 = s /\ k0 = k) 0 (maxParticles s)
                (fun i s0 => for_rangeM (length (shapes s)) (length (shapes s0))
                               (fun _ s1 => on_particle Particle.addShape i s1) s0) s k)
      as (s1 & k1 & Hrun & -> & ->).
    + lia.
    + split; reflexivity.
    + intros i s0 k0 Hi (-> & ->). rewrite for_rangeM_nil by lia. eexists _, _.
      split; [reflexivity |]. split; reflexivity.
    + exact Hrun.
  - unfold removeShapes.
    destruct (pool_loop_spec Particle.removeShapes (on_particle Particle.removeShapes)
                s k (maxParticles s)) as (l & Hrun & Hl & Hdone & _).
    { intros i l p Hp. rewrite (on_particle_body _ i _ p) by exact Hp. reflexivity. }
    { intros i p Hi Hp.
      destruct (Hfull i Hi) as (p' & Hp' & tr & Htr & _). rewrite Hp in Hp'. injection Hp' as <-.
      unfold Particle.removeShapes. rewrite Htr. cbn [defined bind ret]. unfold bind, ret. eauto. }
    { intros i Hi. destruct (Hfull i Hi) as (p & Hp & _). eauto. }
    unfold bind. rewrite Hrun. cbn [ret].
    eexists. split; [reflexivity |]. split; [reflexivity |].
    split; [cbn [particles maxParticles set_particles set_shapes]; lia |].
    cbn [particles maxParticles shapes set_particles set_shapes]. intros i Hi.
    destruct (Hfull i Hi) as (p & Hp & tr & Htr & Hch).
    destruct (Hdone i p Hi Hp) as (q & Hq & Hlq).
    exists q. split; [exact Hlq |].
    unfold Particle.removeShapes in Hq. rewrite Htr in Hq. injection Hq as <-.
    eexists. split; reflexivity.
Qed.

Lemma shapes_of_the_pool_witness :
  exists r s1 s2,
    ticking one_particle 0 0%nat = Some r
    /\ addShape (Some ShapeType.SPHERE) r.1 r.2 = Some (s1, r.2)
    /\ shapes s1 = [ShapeType.CUBE; ShapeType.SPHERE]
    /\ removeShapes r.1 r.2 = Some (s2, r.2) /\ shapes s2 = [].
Proof.
  provide (ticking one_particle 0 0%nat).
  match goal with |- exists s1 s2, _ = Some ?r /\ _ =>
    destruct (shapes_of_the_pool r.1 r.2) as (H1 & _ & (s2 & H2 & H3 & _))
  end.
  - split; [reflexivity |]. intros i Hi.
    destruct i as [|i]; try (simpl in Hi; lia);
      (eexists; split; [reflexivity |]; eexists; split; reflexivity).
  - destruct (H1 ShapeType.SPHERE) as (s1 & H4 & H5 & _).
    exists s1, s2. split; [vm_compute; reflexivity |]. split; [exact H4 |].
    split; [exact H5 |]. split; [exact H2 | exact H3].
Defined.

End pool_extras.

Section gpu_more_facts.
Import GpuAux GpuMoreAux.

Lemma setupShaders_inert s :
  G.materialSrc s = false -> G.setupShaders s = s.
Proof. unfold G.setupShaders. intros ->. now destruct (G.material s). Qed.

Lemma setColorKeys_inert ks st s st' s' :
  G.setColorKeys ks st s = Some (st', s') -> G.materialSrc s = false ->
  exists c, s' = G.set_colors c s.
Proof.
  unfold G.setColorKeys. intros H Hm.
  destruct (G.normalize_keys ks st) as [[c st1]|]; [|discriminate].
  cbn in H. injection H as <- <-. exists c. now apply setupShaders_inert.
Qed.

Lemma setScaleKeys_inert ks st s st' s' :
  G.setScaleKeys ks st s = Some (st', s') -> G.materialSrc s = false ->
  exists c, s' = G.set_scales c s.
Proof.
  unfold G.setScaleKeys. intros H Hm.
  destruct (G.normalize_keys ks st) as [[c st1]|]; [|discriminate].
  cbn in H. injection H as <- <-. exists c. now apply setupShaders_inert.
Qed.

Lemma setColors_inert vs st s st' s' :
  G.setColors vs st s = Some (st', s') -> G.materialSrc s = false ->
  exists c, s' = G.set_colors c s.
Proof.
  unfold G.setColors. destruct (G.alloc_even_keys vs st). apply setColorKeys_inert.
Qed.

Lemma setScales_inert vs st s st' s' :
  G.setScales vs st s = Some (st', s') -> G.materialSrc s = false ->
  exists c, s' = G.set_scales c s.
Proof.
  unfold G.setScales. destruct (G.alloc_even_keys vs st). apply setScaleKeys_inert.
Qed.

(** What the constructor leaves of a configuration. *)
Lemma new_state cfg st st' s :
  G.new (Some cfg) st = Some (st', s) ->
  G.active s = false /\ G.listening s = false
  /\ G.boxes s = default [] (G.cfg_boxes cfg)
  /\ G.life s = ParticleCurveSystem.q_or (G.cfg_life cfg) (Fin 5)
  /\ G.materialSrc s = true /\ G.transform s = true
  /\ (if (length (default [] (G.cfg_boxes cfg)) <? 2)%nat
      then G.params s = None /\ G.material s = Some (given_material cfg)
      else G.params s = Some (made_of (found_uniforms (given_material cfg)))
           /\ G.material s = Some G.Owner).
Proof.
  unfold G.new, G.loadConfig. intros H.
  apply bind_Some in H as ([st1 s1] & H1 & H).
  apply bind_Some in H as ([st2 s2] & H2 & H).
  injection H as <- <-.
  match type of H1 with
  | context [G.set_colors [] ?x] => set (s0 := x) in *
  end.
  assert (Hm : G.materialSrc s0 = false) by reflexivity.
  assert (E1 : exists c, s1 = G.set_colors c s0).
  { destruct (G.cfg_colorKeys cfg); [eapply setColorKeys_inert; eauto|].
    destruct (G.cfg_colors cfg); [eapply setColors_inert; eauto|].
    injection H1 as <- <-. now eexists. }
  destruct E1 as (c1 & ->).
  assert (E2 : exists c, s2 = G.set_scales c (G.set_colors c1 s0)).
  { destruct (G.cfg_scaleKeys cfg); [eapply setScaleKeys_inert; eauto|].
    destruct (G.cfg_scales cfg); [eapply setScales_inert; eauto|].
    injection H2 as <- <-. now eexists. }
  destruct E2 as (c2 & ->).
  unfold G.setMaterial, G.setParticleShape, G.setupShaders. subst s0.
  fold (given_material cfg).
  cbn -[Nat.ltb given_material]. rewrite orb_true_r. cbn -[Nat.ltb given_material].
  destruct (length (default [] (G.cfg_boxes cfg)) <? 2)%nat; cbn -[given_material].
  - repeat split; reflexivity.
  - repeat split; reflexivity.
Qed.

(** The loop [while (newTime > bound) { --newTime; }] ends: it takes whole
    units off until the time is at most the bound. *)
Lemma while_above_decrement_spec fuel : forall t e,
  (Z.max 0 (Qceiling (t - e)) < Z.of_nat fuel)%Z ->
  exists tau (n : nat),
    while_above_decrement fuel (Fin t) (Fin e) = Some (Fin tau)
    /\ tau == t - inject_Z (Z.of_nat n) /\ tau <= e
    /\ (t <= e -> n = 0%nat) /\ (e < t -> e - 1 < tau).
Proof.
  induction fuel as [|fuel IH]; intros t e Hfuel; [lia |].
  cbn [while_above_decrement]. unfold ngt. cbn [nlt].
  destruct (Qlt_bool e t) eqn:E.
  - apply Qlt_bool_true in E.
    assert (Hc : (1 <= Qceiling (t - e))%Z).
    { assert (H0 : (0 < Qceiling (t - e))%Z); [|lia].
      rewrite Zlt_Qlt. pose proof (Qle_ceiling (t - e)). change (inject_Z 0) with 0. lra. }
    change (Fin t - Fin 1)%num with (Fin (t - 1)).
    destruct (IH (t - 1) e) as (tau & n & Hrun & Htau & Hle & _ & Hgt).
    { assert (Hx : t - 1 - e == t - e - 1) by ring.
      rewrite (Qceiling_comp _ _ Hx). pose proof (Qceiling_pred (t - e)). lia. }
    exists tau, (S n). split; [exact Hrun |]. split.
    { rewrite Htau, Nat2Z.inj_succ. unfold Z.succ. rewrite inject_Z_plus.
      change (inject_Z 1) with 1. ring. }
    split; [exact Hle |]. split; [intros; lra |]. intros _.
    destruct (Qlt_le_dec e (t - 1)) as [Hl|Hl]; [now apply Hgt |].
    assert (n = 0%nat) as ->.
    { destruct n; [reflexivity |]. exfalso.
      destruct (IH (t - 1) e) as (tau2 & n2 & Hrun2 & _ & _ & Hz & _).
      { assert (Hx : t - 1 - e == t - e - 1) by ring.
        rewrite (Qceiling_comp _ _ Hx). pose proof (Qceiling_pred (t - e)). lia. }
      rewrite Hrun in Hrun2. injection Hrun2 as <-.
      destruct fuel; [lia|]. cbn [while_above_decrement] in Hrun. unfold ngt in Hrun.
      cbn [nlt] in Hrun.
      assert (E2 : Qlt_bool e (t - 1) = false).
      { destruct (Qlt_bool e (t - 1)) eqn:E2; [|reflexivity].
        apply Qlt_bool_true in E2. lra. }
      rewrite E2 in Hrun. injection Hrun as Hrun. subst tau.
      rewrite Nat2Z.inj_succ in Htau. unfold Z.succ in Htau. rewrite inject_Z_plus in Htau.
      assert (0 <= inject_Z (Z.of_nat n)).
      { change 0 with (inject_Z 0). rewrite <- Zle_Qle. lia. }
      change (inject_Z 1) with 1 in Htau. lra. }
    change (inject_Z (Z.of_nat 0)) with 0 in Htau. lra.
  - apply Qlt_bool_false in E. exists t, 0%nat. split; [reflexivity |].
    change (inject_Z (Z.of_nat 0)) with 0.
    split; [ring |]. split; [exact E |]. split; [reflexivity |]. intros; lra.
Qed.

Lemma fuel_for_above t e :
  (Z.max 0 (Qceiling (t - e)) < Z.of_nat (fuel_for (Fin t) (Fin e)))%Z.
Proof. cbn [fuel_for]. lia. Qed.

Lemma set_key_get k x st st' :
  Store.set_key k x st = Some st' ->
  Store.next st' = Store.next st
  /\ forall l, Store.get l st'
       = if decide (l = k) then o ← Store.get k st; Some (Store.mkKey x (Store.value o))
         else Store.get l st.
Proof.
  unfold Store.set_key, Store.get. destruct (Store.objs st !! k) as [o|] eqn:E; [|discriminate].
  intros H. injection H as <-. split; [reflexivity |]. intros l. cbn.
  destruct (decide (l = k)) as [->|Hne].
  - now rewrite lookup_insert_eq.
  - now rewrite lookup_insert_ne by congruence.
Qed.

Lemma set_key_total k x st o :
  Store.get k st = Some o -> exists st', Store.set_key k x st = Some st'.
Proof. unfold Store.set_key, Store.get. intros ->. now eexists. Qed.

(** The objects that the loop of [setColors] and [setScales] makes. *)
Lemma alloc_fold (step : num) (values : list (list num)) : forall off keys0 st0,
  exists st1,
    fold_left (fun '(keys, st) '(i, v) =>
                 let '(l, st) := Store.alloc (Store.mkKey (of_nat i * step)%num v) st in
                 (keys ++ [l], st))
              (imap (fun i => pair (off + i)%nat) values) (keys0, st0)
    = (keys0 ++ seq (Store.next st0) (length values), st1)
    /\ Store.next st1 = (Store.next st0 + length values)%nat
    /\ (forall l, (l < Store.next st0)%nat -> Store.get l st1 = Store.get l st0)
    /\ (forall i v, values !! i = Some v ->
          Store.get (Store.next st0 + i)%nat st1
          = Some (Store.mkKey (of_nat (off + i) * step)%num v)).
Proof.
  induction values as [|v vs IH]; intros off keys0 st0.
  - exists st0. cbn. rewrite app_nil_r, Nat.add_0_r.
    split; [reflexivity |]. split; [reflexivity |]. split; [reflexivity |].
    intros ? ? H; discriminate.
  - cbn [imap fold_left].
    rewrite (imap_ext _ (fun i => pair (S off + i)%nat) vs)
      by (intros; unfold compose; f_equal; lia).
    destruct (IH (S off) (keys0 ++ [Store.next st0])
                 (Store.mk (<[Store.next st0 := Store.mkKey (of_nat (off + 0) * step)%num v]>
                              (Store.objs st0)) (S (Store.next st0))))
      as (st1 & Hfold & Hnext & Hold & Hnew).
    exists st1. cbn [Store.next] in *. split.
    { etransitivity; [exact Hfold |]. cbn [length seq]. now rewrite <- app_assoc. }
    split; [cbn [length]; lia |]. split.
    + intros l Hl. rewrite Hold by lia. unfold Store.get. cbn [Store.objs].
      now rewrite lookup_insert_ne by lia.
    + intros [|i] w Hw.
      * injection Hw as <-. rewrite Nat.add_0_r, Hold by lia.
        unfold Store.get. cbn [Store.objs]. rewrite lookup_insert_eq.
        now rewrite Nat.add_0_r.
      * specialize (Hnew i w Hw).
        replace (Store.next st0 + S i)%nat with (S (Store.next st0) + i)%nat by lia.
        replace (off + S i)%nat with (S off + i)%nat by lia. exact Hnew.
Qed.

Lemma alloc_even_keys_spec values st :
  exists st1,
    G.alloc_even_keys values st = (seq (Store.next st) (length values), st1)
    /\ Store.next st1 = (Store.next st + length values)%nat
    /\ (forall l, (l < Store.next st)%nat -> Store.get l st1 = Store.get l st)
    /\ (forall i v, values !! i = Some v ->
          Store.get (Store.next st + i)%nat st1
          = Some (Store.mkKey
                    (of_nat i * (if (length values =? 1)%nat then Fin 1
                                 else Fin 1 / (of_nat (length values) - Fin 1)))%num v)).
Proof.
  unfold G.alloc_even_keys.
  destruct (alloc_fold (if (length values =? 1)%nat then Fin 1
                        else Fin 1 / (of_nat (length values) - Fin 1))%num values 0 [] st)
    as (st1 & Hfold & H). exists st1. split; [|exact H]. exact Hfold.
Qed.

Lemma step_of_several (n i : nat) :
  (2 <= n)%nat ->
  (of_nat i * (Fin 1 / (of_nat n - Fin 1)))%num
  =~ Fin (inject_Z (Z.of_nat i) / (inject_Z (Z.of_nat n) - 1)).
Proof.
  intros Hn. unfold of_nat. cbn [nsub nneg nadd ndiv].
  assert (Hz : ~ inject_Z (Z.of_nat n) + - (1) == 0).
  { intros H. assert (H2 : inject_Z (Z.of_nat n) == inject_Z 1) by (change (inject_Z 1) with 1; lra).
    apply (proj1 (inject_Z_injective _ _)) in H2. lia. }
  destruct (is_zero _) eqn:E.
  - exfalso. apply Hz. unfold is_zero in E. apply Z.eqb_eq in E.
    unfold Qeq. rewrite E. reflexivity.
  - cbn [nmul num_eq]. unfold Qminus. field. exact Hz.
Qed.

(** [setColors] and [setScales] up to the last line of [setColorKeys] and
    [setScaleKeys]. *)
Lemma even_keys_spec values st :
  exists keys st1 stored st',
    G.alloc_even_keys values st = (keys, st1)
    /\ G.normalize_keys keys st1 = Some (stored, st')
    /\ (forall l, (l < Store.next st)%nat -> Store.get l st' = Store.get l st)
    /\ (values = [] -> stored = [])
    /\ (forall v, values = [v] ->
          length stored = 2%nat
          /\ stored_key st' stored 0 = Some (Fin 0)
          /\ stored_key st' stored 1 = Some (Fin 1)
          /\ stored_value st' stored 0 = Some v
          /\ stored_value st' stored 1 = Some v)
    /\ ((2 <= length values)%nat ->
          length stored = length values
          /\ forall i v, values !! i = Some v ->
               stored_value st' stored i = Some v
               /\ exists k, stored_key st' stored i = Some k
                    /\ k =~ Fin (inject_Z (Z.of_nat i)
                                 / (inject_Z (Z.of_nat (length values)) - 1))).
Proof.
  destruct (alloc_even_keys_spec values st) as (st1 & Halloc & Hnext & Hold & Hnew).
  exists (seq (Store.next st) (length values)), st1.
  destruct values as [|v0 [|v1 vs]].
  - exists [], st1. split; [exact Halloc |]. split; [reflexivity |].
    split; [exact Hold |]. split; [reflexivity |]. split; [intros ? H; discriminate |].
    cbn [length]. intros; lia.
  - specialize (Hnew 0%nat v0 eq_refl). rewrite Nat.add_0_r in Hnew.
    unfold G.normalize_keys. cbn [length seq Nat.eqb lookup list_lookup mbind option_bind].
    rewrite Hnew. cbn [mbind option_bind Store.alloc Store.value Store.next Store.objs].
    eexists _, _. split; [exact Halloc |]. split; [reflexivity |].
    unfold stored_key, stored_value, Store.get in *.
    cbn [Store.objs Store.next lookup list_lookup mbind option_bind length].
    split.
    { intros l Hl. rewrite !lookup_insert_ne by lia. now apply Hold. }
    split; [intros H; discriminate |]. split; [| intros; lia].
    intros v Hv. injection Hv as <-.
    rewrite lookup_insert_eq.
    rewrite lookup_insert_ne by lia. rewrite lookup_insert_eq. now cbn.
  - set (values := v0 :: v1 :: vs) in *.
    set (n := length values) in *.
    assert (Hn : (2 <= n)%nat) by (subst n values; cbn [length]; lia).
    assert (H1 : (n =? 1)%nat = false) by (apply Nat.eqb_neq; lia).
    rewrite H1 in Hnew.
    assert (Hval : forall i, (i < n)%nat -> exists v, values !! i = Some v).
    { intros i Hi. apply lookup_lt_is_Some_2. exact Hi. }
    destruct (Hval 0%nat ltac:(lia)) as (w0 & Hw0).
    destruct (Hval (n - 1)%nat ltac:(lia)) as (wl & Hwl).
    pose proof (Hnew _ _ Hw0) as G0. rewrite Nat.add_0_r in G0.
    pose proof (Hnew _ _ Hwl) as Gl.
    destruct (set_key_total (Store.next st) (Fin 0) st1 _ G0) as (st2 & Hs2).
    destruct (set_key_get _ _ _ _ Hs2) as (Hn2 & Hg2).
    assert (Gl2 : Store.get (Store.next st + (n - 1))%nat st2
                  = Some (Store.mkKey (of_nat (n - 1) * (Fin 1 / (of_nat n - Fin 1)))%num wl)).
    { rewrite Hg2. destruct (decide _) as [e|_]; [lia | exact Gl]. }
    destruct (set_key_total (Store.next st + (n - 1))%nat (Fin 1) st2 _ Gl2) as (st3 & Hs3).
    destruct (set_key_get _ _ _ _ Hs3) as (Hn3 & Hg3).
    exists (seq (Store.next st) n), st3. split; [exact Halloc |]. split.
    { unfold G.normalize_keys. rewrite length_seq, H1.
      assert (H2 : (1 <? n)%nat = true) by (apply Nat.ltb_lt; lia). rewrite H2.
      assert (L0 : seq (Store.next st) n !! 0%nat = Some (Store.next st)).
      { rewrite lookup_seq. split; lia. }
      assert (Ll : seq (Store.next st) n !! (n - 1)%nat = Some (Store.next st + (n - 1))%nat).
      { rewrite lookup_seq. split; lia. }
      unfold Store.loc in *. rewrite L0. cbn [mbind option_bind]. rewrite Hs2. cbn [mbind option_bind].
      rewrite Ll. cbn [mbind option_bind]. rewrite Hs3. reflexivity. }
    split.
    { intros l Hl. rewrite Hg3. destruct (decide _); [lia |].
      rewrite Hg2. destruct (decide _); [lia |]. now apply Hold. }
    split; [intros H; discriminate |]. split; [intros v H; discriminate |].
    intros _. split; [apply length_seq |].
    intros i v Hv.
    assert (Hi : (i < n)%nat) by (apply lookup_lt_Some in Hv; exact Hv).
    assert (Li : seq (Store.next st) n !! i = Some (Store.next st + i)%nat).
    { rewrite lookup_seq. split; lia. }
    unfold stored_key, stored_value, Store.loc in *. rewrite Li. cbn [mbind option_bind].
    rewrite Hg3. destruct (decide _) as [e|ne].
    + assert (i = (n - 1)%nat) as -> by lia. rewrite Gl2. cbn [mbind option_bind Store.value Store.key].
      rewrite Hwl in Hv. injection Hv as ->. split; [reflexivity |].
      eexists. split; [reflexivity |]. cbn [num_eq].
      assert (Hz : ~ inject_Z (Z.of_nat n) - 1 == 0).
      { intros H. assert (H3 : inject_Z (Z.of_nat n) == inject_Z 1)
          by (change (inject_Z 1) with 1; lra).
        apply (proj1 (inject_Z_injective _ _)) in H3. lia. }
      replace (Z.of_nat (n - 1)) with (Z.of_nat n + - 1)%Z by lia.
      rewrite inject_Z_plus. change (inject_Z (-1)) with (- (1)). field. exact Hz.
    + rewrite Hg2. destruct (decide _) as [e|ne0].
      * assert (i = 0%nat) as -> by lia. rewrite G0. cbn [mbind option_bind Store.value Store.key].
        rewrite Hw0 in Hv. injection Hv as ->. split; [reflexivity |].
        eexists. split; [reflexivity |]. cbn [num_eq].
        change (inject_Z (Z.of_nat 0)) with 0. unfold Qdiv. ring.
      * rewrite (Hnew _ _ Hv). cbn [mbind option_bind Store.value Store.key].
        split; [reflexivity |]. eexists. split; [reflexivity |].
        now apply step_of_several.
Qed.

End gpu_more_facts.

Section gpu_extras.
Import GpuAux GpuMoreAux.

(** X17.  A GpuParticleCurveSystem made of a configuration is inactive.
    With two boxes or more its three shader parameters exist, with the
    values that the material of the configuration has for its uniforms
    [sysTime], [ptcMaxTime] and [ptcDec], and 1.1, 3.0 and 1.0 where it
    has none, as the material that the constructor makes when the
    configuration has none.  With fewer boxes the parameters are null: a
    call of [start], [play] or [onRender] on the system as the constructor
    leaves it throws, and [setBoxes] with two boxes or more on that system
    makes the parameters. *)
Theorem gpu_system_needs_two_boxes cfg st st' s :
  G.new (Some cfg) st = Some (st', s) ->
  G.active s = false
  /\ ((2 <= length (default [] (G.cfg_boxes cfg)))%nat ->
        G.params s = Some (made_of (found_uniforms (given_material cfg)))
        /\ (G.cfg_material cfg = None -> G.params s = Some defaults))
  /\ ((length (default [] (G.cfg_boxes cfg)) < 2)%nat ->
        G.params s = None /\ G.start s = None /\ G.play s = None
        /\ (forall e, G.onRender e s = None)
        /\ forall bxs, (2 <= length bxs)%nat ->
             exists s1, G.setBoxes bxs s = Some s1
               /\ G.boxes s1 = bxs
               /\ G.params s1 = Some (made_of (found_uniforms (given_material cfg)))).
Proof.
  intros H. apply new_state in H as (Ha & _ & Hb & _ & Hm & Ht & Hp).
  split; [exact Ha |]. split.
  - intros Hlen.
    assert (E : (length (default [] (G.cfg_boxes cfg)) <? 2)%nat = false)
      by (apply Nat.ltb_ge; lia).
    rewrite E in Hp. destruct Hp as (Hp & _). split; [exact Hp |].
    intros Hnone. rewrite Hp. unfold given_material. rewrite Hnone. reflexivity.
  - intros Hlen.
    assert (E : (length (default [] (G.cfg_boxes cfg)) <? 2)%nat = true)
      by (apply Nat.ltb_lt; lia).
    rewrite E in Hp. destruct Hp as (Hp & Hmat). split; [exact Hp |].
    unfold G.start, G.play, G.onRender. rewrite Ha, Hp. cbn.
    split; [reflexivity |]. split; [reflexivity |]. split; [reflexivity |].
    intros bxs Hbxs. unfold G.setBoxes. cbn [G.boxes G.set_boxes]. rewrite Hb.
    assert (E2 : (length bxs =? length (default [] (G.cfg_boxes cfg)))%nat = false)
      by (apply Nat.eqb_neq; lia).
    rewrite E2. eexists. split; [reflexivity |].
    unfold G.setupShaders.
    cbn [G.boxes G.set_boxes G.material G.materialSrc G.transform G.params].
    rewrite Hmat, Hm, Ht.
    assert (E3 : (length bxs <? 2)%nat = false) by (apply Nat.ltb_ge; lia).
    rewrite E3. cbn -[given_material]. split; [reflexivity |].
    unfold G.uniforms_of. cbn [G.params G.set_boxes]. rewrite Hp.
    destruct (given_material cfg); reflexivity.
Qed.

Lemma gpu_system_needs_two_boxes_witness :
  exists st' s,
    G.new (Some one_box) Store.empty = Some (st', s)
    /\ G.params s = None /\ G.start s = None.
Proof.
  destruct (G.new (Some one_box) Store.empty) as [[st' s]|] eqn:E; [|discriminate E].
  exists st', s. split; [reflexivity |].
  destruct (gpu_system_needs_two_boxes one_box Store.empty st' s E) as (_ & _ & H).
  destruct (H ltac:(cbn; lia)) as (Hp & Hs & _). split; assumption.
Defined.

(** X18.  [start] on an inactive system with parameters activates it,
    registers it for rendering and sets the time and the maximal time to
    1; a second [start] changes nothing.  [stop] then deactivates it,
    unregisters it and sets the time to 1.1 and the maximal time to 3.0;
    a second [stop] changes nothing.  Neither touches the third
    parameter. *)
Theorem gpu_start_and_stop s p :
  G.params s = Some p -> G.active s = false ->
  exists s1 s2,
    G.start s = Some s1
    /\ G.active s1 = true /\ G.listening s1 = true
    /\ G.params s1 = Some (G.mkParams (Fin 1) (Fin 1) (G.decParam p))
    /\ G.start s1 = Some s1
    /\ G.stop s1 = Some s2
    /\ G.active s2 = false /\ G.listening s2 = false
    /\ G.params s2 = Some (G.mkParams (Fin (11 # 10)) (Fin 3) (G.decParam p))
    /\ G.stop s2 = Some s2.
Proof.
  intros Hp Ha. unfold G.start at 1. rewrite Ha, Hp. cbn [negb mbind option_bind].
  eexists _, _. split; [reflexivity |]. cbn.
  repeat (split; [reflexivity |]). reflexivity.
Qed.

Lemma gpu_start_and_stop_witness :
  exists s1, G.start (G.set_params (Some defaults) bare) = Some s1 /\ G.active s1 = true.
Proof.
  destruct (gpu_start_and_stop (G.set_params (Some defaults) bare) defaults eq_refl eq_refl)
    as (s1 & s2 & H1 & H2 & _).
  exists s1. split; assumption.
Defined.

(** X19.  On a running system (active, registered, maximal time 1), [play]
    after [pause] gives the system back as it was, with its time; [play]
    after [stop] starts it again, with the time 1. *)
Theorem gpu_play_resumes_or_restarts s p :
  G.params s = Some p -> G.active s = true -> G.listening s = true ->
  G.maxTimeParam p = Fin 1 ->
  G.play (G.pause s) = Some s
  /\ exists s2 s3,
       G.stop s = Some s2 /\ G.play s2 = Some s3
       /\ G.active s3 = true /\ G.listening s3 = true
       /\ G.params s3 = Some (G.mkParams (Fin 1) (Fin 1) (G.decParam p)).
Proof.
  intros Hp Ha Hl Hm. split.
  - unfold G.pause, G.play. rewrite Ha. cbn. rewrite Hp. cbn. rewrite Hm. cbn.
    destruct s; cbn in *; subst; reflexivity.
  - unfold G.stop. rewrite Ha, Hp. cbn [mbind option_bind].
    eexists _, _. split; [reflexivity |]. cbn. repeat (split; [reflexivity |]). reflexivity.
Qed.

Lemma gpu_play_resumes_or_restarts_witness :
  let s := G.set_listening true
             (G.set_active true
                (G.set_params (Some (G.mkParams (Fin (1 # 2)) (Fin 1) (Fin 1))) bare)) in
  G.play (G.pause s) = Some s.
Proof.
  intros s.
  exact (proj1 (gpu_play_resumes_or_restarts s (G.mkParams (Fin (1 # 2)) (Fin 1) (Fin 1))
                  eq_refl eq_refl eq_refl eq_refl)).
Defined.

(** X20.  A render of a system with a finite time and a finite life other
    than zero adds elapsedTime / life to the time and takes whole units
    off until the time is at most 1; so the new time is at most 1, it is
    the sum when that is at most 1, and it is positive when the sum is
    above 1.  Nothing else changes. *)
Theorem gpu_time_wraps s p (tau e L : Q) :
  G.params s = Some p -> G.timeParam p = Fin tau -> G.life s = Fin L -> ~ L == 0 ->
  exists tau' (n : nat),
    G.onRender (Fin e) s = Some (G.set_params (Some (G.set_time (Fin tau') p)) s)
    /\ tau' == tau + e / L - inject_Z (Z.of_nat n)
    /\ tau' <= 1
    /\ (tau + e / L <= 1 -> n = 0%nat)
    /\ (1 < tau + e / L -> 0 < tau').
Proof.
  intros Hp Ht HL Hz. unfold G.onRender. rewrite Hp. cbn [mbind option_bind].
  rewrite Ht, HL. cbn [ndiv].
  assert (E : is_zero L = false).
  { unfold is_zero. apply Z.eqb_neq. intros H. apply Hz. unfold Qeq. rewrite H. reflexivity. }
  rewrite E. cbn [nadd].
  destruct (while_above_decrement_spec _ (tau + e / L) 1 (fuel_for_above _ _))
    as (tau' & n & Hrun & Htau & Hle & Hn & Hpos).
  exists tau', n. rewrite Hrun. cbn [mbind option_bind].
  split; [reflexivity |]. split; [exact Htau |]. split; [exact Hle |].
  split; [exact Hn |]. intros H. specialize (Hpos H). lra.
Qed.

Lemma gpu_time_wraps_witness :
  exists tau',
    G.onRender (Fin 3)
      (G.mk true false [] [] [] (Fin 5) None false (Fin 0) None (Fin 0) (Fin 0) false
            (Some (G.mkParams (Fin 1) (Fin 1) (Fin 1))) true)
    = Some (G.mk true false [] [] [] (Fin 5) None false (Fin 0) None (Fin 0) (Fin 0) false
                 (Some (G.mkParams (Fin tau') (Fin 1) (Fin 1))) true)
    /\ tau' <= 1 /\ 0 < tau'.
Proof.
  destruct (gpu_time_wraps
              (G.mk true false [] [] [] (Fin 5) None false (Fin 0) None (Fin 0) (Fin 0) false
                    (Some (G.mkParams (Fin 1) (Fin 1) (Fin 1))) true)
              (G.mkParams (Fin 1) (Fin 1) (Fin 1)) 1 3 5 eq_refl eq_refl eq_refl
              ltac:(discriminate))
    as (tau' & n & Hrun & _ & Hle & _ & Hpos).
  exists tau'. split; [exact Hrun |]. split; [exact Hle |]. apply Hpos. reflexivity.
Defined.

(** X21.  [setColors] and [setScales] never throw and leave the objects
    of the caller as they are: the ramp is made of new key objects.  No
    value gives an empty ramp; one value gives two keys, 0 and 1, with
    that value; n values, n at least 2, give n keys with the values in
    order, the key of the value i being i / (n - 1). *)
Theorem gpu_ramps_evenly_spaced :
  even_ramp G.setColors G.colors /\ even_ramp G.setScales G.scales.
Proof.
  split; intros values st s;
    destruct (even_keys_spec values st)
      as (keys & st1 & stored & st' & Halloc & Hnorm & Hold & H0 & H1 & H2).
  - exists st', (G.setupShaders (G.set_colors stored s)). split.
    { unfold G.setColors, G.setColorKeys. rewrite Halloc, Hnorm. reflexivity. }
    rewrite colors_setupShaders. cbn [G.colors G.set_colors]. auto.
  - exists st', (G.setupShaders (G.set_scales stored s)). split.
    { unfold G.setScales, G.setScaleKeys. rewrite Halloc, Hnorm. reflexivity. }
    rewrite scales_setupShaders. cbn [G.scales G.set_scales]. auto.
Qed.

Lemma gpu_ramps_evenly_spaced_witness :
  exists st' s',
    G.setColors [[Fin 1]; [Fin 2]; [Fin 3]] Store.empty bare = Some (st', s')
    /\ length (G.colors s') = 3%nat
    /\ stored_value st' (G.colors s') 1 = Some [Fin 2].
Proof.
  destruct (proj1 gpu_ramps_evenly_spaced [[Fin 1]; [Fin 2]; [Fin 3]] Store.empty bare)
    as (st' & s' & Hrun & _ & _ & _ & H).
  destruct (H ltac:(cbn; lia)) as (Hlen & Hi).
  exists st', s'. split; [exact Hrun |]. split; [exact Hlen |].
  exact (proj1 (Hi 1%nat [Fin 2] eq_refl)).
Defined.

(** X22.  [translate] throws when the material of the system has no
    uniforms [minXYZ] and [maxXYZ], which [setupShaders] makes together
    with the shader parameters: so on a system without parameters whose
    material is new, and on a system that has been given a new material
    that [setupShaders] has not run on, as [setMaterial] with a new
    material leaves a system with fewer than two boxes, with the
    parameters that it had.  For a system whose material is the one that has the
    parameters the two go together.  With these
    uniforms [translate] moves every box, and two translations one after
    the other leave the boxes where the translation by the sums leaves
    them; so translating back restores the boxes.  The parameters are not
    touched. *)
Theorem gpu_translate_composes s x y z x' y' z' :
  (G.bounds s = false -> G.translate x y z s = None)
  /\ (G.material s = Some G.Owner ->
      G.bounds s = match G.params s with Some _ => true | None => false end)
  /\ ((length (G.boxes s) < 2)%nat ->
      G.params (G.setMaterial G.newMaterial s) = G.params s
      /\ G.translate x y z (G.setMaterial G.newMaterial s) = None)
  /\ (G.bounds s = true ->
        exists s1 s2 s3,
          G.translate x y z s = Some s1
          /\ G.translate x' y' z' s1 = Some s2
          /\ G.translate (x + x') (y + y') (z + z') s = Some s3
          /\ Forall2 box_eq (G.boxes s2) (G.boxes s3)
          /\ G.params s2 = G.params s
          /\ (x' == - x -> y' == - y -> z' == - z ->
              Forall2 box_eq (G.boxes s2) (G.boxes s))).
Proof.
  assert (Hthrow : forall s0, G.bounds s0 = false -> G.translate x y z s0 = None).
  { intros s0 Hb. unfold G.translate, G.setupBounds.
    change (G.bounds (G.set_boxes ?b s0)) with (G.bounds s0). now rewrite Hb. }
  split; [| split; [| split]].
  - apply Hthrow.
  - intros Hm. unfold G.bounds, G.uniforms_of. rewrite Hm. now destruct (G.params s).
  - intros Hlen.
    assert (E : (length (G.boxes s) <? 2)%nat = true) by (apply Nat.ltb_lt; lia).
    assert (Hm : G.setMaterial G.newMaterial s
                 = G.set_materialSrc true (G.set_material (Some G.newMaterial) s)).
    { unfold G.setMaterial, G.setupShaders.
      cbn [G.material G.materialSrc G.boxes G.set_material G.set_materialSrc].
      rewrite E. reflexivity. }
    rewrite Hm. split; [reflexivity | apply Hthrow; reflexivity].
  - intros Hb.
    assert (Hgo : forall a b c s0, G.bounds s0 = true ->
              G.translate a b c s0
              = Some (G.set_boxes (map (shifted a b c) (G.boxes s0)) s0)).
    { intros a b c s0 H0. unfold G.translate, G.setupBounds.
      change (G.bounds (G.set_boxes ?b s0)) with (G.bounds s0). rewrite H0. reflexivity. }
    eexists _, _, _. split; [now apply Hgo |]. split; [now apply Hgo |].
    split; [now apply Hgo |]. cbn [G.boxes G.set_boxes G.params].
    split; [| split; [reflexivity |]].
    + rewrite map_map. apply Forall2_fmap, Forall_Forall2_diag, Forall_forall.
      intros b _. unfold box_eq, shifted. cbn. repeat split; ring.
    + intros Hx Hy Hz. rewrite map_map.
      rewrite <- (map_id (G.boxes s)) at 2.
      apply Forall2_fmap, Forall_Forall2_diag, Forall_forall.
      intros b _. unfold box_eq, shifted. cbn. rewrite Hx, Hy, Hz. repeat split; ring.
Qed.

Lemma gpu_translate_composes_witness :
  exists s2,
    (s1 ← G.translate 1 2 3 at_rest; G.translate (-1) (-2) (-3) s1) = Some s2
    /\ Forall2 box_eq (G.boxes s2) [mkBox (0, 0, 0) (1, 1, 1)].
Proof.
  destruct (proj2 (proj2 (proj2 (gpu_translate_composes at_rest 1 2 3 (-1) (-2) (-3))))
              eq_refl)
    as (s1 & s2 & s3 & H1 & H2 & _ & _ & _ & Hback).
  exists s2. split.
  - rewrite H1. exact H2.
  - apply Hback; reflexivity.
Defined.

(** X30.  [setMaterial] and the shader parameters.  On a system with two
    boxes or more and a transform, [setMaterial] makes the parameters from
    the uniforms of the material that it is given, and leaves the [active]
    flag as it is: the material that has the parameters keeps their
    values, and a new material gives 1.1, 3.0 and 1.0, whatever the values
    were.  On a system with fewer boxes, or without a transform, it keeps
    the parameters that the system had and only stores the material.
    [setParticleShape] on a system that has not been given a material
    through [setMaterial] makes no parameters. *)
Theorem gpu_material_change s :
  ((2 <= length (G.boxes s))%nat -> G.transform s = true ->
   (forall m, G.params (G.setMaterial m s) = Some (made_of (G.uniforms_of s m))
              /\ G.material (G.setMaterial m s) = Some G.Owner
              /\ G.active (G.setMaterial m s) = G.active s)
   /\ (forall p, G.params s = Some p -> G.params (G.setMaterial G.Owner s) = Some p)
   /\ G.params (G.setMaterial G.newMaterial s) = Some defaults)
  /\ ((length (G.boxes s) < 2)%nat \/ G.transform s = false ->
      forall m, G.params (G.setMaterial m s) = G.params s
                /\ G.material (G.setMaterial m s) = Some m)
  /\ (G.materialSrc s = false ->
      forall ty, G.params (G.setParticleShape ty s) = G.params s).
Proof.
  split; [| split].
  - intros Hb Ht.
    assert (E : (length (G.boxes s) <? 2)%nat = false) by (apply Nat.ltb_ge; lia).
    assert (Hgo : forall m, G.setMaterial m s
              = G.set_material (Some G.Owner)
                  (G.set_params (Some (made_of (G.uniforms_of s m)))
                     (G.set_materialSrc true (G.set_material (Some m) s)))).
    { intros m. unfold G.setMaterial, G.setupShaders.
      cbn [G.material G.materialSrc G.boxes G.transform G.set_material G.set_materialSrc].
      rewrite E, Ht. reflexivity. }
    split; [| split].
    + intros m. rewrite Hgo. repeat split; reflexivity.
    + intros p Hp. rewrite Hgo. cbn [G.params G.set_material G.set_params].
      unfold G.uniforms_of. rewrite Hp. now destruct p.
    + rewrite Hgo. reflexivity.
  - intros H m. unfold G.setMaterial, G.setupShaders.
    cbn [G.material G.materialSrc G.boxes G.transform G.set_material G.set_materialSrc].
    assert (E : ((length (G.boxes s) <? 2)%nat || negb (G.transform s))%bool = true).
    { destruct H as [H|H].
      - assert (E : (length (G.boxes s) <? 2)%nat = true) by (apply Nat.ltb_lt; lia).
        now rewrite E.
      - rewrite H. apply orb_true_r. }
    cbn [negb orb]. rewrite E. split; reflexivity.
  - intros Hm ty. unfold G.setParticleShape, G.setupShaders.
    cbn [G.material G.materialSrc G.set_material G.set_shape]. rewrite Hm. reflexivity.
Qed.

Lemma gpu_material_change_witness :
  G.params
    (G.setMaterial G.newMaterial
       (G.set_shape (Some ShapeType.CUBE) true
          (G.set_boxes [mkBox (0, 0, 0) (1, 1, 1); mkBox (9, 0, 0) (10, 1, 1)]
             (G.set_params (Some (G.mkParams (Fin (1 # 2)) (Fin 1) (Fin 1))) bare))))
  = Some defaults.
Proof.
  apply (proj1 (gpu_material_change
                  (G.set_shape (Some ShapeType.CUBE) true
                     (G.set_boxes [mkBox (0, 0, 0) (1, 1, 1); mkBox (9, 0, 0) (10, 1, 1)]
                        (G.set_params (Some (G.mkParams (Fin (1 # 2)) (Fin 1) (Fin 1)))
                           bare))))
               ltac:(cbn; lia) eq_refl).
Defined.

End gpu_extras.

Section trail_more_facts.
Import GpuParticleTrail TrailAux TrailMoreAux.

Lemma ngt_Fin a b : ngt (Fin a) (Fin b) = true <-> b < a.
Proof.
  unfold ngt. cbn [nlt]. split.
  - apply Qlt_bool_true.
  - intros H. destruct (Qlt_bool b a) eqn:E; [reflexivity |].
    apply Qlt_bool_false in E. lra.
Qed.

Lemma ngt_Fin_false a b : ngt (Fin a) (Fin b) = false <-> a <= b.
Proof.
  unfold ngt. cbn [nlt]. split.
  - apply Qlt_bool_false.
  - intros H. destruct (Qlt_bool b a) eqn:E; [|reflexivity].
    apply Qlt_bool_true in E. lra.
Qed.

(** The tick that ends a stop. *)
Lemma onRender_ends_stop s p (tau e L : Q) :
  stopping s = true ->
  G.params (base s) = Some p -> G.timeParam p = Fin tau ->
  G.life (base s) = Fin L -> ~ L == 0 ->
  forall E, endTime s = Fin E -> E < tau + e / L ->
  onRender (Fin e) s
  = Some (mk (G.set_params (Some (G.mkParams (Fin (11 # 10)) (Fin 3) (G.decParam p)))
                (G.set_listening false (G.set_active false (base s))))
             (Fin E) (starting s) false).
Proof.
  intros Hs Hp Ht HL Hz E HE Hlt. unfold onRender. rewrite Hp. cbn [mbind option_bind].
  rewrite Ht, HL, HE. cbn [ndiv]. rewrite (proj2 (is_zero_false _) Hz). cbn [nadd].
  rewrite (proj2 (ngt_Fin _ _) Hlt), Hs. cbn. reflexivity.
Qed.

End trail_more_facts.

Section trail_extras.
Import GpuParticleTrail TrailAux TrailMoreAux.

(** X23.  A soft [stop] of an active trail that is not stopping sets the
    end time to the time plus 1 and the trail to stopping; a second soft
    stop changes nothing.  A following render that stays at or below the
    end time adds its share of the life to the time and to the maximal
    time; one that passes it deactivates the trail, with the time 1.1 and
    the maximal time 3.0. *)
Theorem trail_soft_stop s p (tau e L : Q) :
  G.active (base s) = true -> stopping s = false ->
  G.params (base s) = Some p -> G.timeParam p = Fin tau ->
  G.life (base s) = Fin L -> ~ L == 0 ->
  exists s1,
    stop false s = Some s1
    /\ s1 = mk (base s) (Fin (tau + 1)) false true
    /\ stop false s1 = Some s1
    /\ (e / L <= 1 ->
        onRender (Fin e) s1
        = Some (mk (G.set_params
                      (Some (G.mkParams (Fin (tau + e / L))
                                        (G.maxTimeParam p + Fin (e / L))%num
                                        (G.decParam p)))
                      (base s))
                   (Fin (tau + 1)) false true))
    /\ (1 < e / L ->
        onRender (Fin e) s1
        = Some (mk (G.set_params
                      (Some (G.mkParams (Fin (11 # 10)) (Fin 3) (G.decParam p)))
                      (G.set_listening false (G.set_active false (base s))))
                   (Fin (tau + 1)) false false)).
Proof.
  intros Ha Hs Hp Ht HL Hz. exists (mk (base s) (Fin (tau + 1)) false true). split.
  { unfold stop. rewrite Ha, Hs, Hp. cbn. rewrite Ht. reflexivity. }
  split; [reflexivity |]. split.
  { unfold stop. cbn. rewrite Ha. reflexivity. }
  split.
  - intros Hle. unfold onRender. cbn [base endTime starting stopping].
    rewrite Hp. cbn [mbind option_bind]. rewrite Ht, HL. cbn [ndiv].
    rewrite (proj2 (is_zero_false _) Hz). cbn [nadd].
    assert (E : ngt (Fin (tau + e / L)) (Fin (tau + 1)) = false)
      by (apply ngt_Fin_false; lra).
    rewrite E. cbn. reflexivity.
  - intros Hlt.
    rewrite (onRender_ends_stop (mk (base s) (Fin (tau + 1)) false true) p tau e L
               eq_refl Hp Ht HL Hz (tau + 1) eq_refl)
      by (cbn; lra).
    reflexivity.
Qed.

Lemma trail_soft_stop_witness :
  exists s1,
    stop false (steady (G.mkParams (Fin (1 # 2)) (Fin 1) (Fin 1))) = Some s1
    /\ endTime s1 = Fin ((1 # 2) + 1).
Proof.
  destruct (trail_soft_stop (steady (G.mkParams (Fin (1 # 2)) (Fin 1) (Fin 1)))
              (G.mkParams (Fin (1 # 2)) (Fin 1) (Fin 1)) (1 # 2) 1 5
              eq_refl eq_refl eq_refl eq_refl eq_refl ltac:(discriminate))
    as (s1 & H1 & H2 & _).
  exists s1. split; [exact H1 |]. rewrite H2. reflexivity.
Defined.

(** X24.  A hard [stop] of an active trail, stopping or not, sets the end
    time to -1; the next render whose time is above -1 deactivates the
    trail, with the time 1.1 and the maximal time 3.0, whatever the
    elapsed time.  A [stop] of an inactive trail changes nothing. *)
Theorem trail_hard_stop s p (tau e L : Q) (hard : bool) :
  (G.active (base s) = false -> stop hard s = Some s)
  /\ (G.active (base s) = true ->
      G.params (base s) = Some p -> G.timeParam p = Fin tau ->
      G.life (base s) = Fin L -> ~ L == 0 -> -1 < tau + e / L ->
      exists s1,
        stop true s = Some s1
        /\ s1 = mk (base s) (Fin (-1)) false true
        /\ onRender (Fin e) s1
           = Some (mk (G.set_params
                         (Some (G.mkParams (Fin (11 # 10)) (Fin 3) (G.decParam p)))
                         (G.set_listening false (G.set_active false (base s))))
                      (Fin (-1)) false false)).
Proof.
  split.
  - intros Ha. unfold stop. now rewrite Ha.
  - intros Ha Hp Ht HL Hz Hlt. exists (mk (base s) (Fin (-1)) false true). split.
    { unfold stop. rewrite Ha. reflexivity. }
    split; [reflexivity |].
    rewrite (onRender_ends_stop (mk (base s) (Fin (-1)) false true) p tau e L
               eq_refl Hp Ht HL Hz (-1) eq_refl)
      by (cbn; lra).
    reflexivity.
Qed.

Lemma trail_hard_stop_witness :
  exists s1 s2,
    stop true (steady (G.mkParams (Fin (1 # 2)) (Fin 1) (Fin 1))) = Some s1
    /\ onRender (Fin 0) s1 = Some s2
    /\ G.active (base s2) = false.
Proof.
  destruct (proj2 (trail_hard_stop (steady (G.mkParams (Fin (1 # 2)) (Fin 1) (Fin 1)))
                     (G.mkParams (Fin (1 # 2)) (Fin 1) (Fin 1)) (1 # 2) 0 5 true)
              eq_refl eq_refl eq_refl eq_refl ltac:(discriminate) ltac:(reflexivity))
    as (s1 & H1 & _ & H2).
  exists s1. eexists. split; [exact H1 |]. split; [exact H2 |]. reflexivity.
Defined.

(** X25.  A render of a trail that is neither starting nor stopping, with
    the end time 1, keeps all of that and changes the time only: the new
    time is at most 1, it is the time plus elapsedTime / life when that
    is at most 1, and it is positive when that is above 1. *)
Theorem trail_steady_tick s p (tau e L : Q) :
  starting s = false -> stopping s = false -> endTime s = Fin 1 ->
  G.params (base s) = Some p -> G.timeParam p = Fin tau ->
  G.life (base s) = Fin L -> ~ L == 0 ->
  exists tau',
    onRender (Fin e) s
    = Some (mk (G.set_params (Some (G.set_time (Fin tau') p)) (base s)) (Fin 1) false false)
    /\ tau' <= 1
    /\ (tau + e / L <= 1 -> tau' = tau + e / L)
    /\ (1 < tau + e / L -> 0 < tau').
Proof.
  intros Hst Hsp HE Hp Ht HL Hz. unfold onRender. rewrite Hp. cbn [mbind option_bind].
  rewrite Ht, HL, HE, Hst, Hsp. cbn [ndiv]. rewrite (proj2 (is_zero_false _) Hz). cbn [nadd].
  destruct (Qlt_le_dec 1 (tau + e / L)) as [Hlt|Hle].
  - rewrite (proj2 (ngt_Fin _ _) Hlt). rewrite HE.
    destruct (decrement_while_above_spec _ _ _ Hlt (fuel_for_enough _ _))
      as (tau' & Hrun & Hlo & Hhi).
    rewrite Hrun. cbn. rewrite Hsp, Hst, HE. exists tau'.
    split; [reflexivity |]. split; [exact Hhi |].
    split; [intros; lra |]. intros _. lra.
  - rewrite (proj2 (ngt_Fin_false _ _) Hle). cbn. rewrite Hsp, Hst, HE.
    exists (tau + e / L).
    split; [reflexivity |]. split; [exact Hle |]. split; [reflexivity |]. intros; lra.
Qed.

Lemma trail_steady_tick_witness :
  exists tau',
    onRender (Fin 4) (steady (G.mkParams (Fin (1 # 2)) (Fin 1) (Fin 1)))
    = Some (steady (G.mkParams (Fin tau') (Fin 1) (Fin 1)))
    /\ tau' <= 1 /\ 0 < tau'.
Proof.
  destruct (trail_steady_tick (steady (G.mkParams (Fin (1 # 2)) (Fin 1) (Fin 1)))
              (G.mkParams (Fin (1 # 2)) (Fin 1) (Fin 1)) (1 # 2) 4 5
              eq_refl eq_refl eq_refl eq_refl eq_refl eq_refl ltac:(discriminate))
    as (tau' & Hrun & Hle & _ & Hpos).
  exists tau'. split; [exact Hrun |]. split; [exact Hle |]. apply Hpos. reflexivity.
Defined.

(** X26.  [start] and [play] of a trail.  [start] on a trail that is
    inactive or stopping begins the starting phase: active, registered,
    end time 2, and the parameters 1 (time), 2 (maximal time) and 2; it
    throws when the trail has no parameters; on an active trail that is
    not stopping it changes nothing.  [play] changes nothing on an active
    trail.  On an inactive trail that is starting or stopping it resumes
    where the trail was paused, with or without parameters; on one that is
    neither it reads the maximal time: it throws without parameters,
    resumes when the maximal time is 1, and otherwise it is [start]. *)
Theorem trail_start_and_play s :
  (forall p, G.params (base s) = Some p ->
     G.active (base s) = false \/ stopping s = true ->
     exists s1,
       start s = Some s1
       /\ starting s1 = true /\ stopping s1 = false /\ endTime s1 = Fin 2
       /\ G.active (base s1) = true /\ G.listening (base s1) = true
       /\ G.params (base s1) = Some (G.mkParams (Fin 1) (Fin 2) (Fin 2)))
  /\ (G.params (base s) = None ->
      G.active (base s) = false \/ stopping s = true -> start s = None)
  /\ (G.active (base s) = true -> stopping s = false -> start s = Some s)
  /\ (G.active (base s) = true -> play s = Some s)
  /\ (G.active (base s) = false -> (starting s || stopping s)%bool = true ->
      play s = Some (mk (G.set_active true (G.set_listening true (base s)))
                        (endTime s) (starting s) (stopping s)))
  /\ (G.active (base s) = false -> (starting s || stopping s)%bool = false ->
      (G.params (base s) = None -> play s = None)
      /\ (forall p, G.params (base s) = Some p ->
            nseq (G.maxTimeParam p) (Fin 1) = true ->
            play s = Some (mk (G.set_active true (G.set_listening true (base s)))
                              (endTime s) (starting s) (stopping s)))
      /\ (forall p, G.params (base s) = Some p ->
            nseq (G.maxTimeParam p) (Fin 1) = false -> play s = start s)).
Proof.
  split; [| split; [| split; [| split; [| split]]]].
  - intros p Hp H. unfold start. destruct (stopping s) eqn:Es.
    + cbn. rewrite Hp. cbn. eexists. split; [reflexivity |]. repeat split; reflexivity.
    + destruct H as [Ha|H]; [| discriminate]. rewrite Ha. cbn. rewrite Hp. cbn.
      eexists. split; [reflexivity |]. repeat split; reflexivity.
  - intros Hp H. unfold start. destruct (stopping s) eqn:Es.
    + cbn. now rewrite Hp.
    + destruct H as [Ha|H]; [| discriminate]. rewrite Ha. cbn. now rewrite Hp.
  - intros Ha Hs. unfold start. rewrite Hs, Ha. reflexivity.
  - intros Ha. unfold play. rewrite Ha. reflexivity.
  - intros Ha Hb. unfold play. rewrite Ha, Hb. reflexivity.
  - intros Ha Hb. unfold play. rewrite Ha, Hb. cbn [negb]. split; [| split].
    + intros Hp. now rewrite Hp.
    + intros p Hp Hm. rewrite Hp. cbn. now rewrite Hm.
    + intros p Hp Hm. rewrite Hp. cbn. now rewrite Hm.
Qed.

Lemma trail_start_and_play_witness :
  exists s1,
    start (mk (G.set_active false (base (steady (G.mkParams (Fin (1 # 2)) (Fin 3) (Fin 1)))))
              (Fin 1) false false) = Some s1
    /\ starting s1 = true /\ endTime s1 = Fin 2.
Proof.
  destruct (proj1 (trail_start_and_play
                     (mk (G.set_active false
                            (base (steady (G.mkParams (Fin (1 # 2)) (Fin 3) (Fin 1)))))
                         (Fin 1) false false))
                  (G.mkParams (Fin (1 # 2)) (Fin 3) (Fin 1)) eq_refl (or_introl eq_refl))
    as (s1 & H1 & H2 & _ & H3 & _).
  exists s1. split; [exact H1 |]. split; [exact H2 | exact H3].
Defined.

End trail_extras.

Section geometry_facts.
Import Geometry GeometryAux.

Lemma blocks_S {A} (f : nat -> list A) c : blocks f (S c) = blocks f c ++ f c.
Proof.
  unfold blocks. rewrite seq_S, map_app, concat_app. cbn. now rewrite app_nil_r.
Qed.

Lemma blocks_length {A} (f : nat -> list A) n c :
  (forall i, (i < c)%nat -> length (f i) = n) -> length (blocks f c) = (c * n)%nat.
Proof.
  induction c as [|c IH]; intros H; [reflexivity |].
  rewrite blocks_S, length_app, IH, H by (intros; try apply H; lia). lia.
Qed.

(** The element [j] of a list of blocks of the same length [n] is the
    element [j mod n] of the block [j / n]. *)
Lemma blocks_lookup {A} (f : nat -> list A) n c i j :
  (forall i, (i < c)%nat -> length (f i) = n) ->
  (i < c)%nat -> (j < n)%nat ->
  blocks f c !! (i * n + j)%nat = f i !! j.
Proof.
  induction c as [|c IH]; intros H Hi Hj; [lia |].
  rewrite blocks_S.
  pose proof (blocks_length f n c ltac:(intros; apply H; lia)) as Hlen.
  destruct (decide (i = c)) as [->|Hne].
  - rewrite lookup_app_r by lia. f_equal. lia.
  - rewrite lookup_app_l by nia. apply IH; [intros; apply H; lia | lia | exact Hj].
Qed.

Lemma push_all_spec {A} n (v : A) arr : push_all n v arr = arr ++ replicate n v.
Proof.
  unfold push_all.
  apply (for_range_ind (fun i acc => acc = arr ++ replicate i v) 0 n); [lia | |].
  - cbn. now rewrite app_nil_r.
  - intros i acc _ ->. rewrite <- app_assoc. f_equal.
    change [v] with (replicate 1 v). rewrite <- replicate_add. f_equal. lia.
Qed.

(** The loop that copies an array element by element. *)
Lemma map_loop {A B} (f : A -> B) (l : list A) (d : A) :
  for_range 0 (length l) (fun j acc => acc ++ [f (default d (l !! j))]) [] = map f l.
Proof.
  rewrite <- (firstn_all l) at 2.
  apply (for_range_ind (fun i acc => acc = map f (take i l)) 0 (length l)); [lia | reflexivity |].
  intros i acc Hi ->.
  destruct (lookup_lt_is_Some_2 l i ltac:(lia)) as (x & Hx).
  cbv beta. erewrite take_S_r by exact Hx. rewrite map_app, Hx. reflexivity.
Qed.

(** The loop over the vertices of one copy. *)
Lemma copy_loop {A B C} (verts : list point) (a : A) (b : B) (c : C) ids0 offs0 idoffs0 :
  for_range 0 (length verts) (fun j '(ids1, offsets1, idOffsets1, newVerts) =>
    (ids1 ++ [a], offsets1 ++ [b], idOffsets1 ++ [c],
     newVerts ++ [default (NaN, NaN, NaN) (verts !! j)]))
    (ids0, offs0, idoffs0, [])
  = (ids0 ++ replicate (length verts) a, offs0 ++ replicate (length verts) b,
     idoffs0 ++ replicate (length verts) c, verts).
Proof.
  rewrite <- (firstn_all verts) at 5.
  apply (for_range_ind
           (fun i acc => acc = (ids0 ++ replicate i a, offs0 ++ replicate i b,
                                idoffs0 ++ replicate i c, take i verts))
           0 (length verts)); [lia | |].
  - cbn. now rewrite !app_nil_r.
  - intros i acc Hi ->.
    destruct (lookup_lt_is_Some_2 verts i ltac:(lia)) as (x & Hx).
    cbv beta iota. unfold point in *. erewrite take_S_r by exact Hx. rewrite Hx. cbn [default].
    rewrite <- !app_assoc.
    assert (R : forall X (v : X), replicate i v ++ [v] = replicate (S i) v).
    { intros X v. change [v] with (replicate 1 v). rewrite <- replicate_add. f_equal. lia. }
    now rewrite !R.
Qed.

Lemma shift_zero f : shift 0 f = f.
Proof. destruct f; cbn; now rewrite !Nat.add_0_r. Qed.

(** The result of [modifyGeometry], block by block. *)
Lemma modifyGeometry_blocks {U} (g : t U) (numParticles : Q) :
  let r := modifyGeometry g numParticles in
  let nv := length (vertices g) in
  let c := copies numParticles in
  vertices (geometry r) = blocks (fun _ => vertices g) c
  /\ faces (geometry r) = blocks (fun i => map (shift (i * nv)) (faces g)) c
  /\ faceVertexUvs (geometry r) = blocks (fun _ => faceVertexUvs g) c
  /\ ids r = blocks (fun i => replicate nv i) c
  /\ offsets r = blocks (fun i => replicate nv (offset_of numParticles i)) c
  /\ idOffsets r = blocks (fun i => replicate nv (i, offset_of numParticles i)) c.
Proof.
  intros r nv c. subst r. unfold modifyGeometry. fold nv.
  rewrite !push_all_spec. cbn [app].
  set (P := fun (i : nat) (r : Result U) =>
    vertices (geometry r) = blocks (fun _ => vertices g) i
    /\ faces (geometry r) = blocks (fun i => map (shift (i * nv)) (faces g)) i
    /\ faceVertexUvs (geometry r) = blocks (fun _ => faceVertexUvs g) i
    /\ ids r = blocks (fun i => replicate nv i) i
    /\ offsets r = blocks (fun i => replicate nv (offset_of numParticles i)) i
    /\ idOffsets r = blocks (fun i => replicate nv (i, offset_of numParticles i)) i).
  assert (H1 : P 1%nat (mkResult g (replicate nv 0%nat) (replicate nv 0)
                                 (replicate nv (0%nat, 0)))).
  { unfold P, blocks. cbn. rewrite !app_nil_r.
    split; [reflexivity |]. split.
    { rewrite <- (map_id (faces g)) at 1. apply map_ext. intros f. symmetry. apply shift_zero. }
    repeat split; reflexivity. }
  destruct (le_lt_dec (Z.to_nat (Qceiling numParticles)) 1) as [Hle|Hlt].
  - rewrite for_range_nil by lia.
    replace c with 1%nat by (unfold c, copies; lia). exact H1.
  - replace c with (Z.to_nat (Qceiling numParticles)) by (unfold c, copies; lia).
    apply (for_range_ind P 1); [lia | exact H1 |].
    intros i r0 Hi (Hv & Hf & Hu & Hi1 & Ho & Hio).
    unfold nv. rewrite copy_loop, map_loop. fold nv.
    unfold P. cbn [geometry vertices faces faceVertexUvs ids offsets idOffsets].
    rewrite !blocks_S, Hv, Hf, Hu, Hi1, Ho, Hio.
    assert (E : offset_of numParticles i = inject_Z (Z.of_nat i) / numParticles).
    { unfold offset_of. destruct i; [lia | reflexivity]. }
    rewrite E. repeat split; reflexivity.
Qed.

End geometry_facts.

Section geometry_extras.
Import Geometry GeometryAux.

(** X27.  [modifyGeometry] leaves the geometry with c copies of its
    vertices, of its faces and of its texture coordinates, and returns c
    ids, offsets and pairs of them for each vertex of the original, c
    being the least whole number that is not below the number of
    particles, and at least 1. *)
Theorem modifyGeometry_sizes {U} (g : t U) (numParticles : Q) :
  let r := modifyGeometry g numParticles in
  let c := copies numParticles in
  length (vertices (geometry r)) = (c * length (vertices g))%nat
  /\ length (faces (geometry r)) = (c * length (faces g))%nat
  /\ length (faceVertexUvs (geometry r)) = (c * length (faceVertexUvs g))%nat
  /\ length (ids r) = (c * length (vertices g))%nat
  /\ length (offsets r) = (c * length (vertices g))%nat
  /\ length (idOffsets r) = (c * length (vertices g))%nat.
Proof.
  intros r c.
  destruct (modifyGeometry_blocks g numParticles) as (Hv & Hf & Hu & Hi & Ho & Hio).
  fold r c in Hv, Hf, Hu, Hi, Ho, Hio. rewrite Hv, Hf, Hu, Hi, Ho, Hio.
  repeat split; apply blocks_length; intros;
    rewrite ?length_map, ?length_replicate; reflexivity.
Qed.

(** X28.  In the result of [modifyGeometry] the vertex j of the copy i is
    the vertex j of the original, its id is i, and its offset is 0 in the
    original and i / numParticles in a copy; the pair of the two is the
    entry of [idOffsets]. *)
Theorem modifyGeometry_copies {U} (g : t U) (numParticles : Q) (i j : nat) :
  (i < copies numParticles)%nat -> (j < length (vertices g))%nat ->
  let r := modifyGeometry g numParticles in
  let k := (i * length (vertices g) + j)%nat in
  vertices (geometry r) !! k = vertices g !! j
  /\ ids r !! k = Some i
  /\ offsets r !! k = Some (offset_of numParticles i)
  /\ idOffsets r !! k = Some (i, offset_of numParticles i).
Proof.
  intros Hi Hj r k.
  destruct (modifyGeometry_blocks g numParticles) as (Hv & _ & _ & Hid & Ho & Hio).
  fold r in Hv, Hid, Ho, Hio. rewrite Hv, Hid, Ho, Hio. unfold k.
  rewrite !(blocks_lookup _ (length (vertices g)))
    by (intros; rewrite ?length_replicate; lia || reflexivity).
  rewrite !lookup_replicate_2 by exact Hj. repeat split; reflexivity.
Qed.

Lemma modifyGeometry_copies_witness :
  ids (modifyGeometry triangle 3) !! 7%nat = Some 2%nat
  /\ offsets (modifyGeometry triangle 3) !! 7%nat = Some (offset_of 3 2).
Proof.
  destruct (modifyGeometry_copies triangle 3 2 1 ltac:(vm_compute; lia) ltac:(cbn; lia))
    as (_ & H1 & H2 & _).
  split; [exact H1 | exact H2].
Defined.

(** X29.  The face j of the copy i is the face j of the original with
    its vertex indices moved by i times the number of vertices; so, when
    the faces of the original refer to its vertices only, the faces of the
    result refer to vertices of the result only. *)
Theorem modifyGeometry_faces {U} (g : t U) (numParticles : Q) :
  let r := modifyGeometry g numParticles in
  (forall i j f, (i < copies numParticles)%nat -> faces g !! j = Some f ->
     faces (geometry r) !! (i * length (faces g) + j)%nat
     = Some (shift (i * length (vertices g)) f))
  /\ (Forall (in_range (length (vertices g))) (faces g) ->
      Forall (in_range (length (vertices (geometry r)))) (faces (geometry r))).
Proof.
  intros r.
  destruct (modifyGeometry_blocks g numParticles) as (Hv & Hf & _).
  fold r in Hv, Hf. split.
  - intros i j f Hi Hj. rewrite Hf.
    rewrite (blocks_lookup _ (length (faces g)))
      by (intros; rewrite ?length_map; reflexivity || (apply lookup_lt_Some in Hj; lia)).
    rewrite list_lookup_fmap, Hj. reflexivity.
  - intros Hin.
    assert (Hlen : length (vertices (geometry r))
                   = (copies numParticles * length (vertices g))%nat).
    { rewrite Hv. apply blocks_length. reflexivity. }
    rewrite Hlen, Hf. unfold blocks.
    apply Forall_concat, Forall_fmap, Forall_forall. intros i Hi.
    apply elem_of_seq in Hi. cbn. apply Forall_fmap.
    eapply Forall_impl; [exact Hin |]. intros f Hf0.
    destruct f; cbn in *; nia.
Qed.

Lemma modifyGeometry_faces_witness :
  Forall (in_range (length (vertices (geometry (modifyGeometry triangle 3)))))
         (faces (geometry (modifyGeometry triangle 3))).
Proof.
  apply (proj2 (modifyGeometry_faces triangle 3)).
  repeat constructor.
Defined.

End geometry_extras.
